(** * lastfm-golang: ingestion, store, digest and recommendation engines

    A shallow embedding of the Go sources of [joshp123/lastfm-golang]:

    - [SHA256], [Strconv], [SQLite]: the parts of the Go standard library and
      of the SQLite engine the code relies on, written out so that the
      embedded functions can be evaluated;
    - [Lastfm]: [internal/lastfm] (wire types, error taxonomy, [IsRetryable]);
    - [Store]: [internal/store] ([StableSourceHash], [InsertScrobble],
      [MaxPlayedAtUTS]);
    - [Main]: [cmd/lastfm-golang] ([getPageWithRetry], [cmdBackfill],
      [cmdSync]);
    - [Digest]: [internal/digest] (the windowed and resurfacing queries);
    - [Recommend]: [internal/recommend] ([Build]);
    - [Spec], [Sample]: the notions the properties are stated with, and the
      data they are tried on.

    The properties follow the definitions, one section per component.

    Go strings are byte sequences and are modelled by [string]; [int] and
    [int64] values are modelled by [Z] (none of the embedded arithmetic can
    leave the 64-bit range on the inputs considered unless stated). *)

From Stdlib Require Import ZArith QArith List Bool Ascii String Lia Lqa.
From Stdlib Require Import Numbers.DecimalString Numbers.DecimalZ.
From Stdlib Require Import Sorting.Permutation Sorting.Sorted.
Import ListNotations.

Close Scope Q_scope.

Local Open Scope Z_scope.

(* ================================================================== *)
(** * SHA-256 (FIPS 180-4), as used through [crypto/sha256.Sum256]     *)
(* ================================================================== *)

Module SHA256.

Definition w32 (x : Z) : Z := x mod 2 ^ 32.

Definition add32 (x y : Z) : Z := w32 (x + y).

Definition rotr (n x : Z) : Z :=
  w32 (Z.lor (Z.shiftr x n) (Z.shiftl x (32 - n))).

Definition shr (n x : Z) : Z := Z.shiftr x n.

Definition not32 (x : Z) : Z := Z.lxor x (2 ^ 32 - 1).

Definition Ch (x y z : Z) : Z := Z.lxor (Z.land x y) (Z.land (not32 x) z).

Definition Maj (x y z : Z) : Z :=
  Z.lxor (Z.lxor (Z.land x y) (Z.land x z)) (Z.land y z).

Definition Sigma0 (x : Z) : Z := Z.lxor (Z.lxor (rotr 2 x) (rotr 13 x)) (rotr 22 x).
Definition Sigma1 (x : Z) : Z := Z.lxor (Z.lxor (rotr 6 x) (rotr 11 x)) (rotr 25 x).
Definition sigma0 (x : Z) : Z := Z.lxor (Z.lxor (rotr 7 x) (rotr 18 x)) (shr 3 x).
Definition sigma1 (x : Z) : Z := Z.lxor (Z.lxor (rotr 17 x) (rotr 19 x)) (shr 10 x).

(** The round constants are the first 32 fractional bits of the cube roots
    of the first 64 primes, the initial state those of the square roots of
    the first 8; both are computed rather than tabulated. *)

Definition primes64 : list Z :=
  [2; 3; 5; 7; 11; 13; 17; 19; 23; 29; 31; 37; 41; 43; 47; 53;
   59; 61; 67; 71; 73; 79; 83; 89; 97; 101; 103; 107; 109; 113; 127; 131;
   137; 139; 149; 151; 157; 163; 167; 173; 179; 181; 191; 193; 197; 199;
   211; 223; 227; 229; 233; 239; 241; 251; 257; 263; 269; 271; 277; 281;
   283; 293; 307; 311].

(** Largest [r < 2^bits] with [r^3 <= n], found bit by bit. *)
Fixpoint cbrt_bits (bits : nat) (n r : Z) : Z :=
  match bits with
  | O => r
  | S b =>
      let r' := r + 2 ^ Z.of_nat b in
      cbrt_bits b n (if r' * r' * r' <=? n then r' else r)
  end.

Definition frac_cbrt32 (p : Z) : Z := w32 (cbrt_bits 40 (p * 2 ^ 96) 0).
Definition frac_sqrt32 (p : Z) : Z := w32 (Z.sqrt (p * 2 ^ 64)).

Definition K : list Z := Eval vm_compute in map frac_cbrt32 primes64.
Definition H0 : list Z := Eval vm_compute in map frac_sqrt32 (firstn 8 primes64).

Definition byte_of_ascii (c : ascii) : Z := Z.of_N (N_of_ascii c).

Fixpoint bytes_of_string (s : string) : list Z :=
  match s with
  | EmptyString => []
  | String c s' => byte_of_ascii c :: bytes_of_string s'
  end.

(** Big-endian rendering of [x] on [n] bytes. *)
Fixpoint be_bytes (n : nat) (x : Z) : list Z :=
  match n with
  | O => []
  | S k => (Z.shiftr x (8 * Z.of_nat k)) mod 256 :: be_bytes k x
  end.

Definition pad (msg : list Z) : list Z :=
  let len := Z.of_nat (List.length msg) in
  let zeros := Z.to_nat ((55 - len) mod 64) in
  msg ++ [128] ++ repeat 0 zeros ++ be_bytes 8 (8 * len).

Fixpoint words_of_bytes (fuel : nat) (bs : list Z) : list Z :=
  match fuel, bs with
  | S f, b0 :: b1 :: b2 :: b3 :: rest =>
      (b0 * 2 ^ 24 + b1 * 2 ^ 16 + b2 * 2 ^ 8 + b3) :: words_of_bytes f rest
  | _, _ => []
  end.

(** The message schedule, kept newest word first: [ws] holds
    [W(t-1); W(t-2); ...]. *)
Fixpoint schedule (n : nat) (ws : list Z) : list Z :=
  match n with
  | O => ws
  | S k =>
      let w := add32 (add32 (sigma1 (nth 1 ws 0)) (nth 6 ws 0))
                     (add32 (sigma0 (nth 14 ws 0)) (nth 15 ws 0)) in
      schedule k (w :: ws)
  end.

Record state := mkState { sa : Z; sb : Z; sc : Z; sd : Z;
                          se : Z; sf : Z; sg : Z; sh : Z }.

Definition round (st : state) (kw : Z * Z) : state :=
  let '(k, w) := kw in
  let t1 := add32 (add32 (add32 (sh st) (Sigma1 (se st)))
                         (add32 (Ch (se st) (sf st) (sg st)) k)) w in
  let t2 := add32 (Sigma0 (sa st)) (Maj (sa st) (sb st) (sc st)) in
  mkState (add32 t1 t2) (sa st) (sb st) (sc st)
          (add32 (sd st) t1) (se st) (sf st) (sg st).

Definition state_of_list (l : list Z) : state :=
  mkState (nth 0 l 0) (nth 1 l 0) (nth 2 l 0) (nth 3 l 0)
          (nth 4 l 0) (nth 5 l 0) (nth 6 l 0) (nth 7 l 0).

Definition list_of_state (st : state) : list Z :=
  [sa st; sb st; sc st; sd st; se st; sf st; sg st; sh st].

Definition compress (h : list Z) (block : list Z) : list Z :=
  let w := rev (schedule 48 (rev (words_of_bytes 16 block))) in
  let st := fold_left round (combine K w) (state_of_list h) in
  map (fun p => add32 (fst p) (snd p)) (combine h (list_of_state st)).

Fixpoint blocks (fuel : nat) (h : list Z) (bs : list Z) : list Z :=
  match fuel, bs with
  | S f, _ :: _ => blocks f (compress h (firstn 64 bs)) (skipn 64 bs)
  | _, _ => h
  end.

(** [Sum256]: the 32 bytes of the digest. *)
Definition Sum256 (msg : list Z) : list Z :=
  let p := pad msg in
  flat_map (be_bytes 4) (blocks (List.length p) H0 p).

End SHA256.

(* ================================================================== *)
(** * encoding/hex, fmt and strconv                                    *)
(* ================================================================== *)

Module Strconv.

Definition hexdigit (d : Z) : ascii :=
  nth (Z.to_nat d)
      (list_ascii_of_string "0123456789abcdef") "0"%char.

(** [hex.EncodeToString]: two lower-case digits per byte. *)
Fixpoint EncodeToString (bs : list Z) : string :=
  match bs with
  | [] => EmptyString
  | b :: rest =>
      String (hexdigit (b / 16)) (String (hexdigit (b mod 16)) (EncodeToString rest))
  end.

(** The [%d] verb of [fmt.Sprintf] on an [int64]: decimal digits, no
    leading zeros, a leading [-] for negative numbers. *)
Definition FormatInt (z : Z) : string := NilEmpty.string_of_int (Z.to_int z).

Definition is_digit (c : ascii) : bool :=
  let n := N_of_ascii c in ((48 <=? n) && (n <=? 57))%N.

Definition digit_val (c : ascii) : Z := Z.of_N (N_of_ascii c) - 48.

(** The digit loop of [strconv.ParseUint] in base 10 (no underscores are
    accepted when the base is given): [None] on a character that is not a
    digit. The range is checked by the caller. *)
Fixpoint parse_digits (acc : Z) (s : string) : option Z :=
  match s with
  | EmptyString => Some acc
  | String c s' =>
      if is_digit c then parse_digits (10 * acc + digit_val c) s' else None
  end.

Definition ParseUint (s : string) : option Z :=
  match s with
  | EmptyString => None
  | _ => parse_digits 0 s
  end.

(** [strconv.ParseInt(s, 10, 64)]: an optional sign, at least one digit,
    and a value in the [int64] range; [None] stands for the returned
    error (syntax or range). *)
Definition ParseInt (s : string) : option Z :=
  match s with
  | EmptyString => None
  | String c rest =>
      let neg := Ascii.eqb c "-" in
      let body := if Ascii.eqb c "+" || neg then rest else s in
      match ParseUint body with
      | None => None
      | Some un =>
          if negb neg && (2 ^ 63 <=? un) then None
          else if neg && (2 ^ 63 <? un) then None
          else Some (if neg then - un else un)
      end
  end.

(** The part of [strconv.ParseFloat] that reads a plain decimal number
    (an optional sign, digits, an optional fraction), with the error
    dropped as [Build] drops it: 0 when the text is not such a number. The
    value is the exact rational, where Go rounds to the nearest [float64]. *)
Fixpoint split_at_dot (s : string) : string * option string :=
  match s with
  | EmptyString => (EmptyString, None)
  | String c rest =>
      if Ascii.eqb c "." then (EmptyString, Some rest)
      else let '(a, b) := split_at_dot rest in (String c a, b)
  end.

Fixpoint pow10 (n : nat) : positive :=
  match n with
  | O => 1%positive
  | S k => (10 * pow10 k)%positive
  end.

Definition ParseDecimal (s : string) : Q :=
  match s with
  | EmptyString => 0%Q
  | String c rest =>
      let neg := Ascii.eqb c "-" in
      let body := if Ascii.eqb c "+" || neg then rest else s in
      let '(int_part, frac_part) := split_at_dot body in
      let frac := match frac_part with Some f => f | None => EmptyString end in
      match parse_digits 0 (int_part ++ frac)%string with
      | None => 0%Q
      | Some n =>
          match (int_part ++ frac)%string with
          | EmptyString => 0%Q
          | _ =>
              let q := Qmake n (pow10 (String.length frac)) in
              if neg then Qopp q else q
          end
      end
  end.

End Strconv.

(* ================================================================== *)
(** * Errors and results                                               *)
(* ================================================================== *)

(** The error values the code can produce or receive. [HTTPError] and
    [APIError] are the two structured types of [internal/lastfm];
    [OtherError] stands for every error that is neither (transport and
    decode failures, wrapped with [fmt.Errorf]); [NumError] is what
    [strconv.ParseInt] returns; [Unreachable] is the synthetic
    [fmt.Errorf("unreachable")] that ends the retry wrappers. *)
Inductive error : Type :=
| HTTPError (StatusCode : Z) (Body : string)
| APIError (Code : Z) (Message : string)
| OtherError (msg : string)
| NumError (input : string)
| Unreachable.

Inductive result (A : Type) : Type :=
| Ok (a : A)
| Err (e : error).

Arguments Ok {A} a.
Arguments Err {A} e.

(* ================================================================== *)
(** * internal/lastfm                                                  *)
(* ================================================================== *)

Module Lastfm.

Record TextMBID := mkTextMBID { Text : string; TextMBID_MBID : string }.

Record Date := mkDate { UTS : string; Date_Text : string }.

(** [Track.Date] is a pointer: [None] is the nil of a now-playing item. *)
Record Track := mkTrack {
  Name : string;
  MBID : string;
  URL : string;
  Artist : TextMBID;
  Album : TextMBID;
  Date_ : option Date;
  NowPlaying : string
}.

Record Page := mkPage {
  Tracks : list Track;
  Page_ : Z;
  TotalPages : Z;
  Total : Z
}.

Record SimilarArtist := mkSimilarArtist {
  SimilarArtist_Name : string;
  Match : string;
  SimilarArtist_URL : string;
  SimilarArtist_MBID : string
}.

Record TopTrack := mkTopTrack {
  TopTrack_Name : string;
  TopTrack_URL : string;
  TopTrack_MBID : string
}.

(** [IsRetryable]. [errors.As] finds an [HTTPError] or an [APIError]
    exactly when the error is one: the client never wraps either. *)
Definition IsRetryable (err : error) : bool :=
  match err with
  | HTTPError StatusCode _ =>
      if 500 <=? StatusCode then true
      else if StatusCode =? 429 then true
      else false
  | APIError Code _ => if Code =? 29 then true else false
  | _ => false
  end.

End Lastfm.

(* ================================================================== *)
(** * internal/store                                                   *)
(* ================================================================== *)

Module Store.

Import Lastfm.

(** One row of the [scrobbles] table of [schema.sql]; the nullable
    columns are options. [source_hash] is the only UNIQUE column. *)
Record Row := mkRow {
  played_at_uts : Z;
  track_name : string;
  artist_name : string;
  album_name : option string;
  track_mbid : option string;
  artist_mbid : option string;
  album_mbid : option string;
  lastfm_url : option string;
  source_hash : string
}.

(** The store: the table, in insertion (rowid) order, and the raw log,
    one envelope per line. The [fetched_at] stamp of an envelope is the
    wall clock and is not kept. *)
Record Store := mkStore {
  DB : list Row;
  RawJSONL : list Track
}.

Definition AppendRaw (track : Track) (s : Store) : Store :=
  mkStore (DB s) (RawJSONL s ++ [track]).

(** The string hashed by [StableSourceHash]:
    [fmt.Sprintf("%d|%s|%s|%s", playedAtUTS, artist, track, album)]. *)
Definition source_string (playedAtUTS : Z) (artist track album : string) : string :=
  (Strconv.FormatInt playedAtUTS ++ "|" ++ artist ++ "|" ++ track ++ "|" ++ album)%string.

Definition StableSourceHash (playedAtUTS : Z) (artist track album : string) : string :=
  let h := SHA256.Sum256
             (SHA256.bytes_of_string (source_string playedAtUTS artist track album)) in
  Strconv.EncodeToString h.

Record InsertResult := mkInsertResult { Inserted : Z; Ignored : Z }.

Definition nullIfEmpty (s : string) : option string :=
  if String.eqb s "" then None else Some s.

Definition parseI64 (s : string) : result Z :=
  match Strconv.ParseInt s with
  | Some v => Ok v
  | None => Err (NumError s)
  end.

(** [INSERT OR IGNORE INTO scrobbles ... VALUES (...)]: the row is
    dropped when it would break a constraint, and the only constraint a
    row built by [InsertScrobble] can break is the uniqueness of
    [source_hash] (the three NOT NULL columns are bound to Go values that
    are never nil). Returns the table and the number of rows affected. *)
Definition has_hash (hash : string) (db : list Row) : bool :=
  existsb (fun r => String.eqb (source_hash r) hash) db.

Definition insert_or_ignore (r : Row) (db : list Row) : list Row * Z :=
  if has_hash (source_hash r) db then (db, 0) else (db ++ [r], 1).

(** [InsertScrobble], as a function from the table to the table and the
    result. Failures of the database driver itself are not modelled. *)
Definition InsertScrobble (t : Track) (db : list Row) : list Row * result InsertResult :=
  match Date_ t with
  | None => (db, Ok (mkInsertResult 0 1))
  | Some d =>
      if String.eqb (UTS d) "" then (db, Ok (mkInsertResult 0 1))
      else
        match parseI64 (UTS d) with
        | Err e => (db, Err e)
        | Ok playedAt =>
            let artist := Text (Artist t) in
            let track := Name t in
            let album := Text (Album t) in
            let hash := StableSourceHash playedAt artist track album in
            let '(db', n) :=
              insert_or_ignore
                (mkRow playedAt track artist (nullIfEmpty album)
                       (nullIfEmpty (MBID t))
                       (nullIfEmpty (TextMBID_MBID (Artist t)))
                       (nullIfEmpty (TextMBID_MBID (Album t)))
                       (nullIfEmpty (URL t))
                       hash)
                db in
            if n =? 0 then (db', Ok (mkInsertResult 0 1))
            else (db', Ok (mkInsertResult 1 0))
        end
  end.

(** [SELECT MAX(played_at_uts) FROM scrobbles]: NULL on an empty table. *)
Definition max_played_at (db : list Row) : option Z :=
  fold_left (fun acc r =>
               match acc with
               | None => Some (played_at_uts r)
               | Some m => Some (Z.max m (played_at_uts r))
               end) db None.

Definition MaxPlayedAtUTS (db : list Row) : Z :=
  match max_played_at db with
  | None => 0
  | Some v => v
  end.

(** The timestamp an event carries, when it carries one that is an
    integer: what [InsertScrobble] stores as [played_at_uts]. *)
Definition timestamp (t : Track) : option Z :=
  match Date_ t with
  | None => None
  | Some d => if String.eqb (UTS d) "" then None else Strconv.ParseInt (UTS d)
  end.

End Store.

(* ================================================================== *)
(** * cmd/lastfm-golang                                                *)
(* ================================================================== *)

Module Main.

Import Lastfm Store.

(** [time.Duration] counts nanoseconds. *)
Definition Second : Z := 1000000000.

(** What one run of a retry wrapper did: the value returned, the number
    of calls made to the client and the durations slept, in order. *)
Record RetryRun (A : Type) := mkRetryRun {
  rr_result : result A;
  rr_attempts : Z;
  rr_sleeps : list Z
}.
Arguments mkRetryRun {A}.
Arguments rr_result {A}.
Arguments rr_attempts {A}.
Arguments rr_sleeps {A}.

(** The loop [for attempt := 1; attempt <= maxAttempts; attempt++] shared
    by [getPageWithRetry], [getSimilarArtistsWithRetry] and
    [getArtistTopTracksWithRetry], over the attempt numbers still to run.
    [call attempt] is the answer of the client to the [attempt]-th call;
    [limit] is the bound in [if backoff < limit { backoff *= 2 }]. *)
Fixpoint retryLoop {A : Type} (maxAttempts limit : Z) (call : Z -> result A)
         (attempts : list Z) (made backoff : Z) (sleeps : list Z) : RetryRun A :=
  match attempts with
  | [] => mkRetryRun (Err Unreachable) made sleeps
  | attempt :: rest =>
      match call attempt with
      | Ok p => mkRetryRun (Ok p) attempt sleeps
      | Err err =>
          if negb (IsRetryable err) || (attempt =? maxAttempts)
          then mkRetryRun (Err err) attempt sleeps
          else retryLoop maxAttempts limit call rest attempt
                         (if backoff <? limit then backoff * 2 else backoff)
                         (sleeps ++ [backoff])
      end
  end.

Definition attemptNumbers (maxAttempts : Z) : list Z :=
  map Z.of_nat (seq 1 (Z.to_nat maxAttempts)).

Definition withRetry {A : Type} (maxAttempts limit : Z) (call : Z -> result A)
  : RetryRun A :=
  retryLoop maxAttempts limit call (attemptNumbers maxAttempts) 0 (1 * Second) [].

Definition maxAttempts : Z := 8.

Definition getPageWithRetry (call : Z -> result Page) : RetryRun Page :=
  withRetry maxAttempts (30 * Second) call.

(** The remote feed seen by one run: [remote page attempt] is the answer
    of [client.GetRecentTracksPage] to the [attempt]-th call for [page].
    Both commands request every page number at most once, so the answers
    of a run are a function of the page and the attempt. *)
Definition Remote := Z -> Z -> result Page.

Definition fetch (remote : Remote) (page : Z) : result Page :=
  rr_result (getPageWithRetry (remote page)).

(** One turn of [for _, t := range p.Tracks], up to the counters: the
    insert, and the raw envelope for a newly inserted event only. *)
Definition insertOne (t : Track) (s : Store) : Store * result InsertResult :=
  let '(db, r) := InsertScrobble t (DB s) in
  let s' := mkStore db (RawJSONL s) in
  match r with
  | Err e => (s', Err e)
  | Ok res => (if 0 <? Inserted res then AppendRaw t s' else s', Ok res)
  end.

Record Progress := mkProgress {
  store : Store;
  inserted : Z;
  ignored : Z;
  stop : bool
}.

(** The track loop of [cmdBackfill]; [Some e] is the error that makes the
    command return 1. *)
Fixpoint backfillTracks (ts : list Track) (st : Progress) : Progress * option error :=
  match ts with
  | [] => (st, None)
  | t :: rest =>
      match insertOne t (store st) with
      | (s', Err e) => (mkProgress s' (inserted st) (ignored st) (stop st), Some e)
      | (s', Ok res) =>
          backfillTracks rest
            (mkProgress s' (inserted st + Inserted res) (ignored st + Ignored res) (stop st))
      end
  end.

(** The track loop of [cmdSync]: the same, then the stop test against
    [maxSeen]. ([parseI64] of [main] differs from the one of [store] in
    the text of the error only.) *)
Definition reachesWatermark (maxSeen : Z) (t : Track) : bool :=
  match Date_ t with
  | None => false
  | Some d =>
      if String.eqb (UTS d) "" then false
      else
        match parseI64 (UTS d) with
        | Err _ => false
        | Ok uts => negb (maxSeen =? 0) && (uts <=? maxSeen)
        end
  end.

Fixpoint syncTracks (maxSeen : Z) (ts : list Track) (st : Progress)
  : Progress * option error :=
  match ts with
  | [] => (st, None)
  | t :: rest =>
      match insertOne t (store st) with
      | (s', Err e) => (mkProgress s' (inserted st) (ignored st) (stop st), Some e)
      | (s', Ok res) =>
          syncTracks maxSeen rest
            (mkProgress s' (inserted st + Inserted res) (ignored st + Ignored res)
                        (if reachesWatermark maxSeen t then true else stop st))
      end
  end.

(** What a command did: its exit code ([None] while the page loop is
    still running when the fuel of the model runs out), the page numbers
    it requested, in order, and the store and counters it ended with. *)
Record Run := mkRun {
  exit_code : option Z;
  fetched : list Z;
  final : Progress
}.

(** The page loop of [cmdBackfill]. *)
Fixpoint backfillLoop (fuel : nat) (remote : Remote) (page totalPages : Z)
         (pages : list Z) (st : Progress) : Run :=
  match fuel with
  | O => mkRun None pages st
  | S fuel' =>
      let pages := pages ++ [page] in
      match fetch remote page with
      | Err _ => mkRun (Some 1) pages st
      | Ok p =>
          let totalPages :=
            if totalPages =? -1
            then (if TotalPages p =? 0 then 1 else TotalPages p)
            else totalPages in
          match Tracks p with
          | [] => mkRun (Some 0) pages st
          | _ =>
              match backfillTracks (Tracks p) st with
              | (st', Some _) => mkRun (Some 1) pages st'
              | (st', None) =>
                  if negb (totalPages =? -1) && (totalPages <=? page)
                  then mkRun (Some 0) pages st'
                  else backfillLoop fuel' remote (page + 1) totalPages pages st'
              end
          end
      end
  end.

Definition cmdBackfill (fuel : nat) (remote : Remote) (s : Store) : Run :=
  backfillLoop fuel remote 1 (-1) [] (mkProgress s 0 0 false).

(** The page loop of [cmdSync]. *)
Fixpoint syncLoop (fuel : nat) (remote : Remote) (maxSeen page : Z)
         (pages : list Z) (st : Progress) : Run :=
  match fuel with
  | O => mkRun None pages st
  | S fuel' =>
      let pages := pages ++ [page] in
      match fetch remote page with
      | Err _ => mkRun (Some 1) pages st
      | Ok p =>
          match Tracks p with
          | [] => mkRun (Some 0) pages st
          | _ =>
              match syncTracks maxSeen (Tracks p) st with
              | (st', Some _) => mkRun (Some 1) pages st'
              | (st', None) =>
                  if stop st' then mkRun (Some 0) pages st'
                  else syncLoop fuel' remote maxSeen (page + 1) pages st'
              end
          end
      end
  end.

Definition cmdSync (fuel : nat) (remote : Remote) (s : Store) : Run :=
  let maxSeen := MaxPlayedAtUTS (DB s) in
  syncLoop fuel remote maxSeen 1 [] (mkProgress s 0 0 false).

End Main.

(* ================================================================== *)
(** * sort.SliceStable                                                 *)
(* ================================================================== *)

Module Sort.

Section Stable.

Context {A : Type} (less : A -> A -> bool).

(** One pass of the insertion sort of [sort.SliceStable]: the new
    element [x] moves left while it is [less] than its left neighbour.
    The sorted prefix is kept last element first. *)
Fixpoint sink (x : A) (rprefix : list A) : list A :=
  match rprefix with
  | [] => [x]
  | y :: rest => if less x y then y :: sink x rest else x :: rprefix
  end.

(** [sort.SliceStable(l, less)]. Go sorts blocks of 20 elements this way
    and merges the blocks with a stable merge; when [less] is a strict
    weak order the outcome is that of the insertion sort alone. *)
Definition SliceStable (l : list A) : list A :=
  rev (fold_left (fun rprefix x => sink x rprefix) l []).

End Stable.

End Sort.

(* ================================================================== *)
(** * The fragment of SQLite the queries use                           *)
(* ================================================================== *)

Module SQLite.

(** Values with their storage class; the queries produce no REAL or BLOB. *)
Inductive value : Type :=
| VNull
| VInt (z : Z)
| VText (s : string).

(** The affinity of an operand of a comparison: a reference to a column
    has the affinity of the column, every other expression (a bound
    parameter, a function call, an aggregate, an alias of one) has none. *)
Inductive affinity : Type := INTEGER | TEXT | NONE.

Definition operand : Type := value * affinity.

(** NUMERIC affinity turns a text that is a well-formed integer literal
    into an integer (the literals at hand are the decimal numbers printed by
    [strftime], which [Strconv.ParseInt] reads); TEXT affinity renders an
    integer in decimal. *)
Definition apply_numeric (v : value) : value :=
  match v with
  | VText s => match Strconv.ParseInt s with Some n => VInt n | None => VText s end
  | _ => v
  end.

Definition apply_text (v : value) : value :=
  match v with
  | VInt n => VText (Strconv.FormatInt n)
  | _ => v
  end.

(** Conversions before a comparison: an operand with INTEGER affinity
    imposes NUMERIC affinity on the other one unless that one has it too; an
    operand with TEXT affinity imposes it on one without affinity; otherwise
    the values are compared as they are. *)
Definition convert (a b : operand) : value * value :=
  match snd a, snd b with
  | INTEGER, INTEGER => (fst a, fst b)
  | INTEGER, _ => (fst a, apply_numeric (fst b))
  | _, INTEGER => (apply_numeric (fst a), fst b)
  | TEXT, NONE => (fst a, apply_text (fst b))
  | NONE, TEXT => (apply_text (fst a), fst b)
  | _, _ => (fst a, fst b)
  end.

(** The order of values: NULL compares to nothing, an integer is below
    every text, integers compare as numbers and texts byte by byte. *)
Definition compare_values (a b : value) : option comparison :=
  match a, b with
  | VNull, _ | _, VNull => None
  | VInt x, VInt y => Some (x ?= y)
  | VInt _, VText _ => Some Lt
  | VText _, VInt _ => Some Gt
  | VText s, VText t => Some (String.compare s t)
  end.

Definition compare (a b : operand) : option comparison :=
  let '(x, y) := convert a b in compare_values x y.

(** [a < b] and [a >= b] as conditions of a WHERE or HAVING clause: the
    row is kept when the comparison is true, dropped when it is false or
    NULL. *)
Definition lt (a b : operand) : bool :=
  match compare a b with Some Lt => true | _ => false end.

Definition ge (a b : operand) : bool :=
  match compare a b with Some Eq | Some Gt => true | _ => false end.

(** [strftime('%s', 'now', '<days> days')]: the Unix time [days] days
    from [now], as a TEXT value. *)
Definition strftime_s (now days : Z) : value :=
  VText (Strconv.FormatInt (now + days * 86400)).

(** [LIMIT n]: a negative [n] is no limit. *)
Definition limit {A : Type} (n : Z) (l : list A) : list A :=
  if n <? 0 then l else firstn (Z.to_nat n) l.

(** [SELECT key, COUNT( * ), MAX(ts) ... GROUP BY key]: one entry per
    key with the number of rows and the greatest timestamp. The entries
    are listed in the order the keys first occur. *)
Section GroupBy.

Context {K : Type} (key_eqb : K -> K -> bool).

Fixpoint add_to_group (k : K) (ts : Z) (gs : list (K * (Z * Z)))
  : list (K * (Z * Z)) :=
  match gs with
  | [] => [(k, (1, ts))]
  | (k', (n, m)) :: rest =>
      if key_eqb k k' then (k', (n + 1, Z.max m ts)) :: rest
      else (k', (n, m)) :: add_to_group k ts rest
  end.

Definition group_count_max (rows : list (K * Z)) : list (K * (Z * Z)) :=
  fold_left (fun gs r => add_to_group (fst r) (snd r) gs) rows [].

End GroupBy.

(** [ORDER BY plays DESC]. SQL leaves the order of rows with equal keys
    to the engine; the model keeps them in the order of the groups. *)
Definition order_by_plays_desc {K : Type} (gs : list (K * (Z * Z)))
  : list (K * (Z * Z)) :=
  Sort.SliceStable (fun a b => fst (snd b) <? fst (snd a)) gs.

End SQLite.

(* ================================================================== *)
(** * internal/digest                                                  *)
(* ================================================================== *)

Module Digest.

Import Store.

Definition minSaneUTS : Z := 946684800.

Record RankedArtist := mkRankedArtist {
  RankedArtist_Rank : Z;
  RankedArtist_Artist : string;
  RankedArtist_Plays : Z
}.

Record RankedTrack := mkRankedTrack {
  Rank : Z;
  Artist : string;
  Track : string;
  Plays : Z;
  LastPlayedUTS : Z
}.

Record RankedAlbum := mkRankedAlbum {
  RankedAlbum_Rank : Z;
  RankedAlbum_Artist : string;
  Album : string;
  RankedAlbum_Plays : Z;
  RankedAlbum_LastPlayedUTS : Z
}.

(** [played_at_uts >= ?] with [minSaneUTS] bound: a column of INTEGER
    affinity against an integer parameter. *)
Definition dated (r : Row) : bool :=
  SQLite.ge (SQLite.VInt (played_at_uts r), SQLite.INTEGER)
            (SQLite.VInt minSaneUTS, SQLite.NONE).

(** [played_at_uts >= strftime('%s','now', ?)]: the column against the
    text returned by [strftime]. *)
Definition in_window (now days : Z) (r : Row) : bool :=
  SQLite.ge (SQLite.VInt (played_at_uts r), SQLite.INTEGER)
            (SQLite.strftime_s now days, SQLite.NONE).

(** [HAVING last_played < strftime('%s','now', ?)]: [last_played] is the
    alias of the aggregate [MAX(played_at_uts)], an expression without
    affinity, against the text returned by [strftime]. *)
Definition having_stale (now days : Z) (last_played : Z) : bool :=
  SQLite.lt (SQLite.VInt last_played, SQLite.NONE)
            (SQLite.strftime_s now days, SQLite.NONE).

Definition pair_eqb (a b : string * string) : bool :=
  String.eqb (fst a) (fst b) && String.eqb (snd a) (snd b).

(** [album_name IS NOT NULL AND album_name != ''] *)
Definition has_album (r : Row) : bool :=
  match album_name r with
  | None => false
  | Some a => negb (String.eqb a "")
  end.

Definition album_of (r : Row) : string :=
  match album_name r with Some a => a | None => EmptyString end.

(** The loop over [rows.Next()] with [rank := 1; ...; rank++]. *)
Fixpoint ranked {A B : Type} (mk : Z -> A -> B) (rank : Z) (l : list A) : list B :=
  match l with
  | [] => []
  | a :: rest => mk rank a :: ranked mk (rank + 1) rest
  end.

Definition mkArtistRow (rank : Z) (g : string * (Z * Z)) : RankedArtist :=
  mkRankedArtist rank (fst g) (fst (snd g)).

Definition mkTrackRow (rank : Z) (g : (string * string) * (Z * Z)) : RankedTrack :=
  mkRankedTrack rank (fst (fst g)) (snd (fst g)) (fst (snd g)) (snd (snd g)).

Definition mkAlbumRow (rank : Z) (g : (string * string) * (Z * Z)) : RankedAlbum :=
  mkRankedAlbum rank (fst (fst g)) (snd (fst g)) (fst (snd g)) (snd (snd g)).

(** [topArtists(db, window, limit)] at the time [now]; [days] is the
    number in the modifier ["<days> days"]. *)
Definition topArtists (db : list Row) (now days limit : Z) : list RankedArtist :=
  let rows := filter (fun r => dated r && in_window now days r) db in
  let groups := SQLite.group_count_max String.eqb
                  (map (fun r => (artist_name r, played_at_uts r)) rows) in
  ranked mkArtistRow 1 (SQLite.limit limit (SQLite.order_by_plays_desc groups)).

Definition topTracks (db : list Row) (now days limit : Z) : list RankedTrack :=
  let rows := filter (fun r => dated r && in_window now days r) db in
  let groups := SQLite.group_count_max pair_eqb
                  (map (fun r => ((artist_name r, track_name r), played_at_uts r)) rows) in
  ranked mkTrackRow 1 (SQLite.limit limit (SQLite.order_by_plays_desc groups)).

Definition resurfaceTracks (db : list Row) (now staleDays limit : Z) : list RankedTrack :=
  let rows := filter dated db in
  let groups := SQLite.group_count_max pair_eqb
                  (map (fun r => ((artist_name r, track_name r), played_at_uts r)) rows) in
  let stale := filter (fun g => having_stale now staleDays (snd (snd g))) groups in
  ranked mkTrackRow 1 (SQLite.limit limit (SQLite.order_by_plays_desc stale)).

Definition resurfaceAlbums (db : list Row) (now staleDays limit : Z) : list RankedAlbum :=
  let rows := filter (fun r => dated r && has_album r) db in
  let groups := SQLite.group_count_max pair_eqb
                  (map (fun r => ((artist_name r, album_of r), played_at_uts r)) rows) in
  let stale := filter (fun g => having_stale now staleDays (snd (snd g))) groups in
  ranked mkAlbumRow 1 (SQLite.limit limit (SQLite.order_by_plays_desc stale)).

(** The staleness cutoff the resurfacing queries are written for. *)
Definition cutoff (now staleDays : Z) : Z := now + staleDays * 86400.

End Digest.

(* ================================================================== *)
(** * strings.ToLower and strings.TrimSpace on ASCII text              *)
(* ================================================================== *)

Module GoStrings.

(** On a string of ASCII bytes [strings.ToLower] adds 32 to the bytes
    ['A'..'Z'] and [strings.TrimSpace] removes the leading and trailing
    bytes of [" \t\n\v\f\r"]. Bytes above 127 are left alone here (Go
    decodes them as UTF-8). *)
Definition lower_ascii (c : ascii) : ascii :=
  let n := N_of_ascii c in
  if ((65 <=? n) && (n <=? 90))%N then ascii_of_N (n + 32) else c.

Fixpoint ToLower (s : string) : string :=
  match s with
  | EmptyString => EmptyString
  | String c rest => String (lower_ascii c) (ToLower rest)
  end.

Definition is_space (c : ascii) : bool :=
  let n := N_of_ascii c in
  ((n =? 32) || ((9 <=? n) && (n <=? 13)))%N.

Fixpoint trim_left (s : string) : string :=
  match s with
  | EmptyString => EmptyString
  | String c rest => if is_space c then trim_left rest else s
  end.

(** Drops the trailing white space: a character is kept when something
    other than white space follows it or it is not white space itself. *)
Fixpoint trim_right (s : string) : string :=
  match s with
  | EmptyString => EmptyString
  | String c rest =>
      match trim_right rest with
      | EmptyString => if is_space c then EmptyString else String c EmptyString
      | rest' => String c rest'
      end
  end.

Definition TrimSpace (s : string) : string := trim_right (trim_left s).

End GoStrings.

(* ================================================================== *)
(** * internal/recommend                                               *)
(* ================================================================== *)

Module Recommend.

Import Lastfm Store.

Definition minSaneUTS : Z := 946684800.

(** The windows are the numbers of days of the SQLite modifiers
    (["-90 days"] is [-90]). *)
Record Options := mkOptions {
  SeedArtistsLimit : Z;
  SeedWindow : Z;
  SimilarPerSeedArtist : Z;
  SimilarArtistsLimit : Z;
  TopTracksPerArtist : Z;
  CandidateTracksLimit : Z;
  ExcludeSeedArtists : bool;
  IncludePlayedTracks : bool;
  PreferUnplayed : bool;
  MinLastPlayedWindow : Z
}.

Definition DefaultOptions : Options :=
  mkOptions 8 (-90) 15 25 6 120 true true true (-365).

Module SeedArtist.
Record t := mk { Artist : string; Plays : Z }.
End SeedArtist.

(** [Score] is a [float64] in the source. The code only adds scores and
    compares them with [==] and [>]; they are modelled by rationals, which
    leaves out NaN (on which both comparisons are false). *)
Module ArtistCand.
Record t := mk {
  Rank : Z;
  Artist : string;
  Score : Q;
  FromSeedArtists : list string
}.
End ArtistCand.

Module TrackCand.
Record t := mk {
  Rank : Z;
  Artist : string;
  Track : string;
  Score : Q;
  LocalPlays : Z;
  LocalLastPlayedUTS : Z
}.
End TrackCand.

(** [Meta] (the wall clock and a constant string) is left out. *)
Record Output := mkOutput {
  Seeds : list SeedArtist.t;
  Artists : list ArtistCand.t;
  Tracks : list TrackCand.t
}.

(** The values handed to the collaborators during a run, in order: the
    artist passed to [GetSimilarArtists] and to [GetArtistTopTracks] (once
    per wrapper call, every attempt passes the same one) and the two
    parameters bound in the statistics statement. *)
Inductive event : Type :=
| EvSimilar (artist : string)
| EvTopTracks (artist : string)
| EvStats (artist track : string).

Definition Qgtb (a b : Q) : bool := negb (Qle_bool a b).

(** [seedArtists]: the query of [topArtists] of the digest. *)
Definition seedArtists (db : list Row) (now window limit : Z) : list SeedArtist.t :=
  let rows := filter (fun r => Digest.dated r && Digest.in_window now window r) db in
  let groups := SQLite.group_count_max String.eqb
                  (map (fun r => (artist_name r, played_at_uts r)) rows) in
  map (fun g => SeedArtist.mk (fst g) (fst (snd g)))
      (SQLite.limit limit (SQLite.order_by_plays_desc groups)).

(** The statistics statement: [COUNT( * )] and [COALESCE(MAX(played_at_uts),0)]
    over the dated rows whose [artist_name] and [track_name] equal the
    bound texts (BINARY collation: byte for byte). *)
Definition localStats (db : list Row) (artist track : string) : Z * Z :=
  let rows := filter (fun r => Digest.dated r
                               && String.eqb (artist_name r) artist
                               && String.eqb (track_name r) track) db in
  (Z.of_nat (List.length rows),
   match max_played_at rows with Some m => m | None => 0 end).

(** The comparison of the final [sort.SliceStable]. *)
Definition less (opt : Options) (i j : TrackCand.t) : bool :=
  let iUn := TrackCand.LocalPlays i =? 0 in
  let jUn := TrackCand.LocalPlays j =? 0 in
  if PreferUnplayed opt && negb (Bool.eqb iUn jUn) then iUn
  else if Qeq_bool (TrackCand.Score i) (TrackCand.Score j)
       then TrackCand.LocalLastPlayedUTS i <? TrackCand.LocalLastPlayedUTS j
       else Qgtb (TrackCand.Score i) (TrackCand.Score j).

(** [for i := range tracks { tracks[i].Rank = i + 1 }] *)
Fixpoint setRanks (i : Z) (l : list TrackCand.t) : list TrackCand.t :=
  match l with
  | [] => []
  | c :: rest =>
      TrackCand.mk (i + 1) (TrackCand.Artist c) (TrackCand.Track c) (TrackCand.Score c)
                   (TrackCand.LocalPlays c) (TrackCand.LocalLastPlayedUTS c)
      :: setRanks (i + 1) rest
  end.

(** The end of [Build], from the sort of the candidate tracks on. *)
Definition rankTracks (opt : Options) (tracks : list TrackCand.t) : list TrackCand.t :=
  let sorted := Sort.SliceStable (less opt) tracks in
  let kept := if IncludePlayedTracks opt then sorted
              else filter (fun c => TrackCand.LocalPlays c =? 0) sorted in
  setRanks 0 kept.

Record agg := mkAgg { score : Q; from : list string }.

Definition member (k : string) (l : list string) : bool :=
  existsb (String.eqb k) l.

Definition set_add (k : string) (l : list string) : list string :=
  if member k l then l else l ++ [k].

Fixpoint lookup (k : string) (m : list (string * agg)) : option agg :=
  match m with
  | [] => None
  | (k', v) :: rest => if String.eqb k k' then Some v else lookup k rest
  end.

Fixpoint store_key (k : string) (v : agg) (m : list (string * agg))
  : list (string * agg) :=
  match m with
  | [] => [(k, v)]
  | (k', v') :: rest =>
      if String.eqb k k' then (k', v) :: rest else (k', v') :: store_key k v rest
  end.

Fixpoint setArtistRanks (i : Z) (l : list ArtistCand.t) : list ArtistCand.t :=
  match l with
  | [] => []
  | c :: rest =>
      ArtistCand.mk (i + 1) (ArtistCand.Artist c) (ArtistCand.Score c)
                    (ArtistCand.FromSeedArtists c)
      :: setArtistRanks (i + 1) rest
  end.

Section Build.

(** [strings.ToLower], [strings.TrimSpace], and [strconv.ParseFloat]
    with its error dropped. *)
Variable ToLower TrimSpace : string -> string.
Variable ParseFloat : string -> Q.

(** The order in which [range] walks a map, which Go leaves open. *)
Variable rangeOrder : list (string * agg) -> list (string * agg).

(** The remote service: the answer to the [attempt]-th call for an
    artist. *)
Variable similar : string -> Z -> result (list SimilarArtist).
Variable toptracks : string -> Z -> result (list TopTrack).

Variable db : list Row.
Variable now : Z.
Variable opt : Options.

Definition getSimilarArtistsWithRetry (artist : string) :=
  Main.withRetry 6 (20 * Main.Second) (similar artist).

Definition getArtistTopTracksWithRetry (artist : string) :=
  Main.withRetry 6 (20 * Main.Second) (toptracks artist).

(** The body of [for _, a := range sim]. *)
Definition addSimilar (seedSet : list string) (seed : string)
           (artistsAgg : list (string * agg)) (a : SimilarArtist)
  : list (string * agg) :=
  let name := TrimSpace (SimilarArtist_Name a) in
  if String.eqb name "" then artistsAgg
  else if ExcludeSeedArtists opt && member (ToLower name) seedSet then artistsAgg
  else
    let m := ParseFloat (Match a) in
    let k := ToLower name in
    let cur := match lookup k artistsAgg with
               | Some cur => cur
               | None => mkAgg 0 []
               end in
    store_key k (mkAgg (Qplus (score cur) m) (set_add seed (from cur))) artistsAgg.

(** [for _, seed := range seeds] *)
Fixpoint expandSeeds (seedSet : list string) (seeds : list SeedArtist.t)
         (artistsAgg : list (string * agg)) (tr : list event)
  : list event * result (list (string * agg)) :=
  match seeds with
  | [] => (tr, Ok artistsAgg)
  | seed :: rest =>
      let tr := tr ++ [EvSimilar (SeedArtist.Artist seed)] in
      match Main.rr_result (getSimilarArtistsWithRetry (SeedArtist.Artist seed)) with
      | Err e => (tr, Err e)
      | Ok sim =>
          expandSeeds seedSet rest
            (fold_left (addSimilar seedSet (SeedArtist.Artist seed)) sim artistsAgg) tr
      end
  end.

(** From the map to the ranked candidate artists. A negative
    [SimilarArtistsLimit] makes the slice expression panic; [None]
    stands for it. *)
Definition artistCandidates (artistsAgg : list (string * agg))
  : option (list ArtistCand.t) :=
  let cands :=
    map (fun kv => ArtistCand.mk 0 (fst kv) (score (snd kv))
                     (Sort.SliceStable String.ltb (from (snd kv))))
        (rangeOrder artistsAgg) in
  let sorted :=
    Sort.SliceStable
      (fun i j => Qgtb (ArtistCand.Score i) (ArtistCand.Score j)) cands in
  if SimilarArtistsLimit opt <? Z.of_nat (List.length sorted)
  then if SimilarArtistsLimit opt <? 0 then None
       else Some (setArtistRanks 0 (firstn (Z.to_nat (SimilarArtistsLimit opt)) sorted))
  else Some (setArtistRanks 0 sorted).

Record Expansion := mkExpansion {
  tracks : list TrackCand.t;
  seenTracks : list string;
  trace : list event
}.

Definition full (st : Expansion) : bool :=
  CandidateTracksLimit opt <=? Z.of_nat (List.length (tracks st)).

(** [for _, t := range top]: stops as soon as the cap is reached. *)
Fixpoint expandTracks (a : ArtistCand.t) (top : list TopTrack) (st : Expansion)
  : Expansion :=
  match top with
  | [] => st
  | t :: rest =>
      let artistName := ArtistCand.Artist a in
      let track := TrimSpace (TopTrack_Name t) in
      if String.eqb track "" then expandTracks a rest st
      else
        let key := ToLower (artistName ++ "|" ++ track)%string in
        if member key (seenTracks st) then expandTracks a rest st
        else
          let '(plays, lastPlayed) := localStats db artistName track in
          let cand := TrackCand.mk 0 artistName track (ArtistCand.Score a)
                                   plays lastPlayed in
          let st' := mkExpansion (tracks st ++ [cand]) (seenTracks st ++ [key])
                                 (trace st ++ [EvStats artistName track]) in
          if full st' then st' else expandTracks a rest st'
  end.

(** [for _, a := range artistCands] *)
Fixpoint expandArtists (cands : list ArtistCand.t) (st : Expansion)
  : Expansion * option error :=
  match cands with
  | [] => (st, None)
  | a :: rest =>
      let artistName := ArtistCand.Artist a in
      let st := mkExpansion (tracks st) (seenTracks st)
                            (trace st ++ [EvTopTracks artistName]) in
      match Main.rr_result (getArtistTopTracksWithRetry artistName) with
      | Err e => (st, Some e)
      | Ok top =>
          let st' := expandTracks a top st in
          if full st' then (st', None) else expandArtists rest st'
      end
  end.

(** [Build]: the trace of the run and what it returns. [None] is a
    panic. *)
Definition Build : list event * option (result Output) :=
  let seeds := seedArtists db now (SeedWindow opt) (SeedArtistsLimit opt) in
  let seedSet := map (fun s => ToLower (SeedArtist.Artist s)) seeds in
  match expandSeeds seedSet seeds [] [] with
  | (tr, Err e) => (tr, Some (Err e))
  | (tr, Ok artistsAgg) =>
      match artistCandidates artistsAgg with
      | None => (tr, None)
      | Some artistCands =>
          match expandArtists artistCands (mkExpansion [] [] tr) with
          | (st, Some e) => (trace st, Some (Err e))
          | (st, None) =>
              (trace st,
               Some (Ok (mkOutput seeds artistCands (rankTracks opt (tracks st)))))
          end
      end
  end.

End Build.

End Recommend.

(* ================================================================== *)
(** * Notions used to state the properties                             *)
(* ================================================================== *)

Module Spec.

Import Lastfm Store Main.

Fixpoint contains (c : ascii) (s : string) : bool :=
  match s with
  | EmptyString => false
  | String c' rest => Ascii.eqb c c' || contains c rest
  end.

(** The separator of [source_string] does not occur in [s]. *)
Definition bar_free (s : string) : bool := negb (contains "|" s).

(** [InsertScrobble] has no reason to fail on [t]: the event carries no
    timestamp, or one that is an integer. *)
Definition wellformed (t : Track) : bool :=
  match Date_ t with
  | None => true
  | Some d =>
      if String.eqb (UTS d) "" then true
      else match Strconv.ParseInt (UTS d) with Some _ => true | None => false end
  end.

(** The event carries a timestamp (an integer one). *)
Definition stamped (t : Track) : bool :=
  match timestamp t with Some _ => true | None => false end.

(** The event carries a timestamp at or below the watermark [w]. *)
Definition atOrBelow (w : Z) (t : Track) : bool :=
  match timestamp t with Some uts => uts <=? w | None => false end.

(** The store after the events of [ts] went through [insertOne]. *)
Definition insertAll (ts : list Track) (s : Store) : Store :=
  fold_left (fun s t => fst (insertOne t s)) ts s.

Definition ignoredOnce : InsertResult := mkInsertResult 0 1.

(** The row [InsertScrobble] builds for an event stamped [playedAt]. *)
Definition rowOf (t : Track) (playedAt : Z) : Row :=
  mkRow playedAt (Name t) (Text (Artist t)) (nullIfEmpty (Text (Album t)))
        (nullIfEmpty (MBID t)) (nullIfEmpty (TextMBID_MBID (Artist t)))
        (nullIfEmpty (TextMBID_MBID (Album t))) (nullIfEmpty (URL t))
        (StableSourceHash playedAt (Text (Artist t)) (Name t) (Text (Album t))).

(** The delays slept before [k] retries, from the delay [backoff] on,
    doubling while below [limit]. *)
Fixpoint delays (limit : Z) (k : nat) (backoff : Z) : list Z :=
  match k with
  | O => []
  | S k' => backoff :: delays limit k' (if backoff <? limit then backoff * 2 else backoff)
  end.

(** The page numbers [first], [first + 1], ... ([n] of them). *)
Definition pageNumbers (first : Z) (n : nat) : list Z :=
  map (fun i => first + Z.of_nat i) (seq 0 n).

(** The feed answers the requests for the pages [first], [first + 1], ...
    with the pages of [pgs], in this order. *)
Definition serves (remote : Remote) (first : Z) (pgs : list Page) : Prop :=
  forall i p, nth_error pgs i = Some p -> fetch remote (first + Z.of_nat i) = Ok p.

Definition events (pgs : list Page) : list Track := List.concat (map Tracks pgs).

(** No page of [pgs] is empty and no event of them can make the insert
    fail. *)
Definition walkable (pgs : list Page) : Prop :=
  Forall (fun p => Tracks p <> [] /\ forallb wellformed (Tracks p) = true) pgs.

(** What the test of [IsRetryable] is said to be. *)
Definition retryable (e : error) : Prop :=
  (exists code body, e = HTTPError code body /\ (500 <= code \/ code = 429))
  \/ (exists msg, e = APIError 29 msg).

(** The delays a retry wrapper can sleep, in order (in nanoseconds). *)
Definition backoffs : list Z :=
  map (fun x => x * Second) [1; 2; 4; 8; 16; 32; 32].

(** The first key of the final comparison of the candidate tracks: 0 for
    a track to list first. *)
Definition playedKey (opt : Recommend.Options) (c : Recommend.TrackCand.t) : Z :=
  if Recommend.PreferUnplayed opt
  then (if Recommend.TrackCand.LocalPlays c =? 0 then 0 else 1)
  else 0.

(** The list [rankTracks] numbers. *)
Definition keptTracks (opt : Recommend.Options) (l : list Recommend.TrackCand.t)
  : list Recommend.TrackCand.t :=
  let sorted := Sort.SliceStable (Recommend.less opt) l in
  if Recommend.IncludePlayedTracks opt then sorted
  else filter (fun c => Recommend.TrackCand.LocalPlays c =? 0) sorted.

(** The service reported [name] as an artist similar to one of the
    seeds. *)
Definition reported (similar : string -> Z -> result (list SimilarArtist))
           (seeds : list Recommend.SeedArtist.t) (name : string) : Prop :=
  exists seed sim a,
    In seed seeds
    /\ rr_result (Recommend.getSimilarArtistsWithRetry
                    similar (Recommend.SeedArtist.Artist seed)) = Ok sim
    /\ In a sim
    /\ SimilarArtist_Name a = name.

(** The artist an event of the trace passes on belongs to [names]. *)
Definition passes (names : list string) (e : Recommend.event) : Prop :=
  match e with
  | Recommend.EvSimilar _ => True
  | Recommend.EvTopTracks artist => In artist names
  | Recommend.EvStats artist _ => In artist names
  end.

(** A candidate track carries the name of one of [names] and the
    statistics of the store for exactly its artist and track. *)
Definition annotated (db : list Row) (names : list string)
           (c : Recommend.TrackCand.t) : Prop :=
  In (Recommend.TrackCand.Artist c) names
  /\ (Recommend.TrackCand.LocalPlays c, Recommend.TrackCand.LocalLastPlayedUTS c)
     = Recommend.localStats db (Recommend.TrackCand.Artist c)
                            (Recommend.TrackCand.Track c).

(** What the expansion of the candidate artists keeps true of its state,
    for the candidate names [names]. *)
Definition expanded (db : list Row) (names : list string)
           (st : Recommend.Expansion) : Prop :=
  Forall (passes names) (Recommend.trace st)
  /\ Forall (annotated db names) (Recommend.tracks st).

End Spec.

(* ================================================================== *)
(** * Sample data                                                      *)
(* ================================================================== *)

Module Sample.

Import Lastfm Store Main.
Local Open Scope string_scope.

(** An event as [user.getRecentTracks] lists it, with its [date.uts]. *)
Definition played (artist track album uts : string) : Track :=
  mkTrack track "" "" (mkTextMBID artist "") (mkTextMBID album "")
          (Some (mkDate uts "")) "".

(** A now-playing item: no [date]. *)
Definition nowPlaying (artist track : string) : Track :=
  mkTrack track "" "" (mkTextMBID artist "") (mkTextMBID "" "") None "true".

Definition emptyStore : Store := mkStore [] [].

(** The three events of the end-to-end example: 2023-01-01 A/x,
    2023-01-02 A/x, 2023-01-03 B/y. *)
Definition threeEvents : list Track :=
  [played "B" "y" "" "1672704000";
   played "A" "x" "" "1672617600";
   played "A" "x" "" "1672531200"].

(** A feed of pages served at the first attempt; past the last page the
    service answers with an empty page. *)
Definition feed (pgs : list (list Track)) (total : Z) : Remote :=
  fun page _ =>
    Ok (mkPage (nth (Z.to_nat (page - 1)) pgs []) page total 0).

(** A service that answers the first [n] calls with HTTP 503 and the
    next ones with the page [p]. *)
Definition flaky (n : Z) (p : Page) : Z -> result Page :=
  fun attempt => if (attempt <=? n)%Z then Err (HTTPError 503 "unavailable") else Ok p.

Definition page1 : list Track :=
  [nowPlaying "C" "z"; played "C" "z" "" "1672790400"].

Definition page2 : list Track :=
  [played "B" "y" "" "1672704000"; played "A" "x" "" "1672617600";
   played "A" "x" "" "1672531200"].

Definition page3 : list Track :=
  [played "D" "w" "" "1672444800"].

Definition threePages : Remote := feed [page1; page2; page3] 3.

(** A store that holds the two oldest events of [page2]. *)
Definition syncedStore : Store :=
  Eval vm_compute in
    Spec.insertAll [played "A" "x" "" "1672617600"; played "A" "x" "" "1672531200"]
                   emptyStore.

(** The time of the sample digests and recommendations, and a store with
    a track played twice in the day before [now] and a track last played in
    2017. *)
Definition now : Z := 1700000000.

Definition recentStore : Store :=
  Eval vm_compute in
    Spec.insertAll [played "A" "x" "LP" "1699990000";
                    played "A" "x" "LP" "1699900000";
                    played "B" "old" "EP" "1500000000"]
                   emptyStore.

(** A similar-artists service that knows one artist, reported as
    [" Foo "], for the seed ["A"], and a top-tracks service that knows one
    track for every artist. *)
Definition similarOfA : string -> Z -> result (list SimilarArtist) :=
  fun artist _ =>
    if String.eqb artist "A" then Ok [mkSimilarArtist " Foo " "0.5" "" ""]
    else Ok [].

Definition oneTopTrack : string -> Z -> result (list TopTrack) :=
  fun _ _ => Ok [mkTopTrack "Song" "" ""].

Definition sampleBuild : list Recommend.event * option (result Recommend.Output) :=
  Recommend.Build GoStrings.ToLower GoStrings.TrimSpace Strconv.ParseDecimal
                  (fun m => m) similarOfA oneTopTrack
                  (DB recentStore) now Recommend.DefaultOptions.

Definition sampleOutput : Recommend.Output :=
  Eval vm_compute in
    match snd sampleBuild with
    | Some (Ok out) => out
    | _ => Recommend.mkOutput [] [] []
    end.

End Sample.

(* ================================================================== *)
(** * internal/store: [Stats]; cmd/lastfm-golang: [cmdVerify]          *)
(* ================================================================== *)

Module Verify.

Import Store.

(** [SELECT MIN(played_at_uts) FROM scrobbles]: NULL on an empty table. *)
Definition min_played_at (db : list Row) : option Z :=
  fold_left (fun acc r =>
               match acc with
               | None => Some (played_at_uts r)
               | Some m => Some (Z.min m (played_at_uts r))
               end) db None.

(** [nullI64], and the field [Int64] of a [sql.NullInt64] that was
    scanned: 0 for NULL. *)
Definition nullI64 (v : option Z) : Z :=
  match v with
  | None => 0
  | Some x => x
  end.

(** [Store.Stats]: the count, the least and the greatest timestamp. *)
Definition Stats (db : list Row) : Z * Z * Z :=
  (Z.of_nat (List.length db), nullI64 (min_played_at db), nullI64 (max_played_at db)).

(** [played_at_uts < ?] with [minSaneUTS] bound. *)
Definition suspect (r : Row) : bool :=
  SQLite.lt (SQLite.VInt (played_at_uts r), SQLite.INTEGER)
            (SQLite.VInt Digest.minSaneUTS, SQLite.NONE).

(** What [cmdVerify] prints, field by field. *)
Record Report := mkReport {
  scrobbles_total : Z;
  scrobbles_dated : Z;
  scrobbles_suspect : Z;
  min_uts : Z;
  max_uts : Z;
  dated_min_uts : Z;
  dated_max_uts : Z
}.

Definition cmdVerify (db : list Row) : Report :=
  let '(count, minUTS, maxUTS) := Stats db in
  let suspectCount := Z.of_nat (List.length (filter suspect db)) in
  let datedRows := filter Digest.dated db in
  mkReport count (Z.of_nat (List.length datedRows)) suspectCount minUTS maxUTS
           (nullI64 (min_played_at datedRows)) (nullI64 (max_played_at datedRows)).

End Verify.

(* ================================================================== *)
(** * internal/digest: [computeMeta], [recentScrobbles], [topAlbums]   *)
(* ================================================================== *)

Module DigestMeta.

Import Store.

Record Meta := mkMeta {
  GeneratedAt : Z;
  ScrobblesTotal : Z;
  ScrobblesDated : Z;
  ScrobblesSuspect : Z;
  DatedMinUTS : Z;
  DatedMaxUTS : Z
}.

(** [SUM(x)] over the rows of a table: NULL when there is no row. *)
Definition sql_sum (l : list Z) : option Z :=
  match l with
  | [] => None
  | _ => Some (fold_left Z.add l 0)
  end.

(** [Scan] into an [int64]: database/sql refuses to convert NULL. *)
Definition scan_int64 (v : option Z) : result Z :=
  match v with
  | Some x => Ok x
  | None => Err (OtherError "sql: Scan error: converting NULL to int64 is unsupported")
  end.

(** [computeMeta]; [clock] is the [time.Now()] of [GeneratedAt]. The count
    is scanned into an [int64] as the two sums are; the least and greatest
    dated timestamps go through [sql.NullInt64] and [nullI64]. *)
Definition computeMeta (clock : Z) (db : list Row) : result Meta :=
  let total := Some (Z.of_nat (List.length db)) in
  let dated := sql_sum (map (fun r => if Digest.dated r then 1 else 0) db) in
  let suspect := sql_sum (map (fun r => if Verify.suspect r then 1 else 0) db) in
  let datedRows := filter Digest.dated db in
  match scan_int64 total with
  | Err e => Err e
  | Ok total =>
      match scan_int64 dated with
      | Err e => Err e
      | Ok dated =>
          match scan_int64 suspect with
          | Err e => Err e
          | Ok suspect =>
              Ok (mkMeta clock total dated suspect
                         (Verify.nullI64 (Verify.min_played_at datedRows))
                         (Verify.nullI64 (max_played_at datedRows)))
          end
      end
  end.

Record Scrobble := mkScrobble {
  PlayedAtUTS : Z;
  PlayedAt : string;
  Artist : string;
  Track : string;
  Album : string
}.

(** [recentScrobbles]: the dated rows, newest first, at most [limit] of
    them. [format] is [time.Unix(uts, 0).UTC().Format(time.RFC3339)]. Rows
    with the same timestamp come in the order the engine chooses; the model
    keeps the order of the table. *)
Definition recentScrobbles (format : Z -> string) (db : list Row) (limit : Z)
  : list Scrobble :=
  let rows := filter Digest.dated db in
  let sorted := Sort.SliceStable
                  (fun a b => played_at_uts b <? played_at_uts a) rows in
  map (fun r => mkScrobble (played_at_uts r) (format (played_at_uts r))
                           (artist_name r) (track_name r) (Digest.album_of r))
      (SQLite.limit limit sorted).

Definition topAlbums (db : list Row) (now days limit : Z) : list Digest.RankedAlbum :=
  let rows := filter (fun r => Digest.dated r && Digest.in_window now days r
                               && Digest.has_album r) db in
  let groups := SQLite.group_count_max Digest.pair_eqb
                  (map (fun r => ((artist_name r, Digest.album_of r), played_at_uts r))
                       rows) in
  Digest.ranked Digest.mkAlbumRow 1
                (SQLite.limit limit (SQLite.order_by_plays_desc groups)).

End DigestMeta.

(* ================================================================== *)
(** * internal/lastfm: the client                                      *)
(* ================================================================== *)

Module Client.

Import Lastfm.

(** What [hc.Do] and [io.ReadAll] give for a request: a failure of the
    transport, or a status code and a body. *)
Inductive answer : Type :=
| TransportFailure (msg : string)
| Answer (StatusCode : Z) (body : string).

(** [doGet]; [decode] is [json.Unmarshal] into the type of [out]. *)
Definition doGet {A : Type} (decode : string -> option A) (a : answer) : result A :=
  match a with
  | TransportFailure msg => Err (OtherError msg)
  | Answer StatusCode b =>
      if (StatusCode <? 200) || (300 <=? StatusCode) then Err (HTTPError StatusCode b)
      else
        match decode b with
        | None => Err (OtherError "decode lastfm response")
        | Some out => Ok out
        end
  end.

(** The value [strconv.Atoi] returns, its error dropped: the number when
    the text is one in the range of [int], 0 on a syntax error, and the
    nearest bound of the range when the number is out of it. *)
Definition AtoiValue (s : string) : Z :=
  match Strconv.ParseInt s with
  | Some n => n
  | None =>
      match s with
      | EmptyString => 0
      | String c rest =>
          let neg := Ascii.eqb c "-" in
          let body := if Ascii.eqb c "+" || neg then rest else s in
          match Strconv.ParseUint body with
          | None => 0
          | Some _ => if neg then - 2 ^ 63 else 2 ^ 63 - 1
          end
      end
  end.

Record Attr := mkAttr {
  Attr_Page : string;
  Attr_PerPage : string;
  Attr_TotalPages : string;
  Attr_Total : string
}.

Record RecentTracksResponse := mkRecentTracksResponse {
  RecentTracks_Track : list Track;
  RecentTracks_Attr : Attr;
  RecentTracks_Error : Z;
  RecentTracks_Message : string
}.

Definition GetRecentTracksPage (decode : string -> option RecentTracksResponse)
           (a : answer) : result Page :=
  match doGet decode a with
  | Err e => Err e
  | Ok r =>
      if negb (RecentTracks_Error r =? 0)
      then Err (APIError (RecentTracks_Error r) (RecentTracks_Message r))
      else Ok (mkPage (RecentTracks_Track r)
                      (AtoiValue (Attr_Page (RecentTracks_Attr r)))
                      (AtoiValue (Attr_TotalPages (RecentTracks_Attr r)))
                      (AtoiValue (Attr_Total (RecentTracks_Attr r))))
  end.

(** The feed a command sees when the service gives [answers page attempt]
    to the [attempt]-th request for [page]. *)
Definition remoteOf (decode : string -> option RecentTracksResponse)
           (answers : Z -> Z -> answer) : Main.Remote :=
  fun page attempt => GetRecentTracksPage decode (answers page attempt).

End Client.

(* ================================================================== *)
(** * More notions for the properties                                  *)
(* ================================================================== *)

Module Notions.

Import Lastfm Store Main.

Definition hashes (db : list Row) : list string := map source_hash db.

(** The rows of [db'] are those of [db], in place, and more after them;
    so for the raw log. *)
Definition extends (s s' : Store) : Prop :=
  (exists rows, DB s' = DB s ++ rows) /\ (exists raw, RawJSONL s' = RawJSONL s ++ raw).

Definition sumZ (l : list Z) : Z := fold_left Z.add l 0.

(** The rows a group of a GROUP BY stands for. *)
Definition count_key {K : Type} (key_eqb : K -> K -> bool) (k : K) (rows : list (K * Z))
  : Z :=
  Z.of_nat (List.length (filter (fun r => key_eqb (fst r) k) rows)).

(** What a finished or interrupted page loop has requested. *)
Definition inOrder (fuel : nat) (page : Z) (pages : list Z) (r : Run) : Prop :=
  exists k,
    (k <= fuel)%nat
    /\ fetched r = pages ++ Spec.pageNumbers page k
    /\ (exit_code r = None -> k = fuel)
    /\ (exit_code r = None \/ exit_code r = Some 0 \/ exit_code r = Some 1)
    /\ (fuel <> 0%nat -> k <> 0%nat).

Definition is_hex (c : ascii) : bool :=
  existsb (Ascii.eqb c) (list_ascii_of_string "0123456789abcdef").

Fixpoint all_chars (f : ascii -> bool) (s : string) : bool :=
  match s with
  | EmptyString => true
  | String c rest => f c && all_chars f rest
  end.

End Notions.

(* ================================================================== *)
(** * Notions for the queries                                          *)
(* ================================================================== *)

Module Queries.

Import Store.

(** The number of rows of [db] that [keep] keeps. *)
Definition countRows (keep : Row -> bool) (db : list Row) : Z :=
  Z.of_nat (List.length (filter keep db)).

(** The row was played at or after [from]. *)
Definition since (from : Z) (r : Row) : bool := from <=? played_at_uts r.

(** [gs] is the answer to [SELECT key, COUNT( * ), MAX(ts) ... GROUP BY key]
    over [rows], in some order: one entry per key that occurs, with the
    number of its rows and the greatest of their timestamps. *)
Definition grouped {K : Type} (key_eqb : K -> K -> bool) (rows : list (K * Z))
           (gs : list (K * (Z * Z))) : Prop :=
  NoDup (map fst gs)
  /\ (forall k, In k (map fst gs) <-> In k (map fst rows))
  /\ (forall k n m, In (k, (n, m)) gs ->
        n = Notions.count_key key_eqb k rows
        /\ (forall ts, In (k, ts) rows -> ts <= m)
        /\ In (k, m) rows).


(** The ranks 1, 2, 3, ... of a list of [n] entries. *)
Definition ranks (n : nat) : list Z := map (fun i => Z.of_nat i + 1) (seq 0 n).

End Queries.

(* ================================================================== *)
(** * Notions for the lists of the recommendations                     *)
(* ================================================================== *)

Module BuildNotions.

Import Recommend.

(** What the map of the candidate artists keeps true of its keys. *)
Definition keysOk (opt : Options) (seedSet : list string) (m : list (string * agg))
  : Prop :=
  NoDup (map fst m)
  /\ (ExcludeSeedArtists opt = true -> forall k, In k (map fst m) -> ~ In k seedSet).

(** The key under which [Build] remembers a candidate track. *)
Definition trackKey (ToLower : string -> string) (c : TrackCand.t) : string :=
  ToLower (TrackCand.Artist c ++ "|" ++ TrackCand.Track c)%string.

(** What the expansion keeps true between two top-tracks calls, and at
    its end. *)
Definition roomLeft (opt : Options) (st : Expansion) : Prop :=
  tracks st = [] \/ Z.of_nat (List.length (tracks st)) < CandidateTracksLimit opt.

Definition capped (ToLower : string -> string) (opt : Options) (st : Expansion) : Prop :=
  Z.of_nat (List.length (tracks st)) <= Z.max 1 (CandidateTracksLimit opt)
  /\ seenTracks st = map (trackKey ToLower) (tracks st)
  /\ NoDup (seenTracks st).

End BuildNotions.

(* ================================================================== *)
(** * Notions for the raw log and the calls of a run                   *)
(* ================================================================== *)

Module Traces.

Import Lastfm Store Main.

(** The store [s'] is the store [s] after some events were inserted: one
    row and one envelope for each of them, in the same order. *)
Definition logged (s s' : Store) : Prop :=
  exists added : list (Track * Z),
    RawJSONL s' = RawJSONL s ++ map fst added
    /\ DB s' = DB s ++ map (fun p => Spec.rowOf (fst p) (snd p)) added
    /\ Forall (fun p => timestamp (fst p) = Some (snd p)) added.

(** The pages a loop requests after an empty page or a failed request:
    none. *)
Definition endsThere (remote : Remote) (suffix : list Z) (r : Run) : Prop :=
  forall pre q post,
    suffix = pre ++ q :: post ->
    (forall e, fetch remote q = Err e -> post = [] /\ exit_code r = Some 1)
    /\ (forall p, fetch remote q = Ok p -> Lastfm.Tracks p = [] ->
        post = [] /\ exit_code r = Some 0).

(** The artists passed to the similar-artists call and to the top-tracks
    call during a run, in order. *)
Definition similarCalls (tr : list Recommend.event) : list string :=
  flat_map (fun e => match e with Recommend.EvSimilar a => [a] | _ => [] end) tr.

Definition topTracksCalls (tr : list Recommend.event) : list string :=
  flat_map (fun e => match e with Recommend.EvTopTracks a => [a] | _ => [] end) tr.

End Traces.

(* ================================================================== *)
(** * internal/config: the env file                                    *)
(* ================================================================== *)

Module Config.

(** The double quote of [strings.TrimPrefix(v, ...)] and
    [strings.TrimSuffix(v, ...)]. *)
Definition quote : ascii := ascii_of_nat 34.

(** [strings.HasPrefix(line, "#")] *)
Definition HasPrefix_hash (line : string) : bool :=
  match line with
  | String c _ => Ascii.eqb c "#"
  | EmptyString => false
  end.

(** [strings.Cut(line, "=")]: the text before and after the first [=]. *)
Fixpoint Cut (line : string) : option (string * string) :=
  match line with
  | EmptyString => None
  | String c rest =>
      if Ascii.eqb c "=" then Some (EmptyString, rest)
      else match Cut rest with
           | Some (before, after) => Some (String c before, after)
           | None => None
           end
  end.

Definition TrimPrefix_quote (v : string) : string :=
  match v with
  | String c rest => if Ascii.eqb c quote then rest else v
  | EmptyString => v
  end.

Fixpoint TrimSuffix_quote (v : string) : string :=
  match v with
  | EmptyString => EmptyString
  | String c EmptyString => if Ascii.eqb c quote then EmptyString else v
  | String c rest => String c (TrimSuffix_quote rest)
  end.

(** The body of [for s.Scan()]: the assignment a line makes, if any. *)
Definition parseLine (text : string) : option (string * string) :=
  let line := GoStrings.TrimSpace text in
  if String.eqb line "" then None
  else if HasPrefix_hash line then None
  else
    match Cut line with
    | None => None
    | Some (k, v) =>
        let k := GoStrings.TrimSpace k in
        let v := GoStrings.TrimSpace v in
        let v := TrimPrefix_quote v in
        let v := TrimSuffix_quote v in
        if negb (String.eqb k "") then Some (k, v) else None
    end.

(** A [map[string]string]: the assignments made, the latest first. *)
Definition env : Type := list (string * string).

(** [m[k]]: the zero value for a key that is not there. *)
Fixpoint get (m : env) (k : string) : string :=
  match m with
  | [] => EmptyString
  | (k', v) :: rest => if String.eqb k k' then v else get rest k
  end.

(** [loadEnvFile], from the lines the scanner yields. The failures of
    [os.Open] and of the scanner are not modelled. *)
Definition loadEnvFile (lines : list string) : env :=
  fold_left (fun m text =>
               match parseLine text with
               | Some (k, v) => (k, v) :: m
               | None => m
               end) lines [].

(** The text has no white space at either end. *)
Fixpoint last_char (s : string) (d : ascii) : ascii :=
  match s with
  | EmptyString => d
  | String c rest => last_char rest c
  end.

Definition trimmed (s : string) : bool :=
  match s with
  | EmptyString => true
  | String c rest =>
      negb (GoStrings.is_space c) && negb (GoStrings.is_space (last_char rest c))
  end.

(** A name an env file can assign: not empty, no white space at either
    end, no [=], and no [#] in front. *)
Definition plainKey (k : string) : bool :=
  negb (String.eqb k "") && trimmed k && negb (Spec.contains "=" k)
  && negb (HasPrefix_hash k).

(** A value that needs no quotes: no white space and no double quote at
    either end. *)
Definition plainValue (v : string) : bool :=
  trimmed v
  && match v with
     | EmptyString => true
     | String c rest =>
         negb (Ascii.eqb c quote) && negb (Ascii.eqb (last_char rest c) quote)
     end.

(** The text is made of ASCII characters: there [GoStrings.TrimSpace] is
    [strings.TrimSpace] exactly. *)
Definition asciiText (s : string) : bool :=
  Notions.all_chars (fun c => (N_of_ascii c <? 128)%N) s.

(** The line leaves the map alone: it is blank, a comment, or has no [=]. *)
Definition idle (text : string) : bool :=
  String.eqb (GoStrings.TrimSpace text) ""
  || HasPrefix_hash (GoStrings.TrimSpace text)
  || negb (Spec.contains "=" text).

End Config.

(* ================================================================== *)
(** * internal/digest: [yearlyTopArtists]                              *)
(* ================================================================== *)

Module DigestYearly.

Import Store.

Record YearlyArtist := mkYearlyArtist {
  Year : Z;
  Rank : Z;
  Artist : string;
  Plays : Z
}.

(** The key of [GROUP BY year, artist_name]; a NULL year is a year of its
    own. *)
Definition yearKey : Type := option Z * string.

Definition year_eqb (a b : option Z) : bool :=
  match a, b with
  | None, None => true
  | Some x, Some y => x =? y
  | _, _ => false
  end.

Definition yearKey_eqb (a b : yearKey) : bool :=
  year_eqb (fst a) (fst b) && String.eqb (snd a) (snd b).

(** The order of [ORDER BY year ASC]: NULL comes first. *)
Definition year_ltb (a b : option Z) : bool :=
  match a, b with
  | None, Some _ => true
  | Some x, Some y => x <? y
  | _, _ => false
  end.

(** The values of a list, each once, in the order they first occur. *)
Fixpoint distinct {A : Type} (eqb : A -> A -> bool) (l seen : list A) : list A :=
  match l with
  | [] => []
  | y :: rest =>
      if existsb (eqb y) seen then distinct eqb rest seen
      else y :: distinct eqb rest (seen ++ [y])
  end.

(** A row of the CTE [ranked]: [rnk] and the row of [yearly] it numbers. *)
Definition numbered : Type := Z * (yearKey * (Z * Z)).

Definition rnk (x : numbered) : Z := fst x.
Definition yearOfRow (x : numbered) : option Z := fst (fst (snd x)).
Definition artistOfRow (x : numbered) : string := snd (fst (snd x)).
Definition playsOfRow (x : numbered) : Z := fst (snd (snd x)).

(** [ORDER BY year ASC, rnk ASC] *)
Definition before (a b : numbered) : bool :=
  year_ltb (yearOfRow a) (yearOfRow b)
  || (year_eqb (yearOfRow a) (yearOfRow b) && (rnk a <? rnk b)).

(** The loop over [rows.Next()]: [Scan] refuses a NULL year, and the
    function returns the error. *)
Fixpoint scanYearly (rows : list numbered) : result (list YearlyArtist) :=
  match rows with
  | [] => Ok []
  | x :: rest =>
      match yearOfRow x with
      | None => Err (OtherError "sql: Scan error: converting NULL to int is unsupported")
      | Some y =>
          match scanYearly rest with
          | Ok out => Ok (mkYearlyArtist y (rnk x) (artistOfRow x) (playsOfRow x) :: out)
          | Err e => Err e
          end
      end
  end.

Section Year.

(** [CAST(strftime('%Y', played_at_uts, 'unixepoch') AS INTEGER)]: the
    year of a timestamp, NULL for a time SQLite has no date for. *)
Variable yearOf : Z -> option Z.

(** The CTE [yearly]. *)
Definition yearly (db : list Row) : list (yearKey * (Z * Z)) :=
  SQLite.group_count_max yearKey_eqb
    (map (fun r => ((yearOf (played_at_uts r), artist_name r), played_at_uts r))
         (filter Digest.dated db)).

(** The rows of [yearly] of one year, by falling [plays]:
    [PARTITION BY year ORDER BY plays DESC]. Rows with equal [plays] are
    numbered in the order the engine chooses; the model keeps the order of
    the groups. *)
Definition partitionOf (y : option Z) (gs : list (yearKey * (Z * Z)))
  : list (yearKey * (Z * Z)) :=
  SQLite.order_by_plays_desc (filter (fun g => year_eqb (fst (fst g)) y) gs).

(** The CTE [ranked]: [ROW_NUMBER()] counts from 1 in every partition. *)
Definition ranked (gs : list (yearKey * (Z * Z))) : list numbered :=
  flat_map (fun y => Digest.ranked (fun n g => (n, g)) 1 (partitionOf y gs))
           (distinct year_eqb (map (fun g => fst (fst g)) gs) []).

Definition yearlyTopArtists (db : list Row) (perYear : Z)
  : result (list YearlyArtist) :=
  let rows := filter (fun x => rnk x <=? perYear) (ranked (yearly db)) in
  scanYearly (Sort.SliceStable before rows).

End Year.

End DigestYearly.

(* ================================================================== *)
(** * internal/digest: [signatureArtists]                              *)
(* ================================================================== *)

Module DigestSignature.

Import Store DigestYearly.

Record SignatureArtist := mkSignatureArtist {
  Rank : Z;
  Artist : string;
  YearsInTop : Z;
  FirstYear : Z;
  LastYear : Z;
  PlaysInTopYears : Z
}.

(** A row of the CTE [agg]. *)
Record AggRow := mkAggRow {
  agg_artist : string;
  years_in_top : Z;
  first_year : option Z;
  last_year : option Z;
  plays_in_top_years : Z
}.

(** The years of rows that are not NULL: what [COUNT(DISTINCT year)],
    [MIN(year)] and [MAX(year)] look at. *)
Definition yearsOfRows (rows : list numbered) : list Z :=
  flat_map (fun x => match yearOfRow x with Some y => [y] | None => [] end) rows.

(** [MIN] and [MAX]: NULL over no value. *)
Definition minimum (l : list Z) : option Z :=
  fold_left (fun acc y => Some (match acc with None => y | Some m => Z.min m y end)) l None.

Definition maximum (l : list Z) : option Z :=
  fold_left (fun acc y => Some (match acc with None => y | Some m => Z.max m y end)) l None.

(** The row of [agg] of one artist, over the rows of [top]. *)
Definition aggOf (top : list numbered) (artist : string) : AggRow :=
  let rows := filter (fun x => String.eqb (artistOfRow x) artist) top in
  let years := distinct Z.eqb (yearsOfRows rows) [] in
  mkAggRow artist (Z.of_nat (List.length years)) (minimum (yearsOfRows rows))
           (maximum (yearsOfRows rows))
           (fold_left Z.add (map playsOfRow rows) 0).

(** [ORDER BY years_in_top DESC, plays_in_top_years DESC] *)
Definition ahead (a b : AggRow) : bool :=
  (years_in_top b <? years_in_top a)
  || ((years_in_top a =? years_in_top b)
      && (plays_in_top_years b <? plays_in_top_years a)).

(** The loop over [rows.Next()] with [rank := 1; ...; rank++]: [Scan]
    refuses a NULL [first_year] or [last_year]. *)
Fixpoint scanSignature (rank : Z) (rows : list AggRow) : result (list SignatureArtist) :=
  match rows with
  | [] => Ok []
  | g :: rest =>
      match first_year g, last_year g with
      | Some f, Some l =>
          match scanSignature (rank + 1) rest with
          | Ok out =>
              Ok (mkSignatureArtist rank (agg_artist g) (years_in_top g) f l
                                    (plays_in_top_years g) :: out)
          | Err e => Err e
          end
      | _, _ => Err (OtherError "sql: Scan error: converting NULL to int is unsupported")
      end
  end.

Section Year.

Variable yearOf : Z -> option Z.

(** The CTE [top]. *)
Definition top (db : list Row) : list numbered :=
  filter (fun x => rnk x <=? 20) (DigestYearly.ranked (yearly yearOf db)).

(** The CTE [agg], before its HAVING clause. *)
Definition agg (db : list Row) : list AggRow :=
  map (aggOf (top db)) (distinct String.eqb (map artistOfRow (top db)) []).

Definition signatureArtists (db : list Row) (minYears limit : Z)
  : result (list SignatureArtist) :=
  let kept := filter (fun g => minYears <=? years_in_top g) (agg db) in
  scanSignature 1 (SQLite.limit limit (Sort.SliceStable ahead kept)).

End Year.

End DigestSignature.

(* ================================================================== *)
(** * internal/digest: [Build], and [cmdDigest]                        *)
(* ================================================================== *)

Module DigestBuild.

Import Store.

Record Options := mkOptions {
  RecentLimit : Z;
  TopArtistsLimit : Z;
  TopTracksLimit : Z;
  TopAlbumsLimit : Z;
  YearlyTopArtistsPerYear : Z;
  SignatureLimit : Z;
  SignatureMinYears : Z
}.

Definition DefaultOptions : Options := mkOptions 150 25 50 40 10 50 5.

Record Digest := mkDigest {
  Meta : DigestMeta.Meta;
  Recent : list DigestMeta.Scrobble;
  Artists30d : list Digest.RankedArtist;
  Artists365d : list Digest.RankedArtist;
  Tracks30d : list Digest.RankedTrack;
  Albums30d : list Digest.RankedAlbum;
  Tracks180d : list Digest.RankedTrack;
  Albums180d : list Digest.RankedAlbum;
  YearlyTopArtists : list DigestYearly.YearlyArtist;
  SignatureArtists : list DigestSignature.SignatureArtist
}.

Section Run.

(** The wall clock of [GeneratedAt], the RFC 3339 text of a timestamp,
    the year SQLite gives a timestamp, and the time ['now'] stands for, which
    the statements of one run are taken to share. *)
Variable clock : Z.
Variable format : Z -> string.
Variable yearOf : Z -> option Z.
Variable now : Z.

(** [Build]. The statements of the lists from [recentScrobbles] to
    [resurfaceAlbums] scan columns that are never NULL into their
    variables: only [computeMeta], [yearlyTopArtists] and
    [signatureArtists] can return an error of their own. *)
Definition Build (db : list Row) (opt : Options) : result Digest :=
  if (RecentLimit opt <=? 0) || (1000 <? RecentLimit opt)
  then Err (OtherError "invalid RecentLimit")
  else
    match DigestMeta.computeMeta clock db with
    | Err e => Err e
    | Ok meta =>
        let recent := DigestMeta.recentScrobbles format db (RecentLimit opt) in
        let topArtists30d := Digest.topArtists db now (-30) (TopArtistsLimit opt) in
        let topArtists365d := Digest.topArtists db now (-365) (TopArtistsLimit opt) in
        let topTracks30d := Digest.topTracks db now (-30) (TopTracksLimit opt) in
        let topAlbums30d := DigestMeta.topAlbums db now (-30) (TopAlbumsLimit opt) in
        let resurfaceTracks180d :=
          Digest.resurfaceTracks db now (-180) (TopTracksLimit opt) in
        let resurfaceAlbums180d :=
          Digest.resurfaceAlbums db now (-180) (TopAlbumsLimit opt) in
        match DigestYearly.yearlyTopArtists yearOf db (YearlyTopArtistsPerYear opt) with
        | Err e => Err e
        | Ok yearlyTopArtists =>
            match DigestSignature.signatureArtists yearOf db (SignatureMinYears opt)
                                                   (SignatureLimit opt) with
            | Err e => Err e
            | Ok signatureArtists =>
                Ok (mkDigest meta recent topArtists30d topArtists365d topTracks30d
                             topAlbums30d resurfaceTracks180d resurfaceAlbums180d
                             yearlyTopArtists signatureArtists)
            end
        end
    end.

(** The exit code of [cmdDigest]; [EncodeJSON] and the write to the
    standard output are taken to succeed. *)
Definition cmdDigest (db : list Row) : Z :=
  match Build db DefaultOptions with
  | Err _ => 1
  | Ok _ => 0
  end.

End Run.

End DigestBuild.

(* ================================================================== *)
(** * cmd/lastfm-golang: [cmdRecommend]                                *)
(* ================================================================== *)

Module MainRecommend.

Import Lastfm Store.

Section Run.

Variable ToLower TrimSpace : string -> string.
Variable ParseFloat : string -> Q.
Variable rangeOrder : list (string * Recommend.agg) -> list (string * Recommend.agg).
Variable similar : string -> Z -> result (list SimilarArtist).
Variable toptracks : string -> Z -> result (list TopTrack).
Variable now : Z.

(** [EncodeJSON] returns no error for the output: [json.Marshal] refuses
    a score that is not a finite number. *)
Variable marshals : Recommend.Output -> bool.

(** The exit code of [cmdRecommend]: [None] is a panic of [Build]; the
    write to the standard output is taken to succeed. *)
Definition cmdRecommend (db : list Row) : option Z :=
  match snd (Recommend.Build ToLower TrimSpace ParseFloat rangeOrder similar toptracks
                             db now Recommend.DefaultOptions) with
  | None => None
  | Some (Err _) => Some 1
  | Some (Ok out) => if marshals out then Some 0 else Some 1
  end.

End Run.

End MainRecommend.

(* ================================================================== *)
(** * Checks of the embedded library functions                         *)
(* ================================================================== *)

Example sha256_abc :
  Strconv.EncodeToString (SHA256.Sum256 (SHA256.bytes_of_string "abc"))
  = "ba7816bf8f01cfea414140de5dae2223b00361a396177a9cb410ff61f20015ad"%string.
Proof. vm_compute. reflexivity. Qed.

Example sha256_empty :
  Strconv.EncodeToString (SHA256.Sum256 [])
  = "e3b0c44298fc1c149afbf4c8996fb92427ae41e4649b934ca495991b7852b855"%string.
Proof. vm_compute. reflexivity. Qed.

Example sha256_two_blocks :
  Strconv.EncodeToString (SHA256.Sum256 (SHA256.bytes_of_string
    "abcdbcdecdefdefgefghfghighijhijkijkljklmklmnlmnomnopnopq"))
  = "248d6a61d20638b8e5c026930c3e6039a33ce45964ff2167f6ecedd419db06c1"%string.
Proof. vm_compute. reflexivity. Qed.

(** The tuple of [TestStableSourceHashDeterministic], and a negative
    timestamp with an empty album. *)
Example hash_of_test_tuple :
  Store.StableSourceHash 123 "artist" "track" "album"
  = "43308564a6aabe124c17c30ae3f01601447ac5a7e4d60d1f99326c698e54a936"%string.
Proof. vm_compute. reflexivity. Qed.

Example hash_of_negative_tuple :
  Store.StableSourceHash (-5) "a" "b" ""
  = "9a7b93c9457d2cd230d6c57da4bf37518f47ad8d671723a303623f2c07907105"%string.
Proof. vm_compute. reflexivity. Qed.

Example ParseInt_examples :
  map Strconv.ParseInt
      ["1700000000"; "-5"; "+7"; ""; "-"; "12a"; "1_000"; " 1";
       "9223372036854775807"; "9223372036854775808";
       "-9223372036854775808"; "-9223372036854775809"]%string
  = [Some 1700000000; Some (-5); Some 7; None; None; None; None; None;
     Some 9223372036854775807; None;
     Some (-9223372036854775808); None].
Proof. vm_compute. reflexivity. Qed.

Example FormatInt_examples :
  map Strconv.FormatInt [0; 7; -5; 1700000000]
  = ["0"; "7"; "-5"; "1700000000"]%string.
Proof. vm_compute. reflexivity. Qed.

Example TrimSpace_ToLower_examples :
  map (fun s => GoStrings.ToLower (GoStrings.TrimSpace s))
      ["  The  Cure "; "ABBA"; "   "; "a b"]%string
  = ["the  cure"; "abba"; ""; "a b"]%string.
Proof. vm_compute. reflexivity. Qed.

Example SliceStable_example :
  Sort.SliceStable Z.ltb [3; 1; 2; 1; 0] = [0; 1; 1; 2; 3].
Proof. vm_compute. reflexivity. Qed.

(** SQLite compares an integer with a text numerically only when one side
    is a column of INTEGER affinity. *)
Example SQLite_comparisons :
  SQLite.lt (SQLite.VInt 500, SQLite.NONE) (SQLite.VText "40", SQLite.NONE) = true
  /\ SQLite.lt (SQLite.VInt 500, SQLite.INTEGER) (SQLite.VText "40", SQLite.NONE) = false
  /\ SQLite.ge (SQLite.VInt 500, SQLite.INTEGER) (SQLite.VText "40", SQLite.NONE) = true.
Proof. vm_compute. repeat split. Qed.

(* ================================================================== *)
(** * The dedup key                                                    *)
(* ================================================================== *)

Section DedupKey.

Import Store Spec.
Local Open Scope string_scope.

Lemma FormatInt_inj (a b : Z) :
  Strconv.FormatInt a = Strconv.FormatInt b -> a = b.
Proof.
  unfold Strconv.FormatInt. intros H.
  assert (E : Some (Z.to_int a) = Some (Z.to_int b)).
  { rewrite <- (NilEmpty.isi (Z.to_int a)), <- (NilEmpty.isi (Z.to_int b)).
    now rewrite H. }
  injection E as E.
  rewrite <- (DecimalZ.of_to a), <- (DecimalZ.of_to b). now rewrite E.
Qed.

Lemma string_of_uint_bar_free (u : Decimal.uint) :
  contains "|" (NilEmpty.string_of_uint u) = false.
Proof. induction u; simpl; auto. Qed.

Lemma FormatInt_bar_free (z : Z) : bar_free (Strconv.FormatInt z) = true.
Proof.
  unfold bar_free, Strconv.FormatInt.
  destruct (Z.to_int z); simpl; now rewrite string_of_uint_bar_free.
Qed.

Lemma contains_cons (c d : ascii) (s : string) :
  contains c (String d s) = Ascii.eqb c d || contains c s.
Proof. reflexivity. Qed.

(** A string is cut in one way only at its first separator. *)
Lemma split_at_bar (a b r1 r2 : string) :
  bar_free a = true -> bar_free b = true ->
  a ++ "|" ++ r1 = b ++ "|" ++ r2 -> a = b /\ r1 = r2.
Proof.
  unfold bar_free. revert b.
  induction a as [|c a IH]; intros [|d b] Ha Hb E; cbn [append] in E.
  - injection E as E. auto.
  - injection E as E1 E2. subst d.
    rewrite contains_cons, Ascii.eqb_refl in Hb. discriminate.
  - injection E as E1 E2. subst c.
    rewrite contains_cons, Ascii.eqb_refl in Ha. discriminate.
  - injection E as E1 E2. subst d.
    rewrite contains_cons in Ha, Hb.
    destruct (Ascii.eqb "|" c); cbn [orb] in Ha, Hb; try discriminate.
    destruct (IH b Ha Hb E2) as [-> ->]. auto.
Qed.

Lemma source_string_inj (t1 t2 : Z) (a1 k1 b1 a2 k2 b2 : string) :
  bar_free a1 = true -> bar_free k1 = true ->
  bar_free a2 = true -> bar_free k2 = true ->
  source_string t1 a1 k1 b1 = source_string t2 a2 k2 b2 ->
  (t1, a1, k1, b1) = (t2, a2, k2, b2).
Proof.
  unfold source_string. intros Ha1 Hk1 Ha2 Hk2 E.
  apply split_at_bar in E; try apply FormatInt_bar_free.
  destruct E as [Et E]. apply FormatInt_inj in Et.
  apply split_at_bar in E; trivial. destruct E as [Ea E].
  apply split_at_bar in E; trivial. destruct E as [Ek Eb].
  congruence.
Qed.

(** C1, as the code has it. [StableSourceHash] is a function of its four
    arguments: equal tuples have equal keys. The key is the SHA-256 digest,
    in hexadecimal, of the tuple joined with ["|"]; two tuples that differ
    in a field, and whose artist and track names do not contain ["|"], are
    joined into different strings (so that their keys can only coincide by a
    collision of SHA-256). *)
Theorem StableSourceHash_deterministic_and_separated
        (t1 t2 : Z) (a1 k1 b1 a2 k2 b2 : string) :
  ((t1, a1, k1, b1) = (t2, a2, k2, b2) ->
   StableSourceHash t1 a1 k1 b1 = StableSourceHash t2 a2 k2 b2)
  /\ StableSourceHash t1 a1 k1 b1
     = Strconv.EncodeToString
         (SHA256.Sum256 (SHA256.bytes_of_string (source_string t1 a1 k1 b1)))
  /\ (bar_free a1 = true -> bar_free k1 = true ->
      bar_free a2 = true -> bar_free k2 = true ->
      (t1, a1, k1, b1) <> (t2, a2, k2, b2) ->
      source_string t1 a1 k1 b1 <> source_string t2 a2 k2 b2).
Proof.
  split; [|split].
  - intros E. injection E as -> -> -> ->. reflexivity.
  - reflexivity.
  - intros Ha1 Hk1 Ha2 Hk2 Hne E. apply Hne.
    now apply source_string_inj.
Qed.

Lemma StableSourceHash_deterministic_and_separated_witness :
  StableSourceHash 123 "artist" "track" "album"
  = StableSourceHash 123 "artist" "track" "album"
  /\ source_string 123 "artist" "track" "album"
     <> source_string 124 "artist" "track" "album".
Proof.
  destruct (StableSourceHash_deterministic_and_separated
              123 124 "artist" "track" "album" "artist" "track" "album")
    as [_ [_ H]].
  split; [reflexivity|].
  apply H; try reflexivity. intros E. discriminate E.
Defined.

(** C1 as stated fails: the separator is not escaped, so two tuples that
    differ in their artist and track are joined into the same string and
    get the same key. *)
Lemma StableSourceHash_collision :
  (1, "a|b", "c", "d") <> (1, "a", "b|c", "d")
  /\ StableSourceHash 1 "a|b" "c" "d" = StableSourceHash 1 "a" "b|c" "d".
Proof.
  split.
  - intros E. discriminate E.
  - reflexivity.
Qed.

End DedupKey.

(* ================================================================== *)
(** * Insertion                                                        *)
(* ================================================================== *)

Section Insertion.

Import Lastfm Store Main Spec.

Lemma has_hash_app (h : string) (db1 db2 : list Row) :
  has_hash h (db1 ++ db2) = has_hash h db1 || has_hash h db2.
Proof. unfold has_hash. apply existsb_app. Qed.

Lemma insert_or_ignore_present (r : Row) (db : list Row) :
  has_hash (source_hash r) (fst (insert_or_ignore r db)) = true.
Proof.
  unfold insert_or_ignore.
  destruct (has_hash (source_hash r) db) eqn:E; simpl; trivial.
  rewrite has_hash_app. simpl. rewrite String.eqb_refl.
  now rewrite orb_true_r.
Qed.

Lemma insert_or_ignore_keeps (h : string) (r : Row) (db : list Row) :
  has_hash h db = true -> has_hash h (fst (insert_or_ignore r db)) = true.
Proof.
  unfold insert_or_ignore. intros H.
  destruct (has_hash (source_hash r) db); simpl; trivial.
  rewrite has_hash_app, H. reflexivity.
Qed.

Lemma InsertScrobble_stamped (t : Track) (n : Z) (db : list Row) :
  timestamp t = Some n ->
  InsertScrobble t db
  = if has_hash (source_hash (rowOf t n)) db
    then (db, Ok ignoredOnce)
    else (db ++ [rowOf t n], Ok (mkInsertResult 1 0)).
Proof.
  unfold timestamp, InsertScrobble, parseI64. intros H.
  destruct (Date_ t) as [d|]; [|discriminate].
  destruct (String.eqb (UTS d) ""); [discriminate|].
  rewrite H. fold (rowOf t n). unfold insert_or_ignore.
  destruct (has_hash (source_hash (rowOf t n)) db); reflexivity.
Qed.

Lemma InsertScrobble_unstamped (t : Track) (db : list Row) :
  wellformed t = true -> timestamp t = None ->
  InsertScrobble t db = (db, Ok ignoredOnce).
Proof.
  unfold wellformed, timestamp, InsertScrobble, parseI64. intros W H.
  destruct (Date_ t) as [d|]; [|reflexivity].
  destruct (String.eqb (UTS d) ""); [reflexivity|].
  destruct (Strconv.ParseInt (UTS d)); discriminate.
Qed.

Lemma InsertScrobble_keeps (h : string) (t : Track) (db : list Row) :
  has_hash h db = true -> has_hash h (fst (InsertScrobble t db)) = true.
Proof.
  intros H. unfold InsertScrobble.
  destruct (Date_ t) as [d|]; trivial.
  destruct (String.eqb (UTS d) ""); trivial.
  destruct (parseI64 (UTS d)) as [n|e]; trivial.
  match goal with
  | |- context [insert_or_ignore ?r db] =>
      pose proof (insert_or_ignore_keeps h r db H) as K;
      destruct (insert_or_ignore r db) as [db' k]
  end.
  simpl in K. destruct (k =? 0); exact K.
Qed.

Lemma insertOne_DB (t : Track) (s : Store) :
  DB (fst (insertOne t s)) = fst (InsertScrobble t (DB s)).
Proof.
  unfold insertOne. destruct (InsertScrobble t (DB s)) as [db [res|e]]; simpl; trivial.
  destruct (0 <? Inserted res); reflexivity.
Qed.

Lemma insertOne_keeps (h : string) (t : Track) (s : Store) :
  has_hash h (DB s) = true -> has_hash h (DB (fst (insertOne t s))) = true.
Proof. rewrite insertOne_DB. apply InsertScrobble_keeps. Qed.

Lemma insertAll_keeps (h : string) (ts : list Track) (s : Store) :
  has_hash h (DB s) = true -> has_hash h (DB (insertAll ts s)) = true.
Proof.
  revert s. induction ts as [|t ts IH]; intros s H; simpl; trivial.
  apply IH. now apply insertOne_keeps.
Qed.

(** Once an event went through, its key is in the table. *)
Lemma insertOne_present (t : Track) (n : Z) (s : Store) :
  timestamp t = Some n ->
  has_hash (source_hash (rowOf t n)) (DB (fst (insertOne t s))) = true.
Proof.
  intros H. rewrite insertOne_DB, (InsertScrobble_stamped t n _ H).
  destruct (has_hash (source_hash (rowOf t n)) (DB s)) eqn:E; simpl; trivial.
  rewrite has_hash_app. simpl. rewrite String.eqb_refl. now rewrite orb_true_r.
Qed.

Lemma insertAll_present (t : Track) (n : Z) (ts : list Track) (s : Store) :
  In t ts -> timestamp t = Some n ->
  has_hash (source_hash (rowOf t n)) (DB (insertAll ts s)) = true.
Proof.
  revert s. induction ts as [|t' ts IH]; intros s Hin Ht; simpl.
  - destruct Hin.
  - destruct Hin as [->|Hin].
    + apply insertAll_keeps. now apply insertOne_present.
    + now apply IH.
Qed.

(** An event whose key is in the table changes nothing. *)
Lemma insertOne_known (t : Track) (n : Z) (s : Store) :
  timestamp t = Some n ->
  has_hash (source_hash (rowOf t n)) (DB s) = true ->
  insertOne t s = (s, Ok ignoredOnce).
Proof.
  intros Ht H. unfold insertOne.
  rewrite (InsertScrobble_stamped t n _ Ht), H. simpl. now destruct s.
Qed.

Lemma wellformed_cases (t : Track) :
  wellformed t = true -> (exists n, timestamp t = Some n) \/ timestamp t = None.
Proof.
  unfold wellformed, timestamp. destruct (Date_ t) as [d|]; auto.
  destruct (String.eqb (UTS d) ""); auto.
  destruct (Strconv.ParseInt (UTS d)); eauto.
Qed.

Lemma insertOne_wellformed (t : Track) (s : Store) :
  wellformed t = true -> exists res, snd (insertOne t s) = Ok res.
Proof.
  intros W. unfold insertOne.
  destruct (wellformed_cases t W) as [[n Hn]|Hn].
  - rewrite (InsertScrobble_stamped t n _ Hn).
    destruct (has_hash _ _); simpl; eauto.
  - rewrite (InsertScrobble_unstamped t _ W Hn). simpl. eauto.
Qed.

(** The track loops on events that cannot fail. *)
Lemma backfillTracks_wellformed (ts : list Track) (st : Progress) :
  forallb wellformed ts = true ->
  snd (backfillTracks ts st) = None
  /\ store (fst (backfillTracks ts st)) = insertAll ts (store st)
  /\ stop (fst (backfillTracks ts st)) = stop st.
Proof.
  revert st. induction ts as [|t ts IH]; intros st W; simpl in *; auto.
  apply andb_prop in W. destruct W as [Wt W].
  destruct (insertOne_wellformed t (store st) Wt) as [res Hres].
  destruct (insertOne t (store st)) as [s' r] eqn:E. simpl in Hres. subst r.
  simpl. destruct (IH (mkProgress s' (inserted st + Inserted res)
                                  (ignored st + Ignored res) (stop st)) W)
    as [H1 [H2 H3]].
  auto.
Qed.

Lemma syncTracks_wellformed (maxSeen : Z) (ts : list Track) (st : Progress) :
  forallb wellformed ts = true ->
  snd (syncTracks maxSeen ts st) = None
  /\ store (fst (syncTracks maxSeen ts st)) = insertAll ts (store st)
  /\ stop (fst (syncTracks maxSeen ts st))
     = stop st || existsb (reachesWatermark maxSeen) ts.
Proof.
  revert st. induction ts as [|t ts IH]; intros st W; simpl in *.
  - now rewrite orb_false_r.
  - apply andb_prop in W. destruct W as [Wt W].
    destruct (insertOne_wellformed t (store st) Wt) as [res Hres].
    destruct (insertOne t (store st)) as [s' r] eqn:E. simpl in Hres. subst r.
    simpl.
    destruct (IH (mkProgress s' (inserted st + Inserted res)
                             (ignored st + Ignored res)
                             (if reachesWatermark maxSeen t then true else stop st)) W)
      as [H1 [H2 H3]].
    repeat split; trivial. rewrite H3. simpl.
    destruct (reachesWatermark maxSeen t), (stop st); reflexivity.
Qed.

(** The track loop on events whose keys are all in the table. *)
Lemma backfillTracks_known (ts : list Track) (st : Progress) :
  Forall (fun t => insertOne t (store st) = (store st, Ok ignoredOnce)) ts ->
  backfillTracks ts st
  = (mkProgress (store st) (inserted st) (ignored st + Z.of_nat (List.length ts))
                (stop st), None).
Proof.
  revert st. induction ts as [|t ts IH]; intros st H.
  - simpl. rewrite Z.add_0_r. now destruct st.
  - inversion H as [|? ? Ht Hts]; subst.
    cbn [backfillTracks]. rewrite Ht.
    rewrite IH; simpl; trivial.
    f_equal. f_equal; lia.
Qed.

Lemma syncTracks_known (maxSeen : Z) (ts : list Track) (st : Progress) :
  Forall (fun t => insertOne t (store st) = (store st, Ok ignoredOnce)) ts ->
  syncTracks maxSeen ts st
  = (mkProgress (store st) (inserted st) (ignored st + Z.of_nat (List.length ts))
                (stop st || existsb (reachesWatermark maxSeen) ts), None).
Proof.
  revert st. induction ts as [|t ts IH]; intros st H.
  - simpl. rewrite Z.add_0_r, orb_false_r. now destruct st.
  - inversion H as [|? ? Ht Hts]; subst.
    cbn [syncTracks]. rewrite Ht.
    rewrite IH; simpl; trivial.
    f_equal. f_equal; try lia.
    destruct (reachesWatermark maxSeen t), (stop st); reflexivity.
Qed.

(** C2. Whatever the store holds, a sequence of events that carry a
    timestamp goes through the insert loop without error, and a second
    pass over the same sequence finds every key in the table: each insert
    answers inserted=0, ignored=1 without error, appends no raw envelope,
    and the loops of both commands end on the same store (table and raw
    log) with no new insert counted and every event counted as ignored. *)
Theorem insert_twice_is_idempotent (s : Store) (ts : list Track) :
  forallb stamped ts = true ->
  exists st1,
    backfillTracks ts (mkProgress s 0 0 false) = (st1, None)
    /\ (forall t, In t ts ->
         InsertScrobble t (DB (store st1))
         = (DB (store st1), Ok (mkInsertResult 0 1))
         /\ insertOne t (store st1) = (store st1, Ok (mkInsertResult 0 1)))
    /\ backfillTracks ts (mkProgress (store st1) 0 0 false)
       = (mkProgress (store st1) 0 (Z.of_nat (List.length ts)) false, None)
    /\ (forall maxSeen,
         exists flag,
           syncTracks maxSeen ts (mkProgress (store st1) 0 0 false)
           = (mkProgress (store st1) 0 (Z.of_nat (List.length ts)) flag, None))
    /\ MaxPlayedAtUTS (DB (insertAll ts (store st1))) = MaxPlayedAtUTS (DB (store st1))
    /\ List.length (DB (insertAll ts (store st1))) = List.length (DB (store st1)).
Proof.
  intros Hst.
  assert (W : forallb wellformed ts = true).
  { rewrite forallb_forall in *. intros t Ht. specialize (Hst t Ht).
    unfold stamped, timestamp in Hst. unfold wellformed.
    destruct (Date_ t) as [d|]; trivial.
    destruct (String.eqb (UTS d) ""); trivial. }
  destruct (backfillTracks_wellformed ts (mkProgress s 0 0 false) W) as [H1 [H2 _]].
  destruct (backfillTracks ts (mkProgress s 0 0 false)) as [st1 err] eqn:E.
  simpl in H1, H2. subst err. exists st1.
  assert (K : forall t, In t ts ->
              insertOne t (store st1) = (store st1, Ok ignoredOnce)).
  { intros t Ht. rewrite forallb_forall in Hst. specialize (Hst t Ht).
    unfold stamped in Hst. destruct (timestamp t) as [n|] eqn:Hn; [|discriminate].
    apply (insertOne_known t n); trivial.
    rewrite H2. simpl. now apply insertAll_present. }
  assert (KF : Forall (fun t => insertOne t (store st1) = (store st1, Ok ignoredOnce)) ts).
  { now apply Forall_forall. }
  assert (KA : insertAll ts (store st1) = store st1).
  { clear - KF. unfold insertAll. induction KF as [|t l Ht _ IH]; simpl; trivial.
    now rewrite Ht. }
  split; [reflexivity|]. split; [|split; [|split; [|split]]].
  - intros t Ht. split; [|now apply K].
    pose proof (insertOne_DB t (store st1)) as D. rewrite (K t Ht) in D. simpl in D.
    rewrite forallb_forall in Hst. specialize (Hst t Ht).
    unfold stamped in Hst. destruct (timestamp t) as [n|] eqn:Hn; [|discriminate].
    rewrite (InsertScrobble_stamped t n _ Hn) in *.
    destruct (has_hash (source_hash (rowOf t n)) (DB (store st1))); trivial.
    simpl in D. exfalso. apply (f_equal (@List.length Row)) in D.
    rewrite length_app in D. simpl in D. lia.
  - now rewrite (backfillTracks_known ts (mkProgress (store st1) 0 0 false)).
  - intros maxSeen. eexists.
    now rewrite (syncTracks_known maxSeen ts (mkProgress (store st1) 0 0 false)).
  - now rewrite KA.
  - now rewrite KA.
Qed.

Lemma insert_twice_is_idempotent_witness :
  exists st1,
    backfillTracks Sample.threeEvents (mkProgress Sample.emptyStore 0 0 false)
    = (st1, None)
    /\ backfillTracks Sample.threeEvents (mkProgress (store st1) 0 0 false)
       = (mkProgress (store st1) 0 3 false, None).
Proof.
  destruct (insert_twice_is_idempotent Sample.emptyStore Sample.threeEvents)
    as [st1 [H1 [_ [H2 _]]]].
  - reflexivity.
  - exists st1. split; [exact H1 | exact H2].
Defined.

(** C6. An event without a timestamp ([Date] nil, or an empty [UTS]) is
    counted as ignored, without error, and the table is left as it was; so
    is the raw log by the loops that call the insert. An event whose
    timestamp is not an integer makes the insert return an error, and again
    neither the table nor the raw log changes. *)
Theorem InsertScrobble_without_usable_timestamp (t : Track) (s : Store) :
  ((Date_ t = None \/ (exists d, Date_ t = Some d /\ UTS d = ""%string)) ->
   InsertScrobble t (DB s) = (DB s, Ok (mkInsertResult 0 1))
   /\ insertOne t s = (s, Ok (mkInsertResult 0 1)))
  /\ (forall d, Date_ t = Some d -> UTS d <> ""%string ->
      Strconv.ParseInt (UTS d) = None ->
      exists e, InsertScrobble t (DB s) = (DB s, Err e)
                /\ insertOne t s = (s, Err e)).
Proof.
  split.
  - intros H.
    assert (E : InsertScrobble t (DB s) = (DB s, Ok (mkInsertResult 0 1))).
    { unfold InsertScrobble. destruct H as [->|[d [-> ->]]]; reflexivity. }
    split; trivial. unfold insertOne. rewrite E. simpl. now destruct s.
  - intros d Hd Hne Hp. exists (NumError (UTS d)).
    assert (E : InsertScrobble t (DB s) = (DB s, Err (NumError (UTS d)))).
    { unfold InsertScrobble, parseI64. rewrite Hd, Hp.
      apply String.eqb_neq in Hne. now rewrite Hne. }
    split; trivial. unfold insertOne. rewrite E. now destruct s.
Qed.

Lemma InsertScrobble_without_usable_timestamp_witness :
  InsertScrobble (Sample.nowPlaying "C" "z") (DB Sample.syncedStore)
  = (DB Sample.syncedStore, Ok (mkInsertResult 0 1))
  /\ exists e,
      insertOne (Sample.played "A" "x" "" "12a") Sample.syncedStore
      = (Sample.syncedStore, Err e).
Proof.
  split.
  - exact (proj1 (proj1 (InsertScrobble_without_usable_timestamp
                           (Sample.nowPlaying "C" "z") Sample.syncedStore)
                        (or_introl eq_refl))).
  - destruct (proj2 (InsertScrobble_without_usable_timestamp
                       (Sample.played "A" "x" "" "12a") Sample.syncedStore)
                    (mkDate "12a" "")) as [e [_ He]].
    + reflexivity.
    + intros E. discriminate E.
    + reflexivity.
    + exists e. exact He.
Defined.

End Insertion.

(* ================================================================== *)
(** * The retry wrapper                                                *)
(* ================================================================== *)

Section Retry.

Import Lastfm Main Spec.

Lemma IsRetryable_spec (e : error) : IsRetryable e = true <-> retryable e.
Proof.
  unfold retryable. destruct e as [code body|code msg|msg|input|]; simpl.
  - destruct (500 <=? code) eqn:E1; [|destruct (code =? 429) eqn:E2].
    + split; trivial. intros _. left. exists code, body. split; trivial. left. lia.
    + split; trivial. intros _. left. exists code, body. split; trivial. right. lia.
    + split; [discriminate|].
      intros [[c [b [E [H|H]]]]|[m E]]; try discriminate; injection E as <- <-; lia.
  - destruct (code =? 29) eqn:E1.
    + split; trivial. intros _. right. exists msg. f_equal. lia.
    + split; [discriminate|].
      intros [[c [b [E _]]]|[m E]]; try discriminate. injection E as -> _. lia.
  - split; [discriminate|]. intros [[c [b [E _]]]|[m E]]; discriminate.
  - split; [discriminate|]. intros [[c [b [E _]]]|[m E]]; discriminate.
  - split; [discriminate|]. intros [[c [b [E _]]]|[m E]]; discriminate.
Qed.

Lemma backoffs_sorted (n : nat) : Sorted Z.le (firstn n backoffs).
Proof.
  do 8 (destruct n as [|n]; [repeat constructor; discriminate|]).
  repeat constructor; discriminate.
Qed.

Lemma backoffs_capped (n : nat) :
  Forall (fun d => d <= 32 * Second) (firstn n backoffs).
Proof.
  do 8 (destruct n as [|n]; [repeat constructor; discriminate|]).
  repeat constructor; discriminate.
Qed.

(** The loop, over any list of attempt numbers that ends with, and only
    contains once, the last attempt allowed: it stops at the first attempt
    that succeeds, fails for good, or is the last. *)
Lemma retryLoop_run {A : Type} (cap limit : Z) (call : Z -> result A) :
  forall (attempts : list Z) (made backoff : Z) (sleeps : list Z),
    attempts <> [] ->
    last attempts 0 = cap ->
    Forall (fun x => x <> cap) (removelast attempts) ->
    let r := retryLoop cap limit call attempts made backoff sleeps in
    exists k,
      (k < List.length attempts)%nat
      /\ rr_attempts r = nth k attempts 0
      /\ rr_result r = call (nth k attempts 0)
      /\ rr_sleeps r = sleeps ++ delays limit k backoff
      /\ (forall j, (j < k)%nat ->
          exists e, call (nth j attempts 0) = Err e /\ IsRetryable e = true)
      /\ (forall e, rr_result r = Err e ->
          IsRetryable e = false \/ nth k attempts 0 = cap).
Proof.
  induction attempts as [|a rest IH]; intros made backoff sleeps Hne Hlast Hinner.
  - contradiction.
  - cbn [retryLoop]. destruct (call a) as [p|e] eqn:Hc.
    + exists 0%nat. cbn. rewrite app_nil_r, Hc.
      repeat split; try lia; try easy.
    + destruct (negb (IsRetryable e) || (a =? cap)) eqn:Hstop.
      * exists 0%nat. cbn. rewrite app_nil_r, Hc.
        repeat split; try lia; try easy.
        intros x Hx. injection Hx as <-.
        apply orb_prop in Hstop. destruct Hstop as [H|H].
        -- left. now apply negb_true_iff.
        -- right. lia.
      * apply orb_false_elim in Hstop. destruct Hstop as [Hr Ha].
        apply negb_false_iff in Hr. apply Z.eqb_neq in Ha.
        destruct rest as [|b rest'].
        { simpl in Hlast. contradiction. }
        assert (Hne' : b :: rest' <> []) by discriminate.
        assert (Hlast' : last (b :: rest') 0 = cap) by exact Hlast.
        assert (Hinner' : Forall (fun x => x <> cap) (removelast (b :: rest'))).
        { change (removelast (a :: b :: rest')) with (a :: removelast (b :: rest'))
            in Hinner.
          now inversion Hinner. }
        destruct (IH a (if backoff <? limit then backoff * 2 else backoff)
                     (sleeps ++ [backoff]) Hne' Hlast' Hinner')
          as [k [Hk [H1 [H2 [H3 [H4 H5]]]]]].
        cbv zeta in H1, H2, H3, H5.
        exists (S k). cbn [nth List.length delays].
        split; [cbn [List.length] in Hk |- *; lia|].
        split; [exact H1|]. split; [exact H2|].
        split; [rewrite H3, <- app_assoc; reflexivity|].
        split; [|exact H5].
        intros [|j] Hj.
        -- exists e. now split.
        -- apply H4. lia.
Qed.

Lemma delays_backoffs (k : nat) :
  (k < 8)%nat -> delays (30 * Second) k (1 * Second) = firstn k backoffs.
Proof.
  intros H. do 8 (destruct k as [|k]; [reflexivity|]). lia.
Qed.

(** What every run of the wrapper of the page fetch does: it returns the
    answer of the last attempt it made, and has slept the first delays of
    [backoffs] in between. *)
Lemma getPageWithRetry_run (call : Z -> result Page) :
  let r := getPageWithRetry call in
  1 <= rr_attempts r <= maxAttempts
  /\ rr_result r = call (rr_attempts r)
  /\ rr_sleeps r = firstn (Z.to_nat (rr_attempts r - 1)) backoffs
  /\ (forall i, 1 <= i < rr_attempts r ->
      exists e, call i = Err e /\ IsRetryable e = true)
  /\ (forall e, rr_result r = Err e ->
      IsRetryable e = false \/ rr_attempts r = maxAttempts).
Proof.
  unfold getPageWithRetry, withRetry.
  destruct (retryLoop_run maxAttempts (30 * Second) call
              (attemptNumbers maxAttempts) 0 (1 * Second) [])
    as [k [Hk [H1 [H2 [H3 [H4 H5]]]]]].
  - discriminate.
  - reflexivity.
  - repeat constructor; discriminate.
  - change (List.length (attemptNumbers maxAttempts)) with 8%nat in Hk.
    assert (Hn : forall j, (j < 8)%nat ->
                 nth j (attemptNumbers maxAttempts) 0 = Z.of_nat j + 1).
    { intros j Hj. do 8 (destruct j as [|j]; [reflexivity|]). lia. }
    cbv zeta in *. rewrite (Hn k Hk) in *. unfold maxAttempts in *.
    rewrite H1, H2, H3.
    split; [lia|]. split; [reflexivity|]. split; [|split].
    + cbn [app].
      replace (Z.to_nat (Z.of_nat k + 1 - 1)) with k by lia.
      now apply delays_backoffs.
    + intros i Hi.
      destruct (H4 (Z.to_nat (i - 1))) as [e He]; [lia|].
      rewrite Hn in He by lia.
      replace (Z.of_nat (Z.to_nat (i - 1)) + 1) with i in He by lia.
      now exists e.
    + intros e He. rewrite H2 in H5. destruct (H5 e He); auto.
Qed.

(** C5. If the first [N] calls fail with retryable errors and the next one
    succeeds, the wrapper makes [N + 1] attempts exactly when [N] is below
    the cap of 8 attempts, and then returns the page; with [N] at or above
    the cap it makes 8 attempts and returns the error of the eighth. The
    delays slept are the first ones of 1, 2, 4, 8, 16, 32, 32 seconds:
    non-decreasing and at most 32 seconds. Whatever the calls answer, the
    value returned is the answer of the last call made (never the synthetic
    error that follows the loop), an error is returned only when it is not
    retryable or when it is the one of the eighth attempt, and every call
    before the last one made failed with a retryable error: an error that
    is not retryable ends the loop at once, and is returned without a
    further call or sleep. The retryable errors are exactly HTTP statuses
    from 500 on, HTTP 429 and the API error 29. *)
Theorem getPageWithRetry_bound (call : Z -> result Page) (N : Z) (p : Page) :
  0 <= N ->
  (forall i, 1 <= i <= N -> exists e, call i = Err e /\ retryable e) ->
  call (N + 1) = Ok p ->
  let r := getPageWithRetry call in
  (rr_attempts r = N + 1 <-> N < maxAttempts)
  /\ (N < maxAttempts ->
      rr_result r = Ok p /\ rr_sleeps r = firstn (Z.to_nat N) backoffs)
  /\ (maxAttempts <= N ->
      rr_attempts r = maxAttempts
      /\ exists e, call maxAttempts = Err e /\ rr_result r = Err e)
  /\ Sorted Z.le (rr_sleeps r)
  /\ Forall (fun d => d <= 32 * Second) (rr_sleeps r)
  /\ (forall call' : Z -> result Page,
      let r' := getPageWithRetry call' in
      rr_result r' = call' (rr_attempts r')
      /\ 1 <= rr_attempts r' <= maxAttempts
      /\ (forall e, rr_result r' = Err e ->
                    ~ retryable e \/ rr_attempts r' = maxAttempts)
      /\ (forall i, 1 <= i < rr_attempts r' ->
                    exists e, call' i = Err e /\ retryable e)
      /\ rr_sleeps r' = firstn (Z.to_nat (rr_attempts r' - 1)) backoffs)
  /\ (forall e, IsRetryable e = true <-> retryable e)
  /\ (forall (call' : Z -> result Page) (i : Z) (e : error),
      1 <= i <= maxAttempts ->
      (forall j, 1 <= j < i -> exists e', call' j = Err e' /\ retryable e') ->
      call' i = Err e ->
      ~ retryable e ->
      let r' := getPageWithRetry call' in
      rr_attempts r' = i
      /\ rr_result r' = Err e
      /\ rr_sleeps r' = firstn (Z.to_nat (i - 1)) backoffs).
Proof.
  intros HN Hfail Hok r.
  destruct (getPageWithRetry_run call) as [Hb [Hres [Hsl [Hprev Hstop]]]].
  fold r in Hb, Hres, Hsl, Hprev, Hstop.
  assert (Hcase : (N < maxAttempts /\ rr_attempts r = N + 1)
                  \/ (maxAttempts <= N /\ rr_attempts r = maxAttempts)).
  { destruct (Z_lt_le_dec N maxAttempts) as [Hlt|Hge].
    - left. split; trivial.
      destruct (Z_lt_le_dec (rr_attempts r) (N + 1)) as [Hl|Hg].
      + destruct (Hfail (rr_attempts r)) as [e [He Hre]]; [lia|].
        destruct (Hstop e) as [Hs|Hs]; [congruence| |lia].
        apply IsRetryable_spec in Hre. congruence.
      + destruct (Z.eq_dec (rr_attempts r) (N + 1)) as [|Hne]; trivial.
        destruct (Hprev (N + 1)) as [e [He _]]; [lia|]. congruence.
    - right. split; trivial.
      destruct (Z.eq_dec (rr_attempts r) maxAttempts) as [|Hne]; trivial.
      destruct (Hfail (rr_attempts r)) as [e [He Hre]]; [lia|].
      destruct (Hstop e) as [Hs|Hs]; [congruence| |lia].
      apply IsRetryable_spec in Hre. congruence. }
  split; [|split; [|split; [|split; [|split; [|split; [|split]]]]]].
  - unfold maxAttempts in *. split; intros H; destruct Hcase as [[? ?]|[? ?]]; lia.
  - intros Hlt. destruct Hcase as [[_ Ha]|[? _]]; [|lia].
    rewrite Hres, Hsl, Ha. split; trivial.
    f_equal. lia.
  - intros Hge. destruct Hcase as [[? _]|[_ Ha]]; [lia|].
    split; trivial.
    destruct (Hfail maxAttempts) as [e [He _]]; [unfold maxAttempts in *; lia|].
    exists e. split; trivial. now rewrite Hres, Ha.
  - rewrite Hsl. apply backoffs_sorted.
  - rewrite Hsl. apply backoffs_capped.
  - intros call' r'.
    destruct (getPageWithRetry_run call') as [Hb' [Hres' [Hsl' [Hprev' Hstop']]]].
    fold r' in Hb', Hres', Hsl', Hprev', Hstop'.
    split; [exact Hres'|]. split; [exact Hb'|]. split; [|split; [|exact Hsl']].
    + intros e He. destruct (Hstop' e He) as [H|H]; auto.
      left. intros Hr. apply IsRetryable_spec in Hr. congruence.
    + intros i Hi. destruct (Hprev' i Hi) as [e [He Hr]].
      exists e. split; [exact He|]. apply IsRetryable_spec. exact Hr.
  - apply IsRetryable_spec.
  - intros call' i e Hi Hearlier Hcall Hnot r'.
    destruct (getPageWithRetry_run call') as [Hb' [Hres' [Hsl' [Hprev' Hstop']]]].
    fold r' in Hb', Hres', Hsl', Hprev', Hstop'.
    assert (Ha : rr_attempts r' = i).
    { destruct (Z_lt_le_dec (rr_attempts r') i) as [Hl|Hg].
      - exfalso.
        destruct (Hearlier (rr_attempts r')) as [e' [He' Hr']]; [lia|].
        destruct (Hstop' e') as [Hs|Hs]; [congruence| |lia].
        apply IsRetryable_spec in Hr'. congruence.
      - destruct (Z.eq_dec (rr_attempts r') i) as [|Hne]; trivial.
        exfalso. destruct (Hprev' i) as [e' [He' Hr']]; [lia|].
        apply Hnot. apply IsRetryable_spec. congruence. }
    split; [exact Ha|]. split; [rewrite Hres', Ha; exact Hcall|].
    rewrite Hsl', Ha. reflexivity.
Qed.

Lemma getPageWithRetry_bound_witness :
  let r := getPageWithRetry (Sample.flaky 2 (mkPage [] 1 1 0)) in
  let r' := getPageWithRetry (fun _ => Err (HTTPError 403 "forbidden")) in
  rr_attempts r = 3 /\ rr_result r = Ok (mkPage [] 1 1 0)
  /\ rr_sleeps r = [1 * Second; 2 * Second]
  /\ rr_attempts r' = 1 /\ rr_result r' = Err (HTTPError 403 "forbidden")
  /\ rr_sleeps r' = [].
Proof.
  destruct (getPageWithRetry_bound (Sample.flaky 2 (mkPage [] 1 1 0)) 2
                                   (mkPage [] 1 1 0))
    as [H1 [H2 [_ [_ [_ [_ [_ H8]]]]]]].
  - lia.
  - intros i Hi. exists (HTTPError 503 "unavailable"). split.
    + unfold Sample.flaky. destruct (i <=? 2) eqn:E; [reflexivity|lia].
    + left. exists 503, "unavailable"%string. split; [reflexivity|lia].
  - reflexivity.
  - cbv zeta. split; [apply H1; reflexivity|].
    split; [apply H2; reflexivity|]. split; [apply H2; reflexivity|].
    apply (H8 (fun _ => Err (HTTPError 403 "forbidden")) 1 (HTTPError 403 "forbidden")).
    + unfold maxAttempts. lia.
    + intros j Hj. lia.
    + reflexivity.
    + intros [[c [b [E [H|H]]]]|[m E]]; [injection E as <- _; lia ..|discriminate].
Defined.

End Retry.

(* ================================================================== *)
(** * The page walks                                                   *)
(* ================================================================== *)

Section Walks.

Import Lastfm Store Main Spec.

Variable remote : Remote.

Lemma pageNumbers_S (first : Z) (n : nat) :
  pageNumbers first (S n) = first :: pageNumbers (first + 1) n.
Proof.
  unfold pageNumbers. cbn [seq map]. f_equal; [lia|].
  rewrite <- seq_shift, map_map. apply map_ext. intros i. lia.
Qed.

Lemma pageNumbers_snoc (first : Z) (n : nat) :
  pageNumbers first (S n) = pageNumbers first n ++ [first + Z.of_nat n].
Proof.
  unfold pageNumbers. rewrite seq_S, map_app. reflexivity.
Qed.

Lemma serves_head (first : Z) (p : Page) (pgs : list Page) :
  serves remote first (p :: pgs) -> fetch remote first = Ok p.
Proof.
  intros H. specialize (H 0%nat p eq_refl). now rewrite Z.add_0_r in H.
Qed.

Lemma serves_tail (first : Z) (p : Page) (pgs : list Page) :
  serves remote first (p :: pgs) -> serves remote (first + 1) pgs.
Proof.
  intros H i q Hq. specialize (H (S i) q Hq).
  now replace (first + 1 + Z.of_nat i) with (first + Z.of_nat (S i)) by lia.
Qed.

Lemma events_cons (p : Page) (pgs : list Page) :
  events (p :: pgs) = Tracks p ++ events pgs.
Proof. reflexivity. Qed.

Lemma events_app (a b : list Page) : events (a ++ b) = events a ++ events b.
Proof. unfold events. now rewrite map_app, concat_app. Qed.

Lemma insertAll_app (a b : list Track) (s : Store) :
  insertAll (a ++ b) s = insertAll b (insertAll a s).
Proof. unfold insertAll. apply fold_left_app. Qed.

Lemma syncTracks_app (maxSeen : Z) (a b : list Track) (st : Progress) :
  snd (syncTracks maxSeen a st) = None ->
  syncTracks maxSeen (a ++ b) st = syncTracks maxSeen b (fst (syncTracks maxSeen a st)).
Proof.
  revert st. induction a as [|t a IH]; intros st H; simpl in *; trivial.
  destruct (insertOne t (store st)) as [s' [res|e]]; simpl in *.
  - now apply IH.
  - discriminate.
Qed.

Lemma backfillTracks_app (a b : list Track) (st : Progress) :
  snd (backfillTracks a st) = None ->
  backfillTracks (a ++ b) st = backfillTracks b (fst (backfillTracks a st)).
Proof.
  revert st. induction a as [|t a IH]; intros st H; simpl in *; trivial.
  destruct (insertOne t (store st)) as [s' [res|e]]; simpl in *.
  - now apply IH.
  - discriminate.
Qed.

Lemma reachesWatermark_atOrBelow (w : Z) (t : Track) :
  w <> 0 -> reachesWatermark w t = atOrBelow w t.
Proof.
  intros Hw. unfold reachesWatermark, atOrBelow, timestamp, parseI64.
  destruct (Date_ t) as [d|]; trivial.
  destruct (String.eqb (UTS d) ""); trivial.
  destruct (Strconv.ParseInt (UTS d)); trivial.
  apply Z.eqb_neq in Hw. now rewrite Hw.
Qed.

Lemma reachesWatermark_zero (t : Track) : reachesWatermark 0 t = false.
Proof.
  unfold reachesWatermark.
  destruct (Date_ t) as [d|]; trivial.
  destruct (String.eqb (UTS d) ""); trivial.
  destruct (parseI64 (UTS d)); trivial.
Qed.

Lemma existsb_ext_in {A : Type} (f g : A -> bool) (l : list A) :
  (forall x, f x = g x) -> existsb f l = existsb g l.
Proof. intros H. induction l as [|x l IH]; simpl; trivial. now rewrite H, IH. Qed.

Lemma walkable_cons (p : Page) (pgs : list Page) :
  walkable (p :: pgs) ->
  Tracks p <> [] /\ forallb wellformed (Tracks p) = true /\ walkable pgs.
Proof. intros H. inversion H as [|? ? [H1 H2] H3]; subst. auto. Qed.

(** One turn of the page loop of [cmdSync] on a page that is not empty
    and whose events cannot fail. *)
Lemma syncLoop_turn (fuel : nat) (maxSeen page : Z) (pages : list Z)
      (st : Progress) (p : Page) :
  fetch remote page = Ok p ->
  Tracks p <> [] -> forallb wellformed (Tracks p) = true ->
  syncLoop (S fuel) remote maxSeen page pages st
  = let st' := fst (syncTracks maxSeen (Tracks p) st) in
    if stop st' then mkRun (Some 0) (pages ++ [page]) st'
    else syncLoop fuel remote maxSeen (page + 1) (pages ++ [page]) st'.
Proof.
  intros Hf Hne Hw. cbn [syncLoop]. rewrite Hf.
  destruct (syncTracks_wellformed maxSeen (Tracks p) st Hw) as [He _].
  destruct (Tracks p) as [|t ts] eqn:Et; [contradiction|].
  destruct (syncTracks maxSeen (t :: ts) st) as [st' err]. simpl in He. subst err.
  reflexivity.
Qed.

Lemma syncLoop_walk (maxSeen : Z) (pgs : list Page) :
  forall (fuel : nat) (page : Z) (pages : list Z) (st : Progress),
    serves remote page pgs -> walkable pgs ->
    existsb (reachesWatermark maxSeen) (events pgs) = false ->
    stop st = false ->
    syncLoop (List.length pgs + fuel) remote maxSeen page pages st
    = syncLoop fuel remote maxSeen (page + Z.of_nat (List.length pgs))
               (pages ++ pageNumbers page (List.length pgs))
               (fst (syncTracks maxSeen (events pgs) st)).
Proof.
  induction pgs as [|p pgs IH]; intros fuel page pages st Hs Hw Hnone Hstop.
  - simpl. now rewrite Z.add_0_r, app_nil_r.
  - apply walkable_cons in Hw. destruct Hw as [Hne [Hwf Hw]].
    rewrite events_cons, existsb_app in Hnone.
    apply orb_false_elim in Hnone. destruct Hnone as [Hn1 Hn2].
    destruct (syncTracks_wellformed maxSeen (Tracks p) st Hwf) as [He [_ Hst]].
    cbn [List.length plus].
    rewrite (syncLoop_turn _ _ _ _ _ p (serves_head _ _ _ Hs) Hne Hwf).
    cbv zeta. rewrite Hst, Hstop, Hn1. cbn [orb].
    rewrite IH; trivial.
    + rewrite pageNumbers_S, events_cons, syncTracks_app by exact He.
      f_equal; [lia|]. rewrite <- app_assoc. reflexivity.
    + now apply serves_tail in Hs.
    + now rewrite Hst, Hstop, Hn1.
Qed.

(** C3. Let [W], the greatest timestamp of the store, be other than 0. On
    a feed whose pages are served, are not empty and hold events that the
    insert accepts, let [e] be the first event with a timestamp at or below
    [W]: it sits on the page [last], after the pages [earlier]. The stop
    flag is still down before [e] and is up from [e] on; the events that
    follow [e] on its page are inserted all the same; the command then
    returns 0 having requested the pages up to the one of [e] and no other.
    With [W = 0] no timestamp raises the flag: the walk goes on as long as
    the pages are not empty. (That the timestamps decrease along the feed
    is not needed.) *)
Theorem cmdSync_stops_on_watermark_page (s : Store) :
  let W := MaxPlayedAtUTS (DB s) in
  let st0 := mkProgress s 0 0 false in
  (forall (earlier : list Page) (last : Page) (pre post : list Track)
          (e : Track) (fuel : nat),
      W <> 0 ->
      serves remote 1 (earlier ++ [last]) ->
      walkable (earlier ++ [last]) ->
      Tracks last = pre ++ e :: post ->
      existsb (atOrBelow W) (events earlier ++ pre) = false ->
      atOrBelow W e = true ->
      (List.length earlier < fuel)%nat ->
      let r := cmdSync fuel remote s in
      stop (fst (syncTracks W (events earlier ++ pre) st0)) = false
      /\ stop (fst (syncTracks W (events earlier ++ pre ++ [e]) st0)) = true
      /\ exit_code r = Some 0
      /\ fetched r = pageNumbers 1 (S (List.length earlier))
      /\ final r = fst (syncTracks W (events (earlier ++ [last])) st0)
      /\ store (final r) = insertAll (events earlier ++ pre ++ e :: post) s)
  /\ (forall (pgs : list Page),
      W = 0 ->
      serves remote 1 pgs -> walkable pgs ->
      let r := cmdSync (List.length pgs) remote s in
      exit_code r = None
      /\ fetched r = pageNumbers 1 (List.length pgs)
      /\ stop (final r) = false
      /\ store (final r) = insertAll (events pgs) s).
Proof.
  intros W st0. split.
  - intros earlier last pre post e fuel HW Hs Hw Hlast Hnone He Hfuel r.
    assert (Hsame : forall l, existsb (reachesWatermark W) l = existsb (atOrBelow W) l).
    { intros l. apply existsb_ext_in. intros x. now apply reachesWatermark_atOrBelow. }
    assert (Hwe : walkable earlier /\ Tracks last <> []
                  /\ forallb wellformed (Tracks last) = true).
    { unfold walkable in Hw. apply Forall_app in Hw. destruct Hw as [H1 H2].
      inversion H2 as [|? ? [H3 H4] _]; subst. auto. }
    destruct Hwe as [Hwe [Hlne Hlwf]].
    assert (Hwf : forallb wellformed (events earlier ++ pre ++ e :: post) = true).
    { rewrite forallb_app. apply andb_true_intro. split.
      - clear - Hwe. induction Hwe as [|p l [_ Hp] _ IH]; trivial.
        rewrite events_cons, forallb_app, Hp, IH. reflexivity.
      - now rewrite <- Hlast. }
    assert (Hwf1 : forallb wellformed (events earlier ++ pre) = true).
    { rewrite forallb_app in *. apply andb_prop in Hwf. destruct Hwf as [H1 H2].
      rewrite forallb_app in H2. apply andb_prop in H2. destruct H2 as [H2 _].
      now rewrite H1, H2. }
    assert (Hwf2 : forallb wellformed (events earlier ++ pre ++ [e]) = true).
    { rewrite !forallb_app in *. apply andb_prop in Hwf. destruct Hwf as [H1 H2].
      apply andb_prop in H2. destruct H2 as [H2 H3]. simpl in H3.
      apply andb_prop in H3. destruct H3 as [H3 _].
      rewrite H1, H2. simpl. now rewrite H3. }
    assert (Hearlier : existsb (reachesWatermark W) (events earlier) = false).
    { rewrite Hsame. rewrite existsb_app in Hnone.
      now apply orb_false_elim in Hnone. }
    split; [|split].
    + destruct (syncTracks_wellformed W _ st0 Hwf1) as [_ [_ H]].
      now rewrite H, Hsame, Hnone.
    + destruct (syncTracks_wellformed W _ st0 Hwf2) as [_ [_ H]].
      rewrite H, Hsame, app_assoc, existsb_app, Hnone. simpl. now rewrite He.
    + unfold r, cmdSync. fold W. fold st0.
      replace fuel with (List.length earlier + S (fuel - S (List.length earlier)))%nat
        by lia.
      assert (Hs1 : serves remote 1 earlier).
      { intros i p Hp. apply Hs. rewrite nth_error_app1; trivial.
        apply nth_error_Some. congruence. }
      assert (Hs2 : fetch remote (1 + Z.of_nat (List.length earlier)) = Ok last).
      { apply Hs. rewrite nth_error_app2, Nat.sub_diag; trivial. }
      rewrite (syncLoop_walk W earlier _ 1 [] st0 Hs1 Hwe Hearlier eq_refl).
      rewrite (syncLoop_turn _ _ _ _ _ last Hs2 Hlne Hlwf).
      cbv zeta.
      destruct (syncTracks_wellformed W (events earlier) st0) as [E1 [E2 E3]].
      { rewrite forallb_app in Hwf. now apply andb_prop in Hwf. }
      destruct (syncTracks_wellformed W (Tracks last)
                  (fst (syncTracks W (events earlier) st0)) Hlwf) as [F1 [F2 F3]].
      assert (Hreach : existsb (reachesWatermark W) (Tracks last) = true).
      { rewrite Hlast, Hsame, existsb_app. cbn [existsb].
        now rewrite He, orb_true_r. }
      rewrite F3, E3, Hearlier, Hreach. cbn [stop st0 orb exit_code fetched final].
      split; [reflexivity|]. split; [|split].
      * cbn [app]. now rewrite pageNumbers_snoc.
      * rewrite events_app, syncTracks_app by exact E1.
        change (events [last]) with (Tracks last ++ []). now rewrite app_nil_r.
      * rewrite F2, E2, <- Hlast. cbn [store st0].
        now rewrite insertAll_app.
  - intros pgs HW Hs Hw r.
    assert (Hnone : existsb (reachesWatermark W) (events pgs) = false).
    { rewrite HW. clear. induction (events pgs) as [|t l IH]; trivial.
      simpl. now rewrite reachesWatermark_zero. }
    assert (Hwf : forallb wellformed (events pgs) = true).
    { clear - Hw. induction Hw as [|p l [_ Hp] _ IH]; trivial.
      rewrite events_cons, forallb_app, Hp, IH. reflexivity. }
    assert (Hrun : r = mkRun None (pageNumbers 1 (List.length pgs))
                             (fst (syncTracks W (events pgs) st0))).
    { unfold r, cmdSync. fold W. fold st0.
      replace (List.length pgs) with (List.length pgs + 0)%nat at 1 by lia.
      now rewrite (syncLoop_walk W pgs _ 1 [] st0 Hs Hw Hnone eq_refl). }
    rewrite Hrun. cbn [exit_code fetched final].
    destruct (syncTracks_wellformed W (events pgs) st0 Hwf) as [_ [E2 E3]].
    rewrite E3, Hnone, E2. auto.
Qed.

End Walks.

Section SyncWitness.

Import Lastfm Store Main Spec.

Lemma cmdSync_stops_on_watermark_page_witness :
  exit_code (cmdSync 5 Sample.threePages Sample.syncedStore) = Some 0
  /\ fetched (cmdSync 5 Sample.threePages Sample.syncedStore) = [1; 2]
  /\ exit_code (cmdSync 3 Sample.threePages Sample.emptyStore) = None.
Proof.
  destruct (cmdSync_stops_on_watermark_page Sample.threePages Sample.syncedStore)
    as [H _].
  destruct (cmdSync_stops_on_watermark_page Sample.threePages Sample.emptyStore)
    as [_ H0].
  specialize (H [mkPage Sample.page1 1 3 0] (mkPage Sample.page2 2 3 0)
                [Sample.played "B" "y" "" "1672704000"]
                [Sample.played "A" "x" "" "1672531200"]
                (Sample.played "A" "x" "" "1672617600") 5%nat).
  specialize (H0 [mkPage Sample.page1 1 3 0; mkPage Sample.page2 2 3 0;
                  mkPage Sample.page3 3 3 0]).
  cbv zeta in H, H0.
  destruct H as [_ [_ [H1 [H2 _]]]].
  - vm_compute. discriminate.
  - intros i p Hp. destruct i as [|[|i]]; simpl in Hp.
    + injection Hp as <-. reflexivity.
    + injection Hp as <-. reflexivity.
    + destruct i; discriminate.
  - repeat constructor; discriminate.
  - reflexivity.
  - vm_compute. reflexivity.
  - vm_compute. reflexivity.
  - simpl. lia.
  - destruct H0 as [H3 _].
    + reflexivity.
    + intros i p Hp. destruct i as [|[|[|i]]]; simpl in Hp.
      * injection Hp as <-. reflexivity.
      * injection Hp as <-. reflexivity.
      * injection Hp as <-. reflexivity.
      * destruct i; discriminate.
    + repeat constructor; discriminate.
    + split; [exact H1|]. split; [exact H2|exact H3].
Defined.

End SyncWitness.

Section Backfill.

Import Lastfm Store Main Spec.

Variable remote : Remote.

(** One turn of the page loop of [cmdBackfill] on a page that is not
    empty and whose events cannot fail. *)
Lemma backfillLoop_turn (fuel : nat) (page totalPages : Z) (pages : list Z)
      (st : Progress) (p : Page) :
  fetch remote page = Ok p ->
  Tracks p <> [] -> forallb wellformed (Tracks p) = true ->
  backfillLoop (S fuel) remote page totalPages pages st
  = let total := if totalPages =? -1
                 then (if TotalPages p =? 0 then 1 else TotalPages p)
                 else totalPages in
    let st' := fst (backfillTracks (Tracks p) st) in
    if negb (total =? -1) && (total <=? page)
    then mkRun (Some 0) (pages ++ [page]) st'
    else backfillLoop fuel remote (page + 1) total (pages ++ [page]) st'.
Proof.
  intros Hf Hne Hw. cbn [backfillLoop]. rewrite Hf.
  destruct (backfillTracks_wellformed (Tracks p) st Hw) as [He _].
  destruct (Tracks p) as [|t ts] eqn:Et; [contradiction|].
  destruct (backfillTracks (t :: ts) st) as [st' err]. simpl in He. subst err.
  reflexivity.
Qed.

(** The walk once the number of pages is fixed, over pages that end with
    the page numbered [total]. *)
Lemma backfillLoop_walk (total : Z) (pgs : list Page) :
  forall (fuel : nat) (page : Z) (pages : list Z) (st : Progress),
    pgs <> [] ->
    total <> -1 ->
    page + Z.of_nat (List.length pgs) - 1 = total ->
    serves remote page pgs -> walkable pgs ->
    (List.length pgs <= fuel)%nat ->
    backfillLoop fuel remote page total pages st
    = mkRun (Some 0) (pages ++ pageNumbers page (List.length pgs))
            (fst (backfillTracks (events pgs) st)).
Proof.
  induction pgs as [|p pgs IH]; intros fuel page pages st Hne Ht Hlast Hs Hw Hfuel.
  - contradiction.
  - apply walkable_cons in Hw. destruct Hw as [Hpne [Hwf Hw]].
    destruct (backfillTracks_wellformed (Tracks p) st Hwf) as [He _].
    destruct fuel as [|fuel]; [simpl in Hfuel; lia|].
    rewrite (backfillLoop_turn _ _ _ _ _ p (serves_head _ _ _ _ Hs) Hpne Hwf).
    cbv zeta. apply Z.eqb_neq in Ht. rewrite Ht. cbv iota. rewrite Ht.
    cbn [negb andb].
    change (List.length (p :: pgs)) with (S (List.length pgs)) in *.
    rewrite pageNumbers_S, events_cons, backfillTracks_app by exact He.
    destruct pgs as [|q pgs].
    + cbn [List.length] in Hlast.
      replace (total <=? page) with true by (symmetry; apply Z.leb_le; lia).
      reflexivity.
    + cbn [List.length] in Hlast, Hfuel.
      replace (total <=? page) with false by (symmetry; apply Z.leb_gt; lia).
      rewrite IH; try discriminate; trivial.
      * now rewrite <- app_assoc.
      * apply Z.eqb_neq. exact Ht.
      * cbn [List.length]. lia.
      * now apply serves_tail in Hs.
      * cbn [List.length]. lia.
Qed.

(** A page without events is the last page requested. *)
Lemma backfillLoop_empty_page (fuel : nat) :
  forall (page totalPages : Z) (pages : list Z) (st : Progress),
  exists suffix,
    fetched (backfillLoop fuel remote page totalPages pages st) = pages ++ suffix
    /\ forall pre q post p,
        suffix = pre ++ q :: post ->
        fetch remote q = Ok p -> Tracks p = [] ->
        post = []
        /\ exit_code (backfillLoop fuel remote page totalPages pages st) = Some 0.
Proof.
  induction fuel as [|fuel IH]; intros page totalPages pages st.
  - exists []. cbn. rewrite app_nil_r. split; trivial.
    intros [|? ?] q post p H; discriminate.
  - cbn [backfillLoop].
    assert (Hone : forall (r : Run) (P : Prop),
               fetched r = pages ++ [page] ->
               (forall p, fetch remote page = Ok p -> Tracks p = [] ->
                          exit_code r = Some 0) ->
               exists suffix,
                 fetched r = pages ++ suffix
                 /\ forall pre q post p,
                     suffix = pre ++ q :: post ->
                     fetch remote q = Ok p -> Tracks p = [] ->
                     post = [] /\ exit_code r = Some 0).
    { intros r _ Hf Hexit. exists [page]. split; trivial.
      intros pre q post p Hsplit Hq Hp.
      destruct pre as [|x [|y pre]]; try discriminate.
      injection Hsplit as -> <-. split; trivial. now apply (Hexit p). }
    destruct (fetch remote page) as [p|e] eqn:Hf.
    + destruct (Tracks p) as [|t ts] eqn:Et.
      * apply (Hone _ True); trivial.
      * destruct (backfillTracks (t :: ts) st) as [st' [err|]].
        -- apply (Hone _ True); trivial.
           intros p' Hp' Hnil. injection Hp' as <-. congruence.
        -- set (total := if totalPages =? -1
                           then (if TotalPages p =? 0 then 1 else TotalPages p)
                           else totalPages).
           destruct (negb (total =? -1) && (total <=? page)).
           ++ apply (Hone _ True); trivial.
           ++ match goal with
              | |- context [backfillLoop fuel remote ?pg ?tp ?pgs ?s] =>
                  destruct (IH pg tp pgs s) as [suffix [H1 H2]]
              end.
              exists (page :: suffix). split.
              ** rewrite H1, <- app_assoc. reflexivity.
              ** intros pre q post p' Hsplit Hq Hnil.
                 destruct pre as [|x pre].
                 --- injection Hsplit as -> ->. rewrite Hf in Hq.
                     injection Hq as <-. congruence.
                 --- injection Hsplit as -> ->. now apply (H2 pre q post p').
    + apply (Hone _ True); trivial.
      intros p Hp. discriminate.
Qed.

(** C4. Let the first response report [P] pages (1 when it reports 0),
    with [P] at least 1, and let the pages 1 to [P] be served, not empty, and
    made of events the insert accepts: [cmdBackfill] requests the pages 1,
    2, ..., [P], each once, inserts their events and returns 0. And whatever
    the feed, a page that comes back without events is the last page
    requested, and the command returns 0 on it. *)
Theorem cmdBackfill_fetches_total_pages (s : Store) :
  (forall (first : Page) (rest : list Page) (fuel : nat),
      let pgs := first :: rest in
      let P := if TotalPages first =? 0 then 1 else TotalPages first in
      P = Z.of_nat (List.length pgs) ->
      serves remote 1 pgs -> walkable pgs ->
      (List.length pgs <= fuel)%nat ->
      let r := cmdBackfill fuel remote s in
      exit_code r = Some 0
      /\ fetched r = pageNumbers 1 (List.length pgs)
      /\ List.length (fetched r) = Z.to_nat P
      /\ store (final r) = insertAll (events pgs) s)
  /\ (forall (fuel : nat) (pre post : list Z) (page : Z) (p : Page),
      let r := cmdBackfill fuel remote s in
      fetched r = pre ++ page :: post ->
      fetch remote page = Ok p -> Tracks p = [] ->
      post = [] /\ exit_code r = Some 0).
Proof.
  split.
  - intros first rest fuel pgs P HP Hs Hw Hfuel r.
    assert (Hrun : r = mkRun (Some 0) (pageNumbers 1 (List.length pgs))
                             (fst (backfillTracks (events pgs)
                                                  (mkProgress s 0 0 false)))).
    { unfold r, cmdBackfill, pgs in *.
      pose proof Hw as Hw'.
      apply walkable_cons in Hw'. destruct Hw' as [Hpne [Hwf Hwr]].
      destruct (backfillTracks_wellformed (Tracks first) (mkProgress s 0 0 false) Hwf)
        as [He _].
      destruct fuel as [|fuel]; [simpl in Hfuel; lia|].
      rewrite (backfillLoop_turn _ _ _ _ _ first (serves_head _ _ _ _ Hs) Hpne Hwf).
      cbv zeta. change (-1 =? -1) with true. cbv iota. fold P.
      assert (HP1 : P <> -1) by (rewrite HP; lia).
      apply Z.eqb_neq in HP1. rewrite HP1. cbn [negb andb].
      change (List.length (first :: rest)) with (S (List.length rest)) in *.
      rewrite pageNumbers_S, events_cons, backfillTracks_app by exact He.
      destruct rest as [|q rest].
      - cbn [List.length] in HP.
        replace (P <=? 1) with true by (symmetry; apply Z.leb_le; lia).
        reflexivity.
      - cbn [List.length] in HP, Hfuel.
        replace (P <=? 1) with false by (symmetry; apply Z.leb_gt; lia).
        rewrite (backfillLoop_walk P (q :: rest)); try discriminate; trivial.
        + apply Z.eqb_neq. exact HP1.
        + cbn [List.length]. lia.
        + now apply serves_tail in Hs.
        + cbn [List.length]. lia. }
    rewrite Hrun. cbn [exit_code fetched final].
    split; [reflexivity|]. split; [reflexivity|]. split.
    + unfold pageNumbers. rewrite length_map, length_seq, HP. lia.
    + assert (Hwf : forallb wellformed (events pgs) = true).
      { clear - Hw. induction Hw as [|p l [_ Hp] _ IH]; trivial.
        rewrite events_cons, forallb_app, Hp, IH. reflexivity. }
      now destruct (backfillTracks_wellformed (events pgs) (mkProgress s 0 0 false) Hwf)
        as [_ [E _]].
  - intros fuel pre post page p r Hsplit Hf Hnil.
    destruct (backfillLoop_empty_page fuel 1 (-1) [] (mkProgress s 0 0 false))
      as [suffix [H1 H2]].
    fold (cmdBackfill fuel remote s) in H1, H2. fold r in H1, H2.
    cbn [app] in H1. rewrite H1 in Hsplit.
    now apply (H2 pre page post p).
Qed.

End Backfill.

Section BackfillWitness.

Import Lastfm Store Main Spec.

Lemma cmdBackfill_fetches_total_pages_witness :
  exit_code (cmdBackfill 3 Sample.threePages Sample.emptyStore) = Some 0
  /\ fetched (cmdBackfill 3 Sample.threePages Sample.emptyStore) = [1; 2; 3]
  /\ exit_code (cmdBackfill 1 (Sample.feed [] 0) Sample.emptyStore) = Some 0.
Proof.
  destruct (cmdBackfill_fetches_total_pages Sample.threePages Sample.emptyStore)
    as [H _].
  destruct (cmdBackfill_fetches_total_pages (Sample.feed [] 0) Sample.emptyStore)
    as [_ H0].
  specialize (H (mkPage Sample.page1 1 3 0)
                [mkPage Sample.page2 2 3 0; mkPage Sample.page3 3 3 0] 3%nat).
  specialize (H0 1%nat [] [] 1 (mkPage [] 1 0 0)).
  cbv zeta in H, H0.
  destruct H as [H1 [H2 _]].
  - reflexivity.
  - intros i p Hp. destruct i as [|[|[|i]]]; simpl in Hp.
    + injection Hp as <-. reflexivity.
    + injection Hp as <-. reflexivity.
    + injection Hp as <-. reflexivity.
    + destruct i; discriminate.
  - repeat constructor; discriminate.
  - simpl. lia.
  - destruct H0 as [_ H3].
    + reflexivity.
    + reflexivity.
    + reflexivity.
    + split; [exact H1|]. split; [exact H2|exact H3].
Defined.

End BackfillWitness.

(* ================================================================== *)
(** * The stable sort                                                  *)
(* ================================================================== *)

Section SortFacts.

Context {A : Type} (less : A -> A -> bool).

(** [less] is a strict weak order: nothing is below itself in both
    directions, and not being below is transitive. *)
Hypothesis less_asym : forall a b, less a b = true -> less b a = false.
Hypothesis less_negtrans :
  forall a b c, less a b = false -> less b c = false -> less a c = false.

Lemma sink_perm (x : A) (rprefix : list A) :
  Permutation (Sort.sink less x rprefix) (x :: rprefix).
Proof.
  induction rprefix as [|y rest IH]; simpl; trivial.
  destruct (less x y); trivial.
  rewrite IH. apply perm_swap.
Qed.

Lemma SliceStable_perm (l : list A) : Permutation (Sort.SliceStable less l) l.
Proof.
  unfold Sort.SliceStable.
  assert (H : forall acc, Permutation (fold_left (fun rp x => Sort.sink less x rp) l acc)
                                      (rev l ++ acc)).
  { induction l as [|x l IH]; intros acc; simpl; trivial.
    rewrite IH, sink_perm, <- app_assoc. simpl.
    apply Permutation_app_head. apply Permutation_refl. }
  rewrite <- Permutation_rev, (H []), app_nil_r.
  symmetry. apply Permutation_rev.
Qed.

(** In the prefix kept last element first, no element is below one that
    was placed before it. *)
Lemma sink_sorted (x : A) (rprefix : list A) :
  StronglySorted (fun a b => less a b = false) rprefix ->
  StronglySorted (fun a b => less a b = false) (Sort.sink less x rprefix).
Proof.
  induction rprefix as [|y rest IH]; intros H; simpl.
  - repeat constructor.
  - apply StronglySorted_inv in H. destruct H as [Hs Hy].
    destruct (less x y) eqn:E.
    + constructor; [now apply IH|].
      apply (Permutation_Forall (x := x :: rest)).
      * symmetry. apply sink_perm.
      * constructor; [now apply less_asym|exact Hy].
    + constructor; [now constructor|].
      constructor; trivial.
      rewrite Forall_forall in *. intros z Hz.
      apply (less_negtrans x y z); auto.
Qed.

Lemma StronglySorted_snoc (R : A -> A -> Prop) (l : list A) (a : A) :
  StronglySorted R l -> Forall (fun x => R x a) l -> StronglySorted R (l ++ [a]).
Proof.
  induction l as [|b l IH]; intros Hs Hf; simpl.
  - repeat constructor.
  - apply StronglySorted_inv in Hs. destruct Hs as [Hs Hb].
    inversion Hf; subst.
    constructor; [now apply IH|].
    apply Forall_app. split; trivial. now constructor.
Qed.

Lemma StronglySorted_rev (R : A -> A -> Prop) (l : list A) :
  StronglySorted R l -> StronglySorted (fun a b => R b a) (rev l).
Proof.
  induction l as [|a l IH]; intros H; simpl.
  - constructor.
  - apply StronglySorted_inv in H. destruct H as [Hs Ha].
    apply StronglySorted_snoc; [now apply IH|].
    apply Forall_rev. exact Ha.
Qed.

(** The outcome is sorted: no element is below one listed before it. *)
Lemma SliceStable_sorted (l : list A) :
  StronglySorted (fun a b => less b a = false) (Sort.SliceStable less l).
Proof.
  unfold Sort.SliceStable.
  apply (StronglySorted_rev (fun a b => less a b = false)).
  assert (H : forall acc,
             StronglySorted (fun a b => less a b = false) acc ->
             StronglySorted (fun a b => less a b = false)
                            (fold_left (fun rp x => Sort.sink less x rp) l acc)).
  { induction l as [|x l IH]; intros acc Hacc; simpl; trivial.
    apply IH. now apply sink_sorted. }
  apply H. constructor.
Qed.

Lemma StronglySorted_filter (R : A -> A -> Prop) (f : A -> bool) (l : list A) :
  StronglySorted R l -> StronglySorted R (filter f l).
Proof.
  induction l as [|a l IH]; intros H; simpl; trivial.
  apply StronglySorted_inv in H. destruct H as [Hs Ha].
  destruct (f a); [|now apply IH].
  constructor; [now apply IH|].
  rewrite Forall_forall in *. intros x Hx. apply Ha.
  apply filter_In in Hx. tauto.
Qed.

Lemma StronglySorted_nth (R : A -> A -> Prop) (l : list A) :
  StronglySorted R l ->
  forall i j a b, (i < j)%nat ->
    nth_error l i = Some a -> nth_error l j = Some b -> R a b.
Proof.
  induction 1 as [|x l Hs IH Hx]; intros i j a b Hij Ha Hb.
  - destruct i; discriminate.
  - destruct j as [|j]; [lia|]. simpl in Hb.
    destruct i as [|i]; simpl in Ha.
    + injection Ha as <-. rewrite Forall_forall in Hx. apply Hx.
      eapply nth_error_In; eauto.
    + apply (IH i j); trivial. lia.
Qed.

End SortFacts.

(* ================================================================== *)
(** * The ranking of the candidate tracks                              *)
(* ================================================================== *)

Section Ranking.

Import Recommend Spec.

Variable opt : Options.


Lemma Qgtb_true (a b : Q) : Qgtb a b = true <-> (b < a)%Q.
Proof.
  unfold Qgtb. rewrite negb_true_iff. split.
  - intros H. apply Qnot_le_lt. intros L. apply Qle_bool_iff in L. congruence.
  - intros H. destruct (Qle_bool a b) eqn:E; trivial.
    apply Qle_bool_iff in E. lra.
Qed.


(** [less] is the lexicographic order on the played key, the score
    (greater first) and the time of the last play (older first). *)
Lemma less_true (i j : TrackCand.t) :
  less opt i j = true <->
  playedKey opt i < playedKey opt j
  \/ (playedKey opt i = playedKey opt j
      /\ ((TrackCand.Score j < TrackCand.Score i)%Q
          \/ ((TrackCand.Score i == TrackCand.Score j)%Q
              /\ TrackCand.LocalLastPlayedUTS i < TrackCand.LocalLastPlayedUTS j))).
Proof.
  unfold less, playedKey.
  destruct (PreferUnplayed opt);
    destruct (TrackCand.LocalPlays i =? 0), (TrackCand.LocalPlays j =? 0);
    cbn [andb negb Bool.eqb];
    try (split; [intros _; left; lia | reflexivity]);
    try (split; [discriminate | intros [H|[H _]]; lia]);
    (destruct (Qeq_bool (TrackCand.Score i) (TrackCand.Score j)) eqn:E;
     [apply Qeq_bool_iff in E; rewrite Z.ltb_lt
     |apply Qeq_bool_neq in E; rewrite Qgtb_true];
     (split;
      [intros H; right; split; [reflexivity|]; first [right; now split | now left]
      |intros [H|[_ [H|[H1 H2]]]]; first [lia | lra | assumption | contradiction]])).
Qed.

Lemma less_false (i j : TrackCand.t) :
  less opt i j = false <->
  playedKey opt j < playedKey opt i
  \/ (playedKey opt i = playedKey opt j
      /\ ((TrackCand.Score i < TrackCand.Score j)%Q
          \/ ((TrackCand.Score i == TrackCand.Score j)%Q
              /\ TrackCand.LocalLastPlayedUTS j <= TrackCand.LocalLastPlayedUTS i))).
Proof.
  rewrite <- not_true_iff_false, less_true. split.
  - intros K.
    destruct (Z.lt_trichotomy (playedKey opt i) (playedKey opt j)) as [H|[H|H]].
    + exfalso. apply K. now left.
    + right. split; [exact H|].
      destruct (Q_dec (TrackCand.Score i) (TrackCand.Score j)) as [[Q1|Q1]|Q1].
      * now left.
      * exfalso. apply K. right. split; [exact H|]. now left.
      * right. split; [exact Q1|].
        destruct (Z_lt_le_dec (TrackCand.LocalLastPlayedUTS i)
                              (TrackCand.LocalLastPlayedUTS j)) as [L|L]; trivial.
        exfalso. apply K. right. split; [exact H|]. right. now split.
    + left. lia.
  - intros [H|[H [Q1|[Q1 L]]]] [H'|[H' [Q1'|[Q1' L']]]]; lia || lra.
Qed.

Lemma less_asym (a b : TrackCand.t) : less opt a b = true -> less opt b a = false.
Proof.
  rewrite less_true, less_false.
  intros [H|[H [Q1|[Q1 L]]]].
  - left. lia.
  - right. split; [lia|]. left. lra.
  - right. split; [lia|]. right. split; [lra|lia].
Qed.

Lemma less_negtrans (a b c : TrackCand.t) :
  less opt a b = false -> less opt b c = false -> less opt a c = false.
Proof.
  rewrite !less_false.
  intros [H|[H [Q1|[Q1 L]]]] [H'|[H' [Q1'|[Q1' L']]]];
    first [ left; lia
          | right; split; [lia|]; left; lra
          | right; split; [lia|]; right; split; [lra|lia] ].
Qed.


(** [less] reads the play count, the score and the last play only. *)
Lemma less_fields (a a' b b' : TrackCand.t) :
  TrackCand.LocalPlays a' = TrackCand.LocalPlays a ->
  TrackCand.LocalLastPlayedUTS a' = TrackCand.LocalLastPlayedUTS a ->
  TrackCand.Score a' = TrackCand.Score a ->
  TrackCand.LocalPlays b' = TrackCand.LocalPlays b ->
  TrackCand.LocalLastPlayedUTS b' = TrackCand.LocalLastPlayedUTS b ->
  TrackCand.Score b' = TrackCand.Score b ->
  less opt a' b' = less opt a b.
Proof. unfold less. now intros -> -> -> -> -> ->. Qed.

Lemma keptTracks_sorted (l : list TrackCand.t) :
  StronglySorted (fun a b => less opt b a = false) (keptTracks opt l).
Proof.
  unfold keptTracks.
  pose proof (SliceStable_sorted (less opt) less_asym less_negtrans l) as H.
  destruct (IncludePlayedTracks opt); trivial.
  now apply StronglySorted_filter.
Qed.

(** An entry of rank [r] is the element of index [r - i - 1] with its
    rank set. *)
Lemma setRanks_In (l : list TrackCand.t) :
  forall (i : Z) (X : TrackCand.t),
    In X (setRanks i l) ->
    exists k c,
      nth_error l k = Some c
      /\ TrackCand.Rank X = i + Z.of_nat k + 1
      /\ TrackCand.LocalPlays X = TrackCand.LocalPlays c
      /\ TrackCand.LocalLastPlayedUTS X = TrackCand.LocalLastPlayedUTS c
      /\ TrackCand.Score X = TrackCand.Score c
      /\ TrackCand.Artist X = TrackCand.Artist c
      /\ TrackCand.Track X = TrackCand.Track c.
Proof.
  induction l as [|c l IH]; intros i X H; simpl in H.
  - contradiction.
  - destruct H as [<-|H].
    + exists 0%nat, c. simpl. repeat split; lia.
    + destruct (IH (i + 1) X H) as [k [c' [H1 [H2 H3]]]].
      exists (S k), c'. split; [exact H1|]. split; [lia|exact H3].
Qed.





Lemma firstn_In {A : Type} (n : nat) (l : list A) (x : A) :
  In x (firstn n l) -> In x l.
Proof.
  revert l. induction n as [|n IH]; intros [|a l] H; simpl in *; try tauto.
  destruct H as [H|H]; auto.
Qed.

Lemma StronglySorted_firstn {A : Type} (R : A -> A -> Prop) (n : nat) (l : list A) :
  StronglySorted R l -> StronglySorted R (firstn n l).
Proof.
  revert l. induction n as [|n IH]; intros l H; simpl; [constructor|].
  destruct l as [|a l]; [constructor|].
  apply StronglySorted_inv in H. destruct H as [Hs Ha].
  constructor; [now apply IH|].
  rewrite Forall_forall in *. intros x Hx. apply Ha.
  now apply (firstn_In n).
Qed.





End Ranking.

Section RankingWitness.

Import Recommend.


End RankingWitness.

(* ================================================================== *)
(** * The resurfacing lists                                            *)
(* ================================================================== *)

Section Resurface.

Import Store Digest.

Example ParseDecimal_examples :
  map Strconv.ParseDecimal ["0.5"; "1"; "-2.25"; ".5"; "abc"; ""]%string
  = [5 # 10; 1 # 1; - (225 # 100); 5 # 10; 0; 0]%Q.
Proof. vm_compute. reflexivity. Qed.

(** The HAVING clause holds of every group: an integer is below every
    text when neither operand has an affinity. *)
Lemma having_stale_always (now days last_played : Z) :
  having_stale now days last_played = true.
Proof. reflexivity. Qed.

(** What does hold of the resurfacing list of tracks: it is ordered by
    play count, greatest first, and every entry has been played. *)
Lemma ranked_tracks_sorted (l : list ((string * string) * (Z * Z))) :
  forall rank,
    StronglySorted (fun a b => fst (snd b) <= fst (snd a)) l ->
    StronglySorted (fun x y => Plays y <= Plays x) (ranked mkTrackRow rank l).
Proof.
  induction l as [|g l IH]; intros rank H; simpl; [constructor|].
  apply StronglySorted_inv in H. destruct H as [Hs Hg].
  constructor; [now apply IH|].
  clear - Hg. revert rank. induction Hg as [|h l Hh _ IH]; intros rank; simpl.
  - constructor.
  - constructor; [exact Hh|apply IH].
Qed.

Lemma StronglySorted_weaken {A : Type} (R R' : A -> A -> Prop) (l : list A) :
  (forall a b, R a b -> R' a b) -> StronglySorted R l -> StronglySorted R' l.
Proof.
  intros HR. induction 1 as [|a l Hs IH Ha]; constructor; trivial.
  rewrite Forall_forall in *. auto.
Qed.

Lemma order_by_plays_desc_sorted {K : Type} (gs : list (K * (Z * Z))) :
  StronglySorted (fun a b => fst (snd b) <= fst (snd a)) (SQLite.order_by_plays_desc gs).
Proof.
  unfold SQLite.order_by_plays_desc.
  apply (StronglySorted_weaken
           (fun a b : K * (Z * Z) => (fst (snd a) <? fst (snd b)) = false)).
  - intros a b H. apply Z.ltb_ge in H. exact H.
  - apply (SliceStable_sorted (fun a b : K * (Z * Z) => fst (snd b) <? fst (snd a))).
    + intros a b H. apply Z.ltb_lt in H. apply Z.ltb_ge. lia.
    + intros a b c H1 H2.
      apply Z.ltb_ge in H1. apply Z.ltb_ge in H2. apply Z.ltb_ge. lia.
Qed.

Lemma limit_sorted {A : Type} (R : A -> A -> Prop) (n : Z) (l : list A) :
  StronglySorted R l -> StronglySorted R (SQLite.limit n l).
Proof.
  unfold SQLite.limit. destruct (n <? 0); trivial. apply StronglySorted_firstn.
Qed.

Lemma resurfaceTracks_ordered_by_plays (db : list Row) (now staleDays limit : Z) :
  StronglySorted (fun x y => Plays y <= Plays x)
                 (resurfaceTracks db now staleDays limit).
Proof.
  unfold resurfaceTracks. apply ranked_tracks_sorted, limit_sorted.
  apply order_by_plays_desc_sorted.
Qed.

Lemma add_to_group_counts {K : Type} (eqb : K -> K -> bool) (k : K) (ts : Z)
      (gs : list (K * (Z * Z))) :
  Forall (fun g => 1 <= fst (snd g)) gs ->
  Forall (fun g => 1 <= fst (snd g)) (SQLite.add_to_group eqb k ts gs).
Proof.
  induction 1 as [|[k' [n m]] l Hg Hl IH]; simpl.
  - repeat constructor. simpl. lia.
  - simpl in Hg. destruct (eqb k k'); constructor; trivial. simpl. lia.
Qed.

Lemma group_count_max_counts {K : Type} (eqb : K -> K -> bool) (rows : list (K * Z)) :
  Forall (fun g => 1 <= fst (snd g)) (SQLite.group_count_max eqb rows).
Proof.
  unfold SQLite.group_count_max.
  assert (H : forall acc, Forall (fun g : K * (Z * Z) => 1 <= fst (snd g)) acc ->
                          Forall (fun g => 1 <= fst (snd g))
                                 (fold_left (fun gs r =>
                                               SQLite.add_to_group eqb (fst r) (snd r) gs)
                                            rows acc)).
  { induction rows as [|r rows IH]; intros acc Hacc; simpl; trivial.
    apply IH. now apply add_to_group_counts. }
  apply H. constructor.
Qed.

Lemma resurfaceTracks_played (db : list Row) (now staleDays limit : Z) :
  Forall (fun x => 1 <= Plays x) (resurfaceTracks db now staleDays limit).
Proof.
  unfold resurfaceTracks.
  set (groups := SQLite.group_count_max _ _).
  set (stale := filter _ groups).
  assert (Hg : Forall (fun g => 1 <= fst (snd g)) groups)
    by apply group_count_max_counts.
  assert (Hs : Forall (fun g => 1 <= fst (snd g))
                      (SQLite.limit limit (SQLite.order_by_plays_desc stale))).
  { apply Forall_forall. intros g Hin.
    assert (Hin' : In g (SQLite.order_by_plays_desc stale)).
    { unfold SQLite.limit in Hin. destruct (limit <? 0); trivial.
      now apply firstn_In in Hin. }
    apply (Permutation_in g (SliceStable_perm _ stale)) in Hin'.
    apply filter_In in Hin'. rewrite Forall_forall in Hg. apply Hg. tauto. }
  generalize 1 at 2. induction Hs as [|g l Hh _ IH]; intros rank; simpl; constructor.
  - exact Hh.
  - apply IH.
Qed.

(** C7 fails on the code. In a store where A/x was played twice in the
    day before [now] and B/old was last played in 2017, the resurfacing
    lists for a staleness of 180 days hold A/x (and its album), whose last
    play is after the cutoff; the 180-day window of [topTracks], the same
    comparison written on the column, does tell the two apart. *)
Theorem resurface_lists_recent_plays :
  resurfaceTracks (DB Sample.recentStore) Sample.now (-180) 50
  = [mkRankedTrack 1 "A" "x" 2 1699990000; mkRankedTrack 2 "B" "old" 1 1500000000]
  /\ resurfaceAlbums (DB Sample.recentStore) Sample.now (-180) 40
     = [mkRankedAlbum 1 "A" "LP" 2 1699990000; mkRankedAlbum 2 "B" "EP" 1 1500000000]
  /\ cutoff Sample.now (-180) <= 1699990000
  /\ topTracks (DB Sample.recentStore) Sample.now (-180) 50
     = [mkRankedTrack 1 "A" "x" 2 1699990000]
  /\ (forall now days last_played, having_stale now days last_played = true).
Proof.
  split; [vm_compute; reflexivity|].
  split; [vm_compute; reflexivity|].
  split; [vm_compute; discriminate|].
  split; [vm_compute; reflexivity|].
  apply having_stale_always.
Qed.

End Resurface.

(* ================================================================== *)
(** * The names of the candidate artists                               *)
(* ================================================================== *)

Section BuildFacts.

Import Lastfm Store Recommend Spec.

Variable ToLower TrimSpace : string -> string.
Variable ParseFloat : string -> Q.
Variable rangeOrder : list (string * agg) -> list (string * agg).
Variable similar : string -> Z -> result (list SimilarArtist).
Variable toptracks : string -> Z -> result (list TopTrack).
Variable db : list Row.
Variable now : Z.
Variable opt : Options.

(** [range] visits the entries of the map, in some order. *)
Hypothesis rangeOrder_perm : forall m, Permutation (rangeOrder m) m.

Lemma store_key_keys (k : string) (v : agg) (m : list (string * agg)) (k' : string) :
  In k' (map fst (store_key k v m)) -> k' = k \/ In k' (map fst m).
Proof.
  induction m as [|[k0 v0] m IH]; simpl.
  - intros [H|[]]. now left.
  - destruct (String.eqb k k0) eqn:E; simpl.
    + tauto.
    + intros [H|H]; [tauto|]. destruct (IH H); tauto.
Qed.

Lemma addSimilar_keys (seedSet : list string) (seed : string)
      (m : list (string * agg)) (a : SimilarArtist) (k : string) :
  In k (map fst (addSimilar ToLower TrimSpace ParseFloat opt seedSet seed m a)) ->
  In k (map fst m) \/ k = ToLower (TrimSpace (SimilarArtist_Name a)).
Proof.
  unfold addSimilar.
  destruct (String.eqb (TrimSpace (SimilarArtist_Name a)) ""); [tauto|].
  destruct (ExcludeSeedArtists opt
            && member (ToLower (TrimSpace (SimilarArtist_Name a))) seedSet); [tauto|].
  intros H. apply store_key_keys in H. tauto.
Qed.

Lemma addSimilar_fold_keys (seedSet : list string) (seed : string)
      (sim : list SimilarArtist) :
  forall (m : list (string * agg)) (k : string),
    In k (map fst (fold_left (addSimilar ToLower TrimSpace ParseFloat opt seedSet seed)
                             sim m)) ->
    In k (map fst m)
    \/ exists a, In a sim /\ k = ToLower (TrimSpace (SimilarArtist_Name a)).
Proof.
  induction sim as [|a sim IH]; intros m k H; simpl in H.
  - now left.
  - destruct (IH _ _ H) as [H1|[b [Hb Hk]]].
    + apply addSimilar_keys in H1. destruct H1 as [H1|H1]; [now left|].
      right. exists a. split; [now left|exact H1].
    + right. exists b. split; [now right|exact Hk].
Qed.

Lemma expandSeeds_keys (seedSet : list string) (seeds : list SeedArtist.t) :
  forall (m : list (string * agg)) (tr : list event)
         (m' : list (string * agg)) (tr' : list event),
    expandSeeds ToLower TrimSpace ParseFloat similar opt seedSet seeds m tr
    = (tr', Ok m') ->
    (forall k, In k (map fst m') ->
               In k (map fst m)
               \/ exists name, reported similar seeds name
                               /\ k = ToLower (TrimSpace name))
    /\ (forall e, In e tr' -> In e tr \/ exists s, e = EvSimilar s).
Proof.
  induction seeds as [|seed seeds IH]; intros m tr m' tr' H; simpl in H.
  - injection H as <- <-. split; auto.
  - destruct (Main.rr_result (getSimilarArtistsWithRetry similar (SeedArtist.Artist seed)))
      as [sim|e] eqn:E; [|discriminate].
    apply IH in H. destruct H as [H1 H2]. split.
    + intros k Hk. destruct (H1 k Hk) as [K|[name [[sd [sm [a [Ha [Hb [Hc Hd]]]]]] Hn]]].
      * apply addSimilar_fold_keys in K. destruct K as [K|[a [Ha Hk']]]; [now left|].
        right. exists (SimilarArtist_Name a). split; trivial.
        exists seed, sim, a. repeat split; trivial. now left.
      * right. exists name. split; trivial.
        exists sd, sm, a. repeat split; trivial. now right.
    + intros e0 He. destruct (H2 e0 He) as [K|K]; [|now right].
      apply in_app_or in K. destruct K as [K|[<-|[]]]; [now left|].
      right. eauto.
Qed.

Lemma setArtistRanks_names (l : list ArtistCand.t) (i : Z) :
  map ArtistCand.Artist (setArtistRanks i l) = map ArtistCand.Artist l.
Proof.
  revert i. induction l as [|c l IH]; intros i; simpl; trivial. now rewrite IH.
Qed.

Lemma artistCandidates_names (m : list (string * agg)) (cands : list ArtistCand.t) :
  artistCandidates rangeOrder opt m = Some cands ->
  forall c, In c cands -> In (ArtistCand.Artist c) (map fst m).
Proof.
  unfold artistCandidates.
  set (cs := map _ (rangeOrder m)).
  set (gt := fun i j => Qgtb (ArtistCand.Score i) (ArtistCand.Score j)).
  assert (Hcs : forall n, In n (map ArtistCand.Artist (Sort.SliceStable gt cs)) ->
                          In n (map fst m)).
  { intros n Hn.
    apply (Permutation_in _ (Permutation_map _ (SliceStable_perm gt cs))) in Hn.
    unfold cs in Hn. rewrite map_map in Hn. cbn [ArtistCand.Artist] in Hn.
    apply (Permutation_in _ (Permutation_map _ (rangeOrder_perm m))) in Hn.
    exact Hn. }
  intros H c Hc. apply Hcs.
  apply (in_map ArtistCand.Artist) in Hc.
  destruct (SimilarArtistsLimit opt <? Z.of_nat (List.length (Sort.SliceStable gt cs))).
  - destruct (SimilarArtistsLimit opt <? 0); [discriminate|].
    injection H as <-. rewrite setArtistRanks_names in Hc.
    apply in_map_iff in Hc. destruct Hc as [x [<- Hx]].
    apply in_map. now apply firstn_In in Hx.
  - injection H as <-. now rewrite setArtistRanks_names in Hc.
Qed.

Lemma expandTracks_expanded (names : list string) (a : ArtistCand.t)
      (top : list TopTrack) :
  In (ArtistCand.Artist a) names ->
  forall st, expanded db names st ->
             expanded db names (expandTracks ToLower TrimSpace db opt a top st).
Proof.
  intros Ha. induction top as [|t top IH]; intros st Hst; simpl; trivial.
  destruct (String.eqb (TrimSpace (TopTrack_Name t)) ""); [now apply IH|].
  destruct (member _ (seenTracks st)); [now apply IH|].
  destruct (localStats db (ArtistCand.Artist a) (TrimSpace (TopTrack_Name t)))
    as [plays lastPlayed] eqn:E.
  match goal with
  | |- context [full opt ?s] => assert (Hs : expanded db names s)
  end.
  { destruct Hst as [H1 H2]. split; cbn [trace tracks].
    - apply Forall_app. split; trivial. repeat constructor. exact Ha.
    - apply Forall_app. split; trivial. constructor; [|constructor].
      split; [exact Ha|]. cbn. now rewrite E. }
  match goal with
  | |- context [full opt ?s] => destruct (full opt s)
  end; [exact Hs|now apply IH].
Qed.

Lemma expandArtists_expanded (names : list string) (cands : list ArtistCand.t) :
  (forall c, In c cands -> In (ArtistCand.Artist c) names) ->
  forall st st' err,
    expanded db names st ->
    expandArtists ToLower TrimSpace toptracks db opt cands st = (st', err) ->
    expanded db names st'.
Proof.
  induction cands as [|a cands IH]; intros Hc st st' err Hst H; simpl in H.
  - now injection H as <- _.
  - assert (Ha : In (ArtistCand.Artist a) names) by (apply Hc; now left).
    match type of H with
    | context [Main.rr_result ?r] => destruct (Main.rr_result r) as [top|e]
    end.
    + match type of H with
      | context [expandTracks _ _ _ _ _ _ ?s] => assert (Hs : expanded db names s)
      end.
      { destruct Hst as [H1 H2]. split; cbn [trace tracks]; trivial.
        apply Forall_app. split; trivial. repeat constructor. exact Ha. }
      apply (expandTracks_expanded names a top Ha) in Hs.
      match type of H with
      | context [full opt ?s] => destruct (full opt s)
      end.
      * now injection H as <- _.
      * apply (IH (fun c Hin => Hc c (or_intror Hin)) _ _ _ Hs H).
    + injection H as <- _. destruct Hst as [H1 H2]. split; cbn [trace tracks]; trivial.
      apply Forall_app. split; trivial. repeat constructor. exact Ha.
Qed.

Lemma rankTracks_annotated (names : list string) (l : list TrackCand.t) :
  Forall (annotated db names) l -> Forall (annotated db names) (rankTracks opt l).
Proof.
  intros H. apply Forall_forall. intros X HX.
  change (rankTracks opt l) with (setRanks 0 (keptTracks opt l)) in HX.
  destruct (setRanks_In _ _ _ HX) as [k [c [Hk [_ [P [L [_ [Ar Tr]]]]]]]].
  apply nth_error_In in Hk.
  assert (Hc : In c l).
  { unfold keptTracks in Hk.
    apply (Permutation_in c (SliceStable_perm (less opt) l)).
    destruct (IncludePlayedTracks opt); trivial.
    apply filter_In in Hk. tauto. }
  rewrite Forall_forall in H. destruct (H c Hc) as [H1 H2].
  unfold annotated. rewrite Ar, Tr, P, L. now split.
Qed.

(** C10, as the code has it. In a run of [Build] that returns an output,
    the name of every candidate artist is the lower-cased form of the name
    the service reported for a similar artist, once the white space around
    that name is trimmed; every artist passed to the top-tracks call and
    every artist bound in the statistics statement is the name of a candidate
    artist, as it stands in the output; every candidate track carries such a
    name, and its play count and last play are those of the rows of the store
    whose artist and track are equal, byte for byte, to the name and the track
    of the candidate. *)
Theorem Build_candidate_names (tr : list event) (out : Output) :
  Build ToLower TrimSpace ParseFloat rangeOrder similar toptracks db now opt
  = (tr, Some (Ok out)) ->
  let names := map ArtistCand.Artist (Artists out) in
  (forall c, In c (Artists out) ->
             exists name, reported similar (Seeds out) name
                          /\ ArtistCand.Artist c = ToLower (TrimSpace name))
  /\ (forall artist, In (EvTopTracks artist) tr -> In artist names)
  /\ (forall artist track, In (EvStats artist track) tr -> In artist names)
  /\ (forall t, In t (Tracks out) ->
                In (TrackCand.Artist t) names
                /\ (TrackCand.LocalPlays t, TrackCand.LocalLastPlayedUTS t)
                   = localStats db (TrackCand.Artist t) (TrackCand.Track t)).
Proof.
  unfold Build.
  set (seeds := seedArtists db now (SeedWindow opt) (SeedArtistsLimit opt)).
  set (seedSet := map (fun s => ToLower (SeedArtist.Artist s)) seeds).
  destruct (expandSeeds ToLower TrimSpace ParseFloat similar opt seedSet seeds [] [])
    as [tr0 [m|e]] eqn:E1; [|discriminate].
  destruct (artistCandidates rangeOrder opt m) as [cands|] eqn:E2; [|discriminate].
  destruct (expandArtists ToLower TrimSpace toptracks db opt cands
                          (mkExpansion [] [] tr0)) as [st [e|]] eqn:E3; [discriminate|].
  intros H. injection H as <- <-. cbn [Artists Seeds Tracks].
  destruct (expandSeeds_keys _ _ _ _ _ _ E1) as [K1 K2].
  assert (Hnames : forall c, In c cands ->
                             In (ArtistCand.Artist c) (map ArtistCand.Artist cands)).
  { intros c Hc. now apply in_map. }
  assert (Hinit : expanded db (map ArtistCand.Artist cands) (mkExpansion [] [] tr0)).
  { split; cbn [trace tracks]; [|constructor].
    apply Forall_forall. intros e He.
    destruct (K2 e He) as [[]|[s ->]]. exact I. }
  destruct (expandArtists_expanded _ _ Hnames _ _ _ Hinit E3) as [T1 T2].
  split; [|split; [|split]].
  - intros c Hc.
    destruct (K1 _ (artistCandidates_names _ _ E2 c Hc)) as [[]|H]. exact H.
  - intros artist Ha. rewrite Forall_forall in T1. exact (T1 _ Ha).
  - intros artist track Ha. rewrite Forall_forall in T1. exact (T1 _ Ha).
  - intros t Ht.
    pose proof (rankTracks_annotated _ _ T2) as R.
    rewrite Forall_forall in R. exact (R t Ht).
Qed.

End BuildFacts.

Section BuildWitness.

Import Lastfm Store Recommend Spec.

Lemma Build_candidate_names_witness :
  (forall artist, In (EvTopTracks artist) (fst Sample.sampleBuild) ->
                  In artist (map ArtistCand.Artist (Artists Sample.sampleOutput)))
  /\ (forall artist track, In (EvStats artist track) (fst Sample.sampleBuild) ->
                           In artist (map ArtistCand.Artist (Artists Sample.sampleOutput))).
Proof.
  destruct (Build_candidate_names
              GoStrings.ToLower GoStrings.TrimSpace Strconv.ParseDecimal (fun m => m)
              Sample.similarOfA Sample.oneTopTrack (DB Sample.recentStore) Sample.now
              DefaultOptions (fun m => Permutation_refl m)
              (fst Sample.sampleBuild) Sample.sampleOutput)
    as [_ [H1 [H2 _]]].
  - vm_compute. reflexivity.
  - split; [exact H1|exact H2].
Defined.

(** C10 as stated fails: the service reports [" Foo "] for the seed, the
    candidate is named ["foo"], and the lower-cased form of what was
    reported is [" foo "]. *)
Lemma Build_candidate_name_is_trimmed :
  Sample.sampleBuild
  = ([EvSimilar "A"; EvTopTracks "foo"; EvStats "foo" "Song"],
     Some (Ok Sample.sampleOutput))
  /\ map ArtistCand.Artist (Artists Sample.sampleOutput) = ["foo"%string]
  /\ ~ (forall c, In c (Artists Sample.sampleOutput) ->
          exists name, reported Sample.similarOfA (Seeds Sample.sampleOutput) name
                       /\ ArtistCand.Artist c = GoStrings.ToLower name).
Proof.
  split; [vm_compute; reflexivity|]. split; [reflexivity|].
  intros H.
  destruct (H (ArtistCand.mk 1 "foo" (5 # 10) ["A"%string])) as [name [Hr Hn]].
  - left. reflexivity.
  - destruct Hr as [seed [sim [a [Hs [Hsim [Ha Hname]]]]]].
    destruct Hs as [<-|[]].
    vm_compute in Hsim. injection Hsim as <-.
    destruct Ha as [<-|[]].
    subst name. vm_compute in Hn. discriminate Hn.
Qed.

End BuildWitness.

(* ================================================================== *)
(** * What the insert loops keep true of the store                     *)
(* ================================================================== *)

Section StoreInvariants.

Import Lastfm Store Main Spec Notions.

Lemma has_hash_In (h : string) (db : list Row) :
  has_hash h db = true <-> In h (hashes db).
Proof.
  unfold has_hash, hashes. rewrite existsb_exists, in_map_iff. split.
  - intros [r [Hr E]]. apply String.eqb_eq in E. eauto.
  - intros [r [E Hr]]. exists r. split; trivial. now apply String.eqb_eq.
Qed.

(** The two things one turn of the track loop can do to the store: leave
    it as it is (the event is ignored, or the insert fails), or add one row
    and one raw envelope for it. *)
Lemma insertOne_cases (t : Track) (s : Store) :
  (insertOne t s = (s, Ok ignoredOnce))
  \/ (exists e, insertOne t s = (s, Err e))
  \/ (exists n,
        timestamp t = Some n
        /\ has_hash (source_hash (rowOf t n)) (DB s) = false
        /\ insertOne t s
           = (mkStore (DB s ++ [rowOf t n]) (RawJSONL s ++ [t]),
              Ok (mkInsertResult 1 0))).
Proof.
  destruct s as [db raw]. unfold insertOne. cbn [DB RawJSONL].
  destruct (timestamp t) as [n|] eqn:Hn.
  - rewrite (InsertScrobble_stamped t n db Hn).
    destruct (has_hash (source_hash (rowOf t n)) db) eqn:E.
    + left. reflexivity.
    + right. right. exists n. repeat split; trivial.
  - unfold timestamp in Hn. unfold InsertScrobble, parseI64.
    destruct (Date_ t) as [d|]; [|now left].
    destruct (String.eqb (UTS d) ""); [now left|].
    rewrite Hn. right. left. eexists. reflexivity.
Qed.

Section Invariant.

Variable P : Progress -> Prop.

Hypothesis P_ok :
  forall st t s' res flag,
    P st -> insertOne t (store st) = (s', Ok res) ->
    P (mkProgress s' (inserted st + Inserted res) (ignored st + Ignored res) flag).

Hypothesis P_err :
  forall st t s' e,
    P st -> insertOne t (store st) = (s', Err e) ->
    P (mkProgress s' (inserted st) (ignored st) (stop st)).

Lemma backfillTracks_invariant (ts : list Track) :
  forall st, P st -> P (fst (backfillTracks ts st)).
Proof.
  induction ts as [|t ts IH]; intros st H; simpl; trivial.
  destruct (insertOne t (store st)) as [s' [res|e]] eqn:E.
  - apply IH. now apply (P_ok st t).
  - simpl. now apply (P_err st t s' e).
Qed.

Lemma syncTracks_invariant (maxSeen : Z) (ts : list Track) :
  forall st, P st -> P (fst (syncTracks maxSeen ts st)).
Proof.
  induction ts as [|t ts IH]; intros st H; simpl; trivial.
  destruct (insertOne t (store st)) as [s' [res|e]] eqn:E.
  - apply IH. now apply (P_ok st t).
  - simpl. now apply (P_err st t s' e).
Qed.

Lemma backfillLoop_invariant (remote : Remote) (fuel : nat) :
  forall page totalPages pages st,
    P st -> P (final (backfillLoop fuel remote page totalPages pages st)).
Proof.
  induction fuel as [|fuel IH]; intros page totalPages pages st H;
    cbn [backfillLoop final]; trivial.
  destruct (fetch remote page) as [p|e]; cbn [final]; trivial.
  destruct (Tracks p) as [|t ts] eqn:Et; cbn [final]; trivial.
  pose proof (backfillTracks_invariant (t :: ts) st H) as K.
  destruct (backfillTracks (t :: ts) st) as [st' [err|]]; cbn [fst final] in *; trivial.
  match goal with
  | |- context [if ?c then _ else _] => destruct c
  end; cbn [final]; trivial.
  now apply IH.
Qed.

Lemma syncLoop_invariant (remote : Remote) (maxSeen : Z) (fuel : nat) :
  forall page pages st,
    P st -> P (final (syncLoop fuel remote maxSeen page pages st)).
Proof.
  induction fuel as [|fuel IH]; intros page pages st H;
    cbn [syncLoop final]; trivial.
  destruct (fetch remote page) as [p|e]; cbn [final]; trivial.
  destruct (Tracks p) as [|t ts] eqn:Et; cbn [final]; trivial.
  pose proof (syncTracks_invariant maxSeen (t :: ts) st H) as K.
  destruct (syncTracks maxSeen (t :: ts) st) as [st' [err|]]; cbn [fst final] in *; trivial.
  destruct (stop st'); cbn [final]; trivial.
  now apply IH.
Qed.

End Invariant.

(** X1. The uniqueness of [source_hash] is kept by both commands, however
    the run ends. *)
Theorem commands_keep_hashes_unique (fuel : nat) (remote : Remote) (s : Store) :
  NoDup (hashes (DB s)) ->
  NoDup (hashes (DB (store (final (cmdBackfill fuel remote s)))))
  /\ NoDup (hashes (DB (store (final (cmdSync fuel remote s))))).
Proof.
  intros H.
  set (P := fun st : Progress => NoDup (hashes (DB (store st)))).
  assert (Hstep : forall st t s' r, P st -> insertOne t (store st) = (s', r) ->
                                    NoDup (hashes (DB s'))).
  { intros st t s' r Hst E.
    destruct (insertOne_cases t (store st)) as [K|[[e K]|[n [_ [Hh K]]]]];
      rewrite K in E; injection E as <- _; trivial.
    cbn [DB]. unfold hashes. rewrite map_app. cbn [map].
    apply NoDup_app.
    - exact Hst.
    - repeat constructor. intros [].
    - intros h Hin [<-|[]]. apply has_hash_In in Hin. congruence. }
  assert (Pok : forall st t s' res flag,
             P st -> insertOne t (store st) = (s', Ok res) ->
             P (mkProgress s' (inserted st + Inserted res) (ignored st + Ignored res) flag)).
  { intros st t s' res flag Hst E. exact (Hstep st t s' _ Hst E). }
  assert (Perr : forall st t s' e,
             P st -> insertOne t (store st) = (s', Err e) ->
             P (mkProgress s' (inserted st) (ignored st) (stop st))).
  { intros st t s' e Hst E. exact (Hstep st t s' _ Hst E). }
  split.
  - apply (backfillLoop_invariant P Pok Perr). exact H.
  - apply (syncLoop_invariant P Pok Perr). exact H.
Qed.

Lemma commands_keep_hashes_unique_witness :
  NoDup (hashes (DB (store (final (cmdBackfill 3 Sample.threePages Sample.emptyStore))))).
Proof.
  apply (commands_keep_hashes_unique 3 Sample.threePages Sample.emptyStore).
  constructor.
Defined.

Lemma extends_refl (s : Store) : extends s s.
Proof. split; exists []; now rewrite app_nil_r. Qed.

Lemma extends_trans (a b c : Store) : extends a b -> extends b c -> extends a c.
Proof.
  intros [[r1 H1] [w1 K1]] [[r2 H2] [w2 K2]]. split.
  - exists (r1 ++ r2). now rewrite H2, H1, app_assoc.
  - exists (w1 ++ w2). now rewrite K2, K1, app_assoc.
Qed.

Lemma insertOne_extends (t : Track) (s s' : Store) (r : result InsertResult) :
  insertOne t s = (s', r) -> extends s s'.
Proof.
  intros E.
  destruct (insertOne_cases t s) as [K|[[e K]|[n [_ [_ K]]]]];
    rewrite K in E; injection E as <- _.
  - apply extends_refl.
  - apply extends_refl.
  - split; cbn [DB RawJSONL]; eexists; reflexivity.
Qed.

(** The greatest and the least timestamp of a table. *)
Lemma max_played_at_fold (db : list Row) :
  forall acc,
    match fold_left (fun acc r =>
                       match acc with
                       | None => Some (played_at_uts r)
                       | Some m => Some (Z.max m (played_at_uts r))
                       end) db acc with
    | None => acc = None /\ db = []
    | Some m =>
        (forall r, In r db -> played_at_uts r <= m)
        /\ (forall a, acc = Some a -> a <= m)
        /\ (acc = Some m \/ exists r, In r db /\ played_at_uts r = m)
    end.
Proof.
  induction db as [|x db IH]; intros acc; simpl.
  - destruct acc as [a|]; [|now split].
    split; [intros r []|]. split; [intros b E; injection E as ->; lia|now left].
  - match goal with
    | |- context [fold_left ?f db ?a] =>
        specialize (IH a); destruct (fold_left f db a) as [m|]
    end.
    + destruct IH as [H1 [H2 H3]]. split; [|split].
      * intros r [<-|Hr]; [|now apply H1].
        destruct acc as [a|]; [specialize (H2 _ eq_refl); lia|].
        specialize (H2 _ eq_refl). lia.
      * intros a ->. specialize (H2 _ eq_refl). lia.
      * destruct H3 as [H3|[r [Hr Hm]]]; [|right; exists r; auto].
        destruct acc as [a|]; injection H3 as H3.
        -- destruct (Z.max_spec a (played_at_uts x)) as [[_ E]|[_ E]];
             rewrite E in H3; [right; exists x; auto|now left; f_equal].
        -- right. exists x. auto.
    + destruct IH as [H _]. destruct acc; discriminate.
Qed.

Lemma min_played_at_fold (db : list Row) :
  forall acc,
    match fold_left (fun acc r =>
                       match acc with
                       | None => Some (played_at_uts r)
                       | Some m => Some (Z.min m (played_at_uts r))
                       end) db acc with
    | None => acc = None /\ db = []
    | Some m =>
        (forall r, In r db -> m <= played_at_uts r)
        /\ (forall a, acc = Some a -> m <= a)
        /\ (acc = Some m \/ exists r, In r db /\ played_at_uts r = m)
    end.
Proof.
  induction db as [|x db IH]; intros acc; simpl.
  - destruct acc as [a|]; [|now split].
    split; [intros r []|]. split; [intros b E; injection E as ->; lia|now left].
  - match goal with
    | |- context [fold_left ?f db ?a] =>
        specialize (IH a); destruct (fold_left f db a) as [m|]
    end.
    + destruct IH as [H1 [H2 H3]]. split; [|split].
      * intros r [<-|Hr]; [|now apply H1].
        destruct acc as [a|]; [specialize (H2 _ eq_refl); lia|].
        specialize (H2 _ eq_refl). lia.
      * intros a ->. specialize (H2 _ eq_refl). lia.
      * destruct H3 as [H3|[r [Hr Hm]]]; [|right; exists r; auto].
        destruct acc as [a|]; injection H3 as H3.
        -- destruct (Z.min_spec a (played_at_uts x)) as [[_ E]|[_ E]];
             rewrite E in H3; [now left; f_equal|right; exists x; auto].
        -- right. exists x. auto.
    + destruct IH as [H _]. destruct acc; discriminate.
Qed.

Lemma max_played_at_spec (db : list Row) :
  match max_played_at db with
  | None => db = []
  | Some m => (forall r, In r db -> played_at_uts r <= m)
              /\ exists r, In r db /\ played_at_uts r = m
  end.
Proof.
  unfold max_played_at. pose proof (max_played_at_fold db None) as H.
  destruct (fold_left _ db None) as [m|].
  - destruct H as [H1 [_ [H3|H3]]]; [discriminate|]. now split.
  - tauto.
Qed.

Lemma min_played_at_spec (db : list Row) :
  match Verify.min_played_at db with
  | None => db = []
  | Some m => (forall r, In r db -> m <= played_at_uts r)
              /\ exists r, In r db /\ played_at_uts r = m
  end.
Proof.
  unfold Verify.min_played_at. pose proof (min_played_at_fold db None) as H.
  destruct (fold_left _ db None) as [m|].
  - destruct H as [H1 [_ [H3|H3]]]; [discriminate|]. now split.
  - tauto.
Qed.

Lemma MaxPlayedAtUTS_bounds (db : list Row) (r : Row) :
  In r db -> played_at_uts r <= MaxPlayedAtUTS db.
Proof.
  intros Hr. unfold MaxPlayedAtUTS. pose proof (max_played_at_spec db) as H.
  destruct (max_played_at db) as [m|].
  - now apply H.
  - subst db. destruct Hr.
Qed.

Lemma MaxPlayedAtUTS_attained (db : list Row) :
  db <> [] -> exists r, In r db /\ played_at_uts r = MaxPlayedAtUTS db.
Proof.
  intros Hne. unfold MaxPlayedAtUTS. pose proof (max_played_at_spec db) as H.
  destruct (max_played_at db) as [m|]; [tauto|contradiction].
Qed.

(** X2. Neither command removes or rewrites anything: the table and the
    raw log at the end of a run are those of the start with rows and
    envelopes added after them. So the watermark of a table that is not
    empty never moves back. *)
Theorem commands_only_append (fuel : nat) (remote : Remote) (s : Store) :
  let kept (r : Run) :=
    extends s (store (final r))
    /\ (DB s <> [] ->
        MaxPlayedAtUTS (DB s) <= MaxPlayedAtUTS (DB (store (final r)))) in
  kept (cmdBackfill fuel remote s) /\ kept (cmdSync fuel remote s).
Proof.
  set (P := fun st : Progress => extends s (store st)).
  assert (Pok : forall st t s' res flag,
             P st -> insertOne t (store st) = (s', Ok res) ->
             P (mkProgress s' (inserted st + Inserted res) (ignored st + Ignored res) flag)).
  { intros st t s' res flag Hst E. unfold P. cbn [store].
    eapply extends_trans; [exact Hst|]. eapply insertOne_extends; eauto. }
  assert (Perr : forall st t s' e,
             P st -> insertOne t (store st) = (s', Err e) ->
             P (mkProgress s' (inserted st) (ignored st) (stop st))).
  { intros st t s' e Hst E. unfold P. cbn [store].
    eapply extends_trans; [exact Hst|]. eapply insertOne_extends; eauto. }
  assert (Hmax : forall s', extends s s' -> DB s <> [] ->
                            MaxPlayedAtUTS (DB s) <= MaxPlayedAtUTS (DB s')).
  { intros s' [[rows E] _] Hne.
    destruct (MaxPlayedAtUTS_attained (DB s) Hne) as [r [Hr <-]].
    apply MaxPlayedAtUTS_bounds. rewrite E. apply in_or_app. now left. }
  cbv zeta. split.
  - assert (K : extends s (store (final (cmdBackfill fuel remote s))))
      by (apply (backfillLoop_invariant P Pok Perr); apply extends_refl).
    split; [exact K|now apply Hmax].
  - assert (K : extends s (store (final (cmdSync fuel remote s))))
      by (apply (syncLoop_invariant P Pok Perr); apply extends_refl).
    split; [exact K|now apply Hmax].
Qed.

Lemma commands_only_append_witness :
  MaxPlayedAtUTS (DB Sample.syncedStore)
  <= MaxPlayedAtUTS (DB (store (final (cmdSync 5 Sample.threePages Sample.syncedStore)))).
Proof.
  destruct (commands_only_append 5 Sample.threePages Sample.syncedStore)
    as [_ [_ H]].
  apply H. discriminate.
Defined.

(** X4. [Stats] returns the number of rows, a timestamp no row is below
    and a timestamp no row is above, the latter being the watermark
    [MaxPlayedAtUTS]; on a table that is not empty both are timestamps of
    rows, on an empty one both are 0. *)
Theorem Stats_bounds (db : list Row) :
  let '(count, minUTS, maxUTS) := Verify.Stats db in
  count = Z.of_nat (List.length db)
  /\ maxUTS = MaxPlayedAtUTS db
  /\ (db = [] -> minUTS = 0 /\ maxUTS = 0)
  /\ (forall r, In r db -> minUTS <= played_at_uts r <= maxUTS)
  /\ (db <> [] ->
      (exists r, In r db /\ played_at_uts r = minUTS)
      /\ (exists r, In r db /\ played_at_uts r = maxUTS)).
Proof.
  unfold Verify.Stats, Verify.nullI64.
  pose proof (max_played_at_spec db) as Hmax.
  pose proof (min_played_at_spec db) as Hmin.
  unfold MaxPlayedAtUTS.
  destruct (max_played_at db) as [mx|]; destruct (Verify.min_played_at db) as [mn|].
  - destruct Hmax as [M1 M2]. destruct Hmin as [N1 N2].
    repeat split; try tauto.
    + subst db. destruct M2 as [r [[] _]].
    + subst db. destruct M2 as [r [[] _]].
    + now apply N1.
    + now apply M1.
  - subst db. destruct Hmax as [_ [r [[] _]]].
  - subst db. destruct Hmin as [_ [r [[] _]]].
  - subst db. repeat split; trivial; try contradiction; intros r [].
Qed.

Lemma Stats_bounds_witness :
  exists r, In r (DB Sample.recentStore) /\ played_at_uts r = 1699990000.
Proof.
  pose proof (Stats_bounds (DB Sample.recentStore)) as H.
  cbv beta iota zeta delta [Verify.Stats] in H.
  destruct H as [_ [_ [_ [_ H]]]].
  destruct H as [_ H]; [discriminate|].
  exact H.
Defined.

(** X3. At the end of a run of either command, however it ends, the
    counter of inserts is the number of rows added to the table, which is
    the number of envelopes added to the raw log; the counter of ignored
    events is not negative. *)
Theorem commands_count_what_they_add (fuel : nat) (remote : Remote) (s : Store) :
  let added (r : Run) :=
    inserted (final r)
    = Z.of_nat (List.length (DB (store (final r)))) - Z.of_nat (List.length (DB s))
    /\ inserted (final r)
       = Z.of_nat (List.length (RawJSONL (store (final r))))
         - Z.of_nat (List.length (RawJSONL s))
    /\ 0 <= ignored (final r) in
  added (cmdBackfill fuel remote s) /\ added (cmdSync fuel remote s).
Proof.
  set (P := fun st : Progress =>
              inserted st
              = Z.of_nat (List.length (DB (store st))) - Z.of_nat (List.length (DB s))
              /\ inserted st
                 = Z.of_nat (List.length (RawJSONL (store st)))
                   - Z.of_nat (List.length (RawJSONL s))
              /\ 0 <= ignored st).
  assert (Pok : forall st t s' res flag,
             P st -> insertOne t (store st) = (s', Ok res) ->
             P (mkProgress s' (inserted st + Inserted res) (ignored st + Ignored res) flag)).
  { intros st t s' res flag [H1 [H2 H3]] E. unfold P. cbn [store inserted ignored].
    destruct (insertOne_cases t (store st)) as [K|[[e K]|[n [_ [_ K]]]]];
      rewrite K in E; try discriminate; injection E as <- <-;
      cbn [DB RawJSONL Inserted Ignored ignoredOnce].
    - repeat split; lia.
    - rewrite !length_app. cbn [List.length]. repeat split; lia. }
  assert (Perr : forall st t s' e,
             P st -> insertOne t (store st) = (s', Err e) ->
             P (mkProgress s' (inserted st) (ignored st) (stop st))).
  { intros st t s' e [H1 [H2 H3]] E. unfold P. cbn [store inserted ignored].
    destruct (insertOne_cases t (store st)) as [K|[[e' K]|[n [_ [_ K]]]]];
      rewrite K in E; try discriminate; injection E as <- _.
    repeat split; lia. }
  assert (P0 : P (mkProgress s 0 0 false)).
  { unfold P. cbn [store inserted ignored]. repeat split; lia. }
  cbv zeta. split.
  - apply (backfillLoop_invariant P Pok Perr). exact P0.
  - apply (syncLoop_invariant P Pok Perr). exact P0.
Qed.

End StoreInvariants.

(* ================================================================== *)
(** * The key, the insert and the lookup                               *)
(* ================================================================== *)

Section KeyAndLookup.

Import Lastfm Store Main Spec Notions.

Lemma compress_length (h block : list Z) :
  List.length h = 8%nat -> List.length (SHA256.compress h block) = 8%nat.
Proof.
  intros H. unfold SHA256.compress.
  rewrite length_map, length_combine, H. reflexivity.
Qed.

Lemma blocks_length (fuel : nat) :
  forall h bs, List.length h = 8%nat -> List.length (SHA256.blocks fuel h bs) = 8%nat.
Proof.
  induction fuel as [|fuel IH]; intros h bs H; simpl; trivial.
  destruct bs as [|b bs]; trivial.
  apply IH. now apply compress_length.
Qed.

Lemma be_bytes_range (n : nat) (x : Z) :
  Forall (fun b => 0 <= b < 256) (SHA256.be_bytes n x).
Proof.
  induction n as [|n IH]; simpl; constructor; trivial.
  apply Z.mod_pos_bound. lia.
Qed.

Lemma be_bytes_length (n : nat) (x : Z) : List.length (SHA256.be_bytes n x) = n.
Proof. induction n as [|n IH]; simpl; auto. Qed.

Lemma Sum256_shape (msg : list Z) :
  List.length (SHA256.Sum256 msg) = 32%nat
  /\ Forall (fun b => 0 <= b < 256) (SHA256.Sum256 msg).
Proof.
  unfold SHA256.Sum256.
  set (p := SHA256.pad msg).
  pose proof (blocks_length (List.length p) SHA256.H0 p eq_refl) as H.
  destruct (SHA256.blocks (List.length p) SHA256.H0 p)
    as [|a [|b [|c [|d [|e [|f [|g [|h [|]]]]]]]]]; try discriminate.
  cbn [flat_map]. split.
  - rewrite !length_app, !be_bytes_length. reflexivity.
  - repeat (apply Forall_app; split); try apply be_bytes_range. constructor.
Qed.

Lemma hexdigit_is_hex (d : Z) : 0 <= d < 16 -> is_hex (Strconv.hexdigit d) = true.
Proof.
  intros H.
  assert (E : d = 0 \/ d = 1 \/ d = 2 \/ d = 3 \/ d = 4 \/ d = 5 \/ d = 6 \/ d = 7
              \/ d = 8 \/ d = 9 \/ d = 10 \/ d = 11 \/ d = 12 \/ d = 13 \/ d = 14
              \/ d = 15) by lia.
  repeat (destruct E as [->|E]; [reflexivity|]). subst d. reflexivity.
Qed.

Lemma EncodeToString_shape (bs : list Z) :
  Forall (fun b => 0 <= b < 256) bs ->
  String.length (Strconv.EncodeToString bs) = (2 * List.length bs)%nat
  /\ all_chars is_hex (Strconv.EncodeToString bs) = true.
Proof.
  induction 1 as [|b bs Hb _ [IH1 IH2]]; [now split|].
  cbn [Strconv.EncodeToString String.length List.length all_chars].
  split; [rewrite IH1; lia|].
  rewrite IH2, !hexdigit_is_hex; trivial.
  - apply Z.mod_pos_bound. lia.
  - split; [apply Z.div_pos; lia|apply Z.div_lt_upper_bound; lia].
Qed.

(** X5. Whatever the event, its key is made of 64 characters, all of them
    digits or the letters a to f in lower case. *)
Theorem StableSourceHash_shape (playedAtUTS : Z) (artist track album : string) :
  String.length (StableSourceHash playedAtUTS artist track album) = 64%nat
  /\ all_chars is_hex (StableSourceHash playedAtUTS artist track album) = true.
Proof.
  unfold StableSourceHash.
  destruct (Sum256_shape
              (SHA256.bytes_of_string (source_string playedAtUTS artist track album)))
    as [Hlen Hrange].
  destruct (EncodeToString_shape _ Hrange) as [H1 H2].
  split; [|exact H2]. rewrite H1, Hlen. reflexivity.
Qed.

Lemma dated_spec (r : Row) :
  Digest.dated r = (Digest.minSaneUTS <=? played_at_uts r).
Proof.
  unfold Digest.dated, SQLite.ge, SQLite.compare, SQLite.convert.
  cbn [fst snd SQLite.apply_numeric SQLite.compare_values].
  destruct (Z.compare_spec (played_at_uts r) Digest.minSaneUTS);
    symmetry; [apply Z.leb_le|apply Z.leb_gt|apply Z.leb_le]; lia.
Qed.

Lemma max_played_at_snoc (rows : list Row) (r : Row) :
  max_played_at (rows ++ [r])
  = Some (match max_played_at rows with
          | None => played_at_uts r
          | Some m => Z.max m (played_at_uts r)
          end).
Proof.
  unfold max_played_at. rewrite fold_left_app. cbn [fold_left].
  now destruct (fold_left _ rows None).
Qed.

(** X6. An insert that succeeds did one of two things. Either it reports
    inserted=1: the event has a timestamp [n], the table is the old one with
    one row for the event after it, and, when [n] is from 2000 on, the lookup
    of the recommendations under the very artist and track of the event counts
    one play more and gives the later of [n] and the former last play. Or it
    reports ignored=1 and the table is untouched. *)
Theorem InsertScrobble_then_lookup (t : Track) (db db' : list Row) (res : InsertResult) :
  InsertScrobble t db = (db', Ok res) ->
  (res = mkInsertResult 1 0
   /\ exists n,
       timestamp t = Some n
       /\ db' = db ++ [rowOf t n]
       /\ played_at_uts (rowOf t n) = n
       /\ (Digest.minSaneUTS <= n ->
           Recommend.localStats db' (Text (Artist t)) (Name t)
           = (fst (Recommend.localStats db (Text (Artist t)) (Name t)) + 1,
              Z.max (snd (Recommend.localStats db (Text (Artist t)) (Name t))) n)))
  \/ (res = mkInsertResult 0 1 /\ db' = db).
Proof.
  intros H.
  destruct (timestamp t) as [n|] eqn:Hn.
  - rewrite (InsertScrobble_stamped t n db Hn) in H.
    destruct (has_hash (source_hash (rowOf t n)) db).
    + right. injection H as <- <-. now split.
    + left. injection H as <- <-. split; trivial.
      exists n. repeat split; trivial.
      intros Hdated. unfold Recommend.localStats.
      rewrite filter_app. cbn [filter].
      rewrite dated_spec. cbn [rowOf played_at_uts artist_name track_name].
      replace (Digest.minSaneUTS <=? n) with true by (symmetry; now apply Z.leb_le).
      rewrite !String.eqb_refl. cbn [andb].
      rewrite length_app, max_played_at_snoc. cbn [List.length fst snd played_at_uts].
      set (rows := filter _ db).
      f_equal; [lia|].
      pose proof (max_played_at_spec rows) as K.
      destruct (max_played_at rows) as [m|]; cbv beta iota; trivial.
      change (played_at_uts (rowOf t n)) with n.
      unfold Digest.minSaneUTS in Hdated. lia.
  - right. unfold timestamp in Hn. unfold InsertScrobble, parseI64 in H.
    destruct (Date_ t) as [d|]; [|injection H as <- <-; now split].
    destruct (String.eqb (UTS d) ""); [injection H as <- <-; now split|].
    rewrite Hn in H. discriminate.
Qed.

Lemma InsertScrobble_then_lookup_witness :
  Recommend.localStats
    (fst (InsertScrobble (Sample.played "A" "x" "LP" "1699999999") (DB Sample.recentStore)))
    "A" "x"
  = (3, 1699999999).
Proof.
  destruct (InsertScrobble_then_lookup
              (Sample.played "A" "x" "LP" "1699999999") (DB Sample.recentStore)
              (fst (InsertScrobble (Sample.played "A" "x" "LP" "1699999999")
                                   (DB Sample.recentStore)))
              (mkInsertResult 1 0)) as [[_ [n [Hn [_ [_ H]]]]]|[H _]].
  - vm_compute. reflexivity.
  - injection Hn as <-.
    assert (Hd : Digest.minSaneUTS <= 1699999999) by (vm_compute; discriminate).
    etransitivity; [exact (H Hd)|reflexivity].
  - discriminate H.
Defined.

(** X7. An event the insert refuses ends the page then and there: the
    events before it on the page stay inserted, with their envelopes, those
    after it are not looked at, and the loop hands the error on. *)
Theorem track_loops_stop_at_failed_insert
        (maxSeen : Z) (pre post : list Track) (bad : Track) (st : Progress) :
  forallb wellformed pre = true -> wellformed bad = false ->
  (exists e st',
      backfillTracks (pre ++ bad :: post) st = (st', Some e)
      /\ store st' = insertAll pre (store st))
  /\ (exists e st',
         syncTracks maxSeen (pre ++ bad :: post) st = (st', Some e)
         /\ store st' = insertAll pre (store st)).
Proof.
  intros Hpre Hbad.
  assert (Hfail : forall s, exists e, insertOne bad s = (s, Err e)).
  { intros s. destruct (insertOne_cases bad s) as [K|[K|[n [Hn _]]]]; trivial.
    - exfalso. unfold insertOne in K.
      unfold wellformed in Hbad. unfold InsertScrobble, parseI64 in K.
      destruct (Date_ bad) as [d|]; [|discriminate].
      destruct (String.eqb (UTS d) ""); [discriminate|].
      destruct (Strconv.ParseInt (UTS d)); discriminate.
    - exfalso. unfold timestamp in Hn. unfold wellformed in Hbad.
      destruct (Date_ bad) as [d|]; [|discriminate].
      destruct (String.eqb (UTS d) ""); [discriminate|].
      destruct (Strconv.ParseInt (UTS d)); discriminate. }
  split.
  - destruct (backfillTracks_wellformed pre st Hpre) as [H1 [H2 _]].
    rewrite backfillTracks_app by exact H1. cbn [backfillTracks].
    destruct (Hfail (store (fst (backfillTracks pre st)))) as [e He].
    rewrite He. do 2 eexists. split; [reflexivity|exact H2].
  - destruct (syncTracks_wellformed maxSeen pre st Hpre) as [H1 [H2 _]].
    rewrite syncTracks_app by exact H1. cbn [syncTracks].
    destruct (Hfail (store (fst (syncTracks maxSeen pre st)))) as [e He].
    rewrite He. do 2 eexists. split; [reflexivity|exact H2].
Qed.

Lemma track_loops_stop_at_failed_insert_witness :
  exists e st',
    backfillTracks (Sample.page1 ++ Sample.played "A" "x" "" "12a" :: Sample.page2)
                   (mkProgress Sample.emptyStore 0 0 false) = (st', Some e)
    /\ store st' = insertAll Sample.page1 Sample.emptyStore.
Proof.
  destruct (track_loops_stop_at_failed_insert
              0 Sample.page1 Sample.page2 (Sample.played "A" "x" "" "12a")
              (mkProgress Sample.emptyStore 0 0 false)) as [H _].
  - reflexivity.
  - reflexivity.
  - exact H.
Defined.

End KeyAndLookup.

(* ================================================================== *)
(** * The shape of a run                                               *)
(* ================================================================== *)

Section RunShape.

Import Lastfm Store Main Spec Notions.

Variable remote : Remote.

Lemma pageNumbers_1 (page : Z) : pageNumbers page 1 = [page].
Proof. now rewrite pageNumbers_S. Qed.

Lemma inOrder_one (fuel : nat) (page : Z) (pages : list Z) (r : Run) :
  fetched r = pages ++ [page] ->
  exit_code r = Some 0 \/ exit_code r = Some 1 ->
  inOrder (S fuel) page pages r.
Proof.
  intros Hf He. exists 1%nat. rewrite pageNumbers_1.
  split; [lia|]. split; [exact Hf|]. split; [|split; [tauto|lia]].
  intros Hn. destruct He as [He|He]; congruence.
Qed.

Lemma inOrder_more (fuel : nat) (page : Z) (pages : list Z) (r : Run) :
  inOrder fuel (page + 1) (pages ++ [page]) r -> inOrder (S fuel) page pages r.
Proof.
  intros [k [H1 [H2 [H3 [H4 _]]]]]. exists (S k).
  split; [lia|]. split; [|split; [|split; [exact H4|lia]]].
  - now rewrite H2, pageNumbers_S, <- app_assoc.
  - intros Hn. now rewrite (H3 Hn).
Qed.

Lemma backfillLoop_inOrder (fuel : nat) :
  forall page totalPages pages st,
    inOrder fuel page pages (backfillLoop fuel remote page totalPages pages st).
Proof.
  induction fuel as [|fuel IH]; intros page totalPages pages st.
  - exists 0%nat. cbn. rewrite app_nil_r. repeat split; auto.
  - cbn [backfillLoop].
    destruct (fetch remote page) as [p|e]; [|apply inOrder_one; auto].
    destruct (Tracks p) as [|t ts]; [apply inOrder_one; auto|].
    destruct (backfillTracks (t :: ts) st) as [st' [err|]];
      [apply inOrder_one; auto|].
    match goal with
    | |- context [if ?c then _ else _] => destruct c
    end; [apply inOrder_one; auto|].
    apply inOrder_more, IH.
Qed.

Lemma syncLoop_inOrder (maxSeen : Z) (fuel : nat) :
  forall page pages st,
    inOrder fuel page pages (syncLoop fuel remote maxSeen page pages st).
Proof.
  induction fuel as [|fuel IH]; intros page pages st.
  - exists 0%nat. cbn. rewrite app_nil_r. repeat split; auto.
  - cbn [syncLoop].
    destruct (fetch remote page) as [p|e]; [|apply inOrder_one; auto].
    destruct (Tracks p) as [|t ts]; [apply inOrder_one; auto|].
    destruct (syncTracks maxSeen (t :: ts) st) as [st' [err|]];
      [apply inOrder_one; auto|].
    destruct (stop st'); [apply inOrder_one; auto|].
    apply inOrder_more, IH.
Qed.

(** X8. Both commands request the pages 1, 2, 3, ... in this order,
    without a gap and without asking twice for a page, and return 0 or 1;
    they request at least the first page. ([fuel] bounds the number of turns
    of the page loop the model follows; a run still under way when it runs out
    has no exit code.) *)
Theorem commands_walk_pages_in_order (fuel : nat) (s : Store) :
  let walked (r : Run) :=
    exists k,
      (k <= fuel)%nat
      /\ fetched r = pageNumbers 1 k
      /\ NoDup (fetched r)
      /\ (exit_code r = None -> k = fuel)
      /\ (exit_code r = None \/ exit_code r = Some 0 \/ exit_code r = Some 1)
      /\ (fuel <> 0%nat -> k <> 0%nat) in
  walked (cmdBackfill fuel remote s) /\ walked (cmdSync fuel remote s).
Proof.
  assert (Hnd : forall k, NoDup (pageNumbers 1 k)).
  { intros k. unfold pageNumbers. apply Finite.Injective_map_NoDup.
    - intros a b H. lia.
    - apply seq_NoDup. }
  cbv zeta. split.
  - destruct (backfillLoop_inOrder fuel 1 (-1) [] (mkProgress s 0 0 false))
      as [k [H1 [H2 [H3 [H4 H5]]]]].
    exists k. unfold cmdBackfill. rewrite H2. cbn [app]. repeat split; auto.
  - destruct (syncLoop_inOrder (MaxPlayedAtUTS (DB s)) fuel 1 []
                               (mkProgress s 0 0 false))
      as [k [H1 [H2 [H3 [H4 H5]]]]].
    exists k. unfold cmdSync. rewrite H2. cbn [app]. repeat split; auto.
Qed.

End RunShape.

Section RunShapeWitness.

Import Lastfm Store Main Spec Notions.

Lemma commands_walk_pages_in_order_witness :
  exists k, (k <= 5)%nat
            /\ fetched (cmdSync 5 Sample.threePages Sample.syncedStore) = pageNumbers 1 k.
Proof.
  destruct (commands_walk_pages_in_order Sample.threePages 5 Sample.syncedStore)
    as [_ [k [H1 [H2 _]]]].
  exists k. split; [exact H1|exact H2].
Defined.

End RunShapeWitness.

Section RunEnds.

Import Lastfm Store Main Spec Notions Traces.

Variable remote : Remote.

Lemma last_page_split (pages : list Z) (page : Z) (pre post : list Z) (q : Z) :
  [page] = pre ++ q :: post -> pre = [] /\ q = page /\ post = [].
Proof.
  intros H. destruct pre as [|a pre]; cbn in H.
  - inversion H. auto.
  - inversion H. destruct pre; discriminate.
Qed.

Lemma endsThere_more (page : Z) (suffix : list Z) (r : Run) (p : Page) :
  fetch remote page = Ok p -> Tracks p <> [] ->
  endsThere remote suffix r -> endsThere remote (page :: suffix) r.
Proof.
  intros Hf Ht H pre q post Heq.
  destruct pre as [|a pre]; cbn in Heq; inversion Heq; subst.
  - split.
    + intros e He. congruence.
    + intros p' Hp' He. rewrite Hf in Hp'. inversion Hp'. subst. contradiction.
  - apply (H pre q post eq_refl).
Qed.

Lemma syncLoop_ends (maxSeen : Z) (fuel : nat) :
  forall (page : Z) (pages : list Z) (st : Progress),
  exists suffix,
    fetched (syncLoop fuel remote maxSeen page pages st) = pages ++ suffix
    /\ endsThere remote suffix (syncLoop fuel remote maxSeen page pages st).
Proof.
  induction fuel as [|fuel IH]; intros page pages st.
  - exists []. cbn. rewrite app_nil_r. split; [reflexivity|].
    intros pre q post H. destruct pre; discriminate.
  - cbn [syncLoop].
    destruct (fetch remote page) as [p|e] eqn:Hf.
    + destruct (Tracks p) as [|t ts] eqn:Ht.
      * exists [page]. split; [reflexivity|].
        intros pre q post H.
        destruct (last_page_split pages page pre post q H) as [_ [-> ->]].
        split; [intros e He; congruence|intros; auto].
      * destruct (syncTracks maxSeen (t :: ts) st) as [st' [err|]].
        -- exists [page]. split; [reflexivity|].
           intros pre q post H.
           destruct (last_page_split pages page pre post q H) as [_ [-> ->]].
           split; [intros e He; congruence|].
           intros p' Hp' He. rewrite Hf in Hp'. inversion Hp'. subst. congruence.
        -- destruct (stop st').
           ++ exists [page]. split; [reflexivity|].
              intros pre q post H.
              destruct (last_page_split pages page pre post q H) as [_ [-> ->]].
              split; [intros e He; congruence|].
              intros p' Hp' He. rewrite Hf in Hp'. inversion Hp'. subst. congruence.
           ++ destruct (IH (page + 1) (pages ++ [page]) st') as [suffix [H1 H2]].
              exists (page :: suffix). split.
              ** rewrite H1, <- app_assoc. reflexivity.
              ** apply (endsThere_more page suffix _ p Hf); [congruence|exact H2].
    + exists [page]. split; [reflexivity|].
      intros pre q post H.
      destruct (last_page_split pages page pre post q H) as [_ [-> ->]].
      split; [intros; auto|]. intros p' Hp'. congruence.
Qed.

Lemma backfillLoop_ends (fuel : nat) :
  forall (page totalPages : Z) (pages : list Z) (st : Progress),
  exists suffix,
    fetched (backfillLoop fuel remote page totalPages pages st) = pages ++ suffix
    /\ endsThere remote suffix (backfillLoop fuel remote page totalPages pages st).
Proof.
  induction fuel as [|fuel IH]; intros page totalPages pages st.
  - exists []. cbn. rewrite app_nil_r. split; [reflexivity|].
    intros pre q post H. destruct pre; discriminate.
  - cbn [backfillLoop].
    destruct (fetch remote page) as [p|e] eqn:Hf.
    + destruct (Tracks p) as [|t ts] eqn:Ht.
      * exists [page]. split; [reflexivity|].
        intros pre q post H.
        destruct (last_page_split pages page pre post q H) as [_ [-> ->]].
        split; [intros e He; congruence|intros; auto].
      * destruct (backfillTracks (t :: ts) st) as [st' [err|]].
        -- exists [page]. split; [reflexivity|].
           intros pre q post H.
           destruct (last_page_split pages page pre post q H) as [_ [-> ->]].
           split; [intros e He; congruence|].
           intros p' Hp' He. rewrite Hf in Hp'. inversion Hp'. subst. congruence.
        -- match goal with
           | |- context [if ?c then _ else _] => destruct c
           end.
           ++ exists [page]. split; [reflexivity|].
              intros pre q post H.
              destruct (last_page_split pages page pre post q H) as [_ [-> ->]].
              split; [intros e He; congruence|].
              intros p' Hp' He. rewrite Hf in Hp'. inversion Hp'. subst. congruence.
           ++ match goal with
              | |- context [backfillLoop fuel remote (page + 1) ?tp _ _] =>
                  destruct (IH (page + 1) tp (pages ++ [page]) st') as [suffix [H1 H2]]
              end.
              exists (page :: suffix). split.
              ** rewrite H1, <- app_assoc. reflexivity.
              ** apply (endsThere_more page suffix _ p Hf); [congruence|exact H2].
    + exists [page]. split; [reflexivity|].
      intros pre q post H.
      destruct (last_page_split pages page pre post q H) as [_ [-> ->]].
      split; [intros; auto|]. intros p' Hp'. congruence.
Qed.

(** X9. A run ends at the first request that fails for good and at the
    first page without events: whichever command runs, a page whose request
    failed is the last one requested and the command returns 1, and a page
    that came back empty is the last one requested and the command
    returns 0. *)
Theorem commands_end_at_failure_or_empty_page
        (fuel : nat) (s : Store) (pre post : list Z) (page : Z) :
  let ended (r : Run) :=
    fetched r = pre ++ page :: post ->
    (forall e, fetch remote page = Err e -> post = [] /\ exit_code r = Some 1)
    /\ (forall p, fetch remote page = Ok p -> Tracks p = [] ->
        post = [] /\ exit_code r = Some 0) in
  ended (cmdBackfill fuel remote s) /\ ended (cmdSync fuel remote s).
Proof.
  cbv zeta. split; intros Hf.
  - destruct (backfillLoop_ends fuel 1 (-1) [] (mkProgress s 0 0 false))
      as [suffix [H1 H2]].
    apply (H2 pre page post). unfold cmdBackfill in Hf. rewrite Hf in H1. symmetry. exact H1.
  - destruct (syncLoop_ends (MaxPlayedAtUTS (DB s)) fuel 1 []
                            (mkProgress s 0 0 false)) as [suffix [H1 H2]].
    apply (H2 pre page post). unfold cmdSync in Hf. cbv zeta in Hf.
    rewrite Hf in H1. symmetry. exact H1.
Qed.

End RunEnds.

Section RunEndsWitness.

Import Lastfm Store Main Spec Notions Traces.

Lemma commands_end_at_failure_or_empty_page_witness :
  exit_code (cmdSync 5 Sample.threePages Sample.emptyStore) = Some 0.
Proof.
  assert (H : fetched (cmdSync 5 Sample.threePages Sample.emptyStore)
              = [1; 2; 3] ++ 4 :: []) by (vm_compute; reflexivity).
  destruct (proj2 (commands_end_at_failure_or_empty_page
                     Sample.threePages 5 Sample.emptyStore [1; 2; 3] [] 4) H)
    as [_ H2].
  exact (proj2 (H2 (mkPage [] 4 3 0) eq_refl eq_refl)).
Defined.

End RunEndsWitness.

Section BackfillThenSync.

Import Lastfm Store Main Spec Notions.

Variable remote : Remote.

Lemma insertOne_unstamped (t : Track) (s : Store) :
  wellformed t = true -> timestamp t = None -> insertOne t s = (s, Ok ignoredOnce).
Proof.
  intros Hw Ht. unfold insertOne.
  rewrite (InsertScrobble_unstamped t (DB s) Hw Ht). cbn. destruct s; reflexivity.
Qed.

Lemma insertAll_extends (ts : list Track) :
  forall s, extends s (insertAll ts s).
Proof.
  induction ts as [|t ts IH]; intros s.
  - apply extends_refl.
  - cbn. apply (extends_trans s (fst (insertOne t s))); [|apply IH].
    destruct (insertOne t s) as [s' r] eqn:E. cbn. exact (insertOne_extends t s s' r E).
Qed.

Lemma insertAll_unstamped (ts : list Track) (s : Store) :
  forallb wellformed ts = true ->
  forallb (fun t => negb (stamped t)) ts = true ->
  insertAll ts s = s.
Proof.
  induction ts as [|t ts IH]; intros Hw Hu; [reflexivity|].
  cbn in Hw, Hu. apply andb_true_iff in Hw, Hu. destruct Hw as [Hw1 Hw2], Hu as [Hu1 Hu2].
  cbn. rewrite insertOne_unstamped; [exact (IH Hw2 Hu2)|exact Hw1|].
  unfold stamped in Hu1. destruct (timestamp t); [discriminate|reflexivity].
Qed.

Lemma insertAll_known (ts all : list Track) (s : Store) :
  forallb wellformed ts = true ->
  (forall t, In t ts -> In t all) ->
  Forall (fun t => insertOne t (insertAll all s) = (insertAll all s, Ok ignoredOnce)) ts.
Proof.
  intros Hw Hin. apply Forall_forall. intros t Ht.
  assert (Hwt : wellformed t = true).
  { rewrite forallb_forall in Hw. exact (Hw t Ht). }
  destruct (wellformed_cases t Hwt) as [[n Hn]|Hn].
  - apply (insertOne_known t n); [exact Hn|].
    apply insertAll_present; [exact (Hin t Ht)|exact Hn].
  - apply insertOne_unstamped; assumption.
Qed.

Lemma cmdBackfill_run (s : Store) (first : Page) (rest : list Page) (fuel : nat) :
  (if TotalPages first =? 0 then 1 else TotalPages first)
  = Z.of_nat (List.length (first :: rest)) ->
  serves remote 1 (first :: rest) -> walkable (first :: rest) ->
  (List.length (first :: rest) <= fuel)%nat ->
  cmdBackfill fuel remote s
  = mkRun (Some 0) (pageNumbers 1 (List.length (first :: rest)))
          (fst (backfillTracks (events (first :: rest)) (mkProgress s 0 0 false))).
Proof.
  intros HP Hs Hw Hfuel.
  destruct fuel as [|fuel]; [cbn in Hfuel; lia|].
  destruct (walkable_cons _ _ Hw) as [Hne [Hwf Hw']].
  unfold cmdBackfill.
  rewrite (backfillLoop_turn remote fuel 1 (-1) [] _ first
             (serves_head remote 1 first rest Hs) Hne Hwf).
  cbv zeta. change (-1 =? -1) with true. cbv iota.
  set (P := if TotalPages first =? 0 then 1 else TotalPages first) in *.
  assert (HP1 : P <> -1) by (rewrite HP; lia).
  destruct (P =? -1) eqn:E1; [apply Z.eqb_eq in E1; contradiction|].
  cbn [negb andb].
  rewrite events_cons.
  destruct rest as [|second rest].
  - assert (Hle : (P <=? 1) = true) by (apply Z.leb_le; rewrite HP; cbn; lia).
    rewrite Hle. cbn [events]. unfold events. cbn [map List.concat].
    rewrite !app_nil_r. reflexivity.
  - assert (Hle : (P <=? 1) = false).
    { apply Z.leb_gt. rewrite HP. cbn [List.length]. lia. }
    rewrite Hle.
    rewrite (backfillLoop_walk remote P (second :: rest) fuel (1 + 1) ([] ++ [1]) _).
    + rewrite backfillTracks_app.
      * change (List.length (first :: second :: rest))
          with (S (List.length (second :: rest))).
        rewrite pageNumbers_S. reflexivity.
      * apply backfillTracks_wellformed. exact Hwf.
    + discriminate.
    + exact HP1.
    + rewrite HP. cbn [List.length]. lia.
    + exact (serves_tail remote 1 first _ Hs).
    + exact Hw'.
    + cbn [List.length] in *. lia.
Qed.

(** X10. A sync run right after a full backfill of the same feed asks for
    the first page only and inserts nothing: when the first event with a
    timestamp of the first page is from after 1970, [cmdSync] on the store
    [cmdBackfill] left returns 0 after one request, with every event of the
    page counted as ignored and the store as it was. *)
Theorem sync_after_backfill_is_one_page
        (s : Store) (first : Page) (rest : list Page) (pre post : list Track)
        (e : Track) (n : Z) (fuel fuel' : nat) :
  DB s = [] ->
  (if TotalPages first =? 0 then 1 else TotalPages first)
  = Z.of_nat (List.length (first :: rest)) ->
  serves remote 1 (first :: rest) -> walkable (first :: rest) ->
  (List.length (first :: rest) <= fuel)%nat ->
  Tracks first = pre ++ e :: post ->
  forallb (fun t => negb (stamped t)) pre = true ->
  timestamp e = Some n -> 0 < n ->
  let s1 := store (final (cmdBackfill fuel remote s)) in
  exit_code (cmdBackfill fuel remote s) = Some 0
  /\ cmdSync (S fuel') remote s1
     = mkRun (Some 0) [1]
             (mkProgress s1 0 (Z.of_nat (List.length (Tracks first))) true).
Proof.
  intros Hempty HP Hs Hw Hfuel Hsplit Hpre Hn Hpos.
  rewrite (cmdBackfill_run s first rest fuel HP Hs Hw Hfuel).
  cbn [final exit_code]. split; [reflexivity|].
  assert (Hall : forallb wellformed (events (first :: rest)) = true).
  { clear - Hw. induction Hw as [|p pgs [_ Hp] _ IH]; [reflexivity|].
    rewrite events_cons, forallb_app, Hp, IH. reflexivity. }
  destruct (backfillTracks_wellformed (events (first :: rest))
              (mkProgress s 0 0 false) Hall) as [_ [Hstore _]].
  cbn [store] in Hstore. rewrite Hstore. clear Hstore.
  set (s1 := insertAll (events (first :: rest)) s).
  destruct (walkable_cons _ _ Hw) as [Hne [Hwf Hw']].
  (* the row of [e] is in the table *)
  assert (Hrow : In (rowOf e n) (DB s1)).
  { unfold s1. rewrite events_cons, Hsplit, <- app_assoc, insertAll_app.
    assert (Hwpre : forallb wellformed pre = true).
    { rewrite Hsplit, forallb_app in Hwf. apply andb_true_iff in Hwf. tauto. }
    rewrite (insertAll_unstamped pre s Hwpre Hpre).
    cbn [app]. change (insertAll (e :: post ++ events rest) s)
      with (insertAll (post ++ events rest) (fst (insertOne e s))).
    destruct (insertOne_cases e s) as [Hc|[[err Hc]|[m [Hm [_ Hc]]]]].
    - exfalso. unfold insertOne in Hc.
      rewrite (InsertScrobble_stamped e n (DB s) Hn), Hempty in Hc. cbn in Hc.
      inversion Hc.
    - exfalso. unfold insertOne in Hc.
      rewrite (InsertScrobble_stamped e n (DB s) Hn), Hempty in Hc. cbn in Hc.
      inversion Hc.
    - rewrite Hm in Hn. inversion Hn. subst m. rewrite Hc. cbn [fst].
      destruct (insertAll_extends (post ++ events rest)
                  (mkStore (DB s ++ [rowOf e n]) (RawJSONL s ++ [e])))
        as [[rows Hrows] _].
      rewrite Hrows. cbn [DB]. rewrite Hempty. cbn. left. reflexivity. }
  assert (HW : n <= MaxPlayedAtUTS (DB s1)).
  { exact (MaxPlayedAtUTS_bounds (DB s1) (rowOf e n) Hrow). }
  assert (HW0 : MaxPlayedAtUTS (DB s1) <> 0) by lia.
  unfold cmdSync. cbv zeta.
  rewrite (syncLoop_turn remote fuel' (MaxPlayedAtUTS (DB s1)) 1 [] _ first
             (serves_head remote 1 first rest Hs) Hne Hwf).
  cbv zeta.
  rewrite (syncTracks_known (MaxPlayedAtUTS (DB s1)) (Tracks first)
             (mkProgress s1 0 0 false)).
  - cbn [fst stop store inserted ignored orb app].
    assert (Hex : existsb (reachesWatermark (MaxPlayedAtUTS (DB s1))) (Tracks first)
                  = true).
    { apply existsb_exists. exists e. split.
      - rewrite Hsplit. apply in_or_app. right. left. reflexivity.
      - rewrite (reachesWatermark_atOrBelow _ e HW0). unfold atOrBelow.
        rewrite Hn. apply Z.leb_le. exact HW. }
    rewrite Hex. reflexivity.
  - cbn [store]. unfold s1. apply insertAll_known; [exact Hwf|].
    intros t Ht. rewrite events_cons. apply in_or_app. left. exact Ht.
Qed.

End BackfillThenSync.

Section BackfillThenSyncWitness.

Import Lastfm Store Main Spec Notions.

Lemma sync_after_backfill_is_one_page_witness :
  fetched (cmdSync 1 Sample.threePages
                   (store (final (cmdBackfill 3 Sample.threePages Sample.emptyStore))))
  = [1].
Proof.
  pose (pgs := [mkPage Sample.page1 1 3 0; mkPage Sample.page2 2 3 0;
                mkPage Sample.page3 3 3 0]).
  assert (Hs : serves Sample.threePages 1 pgs).
  { intros i p Hi.
    destruct i as [|[|[|i]]]; simpl in Hi.
    - injection Hi as <-. reflexivity.
    - injection Hi as <-. reflexivity.
    - injection Hi as <-. reflexivity.
    - destruct i; discriminate. }
  assert (Hw : walkable pgs).
  { repeat constructor; discriminate. }
  destruct (sync_after_backfill_is_one_page Sample.threePages Sample.emptyStore
              (mkPage Sample.page1 1 3 0)
              [mkPage Sample.page2 2 3 0; mkPage Sample.page3 3 3 0]
              [Sample.nowPlaying "C" "z"] []
              (Sample.played "C" "z" "" "1672790400") 1672790400 3 0
              eq_refl eq_refl Hs Hw (le_n 3) eq_refl eq_refl eq_refl eq_refl)
    as [_ H].
  rewrite H. reflexivity.
Defined.

End BackfillThenSyncWitness.

Section RetryWrappers.

Import Lastfm Main Spec Notions.

Lemma delays_recommend (k : nat) :
  (k < 6)%nat ->
  delays (20 * Second) k (1 * Second)
  = firstn k (map (fun x => x * Second) [1; 2; 4; 8; 16]).
Proof.
  intros H. do 6 (destruct k as [|k]; [reflexivity|]). lia.
Qed.

(** What every run of a wrapper of the recommendations does. *)
Lemma withRetry_6_run {A : Type} (call : Z -> result A) :
  let r := withRetry 6 (20 * Second) call in
  1 <= rr_attempts r <= 6
  /\ rr_result r = call (rr_attempts r)
  /\ rr_sleeps r = firstn (Z.to_nat (rr_attempts r - 1))
                          (map (fun x => x * Second) [1; 2; 4; 8; 16])
  /\ (forall i, 1 <= i < rr_attempts r ->
      exists e, call i = Err e /\ IsRetryable e = true)
  /\ (forall e, rr_result r = Err e ->
      IsRetryable e = false \/ rr_attempts r = 6).
Proof.
  unfold withRetry.
  destruct (retryLoop_run 6 (20 * Second) call
              (attemptNumbers 6) 0 (1 * Second) [])
    as [k [Hk [H1 [H2 [H3 [H4 H5]]]]]].
  - discriminate.
  - reflexivity.
  - repeat constructor; discriminate.
  - change (List.length (attemptNumbers 6)) with 6%nat in Hk.
    assert (Hn : forall j, (j < 6)%nat ->
                 nth j (attemptNumbers 6) 0 = Z.of_nat j + 1).
    { intros j Hj. do 6 (destruct j as [|j]; [reflexivity|]). lia. }
    cbv zeta in *. rewrite (Hn k Hk) in *.
    rewrite H1, H2, H3.
    split; [lia|]. split; [reflexivity|]. split; [|split].
    + cbn [app].
      replace (Z.to_nat (Z.of_nat k + 1 - 1)) with k by lia.
      now apply delays_recommend.
    + intros i Hi.
      destruct (H4 (Z.to_nat (i - 1))) as [e He]; [lia|].
      rewrite Hn in He by lia.
      replace (Z.of_nat (Z.to_nat (i - 1)) + 1) with i in He by lia.
      now exists e.
    + intros e He. rewrite H2 in H5. destruct (H5 e He); auto.
Qed.

Lemma sumZ_firstn_recommend (k : nat) :
  sumZ (firstn k (map (fun x => x * Second) [1; 2; 4; 8; 16])) <= 31 * Second.
Proof.
  do 6 (destruct k as [|k]; [vm_compute; discriminate|]).
  vm_compute; discriminate.
Qed.

Lemma sumZ_firstn_backoffs (k : nat) : sumZ (firstn k backoffs) <= 95 * Second.
Proof.
  do 8 (destruct k as [|k]; [vm_compute; discriminate|]).
  vm_compute; discriminate.
Qed.

(** X11. The two wrappers of the recommendations call the service at most
    6 times for one artist, return the answer of the last call, call again
    only after an error that is retryable, and sleep the first delays of 1,
    2, 4, 8, 16 seconds in between: 31 seconds at most for one artist. The
    wrapper of the page fetch sleeps 95 seconds at most for one page. *)
Theorem retry_wrappers_run :
  let wrapped {A : Type} (call : Z -> result A) (r : RetryRun A) :=
    1 <= rr_attempts r <= 6
    /\ rr_result r = call (rr_attempts r)
    /\ rr_sleeps r = firstn (Z.to_nat (rr_attempts r - 1))
                            (map (fun x => x * Second) [1; 2; 4; 8; 16])
    /\ (forall i, 1 <= i < rr_attempts r ->
        exists e, call i = Err e /\ IsRetryable e = true)
    /\ (forall e, rr_result r = Err e ->
        IsRetryable e = false \/ rr_attempts r = 6)
    /\ sumZ (rr_sleeps r) <= 31 * Second in
  (forall similar artist,
      wrapped (similar artist) (Recommend.getSimilarArtistsWithRetry similar artist))
  /\ (forall toptracks artist,
      wrapped (toptracks artist) (Recommend.getArtistTopTracksWithRetry toptracks artist))
  /\ (forall call, sumZ (rr_sleeps (getPageWithRetry call)) <= 95 * Second).
Proof.
  cbv zeta. split; [|split].
  - intros similar artist.
    destruct (withRetry_6_run (similar artist)) as [H1 [H2 [H3 [H4 H5]]]].
    unfold Recommend.getSimilarArtistsWithRetry.
    repeat (split; [assumption|]). rewrite H3. apply sumZ_firstn_recommend.
  - intros toptracks artist.
    destruct (withRetry_6_run (toptracks artist)) as [H1 [H2 [H3 [H4 H5]]]].
    unfold Recommend.getArtistTopTracksWithRetry.
    repeat (split; [assumption|]). rewrite H3. apply sumZ_firstn_recommend.
  - intros call.
    destruct (getPageWithRetry_run call) as [_ [_ [H3 _]]].
    rewrite H3. apply sumZ_firstn_backoffs.
Qed.

End RetryWrappers.

Section ClientErrors.

Import Lastfm Main Spec Notions Client.

Variable decode : string -> option RecentTracksResponse.

(** What makes the service's answer one the wrapper asks again for. *)
Lemma GetRecentTracksPage_retryable (a : answer) (e : error) :
  GetRecentTracksPage decode a = Err e ->
  (IsRetryable e = true <->
   exists code body,
     a = Answer code body
     /\ (500 <= code \/ code = 429
         \/ (200 <= code < 300
             /\ exists resp, decode body = Some resp /\ RecentTracks_Error resp = 29))).
Proof.
  unfold GetRecentTracksPage, doGet. intros H.
  destruct a as [msg|code body].
  - inversion H. subst. cbn. split; [discriminate|].
    intros [c [b [Hc _]]]. discriminate.
  - destruct ((code <? 200) || (300 <=? code)) eqn:Hcode.
    + inversion H. subst. cbn.
      apply orb_true_iff in Hcode.
      rewrite Z.ltb_lt, Z.leb_le in Hcode.
      destruct (500 <=? code) eqn:E5.
      * apply Z.leb_le in E5. split; [|reflexivity].
        intros _. exists code, body. split; [reflexivity|]. left. exact E5.
      * apply Z.leb_gt in E5.
        destruct (code =? 429) eqn:E4.
        -- apply Z.eqb_eq in E4. split; [|reflexivity].
           intros _. exists code, body. split; [reflexivity|]. right. left. exact E4.
        -- apply Z.eqb_neq in E4. split; [discriminate|].
           intros [c [b [Hc Hor]]]. inversion Hc. subst c b.
           destruct Hor as [Hor|[Hor|[Hor _]]]; lia.
    + apply orb_false_iff in Hcode.
      rewrite Z.ltb_ge, Z.leb_gt in Hcode.
      destruct (decode body) as [resp|] eqn:Hd.
      * destruct (negb (RecentTracks_Error resp =? 0)) eqn:Herr; [|discriminate].
        inversion H. subst. cbn.
        destruct (RecentTracks_Error resp =? 29) eqn:E29.
        -- apply Z.eqb_eq in E29. split; [|reflexivity].
           intros _. exists code, body. split; [reflexivity|]. right. right.
           split; [lia|]. exists resp. split; [exact Hd|exact E29].
        -- apply Z.eqb_neq in E29. split; [discriminate|].
           intros [c [b [Hc Hor]]]. inversion Hc. subst c b.
           destruct Hor as [Hor|[Hor|[_ [resp' [Hd' H29]]]]]; try lia.
           rewrite Hd in Hd'. inversion Hd'. subst resp'. contradiction.
      * inversion H. subst. cbn. split; [discriminate|].
        intros [c [b [Hc Hor]]]. inversion Hc. subst c b.
        destruct Hor as [Hor|[Hor|[_ [resp' [Hd' _]]]]]; try lia.
        rewrite Hd in Hd'. discriminate.
Qed.

(** X12. The page fetch asks the service again only after an HTTP status
    from 500 on, an HTTP 429, or an answer with a 2xx status whose body
    decodes to the API error 29. A failure of the transport, a body that does
    not decode and any other status are returned at once, after one request
    and no sleep. *)
Theorem client_errors_retried (answers : Z -> answer) :
  let r := getPageWithRetry (fun attempt => GetRecentTracksPage decode (answers attempt)) in
  let again (a : answer) :=
    exists code body,
      a = Answer code body
      /\ (500 <= code \/ code = 429
          \/ (200 <= code < 300
              /\ exists resp, decode body = Some resp /\ RecentTracks_Error resp = 29)) in
  (forall i, 1 <= i < rr_attempts r -> again (answers i))
  /\ (~ again (answers 1) ->
      rr_attempts r = 1 /\ rr_sleeps r = []
      /\ rr_result r = GetRecentTracksPage decode (answers 1))
  /\ (forall msg, answers 1 = TransportFailure msg ->
      rr_attempts r = 1 /\ rr_result r = Err (OtherError msg))
  /\ (forall code body, answers 1 = Answer code body ->
      200 <= code < 300 -> decode body = None ->
      rr_attempts r = 1 /\ exists msg, rr_result r = Err (OtherError msg))
  /\ (forall code body, answers 1 = Answer code body ->
      code < 200 \/ 300 <= code < 500 -> code <> 429 ->
      rr_attempts r = 1 /\ rr_result r = Err (HTTPError code body)).
Proof.
  cbv zeta.
  set (call := fun attempt => GetRecentTracksPage decode (answers attempt)).
  destruct (getPageWithRetry_run call) as [H1 [H2 [H3 [H4 H5]]]].
  cbv zeta in *.
  assert (Hagain : forall i, 1 <= i < rr_attempts (getPageWithRetry call) ->
            exists code body,
              answers i = Answer code body
              /\ (500 <= code \/ code = 429
                  \/ (200 <= code < 300
                      /\ exists resp, decode body = Some resp
                                      /\ RecentTracks_Error resp = 29))).
  { intros i Hi. destruct (H4 i Hi) as [e [He Hr]].
    exact (proj1 (GetRecentTracksPage_retryable (answers i) e He) Hr). }
  assert (Hone : ~ (exists code body,
              answers 1 = Answer code body
              /\ (500 <= code \/ code = 429
                  \/ (200 <= code < 300
                      /\ exists resp, decode body = Some resp
                                      /\ RecentTracks_Error resp = 29))) ->
            rr_attempts (getPageWithRetry call) = 1).
  { intros Hno.
    destruct (Z.eq_dec (rr_attempts (getPageWithRetry call)) 1) as [E|E]; [exact E|].
    exfalso. apply Hno. apply Hagain. lia. }
  split; [exact Hagain|]. split; [|split; [|split]].
  - intros Hno. pose proof (Hone Hno) as E.
    rewrite H3, H2, E. repeat split.
  - intros msg Hm.
    assert (E : rr_attempts (getPageWithRetry call) = 1).
    { apply Hone. intros [c [b [Hc _]]]. congruence. }
    split; [exact E|]. rewrite H2, E. unfold call. rewrite Hm. reflexivity.
  - intros code body Ha Hc Hd.
    assert (E : rr_attempts (getPageWithRetry call) = 1).
    { apply Hone. intros [c [b [Hcb Hor]]]. rewrite Ha in Hcb. inversion Hcb. subst c b.
      destruct Hor as [Hor|[Hor|[_ [resp [Hd' _]]]]]; try lia. congruence. }
    split; [exact E|]. rewrite H2, E. unfold call. rewrite Ha.
    unfold GetRecentTracksPage, doGet.
    replace ((code <? 200) || (300 <=? code)) with false
      by (symmetry; apply orb_false_iff; rewrite Z.ltb_ge, Z.leb_gt; lia).
    rewrite Hd. eexists. reflexivity.
  - intros code body Ha Hc H429.
    assert (E : rr_attempts (getPageWithRetry call) = 1).
    { apply Hone. intros [c [b [Hcb Hor]]]. rewrite Ha in Hcb. inversion Hcb. subst c b.
      destruct Hor as [Hor|[Hor|[Hor _]]]; lia. }
    split; [exact E|]. rewrite H2, E. unfold call. rewrite Ha.
    unfold GetRecentTracksPage, doGet.
    replace ((code <? 200) || (300 <=? code)) with true
      by (symmetry; apply orb_true_iff; rewrite Z.ltb_lt, Z.leb_le; lia).
    reflexivity.
Qed.

End ClientErrors.

Section RetryClientWitness.

Import Lastfm Main Spec Notions Client.

Lemma retry_wrappers_run_witness :
  sumZ (rr_sleeps (getPageWithRetry (Sample.flaky 2 (mkPage [] 1 1 0)))) <= 95 * Second.
Proof.
  exact (proj2 (proj2 retry_wrappers_run) (Sample.flaky 2 (mkPage [] 1 1 0))).
Defined.

Lemma client_errors_retried_witness :
  rr_attempts (getPageWithRetry
                 (fun attempt => GetRecentTracksPage (fun _ => None)
                                                     (TransportFailure "down")))
  = 1.
Proof.
  exact (proj1 (proj1 (proj2 (proj2 (client_errors_retried
                                       (fun _ => None)
                                       (fun _ => TransportFailure "down"))))
                      "down"%string eq_refl)).
Defined.

End RetryClientWitness.

(* ================================================================== *)
(** * GROUP BY, ORDER BY and LIMIT                                     *)
(* ================================================================== *)

Section GroupFacts.

Import Store Notions Queries.

Context {K : Type} (key_eqb : K -> K -> bool).

Hypothesis key_eqb_eq : forall a b, key_eqb a b = true <-> a = b.

Lemma key_eqb_refl (k : K) : key_eqb k k = true.
Proof. now apply key_eqb_eq. Qed.

Lemma key_eqb_neq (a b : K) : a <> b -> key_eqb a b = false.
Proof.
  intros H. destruct (key_eqb a b) eqn:E; [|reflexivity].
  apply key_eqb_eq in E. contradiction.
Qed.

Lemma add_to_group_keys (k : K) (ts : Z) (gs : list (K * (Z * Z))) :
  map fst (SQLite.add_to_group key_eqb k ts gs)
  = if existsb (key_eqb k) (map fst gs) then map fst gs else map fst gs ++ [k].
Proof.
  induction gs as [|[k' [n m]] gs IH]; [reflexivity|].
  cbn [SQLite.add_to_group map fst existsb].
  destruct (key_eqb k k') eqn:E; cbn [orb map fst]; [reflexivity|].
  rewrite IH. destruct (existsb (key_eqb k) (map fst gs)); reflexivity.
Qed.

Lemma existsb_key (k : K) (l : list K) : existsb (key_eqb k) l = true <-> In k l.
Proof.
  rewrite existsb_exists. split.
  - intros [x [Hx E]]. apply key_eqb_eq in E. now subst.
  - intros H. exists k. split; [exact H|apply key_eqb_refl].
Qed.

Lemma add_to_group_entries (k : K) (ts : Z) (gs : list (K * (Z * Z))) :
  NoDup (map fst gs) ->
  forall k' n m,
    In (k', (n, m)) (SQLite.add_to_group key_eqb k ts gs) ->
    (k' <> k /\ In (k', (n, m)) gs)
    \/ (k' = k
        /\ ((exists n0 m0, In (k, (n0, m0)) gs /\ n = n0 + 1 /\ m = Z.max m0 ts)
            \/ (~ In k (map fst gs) /\ n = 1 /\ m = ts))).
Proof.
  induction gs as [|[k0 [n0 m0]] gs IH]; intros Hnd k' n m Hin.
  - cbn in Hin. destruct Hin as [Hin|[]]. inversion Hin. subst.
    right. split; [reflexivity|]. right. cbn. tauto.
  - cbn [SQLite.add_to_group] in Hin. cbn [map fst] in Hnd.
    inversion Hnd as [|? ? Hk0 Hnd']. subst.
    destruct (key_eqb k k0) eqn:E.
    + apply key_eqb_eq in E. subst k0.
      destruct Hin as [Hin|Hin].
      * inversion Hin. subst. right. split; [reflexivity|]. left.
        exists n0, m0. split; [left; reflexivity|split; reflexivity].
      * assert (Hne : k' <> k).
        { intros ->. apply Hk0. apply (in_map fst) in Hin. exact Hin. }
        left. split; [exact Hne|right; exact Hin].
    + assert (Hne : k <> k0).
      { intros ->. rewrite key_eqb_refl in E. discriminate. }
      destruct Hin as [Hin|Hin].
      * inversion Hin. subst. left. split; [congruence|left; reflexivity].
      * destruct (IH Hnd' k' n m Hin) as [[H1 H2]|[H1 [[a [b [H2 H3]]]|[H2 H3]]]].
        -- left. split; [exact H1|right; exact H2].
        -- right. split; [exact H1|]. left. exists a, b. split; [right; exact H2|exact H3].
        -- right. split; [exact H1|]. right. split; [|exact H3].
           cbn [map fst]. intros [Hc|Hc]; [congruence|contradiction].
Qed.

Lemma count_key_snoc (k k' : K) (ts : Z) (rows : list (K * Z)) :
  count_key key_eqb k' (rows ++ [(k, ts)])
  = count_key key_eqb k' rows + (if key_eqb k k' then 1 else 0).
Proof.
  unfold count_key. rewrite filter_app, length_app. cbn [filter fst].
  destruct (key_eqb k k'); cbn [List.length]; lia.
Qed.

Lemma count_key_absent (k : K) (rows : list (K * Z)) :
  ~ In k (map fst rows) -> count_key key_eqb k rows = 0.
Proof.
  intros H. unfold count_key.
  replace (filter (fun r => key_eqb (fst r) k) rows) with (@nil (K * Z)); [reflexivity|].
  symmetry. induction rows as [|[k0 t0] rows IH]; [reflexivity|].
  cbn [filter fst]. cbn [map fst] in H.
  rewrite key_eqb_neq.
  - apply IH. intros Hc. apply H. right. exact Hc.
  - intros ->. apply H. left. reflexivity.
Qed.

Lemma count_key_present (k : K) (rows : list (K * Z)) :
  In k (map fst rows) -> 1 <= count_key key_eqb k rows.
Proof.
  intros H. unfold count_key.
  apply in_map_iff in H. destruct H as [[k0 t0] [E Hin]]. cbn in E. subst k0.
  assert (Hf : In (k, t0) (filter (fun r => key_eqb (fst r) k) rows)).
  { apply filter_In. split; [exact Hin|apply key_eqb_refl]. }
  destruct (filter (fun r => key_eqb (fst r) k) rows); [contradiction|].
  cbn [List.length]. lia.
Qed.

Lemma add_to_group_grouped (k : K) (ts : Z) (rows : list (K * Z))
      (gs : list (K * (Z * Z))) :
  grouped key_eqb rows gs ->
  grouped key_eqb (rows ++ [(k, ts)]) (SQLite.add_to_group key_eqb k ts gs).
Proof.
  intros [Hnd [Hkeys Hent]].
  assert (Hmap : map fst (rows ++ [(k, ts)]) = map fst rows ++ [k]).
  { rewrite map_app. reflexivity. }
  split; [|split].
  - rewrite add_to_group_keys.
    destruct (existsb (key_eqb k) (map fst gs)) eqn:E; [exact Hnd|].
    assert (Hno : ~ In k (map fst gs)).
    { intros Hc. apply existsb_key in Hc. congruence. }
    apply NoDup_app; [exact Hnd|repeat constructor; intros []|].
    intros x Hx [Hc|[]]. subst. contradiction.
  - intros k'. rewrite add_to_group_keys, Hmap.
    destruct (existsb (key_eqb k) (map fst gs)) eqn:E.
    + apply existsb_key in E. rewrite in_app_iff. rewrite Hkeys.
      split; [tauto|]. intros [H|[H|[]]]; [exact H|]. subst. apply Hkeys. exact E.
    + rewrite !in_app_iff, Hkeys. tauto.
  - intros k' n m Hin.
    destruct (add_to_group_entries k ts gs Hnd k' n m Hin)
      as [[Hne Hold]|[-> [[n0 [m0 [Hold [-> ->]]]]|[Hno [-> ->]]]]].
    + destruct (Hent k' n m Hold) as [H1 [H2 H3]].
      split; [|split].
      * rewrite count_key_snoc, key_eqb_neq by congruence. lia.
      * intros ts' Hts. apply in_app_or in Hts. destruct Hts as [Hts|[Hts|[]]].
        -- exact (H2 ts' Hts).
        -- inversion Hts. congruence.
      * apply in_or_app. left. exact H3.
    + destruct (Hent k n0 m0 Hold) as [H1 [H2 H3]].
      split; [|split].
      * rewrite count_key_snoc, key_eqb_refl. lia.
      * intros ts' Hts. apply in_app_or in Hts. destruct Hts as [Hts|[Hts|[]]].
        -- pose proof (H2 ts' Hts). lia.
        -- inversion Hts. lia.
      * destruct (Z.max_spec m0 ts) as [[_ ->]|[_ ->]].
        -- apply in_or_app. right. left. reflexivity.
        -- apply in_or_app. left. exact H3.
    + assert (Hno' : ~ In k (map fst rows)) by (rewrite <- Hkeys; exact Hno).
      split; [|split].
      * rewrite count_key_snoc, key_eqb_refl, (count_key_absent k rows Hno'). reflexivity.
      * intros ts' Hts. apply in_app_or in Hts. destruct Hts as [Hts|[Hts|[]]].
        -- exfalso. apply Hno'. apply (in_map fst) in Hts. exact Hts.
        -- inversion Hts. lia.
      * apply in_or_app. right. left. reflexivity.
Qed.

Lemma group_count_max_grouped (rows : list (K * Z)) :
  grouped key_eqb rows (SQLite.group_count_max key_eqb rows).
Proof.
  unfold SQLite.group_count_max.
  assert (H : forall todo done gs,
             grouped key_eqb done gs ->
             grouped key_eqb (done ++ todo)
                     (fold_left (fun gs r => SQLite.add_to_group key_eqb (fst r) (snd r) gs)
                                todo gs)).
  { induction todo as [|[k ts] todo IH]; intros done gs Hg.
    - rewrite app_nil_r. exact Hg.
    - cbn [fold_left fst snd].
      replace (done ++ (k, ts) :: todo) with ((done ++ [(k, ts)]) ++ todo)
        by (rewrite <- app_assoc; reflexivity).
      apply IH. apply add_to_group_grouped. exact Hg. }
  apply (H rows [] []).
  split; [constructor|]. split; [tauto|]. intros k n m [].
Qed.

End GroupFacts.

Section TopFacts.

Import Store Notions Queries.

Lemma firstn_skipn_sorted {A : Type} (R : A -> A -> Prop) (n : nat) (l : list A) :
  StronglySorted R l ->
  forall x y, In x (firstn n l) -> In y (skipn n l) -> R x y.
Proof.
  intros Hs. rewrite <- (firstn_skipn n l) in Hs.
  induction (firstn n l) as [|a pre IH]; intros x y Hx Hy; [contradiction|].
  cbn in Hs. inversion Hs as [|? ? Hs' Hall]. subst.
  destruct Hx as [->|Hx].
  - rewrite Forall_forall in Hall. apply Hall. apply in_or_app. right. exact Hy.
  - exact (IH Hs' x y Hx Hy).
Qed.

Lemma NoDup_firstn {A : Type} (n : nat) (l : list A) : NoDup l -> NoDup (firstn n l).
Proof.
  intros H. rewrite <- (firstn_skipn n l) in H. exact (NoDup_app_remove_r _ _ H).
Qed.


Lemma ranked_map {A B : Type} (mk : Z -> A -> B) (f : B -> A)
      (Hf : forall rank a, f (mk rank a) = a) (l : list A) :
  forall rank, map f (Digest.ranked mk rank l) = l.
Proof.
  induction l as [|a l IH]; intros rank; [reflexivity|].
  cbn. rewrite Hf, IH. reflexivity.
Qed.

Lemma ranked_ranks {A B : Type} (mk : Z -> A -> B) (rk : B -> Z)
      (Hrk : forall rank a, rk (mk rank a) = rank) (l : list A) :
  forall rank,
    map rk (Digest.ranked mk rank l)
    = map (fun i => Z.of_nat i + rank) (seq 0 (List.length l)).
Proof.
  induction l as [|a l IH]; intros rank; [reflexivity|].
  cbn [Digest.ranked map List.length seq]. rewrite Hrk, IH.
  f_equal. rewrite <- seq_shift, map_map. apply map_ext. intros i. lia.
Qed.

Lemma ranked_length {A B : Type} (mk : Z -> A -> B) (l : list A) :
  forall rank, List.length (Digest.ranked mk rank l) = List.length l.
Proof.
  induction l as [|a l IH]; intros rank; [reflexivity|]. cbn. now rewrite IH.
Qed.

Lemma ranked_In {A B : Type} (mk : Z -> A -> B) (l : list A) :
  forall rank x, In x (Digest.ranked mk rank l) -> exists r a, In a l /\ x = mk r a.
Proof.
  induction l as [|a l IH]; intros rank x Hx; [contradiction|].
  destruct Hx as [<-|Hx].
  - exists rank, a. split; [left; reflexivity|reflexivity].
  - destruct (IH _ _ Hx) as [r [b [Hb ->]]]. exists r, b. split; [right; exact Hb|reflexivity].
Qed.

End TopFacts.

(* ================================================================== *)
(** * The windows of the digest                                        *)
(* ================================================================== *)

Section ParseFormat.

Import Strconv.






End ParseFormat.

Section Windows.

Import Store Notions Queries Digest.



Lemma count_key_rows {K : Type} (key_eqb : K -> K -> bool) (key : Row -> K)
      (keep : Row -> bool) (k : K) (db : list Row) :
  count_key key_eqb k (map (fun r => (key r, played_at_uts r)) (filter keep db))
  = countRows (fun r => keep r && key_eqb (key r) k) db.
Proof.
  unfold count_key, countRows. f_equal.
  induction db as [|r db IH]; [reflexivity|].
  cbn [filter]. destruct (keep r); cbn [map filter fst andb].
  - destruct (key_eqb (key r) k); cbn [List.length]; rewrite IH; reflexivity.
  - exact IH.
Qed.


(** The groups of a query of the digest over the rows [keep] keeps. *)
Lemma groups_of_rows {K : Type} (key_eqb : K -> K -> bool) (key : Row -> K)
      (keep : Row -> bool) (db : list Row) :
  (forall a b, key_eqb a b = true <-> a = b) ->
  let gs := SQLite.group_count_max key_eqb
              (map (fun r => (key r, played_at_uts r)) (filter keep db)) in
  NoDup (map fst gs)
  /\ (forall k n m, In (k, (n, m)) gs ->
        n = countRows (fun r => keep r && key_eqb (key r) k) db
        /\ 1 <= n
        /\ (exists r, In r db /\ keep r = true /\ key r = k /\ played_at_uts r = m)
        /\ (forall r, In r db -> keep r = true -> key r = k -> played_at_uts r <= m))
  /\ (forall r, In r db -> keep r = true -> exists n m, In (key r, (n, m)) gs).
Proof.
  intros Heq gs.
  destruct (group_count_max_grouped key_eqb Heq
              (map (fun r => (key r, played_at_uts r)) (filter keep db)))
    as [Hnd [Hkeys Hent]].
  fold gs in Hnd, Hkeys, Hent.
  split; [exact Hnd|]. split.
  - intros k n m Hin. destruct (Hent k n m Hin) as [H1 [H2 H3]].
    split; [rewrite H1; apply count_key_rows|]. split; [|split].
    + rewrite H1. apply (count_key_present key_eqb Heq).
      apply Hkeys. apply (in_map fst) in Hin. exact Hin.
    + apply in_map_iff in H3. destruct H3 as [r [E Hr]].
      apply filter_In in Hr. destruct Hr as [Hr Hk]. inversion E.
      exists r. repeat split; assumption.
    + intros r Hr Hk Hkey. apply H2. apply in_map_iff. exists r.
      split; [rewrite Hkey; reflexivity|]. apply filter_In. split; assumption.
  - intros r Hr Hk.
    assert (Hin : In (key r) (map fst gs)).
    { apply Hkeys. rewrite map_map. cbn [fst]. apply in_map_iff. exists r.
      split; [reflexivity|]. apply filter_In. split; assumption. }
    apply in_map_iff in Hin. destruct Hin as [[k [n m]] [E Hin]]. cbn in E. subst k.
    exists n, m. exact Hin.
Qed.


Lemma pair_eqb_eq (a b : string * string) : pair_eqb a b = true <-> a = b.
Proof.
  unfold pair_eqb. destruct a as [a1 a2], b as [b1 b2]. cbn [fst snd].
  rewrite andb_true_iff, !String.eqb_eq. split.
  - intros [-> ->]. reflexivity.
  - intros E. inversion E. split; reflexivity.
Qed.

End Windows.

Section TopLists.

Import Store Notions Queries Digest.

Lemma ranked_fields {A B C : Type} (mk : Z -> A -> B) (f : B -> C) (g : A -> C)
      (Hf : forall rank a, f (mk rank a) = g a) (l : list A) :
  forall rank, map f (ranked mk rank l) = map g l.
Proof.
  induction l as [|a l IH]; intros rank; [reflexivity|].
  cbn. rewrite Hf, IH. reflexivity.
Qed.

Lemma ranked_sorted {A B : Type} (mk : Z -> A -> B) (R : A -> A -> Prop)
      (R' : B -> B -> Prop)
      (HR : forall r a r' a', R a a' -> R' (mk r a) (mk r' a')) (l : list A) :
  forall rank, StronglySorted R l -> StronglySorted R' (ranked mk rank l).
Proof.
  induction l as [|a l IH]; intros rank Hs; [constructor|].
  inversion Hs as [|? ? Hs' Hall]. subst. cbn. constructor; [apply IH; exact Hs'|].
  rewrite Forall_forall in *. intros x Hx.
  destruct (ranked_In mk l _ x Hx) as [r [b [Hb ->]]]. apply HR, Hall, Hb.
Qed.




End TopLists.

Section TopListsWitness.

Import Store Notions Queries Digest.



End TopListsWitness.

Section AlbumsAndRecent.

Import Store Notions Queries Digest.

Lemma limit_In {A : Type} (n : Z) (l : list A) (x : A) :
  In x (SQLite.limit n l) -> In x l.
Proof.
  unfold SQLite.limit. destruct (n <? 0); [tauto|apply firstn_In].
Qed.

Lemma order_by_plays_desc_In {K : Type} (gs : list (K * (Z * Z))) (g : K * (Z * Z)) :
  In g (SQLite.order_by_plays_desc gs) -> In g gs.
Proof. apply Permutation_in, SliceStable_perm. Qed.

Lemma has_album_spec (r : Row) :
  has_album r = true ->
  album_name r = Some (album_of r) /\ album_of r <> ""%string.
Proof.
  unfold has_album, album_of. destruct (album_name r) as [a|]; [|discriminate].
  intros H. split; [reflexivity|]. intros ->. discriminate.
Qed.

(** X15. The two album lists leave the rows without an album out: a listed
    album has a name that is not empty, at least one play, and there is a row
    from 2000 on with this artist and this album whose timestamp is the
    [LastPlayedUTS] of the entry. *)
Theorem album_lists_need_an_album (db : list Row) (now days limit : Z) :
  let named (x : RankedAlbum) :=
    Album x <> ""%string
    /\ 1 <= RankedAlbum_Plays x
    /\ exists r, In r db
                 /\ artist_name r = RankedAlbum_Artist x
                 /\ album_name r = Some (Album x)
                 /\ played_at_uts r = RankedAlbum_LastPlayedUTS x
                 /\ minSaneUTS <= played_at_uts r in
  Forall named (DigestMeta.topAlbums db now days limit)
  /\ Forall named (resurfaceAlbums db now days limit).
Proof.
  cbv zeta.
  assert (Hgen : forall (keep : Row -> bool) k n m,
             (forall r, keep r = true -> dated r = true /\ has_album r = true) ->
             In (k, (n, m))
                (SQLite.group_count_max pair_eqb
                   (map (fun r => ((artist_name r, album_of r), played_at_uts r))
                        (filter keep db))) ->
             snd k <> ""%string
             /\ 1 <= n
             /\ exists r, In r db
                          /\ artist_name r = fst k
                          /\ album_name r = Some (snd k)
                          /\ played_at_uts r = m
                          /\ minSaneUTS <= played_at_uts r).
  { intros keep k n m Hkeep Hin.
    destruct (groups_of_rows pair_eqb (fun r => (artist_name r, album_of r)) keep db
                pair_eqb_eq) as [_ [Hent _]].
    destruct (Hent k n m Hin) as [_ [Hn [[r [Hr [Hk [Hkey Hm]]]] _]]].
    destruct (Hkeep r Hk) as [Hd Ha].
    destruct (has_album_spec r Ha) as [Hal Hne].
    rewrite dated_spec in Hd. apply Z.leb_le in Hd.
    subst k. cbn [fst snd]. split; [exact Hne|]. split; [exact Hn|].
    exists r. repeat split; assumption. }
  split; apply Forall_forall; intros x Hx.
  - unfold DigestMeta.topAlbums in Hx.
    destruct (ranked_In mkAlbumRow _ _ x Hx) as [rk [[k [n m]] [Hg ->]]].
    apply limit_In, order_by_plays_desc_In in Hg.
    cbn [mkAlbumRow Album RankedAlbum_Plays RankedAlbum_Artist
         RankedAlbum_LastPlayedUTS fst snd].
    apply (Hgen _ k n m) in Hg; [exact Hg|].
    intros r Hr. apply andb_true_iff in Hr. destruct Hr as [Hr Ha].
    apply andb_true_iff in Hr. tauto.
  - unfold resurfaceAlbums in Hx.
    destruct (ranked_In mkAlbumRow _ _ x Hx) as [rk [[k [n m]] [Hg ->]]].
    apply limit_In, order_by_plays_desc_In in Hg.
    apply filter_In in Hg. destruct Hg as [Hg _].
    cbn [mkAlbumRow Album RankedAlbum_Plays RankedAlbum_Artist
         RankedAlbum_LastPlayedUTS fst snd].
    apply (Hgen _ k n m) in Hg; [exact Hg|].
    intros r Hr. apply andb_true_iff in Hr. tauto.
Qed.

Lemma newest_first_sorted (rows : list Row) :
  StronglySorted (fun a b => played_at_uts b <= played_at_uts a)
                 (Sort.SliceStable (fun a b => played_at_uts b <? played_at_uts a) rows).
Proof.
  apply (StronglySorted_weaken
           (fun a b => (played_at_uts a <? played_at_uts b) = false)).
  - intros a b H. apply Z.ltb_ge in H. exact H.
  - apply (SliceStable_sorted (fun a b => played_at_uts b <? played_at_uts a)).
    + intros a b H. apply Z.ltb_lt in H. apply Z.ltb_ge. lia.
    + intros a b c H1 H2. apply Z.ltb_ge in H1, H2. apply Z.ltb_ge. lia.
Qed.

Lemma StronglySorted_map {A B : Type} (R : B -> B -> Prop) (f : A -> B) (l : list A) :
  StronglySorted (fun a b => R (f a) (f b)) l -> StronglySorted R (map f l).
Proof.
  induction 1 as [|a l Hs IH Hall]; [constructor|].
  cbn. constructor; [exact IH|]. apply Forall_map. exact Hall.
Qed.

(** X16. The recent scrobbles of the digest are rows from 2000 on, newest
    first, each with the text of its timestamp; with a limit that is not
    negative there are the lesser of [limit] and the number of such rows; and
    a row from 2000 on that is not listed is no newer than any listed one. *)
Theorem recentScrobbles_newest_first (format : Z -> string) (db : list Row) (limit : Z) :
  let out := DigestMeta.recentScrobbles format db limit in
  let shows (s : DigestMeta.Scrobble) (r : Row) :=
    DigestMeta.PlayedAtUTS s = played_at_uts r
    /\ DigestMeta.PlayedAt s = format (played_at_uts r)
    /\ DigestMeta.Artist s = artist_name r
    /\ DigestMeta.Track s = track_name r
    /\ DigestMeta.Album s = album_of r in
  StronglySorted (fun a b => DigestMeta.PlayedAtUTS b <= DigestMeta.PlayedAtUTS a) out
  /\ (forall s, In s out ->
        minSaneUTS <= DigestMeta.PlayedAtUTS s /\ exists r, In r db /\ shows s r)
  /\ (0 <= limit ->
      Z.of_nat (List.length out) = Z.min limit (countRows (since minSaneUTS) db))
  /\ (forall r, In r db -> minSaneUTS <= played_at_uts r ->
        (exists s, In s out /\ shows s r)
        \/ (Z.of_nat (List.length out) = limit
            /\ forall s, In s out -> played_at_uts r <= DigestMeta.PlayedAtUTS s)).
Proof.
  cbv zeta. unfold DigestMeta.recentScrobbles.
  set (less := fun a b : Row => played_at_uts b <? played_at_uts a).
  set (sorted := Sort.SliceStable less (filter dated db)).
  set (mk := fun r => DigestMeta.mkScrobble (played_at_uts r) (format (played_at_uts r))
                        (artist_name r) (track_name r) (album_of r)).
  assert (Hsorted : StronglySorted (fun a b => played_at_uts b <= played_at_uts a) sorted)
    by apply newest_first_sorted.
  assert (Hperm : Permutation sorted (filter dated db)) by apply SliceStable_perm.
  assert (Hdated : forall r, In r sorted <-> In r db /\ minSaneUTS <= played_at_uts r).
  { intros r. split.
    - intros H. apply (Permutation_in r Hperm) in H. apply filter_In in H.
      rewrite dated_spec, Z.leb_le in H. exact H.
    - intros H. apply (Permutation_in r (Permutation_sym Hperm)). apply filter_In.
      rewrite dated_spec, Z.leb_le. exact H. }
  assert (Hlen : Z.of_nat (List.length sorted) = countRows (since minSaneUTS) db).
  { rewrite (Permutation_length Hperm). unfold countRows.
    rewrite (filter_ext dated (since minSaneUTS)); [reflexivity|].
    intros r. apply dated_spec. }
  split; [|split; [|split]].
  - apply StronglySorted_map. cbn [DigestMeta.PlayedAtUTS].
    apply limit_sorted. exact Hsorted.
  - intros s Hs. apply in_map_iff in Hs. destruct Hs as [r [<- Hr]].
    apply limit_In, Hdated in Hr. cbn. split; [tauto|].
    exists r. split; [tauto|]. repeat split.
  - intros Hl. rewrite length_map. unfold SQLite.limit.
    replace (limit <? 0) with false by (symmetry; apply Z.ltb_ge; exact Hl).
    rewrite length_firstn. lia.
  - intros r Hr Hd.
    assert (Hin : In r sorted) by (apply Hdated; tauto).
    unfold SQLite.limit. destruct (limit <? 0) eqn:El.
    + left. exists (mk r). split; [apply in_map; exact Hin|]. repeat split.
    + apply Z.ltb_ge in El.
      rewrite <- (firstn_skipn (Z.to_nat limit) sorted) in Hin.
      apply in_app_or in Hin. destruct Hin as [Hin|Hin].
      * left. exists (mk r). split; [apply in_map; exact Hin|]. repeat split.
      * right. split.
        -- rewrite length_map, length_firstn.
           assert (Hlt : (Z.to_nat limit < List.length sorted)%nat).
           { destruct (Nat.lt_ge_cases (Z.to_nat limit) (List.length sorted))
               as [Hc|Hc]; [exact Hc|].
             rewrite (skipn_all2 sorted Hc) in Hin. contradiction. }
           lia.
        -- intros s Hs. apply in_map_iff in Hs. destruct Hs as [x [<- Hx]].
           cbn. exact (firstn_skipn_sorted _ (Z.to_nat limit) sorted Hsorted x r Hx Hin).
Qed.

End AlbumsAndRecent.

Section AlbumsAndRecentWitness.

Import Store Notions Queries Digest.

Lemma recentScrobbles_newest_first_witness :
  Z.of_nat (List.length (DigestMeta.recentScrobbles (fun _ => EmptyString)
                                                    (DB Sample.recentStore) 2))
  = 2.
Proof.
  etransitivity.
  - refine (proj1 (proj2 (proj2 (recentScrobbles_newest_first
                                   (fun _ => EmptyString) (DB Sample.recentStore) 2))) _).
    lia.
  - reflexivity.
Defined.

Lemma album_lists_need_an_album_witness :
  Forall (fun x => Album x <> ""%string)
         (resurfaceAlbums (DB Sample.recentStore) Sample.now (-180) 40).
Proof.
  refine (Forall_impl _ _ (proj2 (album_lists_need_an_album
                                    (DB Sample.recentStore) Sample.now (-180) 40))).
  intros x H. exact (proj1 H).
Defined.

End AlbumsAndRecentWitness.

(* ================================================================== *)
(** * verify and the header of the digest                              *)
(* ================================================================== *)

Section VerifyFacts.

Import Store Notions Queries Digest.

Lemma suspect_spec (r : Row) : Verify.suspect r = negb (dated r).
Proof.
  rewrite dated_spec. unfold Verify.suspect, SQLite.lt, SQLite.compare, SQLite.convert.
  cbn [fst snd SQLite.apply_numeric SQLite.compare_values].
  rewrite Z.leb_compare, (Z.compare_antisym (played_at_uts r)).
  destruct (played_at_uts r ?= minSaneUTS); reflexivity.
Qed.

Lemma filter_split_length {A : Type} (f : A -> bool) (l : list A) :
  (List.length (filter f l) + List.length (filter (fun x => negb (f x)) l))%nat
  = List.length l.
Proof.
  induction l as [|a l IH]; [reflexivity|].
  cbn [filter]. destruct (f a); cbn [negb List.length]; lia.
Qed.

Lemma nullI64_max (rows : list Row) :
  rows <> [] ->
  (forall r, In r rows -> played_at_uts r <= Verify.nullI64 (max_played_at rows))
  /\ exists r, In r rows /\ played_at_uts r = Verify.nullI64 (max_played_at rows).
Proof.
  intros Hne. pose proof (max_played_at_spec rows) as H.
  destruct (max_played_at rows); [exact H|contradiction].
Qed.

Lemma nullI64_min (rows : list Row) :
  rows <> [] ->
  (forall r, In r rows -> Verify.nullI64 (Verify.min_played_at rows) <= played_at_uts r)
  /\ exists r, In r rows /\ played_at_uts r = Verify.nullI64 (Verify.min_played_at rows).
Proof.
  intros Hne. pose proof (min_played_at_spec rows) as H.
  destruct (Verify.min_played_at rows); [exact H|contradiction].
Qed.

(** X17. The report of [verify]: the dated and the suspect rows add up to
    the total; without a dated row the dated bounds are 0; with one, the
    dated bounds are from 2000 on, the upper one is the greatest timestamp of
    the table, and the lower one is the least timestamp of the table when no
    row is suspect; with a suspect row the least timestamp of the table is
    before 2000. *)
Theorem cmdVerify_adds_up (db : list Row) :
  let rep := Verify.cmdVerify db in
  Verify.scrobbles_total rep = Z.of_nat (List.length db)
  /\ Verify.scrobbles_dated rep = countRows (since minSaneUTS) db
  /\ Verify.scrobbles_dated rep + Verify.scrobbles_suspect rep = Verify.scrobbles_total rep
  /\ (Verify.scrobbles_dated rep = 0 ->
      Verify.dated_min_uts rep = 0 /\ Verify.dated_max_uts rep = 0)
  /\ (0 < Verify.scrobbles_dated rep ->
      minSaneUTS <= Verify.dated_min_uts rep <= Verify.dated_max_uts rep
      /\ Verify.dated_max_uts rep = Verify.max_uts rep
      /\ (Verify.scrobbles_suspect rep = 0 ->
          Verify.dated_min_uts rep = Verify.min_uts rep))
  /\ (0 < Verify.scrobbles_suspect rep ->
      Verify.min_uts rep < minSaneUTS
      /\ (Verify.scrobbles_dated rep = 0 -> Verify.max_uts rep < minSaneUTS)).
Proof.
  unfold Verify.cmdVerify, Verify.Stats.
  cbn [Verify.scrobbles_total Verify.scrobbles_dated Verify.scrobbles_suspect
       Verify.min_uts Verify.max_uts Verify.dated_min_uts Verify.dated_max_uts].
  assert (Hsus : filter Verify.suspect db = filter (fun r => negb (dated r)) db).
  { apply filter_ext. intros r. apply suspect_spec. }
  rewrite Hsus.
  pose proof (filter_split_length dated db) as Hsplit.
  set (D := filter dated db) in *.
  set (S := filter (fun r => negb (dated r)) db) in *.
  assert (HD : forall r, In r D <-> In r db /\ minSaneUTS <= played_at_uts r).
  { intros r. unfold D. rewrite filter_In, dated_spec, Z.leb_le. tauto. }
  assert (HS : forall r, In r S <-> In r db /\ played_at_uts r < minSaneUTS).
  { intros r. unfold S. rewrite filter_In, dated_spec, negb_true_iff, Z.leb_gt. tauto. }
  assert (Hcases : forall r, In r db -> In r D \/ In r S).
  { intros r Hr. rewrite HD, HS. destruct (Z.le_gt_cases minSaneUTS (played_at_uts r));
      [left|right]; split; auto; lia. }
  split; [reflexivity|]. split; [|split; [lia|split; [|split]]].
  - unfold countRows, D. rewrite (filter_ext dated (since minSaneUTS)); [reflexivity|].
    intros r. apply dated_spec.
  - intros H0. destruct D; [split; reflexivity|cbn in H0; lia].
  - intros Hpos.
    assert (HDne : D <> []) by (intros E; rewrite E in Hpos; cbn in Hpos; lia).
    assert (Hdbne : db <> []).
    { intros E. apply HDne. unfold D. rewrite E. reflexivity. }
    destruct (nullI64_max D HDne) as [M1 [rM [HrM EM]]].
    destruct (nullI64_min D HDne) as [m1 [rm [Hrm Em]]].
    destruct (nullI64_max db Hdbne) as [M2 [rM' [HrM' EM']]].
    destruct (nullI64_min db Hdbne) as [m2 [rm' [Hrm' Em']]].
    pose proof (proj1 (HD rm) Hrm) as [Hrm_db Hrm_d].
    pose proof (proj1 (HD rM) HrM) as [HrM_db HrM_d].
    pose proof (M1 rm Hrm) as Hmm.
    split; [lia|]. split.
    + pose proof (M2 rM HrM_db) as Hle.
      destruct (Hcases rM' HrM') as [Hc|Hc].
      * pose proof (M1 rM' Hc). lia.
      * apply HS in Hc. lia.
    + intros Hs0.
      assert (HSnil : S = []) by (destruct S; [reflexivity|cbn in Hs0; lia]).
      pose proof (m2 rm Hrm_db) as Hle.
      destruct (Hcases rm' Hrm') as [Hc|Hc].
      * pose proof (m1 rm' Hc). lia.
      * rewrite HSnil in Hc. contradiction.
  - intros Hpos.
    assert (HSne : S <> []) by (intros E; rewrite E in Hpos; cbn in Hpos; lia).
    destruct S as [|s0 S'] eqn:ES; [contradiction|].
    assert (Hs0 : In s0 db /\ played_at_uts s0 < minSaneUTS).
    { apply HS. left. reflexivity. }
    assert (Hdbne : db <> []).
    { intros E. rewrite E in Hs0. destruct Hs0 as [[] _]. }
    destruct (nullI64_max db Hdbne) as [M2 [rM' [HrM' EM']]].
    destruct (nullI64_min db Hdbne) as [m2 [rm' [Hrm' Em']]].
    split.
    + pose proof (m2 s0 (proj1 Hs0)). lia.
    + intros H0. assert (HDnil : D = []) by (destruct D; [reflexivity|cbn in H0; lia]).
      destruct (Hcases rM' HrM') as [Hc|Hc].
      * rewrite HDnil in Hc. contradiction.
      * apply HS in Hc. lia.
Qed.


Lemma sum_indicator {A : Type} (f : A -> bool) (l : list A) :
  forall acc,
    fold_left Z.add (map (fun x => if f x then 1 else 0) l) acc
    = acc + Z.of_nat (List.length (filter f l)).
Proof.
  induction l as [|a l IH]; intros acc; [cbn; lia|].
  cbn [map fold_left filter]. rewrite IH. destruct (f a); cbn [List.length]; lia.
Qed.

Lemma sql_sum_indicator {A : Type} (f : A -> bool) (l : list A) :
  l <> [] ->
  DigestMeta.sql_sum (map (fun x => if f x then 1 else 0) l)
  = Some (Z.of_nat (List.length (filter f l))).
Proof.
  intros Hne. destruct l as [|a l]; [contradiction|].
  pose proof (sum_indicator f (a :: l) 0) as H.
  unfold DigestMeta.sql_sum. cbn [map] in *. rewrite H. reflexivity.
Qed.

(** X18. The header of the digest. On an empty table [computeMeta] fails:
    the two sums of the statement are NULL there and are scanned into
    [int64] variables. On a table with a row it returns the numbers [verify]
    reports: the total, the dated and suspect counts, which add up to it, and
    the dated bounds. *)
Theorem computeMeta_agrees_with_verify (clock : Z) (db : list Row) :
  (db = [] -> exists e, DigestMeta.computeMeta clock db = Err e)
  /\ (db <> [] ->
      exists m,
        DigestMeta.computeMeta clock db = Ok m
        /\ DigestMeta.GeneratedAt m = clock
        /\ DigestMeta.ScrobblesTotal m = Verify.scrobbles_total (Verify.cmdVerify db)
        /\ DigestMeta.ScrobblesDated m = Verify.scrobbles_dated (Verify.cmdVerify db)
        /\ DigestMeta.ScrobblesSuspect m = Verify.scrobbles_suspect (Verify.cmdVerify db)
        /\ DigestMeta.DatedMinUTS m = Verify.dated_min_uts (Verify.cmdVerify db)
        /\ DigestMeta.DatedMaxUTS m = Verify.dated_max_uts (Verify.cmdVerify db)
        /\ DigestMeta.ScrobblesDated m + DigestMeta.ScrobblesSuspect m
           = DigestMeta.ScrobblesTotal m).
Proof.
  split.
  - intros ->. eexists. reflexivity.
  - intros Hne.
    unfold DigestMeta.computeMeta.
    rewrite !sql_sum_indicator by exact Hne.
    cbn [DigestMeta.scan_int64].
    eexists. split; [reflexivity|].
    cbn [DigestMeta.GeneratedAt DigestMeta.ScrobblesTotal DigestMeta.ScrobblesDated
         DigestMeta.ScrobblesSuspect DigestMeta.DatedMinUTS DigestMeta.DatedMaxUTS].
    unfold Verify.cmdVerify, Verify.Stats.
    cbn [Verify.scrobbles_total Verify.scrobbles_dated Verify.scrobbles_suspect
         Verify.dated_min_uts Verify.dated_max_uts].
    repeat split; try reflexivity.
    rewrite (filter_ext Verify.suspect (fun r => negb (dated r)) suspect_spec).
    pose proof (filter_split_length dated db). lia.
Qed.

End VerifyFacts.

Section VerifyWitness.

Import Store Notions Queries Digest.

Lemma cmdVerify_adds_up_witness :
  Verify.dated_max_uts (Verify.cmdVerify (DB Sample.recentStore))
  = Verify.max_uts (Verify.cmdVerify (DB Sample.recentStore)).
Proof.
  refine (proj1 (proj2 (proj1 (proj2 (proj2 (proj2 (proj2
            (cmdVerify_adds_up (DB Sample.recentStore)))))) _))).
  reflexivity.
Defined.

Lemma computeMeta_agrees_with_verify_witness :
  exists m, DigestMeta.computeMeta 0 (DB Sample.recentStore) = Ok m
            /\ DigestMeta.ScrobblesTotal m = 3.
Proof.
  destruct (proj2 (computeMeta_agrees_with_verify 0 (DB Sample.recentStore)))
    as [m [H1 [_ [H2 _]]]].
  - discriminate.
  - exists m. split; [exact H1|]. rewrite H2. reflexivity.
Defined.

End VerifyWitness.

(* ================================================================== *)
(** * The lists of the recommendations                                 *)
(* ================================================================== *)

Section BuildBounds.

Import Lastfm Store Recommend Spec Queries BuildNotions.

Variable ToLower TrimSpace : string -> string.
Variable ParseFloat : string -> Q.
Variable rangeOrder : list (string * agg) -> list (string * agg).
Variable similar : string -> Z -> result (list SimilarArtist).
Variable toptracks : string -> Z -> result (list TopTrack).
Variable db : list Row.
Variable now : Z.
Variable opt : Options.

Hypothesis rangeOrder_perm : forall m, Permutation (rangeOrder m) m.

Lemma member_In (k : string) (l : list string) : member k l = true <-> In k l.
Proof.
  unfold member. rewrite existsb_exists. split.
  - intros [x [Hx E]]. apply String.eqb_eq in E. now subst.
  - intros H. exists k. split; [exact H|apply String.eqb_refl].
Qed.

Lemma store_key_keys_eq (k : string) (v : agg) (m : list (string * agg)) :
  map fst (store_key k v m)
  = if member k (map fst m) then map fst m else map fst m ++ [k].
Proof.
  induction m as [|[k' v'] m IH]; [reflexivity|].
  cbn [store_key map fst]. unfold member in *. cbn [existsb].
  destruct (String.eqb k k'); cbn [orb map fst]; [reflexivity|].
  rewrite IH. destruct (existsb (String.eqb k) (map fst m)); reflexivity.
Qed.

Lemma addSimilar_keysOk (seedSet : list string) (seed : string)
      (m : list (string * agg)) (a : SimilarArtist) :
  keysOk opt seedSet m ->
  keysOk opt seedSet (addSimilar ToLower TrimSpace ParseFloat opt seedSet seed m a).
Proof.
  intros [Hnd Hex]. unfold addSimilar.
  destruct (String.eqb (TrimSpace (SimilarArtist_Name a)) ""); [split; assumption|].
  destruct (ExcludeSeedArtists opt && member (ToLower (TrimSpace (SimilarArtist_Name a)))
                                             seedSet) eqn:E;
    [split; assumption|].
  split.
  - rewrite store_key_keys_eq.
    destruct (member _ (map fst m)) eqn:Em; [exact Hnd|].
    apply NoDup_app; [exact Hnd|repeat constructor; intros []|].
    intros x Hx [<-|[]]. apply member_In in Hx. congruence.
  - intros Hopt k Hk. rewrite store_key_keys_eq in Hk.
    rewrite Hopt in E. cbn [andb] in E.
    assert (Hnew : ~ In (ToLower (TrimSpace (SimilarArtist_Name a))) seedSet).
    { intros Hc. apply member_In in Hc. congruence. }
    destruct (member _ (map fst m)); [exact (Hex Hopt k Hk)|].
    apply in_app_or in Hk. destruct Hk as [Hk|[<-|[]]]; [exact (Hex Hopt k Hk)|exact Hnew].
Qed.

Lemma expandSeeds_keysOk (seedSet : list string) (seeds : list SeedArtist.t) :
  forall m tr m' tr',
    keysOk opt seedSet m ->
    expandSeeds ToLower TrimSpace ParseFloat similar opt seedSet seeds m tr = (tr', Ok m') ->
    keysOk opt seedSet m'.
Proof.
  induction seeds as [|seed seeds IH]; intros m tr m' tr' Hm H; cbn [expandSeeds] in H.
  - inversion H. subst. exact Hm.
  - destruct (Main.rr_result (getSimilarArtistsWithRetry similar (SeedArtist.Artist seed)))
      as [sim|e]; [|discriminate].
    refine (IH _ _ _ _ _ H).
    clear H IH. revert m Hm. induction sim as [|a sim IHs]; intros m Hm; [exact Hm|].
    cbn [fold_left]. apply IHs. apply addSimilar_keysOk. exact Hm.
Qed.

Lemma setArtistRanks_ranks (l : list ArtistCand.t) :
  forall i, map ArtistCand.Rank (setArtistRanks i l)
            = map (fun k => Z.of_nat k + (i + 1)) (seq 0 (List.length l)).
Proof.
  induction l as [|c l IH]; intros i; [reflexivity|].
  cbn [setArtistRanks map List.length seq ArtistCand.Rank]. rewrite IH.
  f_equal. rewrite <- seq_shift, map_map. apply map_ext. intros k. lia.
Qed.

Lemma setArtistRanks_length (l : list ArtistCand.t) :
  forall i, List.length (setArtistRanks i l) = List.length l.
Proof.
  induction l as [|c l IH]; intros i; [reflexivity|]. cbn. now rewrite IH.
Qed.

Lemma setRanks_ranks (l : list TrackCand.t) :
  forall i, map TrackCand.Rank (setRanks i l)
            = map (fun k => Z.of_nat k + (i + 1)) (seq 0 (List.length l)).
Proof.
  induction l as [|c l IH]; intros i; [reflexivity|].
  cbn [setRanks map List.length seq TrackCand.Rank]. rewrite IH.
  f_equal. rewrite <- seq_shift, map_map. apply map_ext. intros k. lia.
Qed.

Lemma setRanks_length (l : list TrackCand.t) :
  forall i, List.length (setRanks i l) = List.length l.
Proof.
  induction l as [|c l IH]; intros i; [reflexivity|]. cbn. now rewrite IH.
Qed.

Lemma setRanks_keys {C : Type} (f : string -> string -> C) (l : list TrackCand.t) :
  forall i,
    map (fun c => f (TrackCand.Artist c) (TrackCand.Track c)) (setRanks i l)
    = map (fun c => f (TrackCand.Artist c) (TrackCand.Track c)) l.
Proof.
  induction l as [|c l IH]; intros i; [reflexivity|]. cbn. now rewrite IH.
Qed.

Lemma artistCandidates_bounds (m : list (string * agg)) (cands : list ArtistCand.t) :
  NoDup (map fst m) ->
  artistCandidates rangeOrder opt m = Some cands ->
  map ArtistCand.Rank cands = ranks (List.length cands)
  /\ NoDup (map ArtistCand.Artist cands)
  /\ Z.of_nat (List.length cands) <= SimilarArtistsLimit opt
  /\ 0 <= SimilarArtistsLimit opt.
Proof.
  intros Hnd. unfold artistCandidates.
  set (cs := map _ (rangeOrder m)).
  set (gt := fun i j => Qgtb (ArtistCand.Score i) (ArtistCand.Score j)).
  set (sorted := Sort.SliceStable gt cs).
  assert (Hnd' : NoDup (map ArtistCand.Artist sorted)).
  { apply (Permutation_NoDup (l := map fst m)); [|exact Hnd].
    symmetry.
    apply (Permutation_trans (Permutation_map _ (SliceStable_perm gt cs))).
    unfold cs. rewrite map_map. cbn [ArtistCand.Artist].
    apply Permutation_map, rangeOrder_perm. }
  assert (Hfinal : forall l,
             NoDup (map ArtistCand.Artist l) ->
             map ArtistCand.Rank (setArtistRanks 0 l)
             = ranks (List.length (setArtistRanks 0 l))
             /\ NoDup (map ArtistCand.Artist (setArtistRanks 0 l))).
  { intros l Hl. rewrite setArtistRanks_ranks, setArtistRanks_length, setArtistRanks_names.
    split; [reflexivity|exact Hl]. }
  destruct (SimilarArtistsLimit opt <? Z.of_nat (List.length sorted)) eqn:E.
  - destruct (SimilarArtistsLimit opt <? 0) eqn:E0; [discriminate|].
    apply Z.ltb_lt in E. apply Z.ltb_ge in E0.
    intros H. inversion H. subst cands.
    destruct (Hfinal (firstn (Z.to_nat (SimilarArtistsLimit opt)) sorted)) as [R N].
    { rewrite <- firstn_map. apply NoDup_firstn. exact Hnd'. }
    split; [exact R|]. split; [exact N|].
    rewrite setArtistRanks_length, length_firstn. split; lia.
  - apply Z.ltb_ge in E. intros H. inversion H. subst cands.
    destruct (Hfinal sorted Hnd') as [R N].
    split; [exact R|]. split; [exact N|].
    rewrite setArtistRanks_length. split; lia.
Qed.

Lemma expandTracks_capped (a : ArtistCand.t) (top : list TopTrack) :
  forall st,
    roomLeft opt st -> capped ToLower opt st ->
    capped ToLower opt (expandTracks ToLower TrimSpace db opt a top st)
    /\ (full opt (expandTracks ToLower TrimSpace db opt a top st) = false ->
        roomLeft opt (expandTracks ToLower TrimSpace db opt a top st)).
Proof.
  induction top as [|t top IH]; intros st Hroom Hcap; cbn [expandTracks].
  - split; [exact Hcap|]. intros _. exact Hroom.
  - destruct (String.eqb (TrimSpace (TopTrack_Name t)) ""); [apply IH; assumption|].
    destruct (member _ (seenTracks st)) eqn:Em; [apply IH; assumption|].
    destruct (localStats db (ArtistCand.Artist a) (TrimSpace (TopTrack_Name t)))
      as [plays lastPlayed].
    match goal with
    | |- context [full opt ?s] => set (st' := s)
    end.
    destruct Hcap as [Hlen [Hseen Hnd]].
    assert (Hcap' : capped ToLower opt st').
    { unfold capped, st'. cbn [tracks seenTracks]. split; [|split].
      - rewrite length_app. cbn [List.length].
        destruct Hroom as [Hroom|Hroom]; [rewrite Hroom; cbn; lia|lia].
      - rewrite map_app, Hseen. reflexivity.
      - apply NoDup_app; [exact Hnd|repeat constructor; intros []|].
        intros x Hx [<-|[]]. apply member_In in Hx. congruence. }
    destruct (full opt st') eqn:Ef.
    + split; [exact Hcap'|]. intros Hc. congruence.
    + apply IH; [|exact Hcap'].
      right. unfold full in Ef. apply Z.leb_gt in Ef. exact Ef.
Qed.

Lemma expandArtists_capped (cands : list ArtistCand.t) :
  forall st st' err,
    roomLeft opt st -> capped ToLower opt st ->
    expandArtists ToLower TrimSpace toptracks db opt cands st = (st', err) ->
    capped ToLower opt st'.
Proof.
  induction cands as [|a cands IH]; intros st st' err Hroom Hcap H;
    cbn [expandArtists] in H.
  - inversion H. subst. exact Hcap.
  - match type of H with
    | context [Main.rr_result ?r] => destruct (Main.rr_result r) as [top|e]
    end.
    + match type of H with
      | context [expandTracks _ _ _ _ _ _ ?s] =>
          destruct (expandTracks_capped a top s Hroom Hcap) as [H1 H2]
      end.
      match type of H with
      | context [full opt ?s] => destruct (full opt s) eqn:Ef
      end.
      * inversion H. subst. exact H1.
      * exact (IH _ _ _ (H2 eq_refl) H1 H).
    + inversion H. subst. exact Hcap.
Qed.

Lemma keptTracks_sub (l : list TrackCand.t) (c : TrackCand.t) :
  In c (keptTracks opt l) ->
  In c l /\ (IncludePlayedTracks opt = false -> TrackCand.LocalPlays c = 0).
Proof.
  unfold keptTracks. intros H.
  destruct (IncludePlayedTracks opt).
  - split; [|discriminate]. exact (Permutation_in c (SliceStable_perm (less opt) l) H).
  - apply filter_In in H. destruct H as [H1 H2]. apply Z.eqb_eq in H2.
    split; [|intros _; exact H2].
    exact (Permutation_in c (SliceStable_perm (less opt) l) H1).
Qed.

Lemma filter_keys_NoDup {C K : Type} (key : C -> K) (keep : C -> bool) :
  forall cs : list C, NoDup (map key cs) -> NoDup (map key (filter keep cs)).
Proof.
  intros cs. induction cs as [|c cs IH]; intros H; [constructor|].
  cbn [map] in H. inversion H as [|? ? Hn Hd]. subst.
  cbn [filter]. destruct (keep c); [|exact (IH Hd)].
  cbn [map]. constructor; [|exact (IH Hd)].
  intros Hc. apply Hn. apply in_map_iff in Hc. destruct Hc as [x [E Hx]].
  apply filter_In in Hx. apply in_map_iff. exists x. tauto.
Qed.

Lemma keptTracks_keys (l : list TrackCand.t) :
  NoDup (map (trackKey ToLower) l) -> NoDup (map (trackKey ToLower) (keptTracks opt l)).
Proof.
  intros H. unfold keptTracks.
  assert (Hs : NoDup (map (trackKey ToLower) (Sort.SliceStable (less opt) l))).
  { apply (Permutation_NoDup (l := map (trackKey ToLower) l)); [|exact H].
    apply Permutation_map. symmetry. apply SliceStable_perm. }
  destruct (IncludePlayedTracks opt); [exact Hs|].
  apply filter_keys_NoDup. exact Hs.
Qed.

Lemma keptTracks_length (l : list TrackCand.t) :
  (List.length (keptTracks opt l) <= List.length l)%nat.
Proof.
  unfold keptTracks.
  pose proof (Permutation_length (SliceStable_perm (less opt) l)) as Hlen.
  destruct (IncludePlayedTracks opt); [lia|].
  pose proof (filter_length_le (fun c => TrackCand.LocalPlays c =? 0)
                               (Sort.SliceStable (less opt) l)). lia.
Qed.

(** A run of [Build] that returns an output, step by step. *)
Lemma Build_steps (tr : list event) (out : Output) :
  Build ToLower TrimSpace ParseFloat rangeOrder similar toptracks db now opt
  = (tr, Some (Ok out)) ->
  let seeds := seedArtists db now (SeedWindow opt) (SeedArtistsLimit opt) in
  let seedSet := map (fun s => ToLower (SeedArtist.Artist s)) seeds in
  exists tr0 m cands st,
    expandSeeds ToLower TrimSpace ParseFloat similar opt seedSet seeds [] [] = (tr0, Ok m)
    /\ artistCandidates rangeOrder opt m = Some cands
    /\ expandArtists ToLower TrimSpace toptracks db opt cands (mkExpansion [] [] tr0)
       = (st, None)
    /\ out = mkOutput seeds cands (setRanks 0 (keptTracks opt (tracks st)))
    /\ tr = trace st.
Proof.
  unfold Build. cbv zeta.
  set (seeds := seedArtists db now (SeedWindow opt) (SeedArtistsLimit opt)).
  set (seedSet := map (fun s => ToLower (SeedArtist.Artist s)) seeds).
  destruct (expandSeeds ToLower TrimSpace ParseFloat similar opt seedSet seeds [] [])
    as [tr0 [m|e]] eqn:E1; [|discriminate].
  destruct (artistCandidates rangeOrder opt m) as [cands|] eqn:E2; [|discriminate].
  destruct (expandArtists ToLower TrimSpace toptracks db opt cands
                          (mkExpansion [] [] tr0)) as [st [e|]] eqn:E3; [discriminate|].
  intros H. inversion H. exists tr0, m, cands, st.
  split; [first [exact E1|reflexivity]|]. split; [first [exact E2|reflexivity]|].
  split; [first [exact E3|reflexivity]|]. split; reflexivity.
Qed.

(** X19. The two lists of an output of [Build]. The candidate artists
    are ranked 1, 2, 3, ..., no name occurs twice among them and they are at
    most [SimilarArtistsLimit], which is then not negative. The candidate
    tracks are ranked 1, 2, 3, ..., no two of them have the same artist and
    track up to the case of the letters, and they are at most
    [CandidateTracksLimit], or one when that limit is below one. *)
Theorem Build_lists_are_ranked_and_capped (tr : list event) (out : Output) :
  Build ToLower TrimSpace ParseFloat rangeOrder similar toptracks db now opt
  = (tr, Some (Ok out)) ->
  (map ArtistCand.Rank (Artists out) = ranks (List.length (Artists out))
   /\ NoDup (map ArtistCand.Artist (Artists out))
   /\ Z.of_nat (List.length (Artists out)) <= SimilarArtistsLimit opt)
  /\ (map TrackCand.Rank (Tracks out) = ranks (List.length (Tracks out))
      /\ NoDup (map (fun c => ToLower (TrackCand.Artist c ++ "|" ++ TrackCand.Track c)%string)
                    (Tracks out))
      /\ Z.of_nat (List.length (Tracks out)) <= Z.max 1 (CandidateTracksLimit opt)).
Proof.
  intros H. destruct (Build_steps tr out H) as [tr0 [m [cands [st [E1 [E2 [E3 [-> _]]]]]]]].
  cbn [Artists Tracks].
  assert (Hm : keysOk opt (map (fun s => ToLower (SeedArtist.Artist s))
                           (seedArtists db now (SeedWindow opt) (SeedArtistsLimit opt))) m).
  { refine (expandSeeds_keysOk _ _ _ _ _ _ _ E1).
    split; [constructor|]. intros _ k []. }
  destruct (artistCandidates_bounds m cands (proj1 Hm) E2) as [A1 [A2 [A3 _]]].
  split; [split; [exact A1|split; [exact A2|exact A3]]|].
  assert (Hcap : capped ToLower opt st).
  { apply (expandArtists_capped cands (mkExpansion [] [] tr0) st None); [| |exact E3].
    - left. reflexivity.
    - split; [cbn; lia|]. split; [reflexivity|constructor]. }
  destruct Hcap as [C1 [C2 C3]].
  split; [|split].
  - rewrite setRanks_ranks, setRanks_length. reflexivity.
  - rewrite (setRanks_keys (fun a t => ToLower (a ++ "|" ++ t)%string)).
    apply keptTracks_keys. rewrite <- C2. exact C3.
  - rewrite setRanks_length. pose proof (keptTracks_length (tracks st)). lia.
Qed.

(** X20. What the three switches of the options do to an output of
    [Build]. With [ExcludeSeedArtists], no candidate artist is the
    lower-cased name of a seed artist. Without [IncludePlayedTracks], every
    candidate track has no play in the store. With [PreferUnplayed], every
    track without a play is ranked before every track with one. *)
Theorem Build_honours_switches (tr : list event) (out : Output) :
  Build ToLower TrimSpace ParseFloat rangeOrder similar toptracks db now opt
  = (tr, Some (Ok out)) ->
  (ExcludeSeedArtists opt = true ->
   forall c s, In c (Artists out) -> In s (Seeds out) ->
               ArtistCand.Artist c <> ToLower (SeedArtist.Artist s))
  /\ (IncludePlayedTracks opt = false ->
      forall t, In t (Tracks out) -> TrackCand.LocalPlays t = 0)
  /\ (PreferUnplayed opt = true ->
      forall x y, In x (Tracks out) -> In y (Tracks out) ->
                  TrackCand.LocalPlays x = 0 -> TrackCand.LocalPlays y <> 0 ->
                  TrackCand.Rank x < TrackCand.Rank y).
Proof.
  intros H. destruct (Build_steps tr out H) as [tr0 [m [cands [st [E1 [E2 [E3 [-> _]]]]]]]].
  cbn [Artists Tracks Seeds].
  set (seeds := seedArtists db now (SeedWindow opt) (SeedArtistsLimit opt)) in *.
  assert (Hm : keysOk opt (map (fun s => ToLower (SeedArtist.Artist s)) seeds) m).
  { refine (expandSeeds_keysOk _ _ _ _ _ _ _ E1).
    split; [constructor|]. intros _ k []. }
  split; [|split].
  - intros Hopt c s Hc Hs E.
    apply (proj2 Hm Hopt (ArtistCand.Artist c)).
    + exact (artistCandidates_names rangeOrder opt rangeOrder_perm m cands E2 c Hc).
    + rewrite E. apply in_map_iff. exists s. split; [reflexivity|exact Hs].
  - intros Hopt t Ht.
    destruct (setRanks_In _ _ _ Ht) as [k [c [Hk [_ [P _]]]]].
    apply nth_error_In in Hk. rewrite P.
    exact (proj2 (keptTracks_sub _ c Hk) Hopt).
  - intros Hopt x y Hx Hy Hx0 Hy0.
    destruct (setRanks_In _ _ _ Hx) as [kx [cx [Hkx [Rx [Px _]]]]].
    destruct (setRanks_In _ _ _ Hy) as [ky [cy [Hky [Ry [Py _]]]]].
    rewrite Rx, Ry. rewrite Px in Hx0. rewrite Py in Hy0.
    destruct (Nat.lt_trichotomy kx ky) as [Hlt|[Heq|Hgt]]; [lia| |].
    + exfalso. subst ky. rewrite Hkx in Hky. inversion Hky. subst cy. contradiction.
    + exfalso.
      pose proof (StronglySorted_nth _ _ (keptTracks_sorted opt (tracks st))
                    ky kx cy cx Hgt Hky Hkx) as Hless.
      cbv beta in Hless. unfold less in Hless. rewrite Hopt in Hless.
      apply Z.eqb_eq in Hx0. apply Z.eqb_neq in Hy0.
      rewrite Hx0, Hy0 in Hless. cbn in Hless. discriminate.
Qed.

End BuildBounds.

Section BuildBoundsWitness.

Import Lastfm Store Recommend Spec Queries BuildNotions.

Lemma Build_lists_are_ranked_and_capped_witness :
  map TrackCand.Rank (Tracks Sample.sampleOutput)
  = ranks (List.length (Tracks Sample.sampleOutput)).
Proof.
  refine (proj1 (proj2 (Build_lists_are_ranked_and_capped
                          GoStrings.ToLower GoStrings.TrimSpace Strconv.ParseDecimal
                          (fun m => m) Sample.similarOfA Sample.oneTopTrack
                          (DB Sample.recentStore) Sample.now DefaultOptions
                          (fun m => Permutation_refl m)
                          (fst Sample.sampleBuild) Sample.sampleOutput _))).
  vm_compute. reflexivity.
Defined.

Lemma Build_honours_switches_witness :
  Forall (fun c =>
            Forall (fun s => ArtistCand.Artist c <> GoStrings.ToLower (SeedArtist.Artist s))
                   (Seeds Sample.sampleOutput))
         (Artists Sample.sampleOutput).
Proof.
  assert (H : Build GoStrings.ToLower GoStrings.TrimSpace Strconv.ParseDecimal
                    (fun m => m) Sample.similarOfA Sample.oneTopTrack
                    (DB Sample.recentStore) Sample.now DefaultOptions
              = (fst Sample.sampleBuild, Some (Ok Sample.sampleOutput)))
    by (vm_compute; reflexivity).
  pose proof (proj1 (Build_honours_switches
                       GoStrings.ToLower GoStrings.TrimSpace Strconv.ParseDecimal
                       (fun m => m) Sample.similarOfA Sample.oneTopTrack
                       (DB Sample.recentStore) Sample.now DefaultOptions
                       (fun m => Permutation_refl m)
                       (fst Sample.sampleBuild) Sample.sampleOutput H) eq_refl) as K.
  apply Forall_forall. intros c Hc. apply Forall_forall. intros s Hs.
  exact (K c s Hc Hs).
Defined.

End BuildBoundsWitness.

Section BuildEdges.

Import Lastfm Store Recommend Spec Queries BuildNotions.

Variable ToLower TrimSpace : string -> string.
Variable ParseFloat : string -> Q.
Variable rangeOrder : list (string * agg) -> list (string * agg).
Variable similar : string -> Z -> result (list SimilarArtist).
Variable toptracks : string -> Z -> result (list TopTrack).
Variable db : list Row.
Variable now : Z.
Variable opt : Options.

Hypothesis rangeOrder_perm : forall m, Permutation (rangeOrder m) m.

Lemma expandSeeds_err (seedSet : list string) (seeds : list SeedArtist.t) :
  forall m tr tr' e,
    expandSeeds ToLower TrimSpace ParseFloat similar opt seedSet seeds m tr = (tr', Err e) ->
    exists pre artist,
      tr' = pre ++ [EvSimilar artist]
      /\ Main.rr_result (getSimilarArtistsWithRetry similar artist) = Err e.
Proof.
  induction seeds as [|seed seeds IH]; intros m tr tr' e H; cbn [expandSeeds] in H.
  - discriminate.
  - destruct (Main.rr_result (getSimilarArtistsWithRetry similar (SeedArtist.Artist seed)))
      as [sim|e'] eqn:E.
    + exact (IH _ _ _ _ H).
    + inversion H. subst. exists tr, (SeedArtist.Artist seed). split; [reflexivity|exact E].
Qed.

Lemma expandArtists_err (cands : list ArtistCand.t) :
  forall st st' e,
    expandArtists ToLower TrimSpace toptracks db opt cands st = (st', Some e) ->
    exists pre artist,
      trace st' = pre ++ [EvTopTracks artist]
      /\ Main.rr_result (getArtistTopTracksWithRetry toptracks artist) = Err e.
Proof.
  induction cands as [|a cands IH]; intros st st' e H; cbn [expandArtists] in H.
  - discriminate.
  - destruct (Main.rr_result (getArtistTopTracksWithRetry toptracks (ArtistCand.Artist a)))
      as [top|e'] eqn:E.
    + match type of H with
      | context [full opt ?s] => destruct (full opt s)
      end; [discriminate|exact (IH _ _ _ H)].
    + inversion H. subst. cbn [trace].
      exists (trace st), (ArtistCand.Artist a). split; [reflexivity|exact E].
Qed.

Lemma artistCandidates_panics (m : list (string * agg)) :
  artistCandidates rangeOrder opt m = None <-> SimilarArtistsLimit opt < 0.
Proof.
  unfold artistCandidates.
  match goal with
  | |- context [Z.of_nat (List.length ?l)] => generalize l
  end.
  intros l.
  destruct (SimilarArtistsLimit opt <? Z.of_nat (List.length l)) eqn:E.
  - destruct (SimilarArtistsLimit opt <? 0) eqn:E0.
    + apply Z.ltb_lt in E0. tauto.
    + apply Z.ltb_ge in E0. split; [discriminate|lia].
  - apply Z.ltb_ge in E. split; [discriminate|lia].
Qed.

(** X21. The ends of a run of [Build] that are not an output. The run
    panics exactly when [SimilarArtistsLimit] is negative and no
    similar-artists call failed for good: the list of candidates is then cut
    at a negative length, even when it is empty. An error returned is the
    error of the call the run made last, and no call follows it. Without a
    seed artist and with a limit that is not negative, [Build] calls nothing
    and returns three empty lists. *)
Theorem Build_ends (tr : list event) :
  let run := Build ToLower TrimSpace ParseFloat rangeOrder similar toptracks db now opt in
  let seeds := seedArtists db now (SeedWindow opt) (SeedArtistsLimit opt) in
  let seedSet := map (fun s => ToLower (SeedArtist.Artist s)) seeds in
  (run = (tr, None) <->
   SimilarArtistsLimit opt < 0
   /\ exists m,
        expandSeeds ToLower TrimSpace ParseFloat similar opt seedSet seeds [] []
        = (tr, Ok m))
  /\ (forall e, run = (tr, Some (Err e)) ->
      exists pre artist,
        (tr = pre ++ [EvSimilar artist]
         /\ Main.rr_result (getSimilarArtistsWithRetry similar artist) = Err e)
        \/ (tr = pre ++ [EvTopTracks artist]
            /\ Main.rr_result (getArtistTopTracksWithRetry toptracks artist) = Err e))
  /\ (seeds = [] -> 0 <= SimilarArtistsLimit opt ->
      run = ([], Some (Ok (mkOutput [] [] [])))).
Proof.
  cbv zeta. unfold Build.
  set (seeds := seedArtists db now (SeedWindow opt) (SeedArtistsLimit opt)).
  set (seedSet := map (fun s => ToLower (SeedArtist.Artist s)) seeds).
  split; [|split].
  - destruct (expandSeeds ToLower TrimSpace ParseFloat similar opt seedSet seeds [] [])
      as [tr0 [m|e]] eqn:E1.
    + destruct (artistCandidates rangeOrder opt m) as [cands|] eqn:E2.
      * assert (Hno : ~ SimilarArtistsLimit opt < 0).
        { intros Hc. apply (artistCandidates_panics m) in Hc. congruence. }
        split.
        -- destruct (expandArtists ToLower TrimSpace toptracks db opt cands
                                   (mkExpansion [] [] tr0)) as [st [e|]]; discriminate.
        -- intros [Hc _]. contradiction.
      * apply artistCandidates_panics in E2. split.
        -- intros H. inversion H. subst. split; [exact E2|]. exists m. reflexivity.
        -- intros [_ [m' H]]. inversion H. reflexivity.
    + split; [discriminate|]. intros [_ [m' H]]. discriminate.
  - intros e.
    destruct (expandSeeds ToLower TrimSpace ParseFloat similar opt seedSet seeds [] [])
      as [tr0 [m|e0]] eqn:E1.
    + destruct (artistCandidates rangeOrder opt m) as [cands|] eqn:E2; [|discriminate].
      destruct (expandArtists ToLower TrimSpace toptracks db opt cands
                              (mkExpansion [] [] tr0)) as [st [e1|]] eqn:E3; [|discriminate].
      intros H. inversion H. subst.
      destruct (expandArtists_err _ _ _ _ E3) as [pre [artist [H1 H2]]].
      exists pre, artist. right. split; assumption.
    + intros H. inversion H. subst.
      destruct (expandSeeds_err _ _ _ _ _ _ E1) as [pre [artist [H1 H2]]].
      exists pre, artist. left. split; assumption.
  - intros Hs Hl. unfold seedSet. rewrite Hs. cbn [map expandSeeds].
    unfold artistCandidates.
    assert (Hnil : rangeOrder [] = []).
    { apply Permutation_nil. symmetry. apply rangeOrder_perm. }
    rewrite Hnil. cbn [map]. unfold Sort.SliceStable. cbn [fold_left rev List.length].
    replace (SimilarArtistsLimit opt <? Z.of_nat 0) with false
      by (symmetry; apply Z.ltb_ge; cbn; lia).
    cbn [setArtistRanks expandArtists trace tracks].
    unfold rankTracks, Sort.SliceStable. cbn [fold_left rev].
    destruct (IncludePlayedTracks opt); reflexivity.
Qed.

End BuildEdges.

Section BuildEdgesWitness.

Import Lastfm Store Recommend Spec Queries BuildNotions.

Lemma Build_ends_witness :
  Build GoStrings.ToLower GoStrings.TrimSpace Strconv.ParseDecimal (fun m => m)
        Sample.similarOfA Sample.oneTopTrack [] Sample.now DefaultOptions
  = ([], Some (Ok (mkOutput [] [] []))).
Proof.
  refine (proj2 (proj2 (Build_ends GoStrings.ToLower GoStrings.TrimSpace
                                   Strconv.ParseDecimal (fun m => m)
                                   Sample.similarOfA Sample.oneTopTrack []
                                   Sample.now DefaultOptions
                                   (fun m => Permutation_refl m) [])) eq_refl _).
  discriminate.
Defined.

End BuildEdgesWitness.

(* ================================================================== *)
(** * The raw log, the identity of an event, the calls of a run        *)
(* ================================================================== *)

Section RawLog.

Import Lastfm Store Main Spec Notions Traces.

Lemma logged_refl (s : Store) : logged s s.
Proof.
  exists []. cbn. rewrite !app_nil_r. repeat split. constructor.
Qed.

Lemma logged_step (s : Store) (st : Progress) (t : Track) (s' : Store)
      (r : result InsertResult) :
  logged s (store st) -> insertOne t (store st) = (s', r) -> logged s s'.
Proof.
  intros [added [H1 [H2 H3]]] E.
  destruct (insertOne_cases t (store st)) as [K|[[e K]|[n [Hn [_ K]]]]];
    rewrite K in E; inversion E; subst.
  - exists added. repeat split; assumption.
  - exists added. repeat split; assumption.
  - exists (added ++ [(t, n)]). cbn [DB RawJSONL].
    rewrite !map_app, H1, H2, <- !app_assoc. cbn [map fst snd].
    repeat split. apply Forall_app. split; [exact H3|]. repeat constructor. exact Hn.
Qed.

(** X22. The raw log and the table stay in step: what a run of either
    command adds, however it ends, is one row and one envelope for each of
    the events it inserted, in the order of the inserts, and each of these
    events carries the timestamp of its row. *)
Theorem commands_log_each_inserted_event (fuel : nat) (remote : Remote) (s : Store) :
  logged s (store (final (cmdBackfill fuel remote s)))
  /\ logged s (store (final (cmdSync fuel remote s))).
Proof.
  set (P := fun st : Progress => logged s (store st)).
  assert (Pok : forall st t s' res flag,
             P st -> insertOne t (store st) = (s', Ok res) ->
             P (mkProgress s' (inserted st + Inserted res) (ignored st + Ignored res) flag)).
  { intros st t s' res flag Hst E. exact (logged_step s st t s' _ Hst E). }
  assert (Perr : forall st t s' e,
             P st -> insertOne t (store st) = (s', Err e) ->
             P (mkProgress s' (inserted st) (ignored st) (stop st))).
  { intros st t s' e Hst E. exact (logged_step s st t s' _ Hst E). }
  split.
  - apply (backfillLoop_invariant P Pok Perr). apply logged_refl.
  - apply (syncLoop_invariant P Pok Perr). apply logged_refl.
Qed.

(** X23. What makes two events the same scrobble: the number their
    timestamps denote, the artist, the title and the album. After one of two
    such events went through [InsertScrobble], the other one is ignored and
    the table keeps the row it has, whatever the identifiers, the URL or the
    spelling of the timestamp of the second event. *)
Theorem InsertScrobble_dedups_on_key_fields (t1 t2 : Track) (n : Z) (db : list Row) :
  timestamp t1 = Some n -> timestamp t2 = Some n ->
  Text (Artist t1) = Text (Artist t2) ->
  Name t1 = Name t2 ->
  Text (Album t1) = Text (Album t2) ->
  let db1 := fst (InsertScrobble t1 db) in
  InsertScrobble t2 db1 = (db1, Ok (mkInsertResult 0 1))
  /\ (has_hash (source_hash (rowOf t1 n)) db = false -> db1 = db ++ [rowOf t1 n]).
Proof.
  intros H1 H2 Ha Hn Hal. cbv zeta.
  assert (Hh : source_hash (rowOf t2 n) = source_hash (rowOf t1 n)).
  { unfold rowOf. cbn [source_hash]. rewrite Ha, Hn, Hal. reflexivity. }
  rewrite (InsertScrobble_stamped t1 n db H1).
  destruct (has_hash (source_hash (rowOf t1 n)) db) eqn:E; cbn [fst].
  - split; [|discriminate].
    rewrite (InsertScrobble_stamped t2 n db H2), Hh, E. reflexivity.
  - split; [|reflexivity].
    rewrite (InsertScrobble_stamped t2 n _ H2), Hh.
    rewrite has_hash_app. cbn [has_hash existsb]. rewrite String.eqb_refl.
    rewrite orb_true_r. reflexivity.
Qed.

End RawLog.

Section RawLogWitness.

Import Lastfm Store Main Spec Notions Traces.

Lemma InsertScrobble_dedups_on_key_fields_witness :
  InsertScrobble (mkTrack "x" "mbid" "url" (mkTextMBID "A" "id") (mkTextMBID "" "")
                          (Some (mkDate "+0007" "text")) "")
                 (fst (InsertScrobble (Sample.played "A" "x" "" "7") []))
  = (fst (InsertScrobble (Sample.played "A" "x" "" "7") []),
     Ok (mkInsertResult 0 1)).
Proof.
  exact (proj1 (InsertScrobble_dedups_on_key_fields
                  (Sample.played "A" "x" "" "7")
                  (mkTrack "x" "mbid" "url" (mkTextMBID "A" "id") (mkTextMBID "" "")
                           (Some (mkDate "+0007" "text")) "")
                  7 [] eq_refl eq_refl eq_refl eq_refl eq_refl)).
Defined.

End RawLogWitness.

Section BuildCalls.

Import Lastfm Store Recommend Spec Queries BuildNotions Traces.

Variable ToLower TrimSpace : string -> string.
Variable ParseFloat : string -> Q.
Variable rangeOrder : list (string * agg) -> list (string * agg).
Variable similar : string -> Z -> result (list SimilarArtist).
Variable toptracks : string -> Z -> result (list TopTrack).
Variable db : list Row.
Variable now : Z.
Variable opt : Options.

Hypothesis rangeOrder_perm : forall m, Permutation (rangeOrder m) m.

Lemma similarCalls_app (a b : list event) :
  similarCalls (a ++ b) = similarCalls a ++ similarCalls b.
Proof. apply flat_map_app. Qed.

Lemma topTracksCalls_app (a b : list event) :
  topTracksCalls (a ++ b) = topTracksCalls a ++ topTracksCalls b.
Proof. apply flat_map_app. Qed.

Lemma expandSeeds_trace (seedSet : list string) (seeds : list SeedArtist.t) :
  forall m tr m' tr',
    expandSeeds ToLower TrimSpace ParseFloat similar opt seedSet seeds m tr = (tr', Ok m') ->
    tr' = tr ++ map (fun s => EvSimilar (SeedArtist.Artist s)) seeds.
Proof.
  induction seeds as [|seed seeds IH]; intros m tr m' tr' H; cbn [expandSeeds] in H.
  - inversion H. rewrite app_nil_r. reflexivity.
  - destruct (Main.rr_result (getSimilarArtistsWithRetry similar (SeedArtist.Artist seed)))
      as [sim|e]; [|discriminate].
    rewrite (IH _ _ _ _ H), <- app_assoc. reflexivity.
Qed.

Lemma expandTracks_calls (a : ArtistCand.t) (top : list TopTrack) :
  forall st,
    similarCalls (trace (expandTracks ToLower TrimSpace db opt a top st))
    = similarCalls (trace st)
    /\ topTracksCalls (trace (expandTracks ToLower TrimSpace db opt a top st))
       = topTracksCalls (trace st).
Proof.
  induction top as [|t top IH]; intros st; cbn [expandTracks]; [split; reflexivity|].
  destruct (String.eqb (TrimSpace (TopTrack_Name t)) ""); [apply IH|].
  destruct (member _ (seenTracks st)); [apply IH|].
  destruct (localStats db (ArtistCand.Artist a) (TrimSpace (TopTrack_Name t)))
    as [plays lastPlayed].
  match goal with
  | |- context [full opt ?s] =>
      assert (Hs : similarCalls (trace s) = similarCalls (trace st)
                   /\ topTracksCalls (trace s) = topTracksCalls (trace st));
        [|destruct (full opt s); [exact Hs|]]
  end.
  - cbn [trace]. rewrite similarCalls_app, topTracksCalls_app. cbn. rewrite !app_nil_r.
    split; reflexivity.
  - match goal with
    | |- context [expandTracks _ _ _ _ _ _ ?s] => destruct (IH s) as [H1 H2]
    end.
    rewrite H1, H2. exact Hs.
Qed.

Lemma expandArtists_calls (cands : list ArtistCand.t) :
  forall st st' err,
    expandArtists ToLower TrimSpace toptracks db opt cands st = (st', err) ->
    similarCalls (trace st') = similarCalls (trace st)
    /\ exists k,
        topTracksCalls (trace st')
        = topTracksCalls (trace st) ++ map ArtistCand.Artist (firstn k cands).
Proof.
  induction cands as [|a cands IH]; intros st st' err H; cbn [expandArtists] in H.
  - inversion H. subst. split; [reflexivity|]. exists 0%nat. cbn. now rewrite app_nil_r.
  - destruct (Main.rr_result (getArtistTopTracksWithRetry toptracks (ArtistCand.Artist a)))
      as [top|e].
    + match type of H with
      | context [expandTracks _ _ _ _ _ _ ?s] =>
          destruct (expandTracks_calls a top s) as [H1 H2]; cbn [trace] in H1, H2;
            rewrite similarCalls_app in H1; rewrite topTracksCalls_app in H2;
            cbn in H1, H2; rewrite app_nil_r in H1
      end.
      match type of H with
      | context [full opt ?s] => destruct (full opt s)
      end.
      * inversion H. subst. split; [exact H1|]. exists 1%nat. exact H2.
      * destruct (IH _ _ _ H) as [K1 [k K2]]. split; [congruence|].
        exists (S k). rewrite K2, H2, <- app_assoc. reflexivity.
    + inversion H. subst. cbn [trace].
      rewrite similarCalls_app, topTracksCalls_app. cbn. rewrite app_nil_r.
      split; [reflexivity|]. exists 1%nat. reflexivity.
Qed.

Lemma similarCalls_seeds (seeds : list SeedArtist.t) :
  similarCalls (map (fun s => EvSimilar (SeedArtist.Artist s)) seeds)
  = map SeedArtist.Artist seeds
  /\ topTracksCalls (map (fun s => EvSimilar (SeedArtist.Artist s)) seeds) = [].
Proof.
  induction seeds as [|s seeds [IH1 IH2]]; [split; reflexivity|].
  split.
  - change (similarCalls (map (fun s => EvSimilar (SeedArtist.Artist s)) (s :: seeds)))
      with (SeedArtist.Artist s
            :: similarCalls (map (fun s => EvSimilar (SeedArtist.Artist s)) seeds)).
    rewrite IH1. reflexivity.
  - exact IH2.
Qed.

(** X24. The calls of a run of [Build] that returns an output: one
    similar-artists call for each seed artist, in the order of the seeds, and
    top-tracks calls for the candidate artists in the order of their ranks,
    from the first one on and none twice, before any of which every
    similar-artists call was made. So the run makes at most
    [SimilarArtistsLimit] top-tracks calls, and at most [SeedArtistsLimit]
    similar-artists calls when that limit is not negative. *)
Theorem Build_calls (tr : list event) (out : Output) :
  Build ToLower TrimSpace ParseFloat rangeOrder similar toptracks db now opt
  = (tr, Some (Ok out)) ->
  similarCalls tr = map SeedArtist.Artist (Seeds out)
  /\ (exists k, topTracksCalls tr = map ArtistCand.Artist (firstn k (Artists out)))
  /\ (exists rest,
        tr = map (fun s => EvSimilar (SeedArtist.Artist s)) (Seeds out) ++ rest
        /\ similarCalls rest = [])
  /\ Z.of_nat (List.length (topTracksCalls tr)) <= SimilarArtistsLimit opt
  /\ (0 <= SeedArtistsLimit opt ->
      Z.of_nat (List.length (similarCalls tr)) <= SeedArtistsLimit opt).
Proof.
  intros H.
  destruct (Build_steps ToLower TrimSpace ParseFloat rangeOrder similar toptracks
                        db now opt tr out H)
    as [tr0 [m [cands [st [E1 [E2 [E3 [-> ->]]]]]]]].
  cbn [Artists Seeds].
  set (seeds := seedArtists db now (SeedWindow opt) (SeedArtistsLimit opt)) in *.
  pose proof (expandSeeds_trace _ _ _ _ _ _ E1) as Htr0. cbn [app] in Htr0.
  destruct (expandArtists_calls _ _ _ _ E3) as [C1 [k C2]]. cbn [trace] in C1, C2.
  destruct (similarCalls_seeds seeds) as [S1 S2].
  rewrite Htr0 in C1, C2. rewrite S1 in C1. rewrite S2 in C2. cbn [app] in C2.
  assert (Hm : keysOk opt (map (fun s => ToLower (SeedArtist.Artist s)) seeds) m).
  { refine (expandSeeds_keysOk ToLower TrimSpace ParseFloat similar opt _ _ _ _ _ _ _ E1).
    split; [constructor|]. intros _ x []. }
  destruct (artistCandidates_bounds rangeOrder opt rangeOrder_perm m cands (proj1 Hm) E2)
    as [_ [_ [A3 _]]].
  split; [exact C1|]. split; [exists k; exact C2|]. split; [|split].
  - assert (Hpre : forall cs s0 s1 err,
               expandArtists ToLower TrimSpace toptracks db opt cs s0 = (s1, err) ->
               exists rest, trace s1 = trace s0 ++ rest /\ similarCalls rest = []).
    { clear. induction cs as [|a cs IH]; intros s0 s1 err H; cbn [expandArtists] in H.
      - inversion H. exists []. rewrite app_nil_r. split; reflexivity.
      - assert (Hx : forall tp s,
                   exists rest,
                     trace (expandTracks ToLower TrimSpace db opt a tp s) = trace s ++ rest
                     /\ similarCalls rest = []).
        { induction tp as [|t tp IHt]; intros s; cbn [expandTracks].
          - exists []. rewrite app_nil_r. split; reflexivity.
          - destruct (String.eqb (TrimSpace (TopTrack_Name t)) ""); [apply IHt|].
            destruct (member _ (seenTracks s)); [apply IHt|].
            destruct (localStats db (ArtistCand.Artist a) (TrimSpace (TopTrack_Name t)))
              as [plays lastPlayed].
            match goal with
            | |- context [full opt ?s'] => destruct (full opt s')
            end.
            + cbn [trace]. eexists. split; reflexivity.
            + match goal with
              | |- context [expandTracks _ _ _ _ _ _ ?s'] =>
                  destruct (IHt s') as [rest [R1 R2]]
              end.
              rewrite R1. cbn [trace]. rewrite <- app_assoc. eexists. split; [reflexivity|].
              rewrite similarCalls_app. cbn. exact R2. }
        destruct (Main.rr_result (getArtistTopTracksWithRetry toptracks
                                                              (ArtistCand.Artist a)))
          as [top|e].
        + match type of H with
          | context [expandTracks _ _ _ _ _ _ ?s] =>
              destruct (Hx top s) as [rest [R1 R2]]; cbn [trace] in R1
          end.
          match type of H with
          | context [full opt ?s] => destruct (full opt s)
          end.
          * inversion H. subst. rewrite R1, <- app_assoc. eexists. split; [reflexivity|].
            rewrite similarCalls_app. cbn. exact R2.
          * destruct (IH _ _ _ H) as [rest' [R1' R2']].
            rewrite R1', R1, <- !app_assoc. eexists. split; [reflexivity|].
            rewrite !similarCalls_app. cbn. rewrite R2, R2'. reflexivity.
        + inversion H. subst. cbn [trace]. eexists. split; reflexivity. }
    destruct (Hpre _ _ _ _ E3) as [rest [R1 R2]]. cbn [trace] in R1.
    exists rest. rewrite R1, Htr0. split; [reflexivity|exact R2].
  - rewrite C2, length_map, length_firstn. lia.
  - intros Hl. rewrite C1, length_map. unfold seeds, seedArtists.
    rewrite length_map. unfold SQLite.limit.
    replace (SeedArtistsLimit opt <? 0) with false by (symmetry; apply Z.ltb_ge; exact Hl).
    rewrite length_firstn. lia.
Qed.

End BuildCalls.

Section BuildCallsWitness.

Import Lastfm Store Recommend Spec Queries BuildNotions Traces.

Lemma Build_calls_witness :
  similarCalls (fst Sample.sampleBuild)
  = map SeedArtist.Artist (Seeds Sample.sampleOutput).
Proof.
  refine (proj1 (Build_calls GoStrings.ToLower GoStrings.TrimSpace Strconv.ParseDecimal
                             (fun m => m) Sample.similarOfA Sample.oneTopTrack
                             (DB Sample.recentStore) Sample.now DefaultOptions
                             (fun m => Permutation_refl m)
                             (fst Sample.sampleBuild) Sample.sampleOutput _)).
  vm_compute. reflexivity.
Defined.

End BuildCallsWitness.

(* ================================================================== *)
(** * The env file                                                     *)
(* ================================================================== *)

Section EnvFile.

Import GoStrings Config.

Lemma trim_right_kept (s : string) :
  forall c, is_space (last_char s c) = false -> trim_right (String c s) = String c s.
Proof.
  induction s as [|d s IH]; intros c H; cbn [trim_right last_char] in *.
  - rewrite H. reflexivity.
  - specialize (IH d H). cbn [trim_right] in IH. rewrite IH. reflexivity.
Qed.

Lemma TrimSpace_trimmed (s : string) : trimmed s = true -> TrimSpace s = s.
Proof.
  destruct s as [|c s]; [reflexivity|].
  unfold trimmed. rewrite andb_true_iff, !negb_true_iff. intros [H1 H2].
  unfold TrimSpace. cbn [trim_left]. rewrite H1. apply trim_right_kept. exact H2.
Qed.

Lemma last_char_app (a b : string) (c d : ascii) :
  last_char (a ++ String c b)%string d = last_char b c.
Proof.
  revert d. induction a as [|x a IH]; intros d; cbn; [reflexivity|apply IH].
Qed.

Lemma Cut_app (k rest : string) :
  Spec.contains "=" k = false -> Cut (k ++ String "=" rest)%string = Some (k, rest).
Proof.
  induction k as [|c k IH]; intros H; cbn [append Cut].
  - reflexivity.
  - cbn [Spec.contains] in H. apply orb_false_iff in H. destruct H as [H1 H2].
    rewrite Ascii.eqb_sym in H1. rewrite H1, (IH H2). reflexivity.
Qed.

Lemma Cut_none (s : string) : Spec.contains "=" s = false -> Cut s = None.
Proof.
  induction s as [|c s IH]; intros H; cbn [Cut]; [reflexivity|].
  cbn [Spec.contains] in H. apply orb_false_iff in H. destruct H as [H1 H2].
  rewrite Ascii.eqb_sym in H1. rewrite H1, (IH H2). reflexivity.
Qed.

Lemma contains_trim_left (c : ascii) (s : string) :
  Spec.contains c s = false -> Spec.contains c (trim_left s) = false.
Proof.
  induction s as [|d s IH]; intros H; cbn [trim_left]; [reflexivity|].
  destruct (is_space d); [|exact H].
  cbn [Spec.contains] in H. apply orb_false_iff in H. apply IH. tauto.
Qed.

Lemma contains_trim_right (c : ascii) (s : string) :
  Spec.contains c s = false -> Spec.contains c (trim_right s) = false.
Proof.
  induction s as [|d s IH]; intros H; cbn [trim_right]; [reflexivity|].
  cbn [Spec.contains] in H. apply orb_false_iff in H. destruct H as [H1 H2].
  specialize (IH H2).
  destruct (trim_right s) as [|e s'].
  - destruct (is_space d); [reflexivity|]. cbn [Spec.contains]. rewrite H1. reflexivity.
  - cbn [Spec.contains] in *. rewrite H1. exact IH.
Qed.

Lemma TrimSuffix_quote_app (v : string) :
  TrimSuffix_quote (v ++ String quote EmptyString)%string = v.
Proof.
  induction v as [|c v IH]; [reflexivity|].
  cbn [append TrimSuffix_quote]. rewrite IH.
  destruct v; reflexivity.
Qed.

Lemma TrimSuffix_quote_kept (v : string) :
  forall c, Ascii.eqb (last_char v c) quote = false ->
            TrimSuffix_quote (String c v) = String c v.
Proof.
  induction v as [|d v IH]; intros c H; cbn [TrimSuffix_quote last_char] in *.
  - rewrite H. reflexivity.
  - specialize (IH d H). cbn [TrimSuffix_quote] in IH. rewrite IH. reflexivity.
Qed.

Lemma idle_parseLine (text : string) : idle text = true -> parseLine text = None.
Proof.
  unfold idle, parseLine. intros H.
  destruct (String.eqb (TrimSpace text) ""); [reflexivity|].
  destruct (HasPrefix_hash (TrimSpace text)); [reflexivity|].
  cbn [orb] in H. apply negb_true_iff in H.
  rewrite (Cut_none (TrimSpace text)); [reflexivity|].
  unfold TrimSpace. apply contains_trim_right, contains_trim_left. exact H.
Qed.

(** What a line [k=v] and a line [k="v"] assign. *)
Lemma parseLine_plain (k v : string) :
  plainKey k = true -> plainValue v = true ->
  parseLine (k ++ String "=" v)%string = Some (k, v).
Proof.
  unfold plainKey, plainValue.
  rewrite !andb_true_iff, !negb_true_iff. intros [[[K1 K2] K3] K4] [V1 V2].
  destruct k as [|c k]; [discriminate|].
  assert (Hline : TrimSpace (String c k ++ String "=" v) = (String c k ++ String "=" v)%string).
  { apply TrimSpace_trimmed. cbn [append trimmed].
    cbn [trimmed] in K2. apply andb_true_iff in K2. destruct K2 as [K2 _].
    rewrite K2. cbn [andb]. rewrite last_char_app.
    destruct v as [|d v]; [reflexivity|].
    cbn [trimmed] in V1. apply andb_true_iff in V1. cbn [last_char]. tauto. }
  unfold parseLine. rewrite Hline.
  cbn [append String.eqb HasPrefix_hash]. cbn [HasPrefix_hash] in K4. rewrite K4.
  change (String c (k ++ String "=" v)%string) with (String c k ++ String "=" v)%string.
  rewrite (Cut_app _ _ K3), (TrimSpace_trimmed _ K2), (TrimSpace_trimmed _ V1).
  cbn [String.eqb negb].
  destruct v as [|d v]; [reflexivity|].
  rewrite !andb_true_iff, !negb_true_iff in V2. destruct V2 as [V2 V3].
  cbn [TrimPrefix_quote]. rewrite V2, (TrimSuffix_quote_kept v d V3). reflexivity.
Qed.

Lemma parseLine_quoted (k v : string) :
  plainKey k = true ->
  parseLine (k ++ String "=" (String quote (v ++ String quote EmptyString)))%string
  = Some (k, v).
Proof.
  unfold plainKey.
  rewrite !andb_true_iff, !negb_true_iff. intros [[[K1 K2] K3] K4].
  destruct k as [|c k]; [discriminate|].
  set (qv := String quote (v ++ String quote EmptyString)%string).
  assert (Hqv : trimmed qv = true).
  { unfold qv. cbn [trimmed]. rewrite last_char_app. reflexivity. }
  assert (Hline : TrimSpace (String c k ++ String "=" qv) = (String c k ++ String "=" qv)%string).
  { apply TrimSpace_trimmed. cbn [append trimmed].
    cbn [trimmed] in K2. apply andb_true_iff in K2. destruct K2 as [K2 _].
    rewrite K2. cbn [andb]. rewrite last_char_app.
    unfold qv. cbn [last_char]. rewrite last_char_app. reflexivity. }
  unfold parseLine. rewrite Hline.
  cbn [append String.eqb HasPrefix_hash]. cbn [HasPrefix_hash] in K4. rewrite K4.
  change (String c (k ++ String "=" qv)) with (String c k ++ String "=" qv)%string.
  rewrite (Cut_app _ _ K3), (TrimSpace_trimmed _ K2), (TrimSpace_trimmed _ Hqv).
  cbn [String.eqb negb]. unfold qv. cbn [TrimPrefix_quote].
  change (Ascii.eqb quote quote) with true. cbv iota.
  rewrite TrimSuffix_quote_app. reflexivity.
Qed.

Lemma find_app {A : Type} (f : A -> bool) (a b : list A) :
  find f (a ++ b) = match find f a with Some x => Some x | None => find f b end.
Proof.
  induction a as [|x a IH]; [reflexivity|].
  cbn [app find]. destruct (f x); [reflexivity|exact IH].
Qed.

Lemma loadEnvFile_fold (lines : list string) :
  forall m k,
    get (fold_left (fun m text =>
                      match parseLine text with
                      | Some (k, v) => (k, v) :: m
                      | None => m
                      end) lines m) k
    = match find (fun text => match parseLine text with
                              | Some (k', _) => String.eqb k k'
                              | None => false
                              end) (rev lines) with
      | Some text => match parseLine text with Some (_, v) => v | None => EmptyString end
      | None => get m k
      end.
Proof.
  induction lines as [|text lines IH]; intros m k; [reflexivity|].
  cbn [fold_left rev]. rewrite IH. rewrite find_app.
  destruct (find _ (rev lines)); [reflexivity|].
  cbn [find]. cbv beta. destruct (parseLine text) as [[k' v]|] eqn:E; [|reflexivity].
  cbn [get]. destruct (String.eqb k k'); [rewrite ?E|]; reflexivity.
Qed.

(** X25. Reading an env file of ASCII text. The value of a name is the
    one of the last line that assigns it: when the last such line is [k=v],
    with a value free of white space and of double quotes at its ends, the
    value read is [v]; when it is [k="v"], the value read is [v] whatever [v]
    is. A name no line assigns reads as the empty text, and blank lines,
    lines that start with [#] and lines without [=] assign nothing. *)
Theorem loadEnvFile_reads_back (before after : list string) (k v : string) :
  forallb asciiText (k :: v :: before ++ after) = true ->
  plainKey k = true ->
  Forall (fun text => forall v', parseLine text <> Some (k, v')) after ->
  (plainValue v = true ->
   get (loadEnvFile (before ++ (k ++ String "=" v)%string :: after)) k = v)
  /\ get (loadEnvFile
            (before ++ (k ++ String "=" (String quote (v ++ String quote EmptyString)))%string
                    :: after)) k
     = v
  /\ (Forall (fun text => forall v', parseLine text <> Some (k, v')) before ->
      get (loadEnvFile (before ++ after)) k = EmptyString)
  /\ (forall lines, forallb idle lines = true -> loadEnvFile lines = []).
Proof.
  intros _ Hk Hafter.
  assert (Hfind : forall lines,
             Forall (fun text => forall v', parseLine text <> Some (k, v')) lines ->
             find (fun text => match parseLine text with
                               | Some (k', _) => String.eqb k k'
                               | None => false
                               end) lines = None).
  { induction lines as [|text lines IH]; intros H; [reflexivity|].
    inversion H as [|? ? H1 H2]. subst. cbn [find].
    destruct (parseLine text) as [[k' v']|] eqn:E; [|exact (IH H2)].
    destruct (String.eqb k k') eqn:Ek; [|exact (IH H2)].
    apply String.eqb_eq in Ek. subst k'. exfalso. exact (H1 v' eq_refl). }
  assert (Hrev : forall lines,
             Forall (fun text => forall v', parseLine text <> Some (k, v')) lines ->
             Forall (fun text => forall v', parseLine text <> Some (k, v')) (rev lines)).
  { intros lines H. apply Forall_forall. intros x Hx. rewrite <- in_rev in Hx.
    rewrite Forall_forall in H. exact (H x Hx). }
  assert (Hlast : forall text w,
             parseLine text = Some (k, w) ->
             get (loadEnvFile (before ++ text :: after)) k = w).
  { intros text w E. unfold loadEnvFile. rewrite loadEnvFile_fold.
    rewrite rev_app_distr. cbn [rev]. rewrite <- app_assoc. cbn [app].
    rewrite find_app, (Hfind _ (Hrev _ Hafter)). cbn [find]. rewrite E.
    rewrite String.eqb_refl. rewrite E. reflexivity. }
  split; [|split; [|split]].
  - intros Hv. apply Hlast. apply parseLine_plain; assumption.
  - apply Hlast. apply parseLine_quoted. exact Hk.
  - intros Hbefore. unfold loadEnvFile. rewrite loadEnvFile_fold.
    rewrite (Hfind (rev (before ++ after))); [reflexivity|].
    apply Hrev. apply Forall_app. split; assumption.
  - intros lines H. unfold loadEnvFile.
    assert (Hgen : forall m, fold_left (fun m text =>
                                          match parseLine text with
                                          | Some (k, v) => (k, v) :: m
                                          | None => m
                                          end) lines m = m).
    { induction lines as [|text lines IH]; intros m; [reflexivity|].
      cbn [forallb] in H. apply andb_true_iff in H. destruct H as [H1 H2].
      cbn [fold_left]. rewrite (idle_parseLine text H1). exact (IH H2 m). }
    apply Hgen.
Qed.

End EnvFile.

Section EnvFileWitness.

Import GoStrings Config.

Lemma loadEnvFile_reads_back_witness :
  get (loadEnvFile ["# keys"; "LASTFM_API_KEY=old"; "LASTFM_API_KEY=abc"; ""; "  "]%string)
      "LASTFM_API_KEY"
  = "abc"%string.
Proof.
  refine (proj1 (loadEnvFile_reads_back
                   ["# keys"; "LASTFM_API_KEY=old"]%string [""; "  "]%string
                   "LASTFM_API_KEY" "abc" eq_refl eq_refl _) eq_refl).
  repeat constructor; intros v'; vm_compute; discriminate.
Defined.

End EnvFileWitness.

(* ================================================================== *)
(** * The client under the backfill                                    *)
(* ================================================================== *)

Section ClientUnderBackfill.

Import Lastfm Store Main Spec Notions Client.

Lemma getPageWithRetry_first (call : Z -> result Page) (p : Page) :
  call 1 = Ok p -> rr_result (getPageWithRetry call) = Ok p.
Proof.
  intros H. destruct (getPageWithRetry_run call) as [H1 [H2 [_ [H4 _]]]].
  cbv zeta in *.
  destruct (Z.eq_dec (rr_attempts (getPageWithRetry call)) 1) as [E|E].
  - rewrite H2, E. exact H.
  - destruct (H4 1) as [e [He _]]; [lia|congruence].
Qed.

(** X26. A page whose [totalPages] attribute does not read as a number
    counts as the only one. When the first answer to the request for page 1
    is a 2xx answer without API error, with events none of which can make the
    insert fail, and the text of [totalPages] reads as 0, as every text that
    is not a number does, [cmdBackfill] inserts the events of this page,
    requests no other page and returns 0. *)
Theorem backfill_with_unreadable_totalPages
        (decode : string -> option RecentTracksResponse) (answers : Z -> Z -> answer)
        (s : Store) (fuel : nat) (code : Z) (body : string)
        (resp : RecentTracksResponse) :
  answers 1 1 = Answer code body ->
  200 <= code < 300 ->
  decode body = Some resp ->
  RecentTracks_Error resp = 0 ->
  RecentTracks_Track resp <> [] ->
  forallb wellformed (RecentTracks_Track resp) = true ->
  AtoiValue (Attr_TotalPages (RecentTracks_Attr resp)) = 0 ->
  cmdBackfill (S fuel) (remoteOf decode answers) s
     = mkRun (Some 0) [1]
             (fst (backfillTracks (RecentTracks_Track resp) (mkProgress s 0 0 false)))
  /\ store (final (cmdBackfill (S fuel) (remoteOf decode answers) s))
     = insertAll (RecentTracks_Track resp) s.
Proof.
  intros Ha Hc Hd He Hne Hwf Htp.
  set (p := mkPage (RecentTracks_Track resp)
                   (AtoiValue (Attr_Page (RecentTracks_Attr resp)))
                   (AtoiValue (Attr_TotalPages (RecentTracks_Attr resp)))
                   (AtoiValue (Attr_Total (RecentTracks_Attr resp)))).
  assert (Hfetch : fetch (remoteOf decode answers) 1 = Ok p).
  { unfold fetch. apply getPageWithRetry_first.
    unfold remoteOf, GetRecentTracksPage, doGet. rewrite Ha.
    replace ((code <? 200) || (300 <=? code)) with false
      by (symmetry; apply orb_false_iff; rewrite Z.ltb_ge, Z.leb_gt; lia).
    rewrite Hd, He. reflexivity. }
  assert (Hrun : cmdBackfill (S fuel) (remoteOf decode answers) s
                 = mkRun (Some 0) [1]
                         (fst (backfillTracks (RecentTracks_Track resp)
                                              (mkProgress s 0 0 false)))).
  { unfold cmdBackfill.
    rewrite (backfillLoop_turn (remoteOf decode answers) fuel 1 (-1) [] _ p Hfetch Hne Hwf).
    cbv zeta. change (-1 =? -1) with true. cbv iota.
    change (TotalPages p) with (AtoiValue (Attr_TotalPages (RecentTracks_Attr resp))).
    rewrite Htp. reflexivity. }
  split; [exact Hrun|].
  rewrite Hrun. cbn [final].
  exact (proj1 (proj2 (backfillTracks_wellformed _ (mkProgress s 0 0 false) Hwf))).
Qed.

End ClientUnderBackfill.

Section ClientUnderBackfillWitness.

Import Lastfm Store Main Spec Notions Client.

Lemma backfill_with_unreadable_totalPages_witness :
  let resp := mkRecentTracksResponse Sample.page2 (mkAttr "1" "200" "many" "3") 0 "" in
  fetched (cmdBackfill 5 (remoteOf (fun _ => Some resp) (fun _ _ => Answer 200 "{}"))
                       Sample.emptyStore)
  = [1].
Proof.
  intros resp.
  destruct (backfill_with_unreadable_totalPages
              (fun _ => Some resp) (fun _ _ => Answer 200 "{}") Sample.emptyStore 4
              200 "{}" resp eq_refl) as [H _].
  - lia.
  - reflexivity.
  - reflexivity.
  - discriminate.
  - reflexivity.
  - reflexivity.
  - rewrite H. reflexivity.
Defined.

End ClientUnderBackfillWitness.

(* ================================================================== *)
(** * The yearly top artists                                           *)
(* ================================================================== *)

Section YearlyFacts.

Import Store Notions Queries Digest DigestYearly.

Lemma year_eqb_eq (a b : option Z) : year_eqb a b = true <-> a = b.
Proof.
  destruct a as [x|], b as [y|]; cbn; try (split; [discriminate|congruence]).
  - rewrite Z.eqb_eq. split; congruence.
  - split; reflexivity.
Qed.

Lemma yearKey_eqb_eq (a b : yearKey) : yearKey_eqb a b = true <-> a = b.
Proof.
  unfold yearKey_eqb. destruct a as [a1 a2], b as [b1 b2]. cbn [fst snd].
  rewrite andb_true_iff, year_eqb_eq, String.eqb_eq. split.
  - intros [-> ->]. reflexivity.
  - intros E. inversion E. split; reflexivity.
Qed.

Lemma distinct_In {A : Type} (eqb : A -> A -> bool)
      (eqb_eq : forall a b, eqb a b = true <-> a = b) (l : list A) :
  forall seen y, In y l -> In y seen \/ In y (distinct eqb l seen).
Proof.
  induction l as [|x l IH]; intros seen y H; [contradiction|].
  cbn [distinct]. destruct (existsb (eqb x) seen) eqn:E.
  - destruct H as [<-|H]; [|exact (IH seen y H)].
    left. apply existsb_exists in E. destruct E as [z [Hz Ez]].
    apply eqb_eq in Ez. subst. exact Hz.
  - destruct H as [<-|H]; [right; left; reflexivity|].
    destruct (IH (seen ++ [x]) y H) as [K|K]; [|right; right; exact K].
    apply in_app_or in K. destruct K as [K|[<-|[]]]; [left; exact K|right; left; reflexivity].
Qed.

Lemma distinct_sub {A : Type} (eqb : A -> A -> bool) (l : list A) :
  forall seen y, In y (distinct eqb l seen) -> In y l.
Proof.
  induction l as [|x l IH]; intros seen y H; [contradiction|].
  cbn [distinct] in H. destruct (existsb (eqb x) seen).
  - right. exact (IH _ _ H).
  - destruct H as [<-|H]; [left; reflexivity|right; exact (IH _ _ H)].
Qed.

Lemma distinct_NoDup {A : Type} (eqb : A -> A -> bool)
      (eqb_eq : forall a b, eqb a b = true <-> a = b) (l : list A) :
  forall seen,
    NoDup (distinct eqb l seen)
    /\ forall y, In y (distinct eqb l seen) -> ~ In y seen.
Proof.
  induction l as [|x l IH]; intros seen; cbn [distinct].
  - split; [constructor|intros y []].
  - destruct (existsb (eqb x) seen) eqn:E; [apply IH|].
    destruct (IH (seen ++ [x])) as [H1 H2].
    assert (Hx : ~ In x seen).
    { intros Hc. assert (Ht : existsb (eqb x) seen = true).
      { apply existsb_exists. exists x. split; [exact Hc|]. apply eqb_eq. reflexivity. }
      congruence. }
    split.
    + constructor; [|exact H1]. intros Hc. apply (H2 x Hc). apply in_or_app. right. left.
      reflexivity.
    + intros y [<-|Hy]; [exact Hx|]. intros Hc. apply (H2 y Hy). apply in_or_app. left.
      exact Hc.
Qed.

Lemma ranked_pairs_In {A : Type} (l : list A) :
  forall start n a,
    In (n, a) (Digest.ranked (fun n g => (n, g)) start l)
    <-> exists i, nth_error l i = Some a /\ n = start + Z.of_nat i.
Proof.
  induction l as [|x l IH]; intros start n a; cbn [Digest.ranked].
  - split; [intros []|]. intros [i [H _]]. destruct i; discriminate.
  - split.
    + intros [H|H].
      * inversion H. subst. exists 0%nat. split; [reflexivity|cbn; lia].
      * apply IH in H. destruct H as [i [H1 H2]]. exists (S i). split; [exact H1|lia].
    + intros [[|i] [H1 H2]].
      * cbn in H1. inversion H1. subst. left. f_equal. cbn. lia.
      * right. apply IH. exists i. split; [exact H1|lia].
Qed.

(** The rows of the CTE [ranked]. *)
Lemma ranked_rows (gs : list (yearKey * (Z * Z))) (x : numbered) :
  In x (DigestYearly.ranked gs) <->
  exists i,
    nth_error (partitionOf (yearOfRow x) gs) i = Some (snd x)
    /\ rnk x = 1 + Z.of_nat i.
Proof.
  unfold DigestYearly.ranked. rewrite in_flat_map. destruct x as [n g]. split.
  - intros [y [Hy H]]. apply ranked_pairs_In in H. destruct H as [i [H1 H2]].
    assert (Hg : fst (fst g) = y).
    { apply nth_error_In in H1. unfold partitionOf in H1.
      apply (Permutation_in g (SliceStable_perm _ _)) in H1.
      apply filter_In in H1. destruct H1 as [_ H1]. apply year_eqb_eq in H1. exact H1. }
    exists i. unfold yearOfRow, rnk. cbn [fst snd]. rewrite Hg. split; assumption.
  - intros [i [H1 H2]]. unfold yearOfRow, rnk in *. cbn [fst snd] in *.
    exists (fst (fst g)). split.
    + assert (Hin : In g gs).
      { apply nth_error_In in H1. unfold partitionOf in H1.
        apply (Permutation_in g (SliceStable_perm _ _)) in H1.
        apply filter_In in H1. tauto. }
      destruct (distinct_In year_eqb year_eqb_eq (map (fun g => fst (fst g)) gs) []
                             (fst (fst g))) as [[]|K];
        [|exact K].
      apply in_map_iff. exists g. split; [reflexivity|exact Hin].
    + apply ranked_pairs_In. exists i. split; assumption.
Qed.

Lemma partitionOf_sorted (y : option Z) (gs : list (yearKey * (Z * Z))) :
  StronglySorted (fun a b => fst (snd b) <= fst (snd a)) (partitionOf y gs).
Proof. apply order_by_plays_desc_sorted. Qed.

Lemma partitionOf_In (y : option Z) (gs : list (yearKey * (Z * Z))) (g : yearKey * (Z * Z)) :
  In g (partitionOf y gs) <-> In g gs /\ fst (fst g) = y.
Proof.
  unfold partitionOf. split.
  - intros H. apply (Permutation_in g (SliceStable_perm _ _)) in H.
    apply filter_In in H. rewrite year_eqb_eq in H. exact H.
  - intros H. apply (Permutation_in g (Permutation_sym (SliceStable_perm _ _))).
    apply filter_In. rewrite year_eqb_eq. exact H.
Qed.

Lemma before_asym (a b : numbered) : before a b = true -> before b a = false.
Proof.
  unfold before. destruct (yearOfRow a) as [x|], (yearOfRow b) as [y|]; cbn;
    intros H; try discriminate; try reflexivity.
  - apply orb_true_iff in H. apply orb_false_iff.
    rewrite andb_true_iff, Z.ltb_lt, Z.eqb_eq, Z.ltb_lt in H.
    rewrite andb_false_iff, Z.ltb_ge, Z.eqb_neq, Z.ltb_ge. lia.
  - apply Z.ltb_lt in H. apply Z.ltb_ge. lia.
Qed.

Lemma before_negtrans (a b c : numbered) :
  before a b = false -> before b c = false -> before a c = false.
Proof.
  unfold before.
  destruct (yearOfRow a) as [x|], (yearOfRow b) as [y|], (yearOfRow c) as [z|]; cbn;
    intros H1 H2; try discriminate; try reflexivity.
  - apply orb_false_iff in H1, H2. apply orb_false_iff.
    rewrite andb_false_iff, Z.ltb_ge, Z.eqb_neq, Z.ltb_ge in *. lia.
  - apply Z.ltb_ge in H1, H2. apply Z.ltb_ge. lia.
Qed.

Lemma scanYearly_ok (rows : list numbered) :
  forall out,
    scanYearly rows = Ok out ->
    out = map (fun x => mkYearlyArtist (match yearOfRow x with Some y => y | None => 0 end)
                                       (rnk x) (artistOfRow x) (playsOfRow x)) rows
    /\ Forall (fun x => yearOfRow x <> None) rows.
Proof.
  induction rows as [|x rows IH]; intros out H; cbn [scanYearly] in H.
  - inversion H. split; [reflexivity|constructor].
  - destruct (yearOfRow x) as [y|] eqn:E; [|discriminate].
    destruct (scanYearly rows) as [out'|e]; [|discriminate].
    inversion H. subst. destruct (IH out' eq_refl) as [H1 H2].
    split.
    + cbn [map]. rewrite E, <- H1. reflexivity.
    + constructor; [congruence|exact H2].
Qed.

Lemma scanYearly_err (rows : list numbered) :
  (exists e, scanYearly rows = Err e) <-> exists x, In x rows /\ yearOfRow x = None.
Proof.
  induction rows as [|x rows IH]; cbn [scanYearly].
  - split; [intros [e H]; discriminate|intros [x [[] _]]].
  - destruct (yearOfRow x) as [y|] eqn:E.
    + destruct (scanYearly rows) as [out'|e].
      * split; [intros [e H]; discriminate|].
        intros [z [[<-|Hz] Hn]]; [congruence|].
        assert (Hc : exists e, @Ok (list YearlyArtist) out' = Err e)
          by (apply IH; exists z; tauto).
        destruct Hc as [e Hc]. discriminate.
      * split; [|intros _; exists e; reflexivity].
        intros _. destruct (proj1 IH) as [z [Hz Hn]]; [exists e; reflexivity|].
        exists z. split; [right; exact Hz|exact Hn].
    + split; [|intros _; eexists; reflexivity].
      intros _. exists x. split; [left; reflexivity|exact E].
Qed.

Variable yearOf : Z -> option Z.

(** When [yearlyTopArtists] returns an error. *)
Lemma yearlyTopArtists_fails (db : list Row) (perYear : Z) :
  (exists e, yearlyTopArtists yearOf db perYear = Err e) <->
  1 <= perYear
  /\ exists r, In r db /\ dated r = true /\ yearOf (played_at_uts r) = None.
Proof.
  unfold yearlyTopArtists. cbv zeta.
  set (gs := yearly yearOf db).
  set (kept := filter (fun x => rnk x <=? perYear) (DigestYearly.ranked gs)).
  set (final := Sort.SliceStable before kept).
  destruct (groups_of_rows yearKey_eqb
              (fun r => (yearOf (played_at_uts r), artist_name r)) dated db yearKey_eqb_eq)
    as [Gnd [Gent Gall]].
  cbv zeta in Gnd, Gent, Gall. fold (yearly yearOf db) in Gnd, Gent, Gall.
  fold gs in Gnd, Gent, Gall.
  assert (Hperm : Permutation final kept) by apply SliceStable_perm.
  assert (Hfinal : forall x, In x final <->
                             In x (DigestYearly.ranked gs) /\ rnk x <= perYear).
  { intros x. split.
    - intros H. apply (Permutation_in x Hperm) in H. apply filter_In in H.
      rewrite Z.leb_le in H. exact H.
    - intros H. apply (Permutation_in x (Permutation_sym Hperm)). apply filter_In.
      rewrite Z.leb_le. exact H. }
  rewrite scanYearly_err. split.
  - intros [x [Hx Hn]]. apply Hfinal in Hx. destruct Hx as [Hx Hle].
    apply ranked_rows in Hx. destruct Hx as [i [Hi Hrk]].
    split; [lia|].
    pose proof (nth_error_In _ _ Hi) as Hg. apply partitionOf_In in Hg.
    destruct Hg as [Hg _].
    destruct x as [rk [[y a] [c m]]]. unfold yearOfRow in Hn. cbn [fst snd] in *.
    subst y.
    destruct (Gent (None, a) c m Hg) as [_ [_ [[r [Hr [Hd [Hk _]]]] _]]].
    exists r. inversion Hk. repeat split; assumption.
  - intros [Hp [r [Hr [Hd Hy]]]].
    destruct (Gall r Hr Hd) as [c [m Hg]]. rewrite Hy in Hg.
    assert (Hne : partitionOf None gs <> []).
    { intros E. assert (Hin : In ((None, artist_name r), (c, m)) (partitionOf None gs))
        by (apply partitionOf_In; split; [exact Hg|reflexivity]).
      rewrite E in Hin. contradiction. }
    destruct (partitionOf None gs) as [|g0 rest] eqn:Ep; [contradiction|].
    assert (Hg0 : fst (fst g0) = None).
    { assert (Hin : In g0 (partitionOf None gs)) by (rewrite Ep; left; reflexivity).
      apply partitionOf_In in Hin. tauto. }
    exists (1, g0). split; [|exact Hg0].
    apply Hfinal. split; [|unfold rnk; cbn; lia].
    apply ranked_rows. unfold yearOfRow, rnk. cbn [fst snd]. rewrite Hg0, Ep.
    exists 0%nat. split; reflexivity.
Qed.

(** X27. The yearly top artists. When [yearlyTopArtists] returns a list,
    it is in the order of the years and, within a year, of the ranks; every
    entry has a rank from 1 to [perYear], and [Plays] is the number of rows
    from 2000 on of its artist in its year, at least one; within a year the
    ranks are 1, 2, 3, ... without a gap and an entry of a higher rank has no
    more plays; the artist and year of a row from 2000 on are listed unless
    [perYear] artists of that year are listed, the last of them with at least
    as many plays. It returns an error exactly when [perYear] is at least 1
    and SQLite has no year for the timestamp of some row from 2000 on. *)
Theorem yearlyTopArtists_by_year (db : list Row) (perYear : Z) :
  let run := yearlyTopArtists yearOf db perYear in
  let plays y a :=
    countRows (fun r => dated r
                        && yearKey_eqb (yearOf (played_at_uts r), artist_name r) (y, a))
              db in
  (forall out, run = Ok out ->
     StronglySorted (fun a b => Year a < Year b \/ (Year a = Year b /\ Rank a <= Rank b)) out
     /\ (forall x, In x out ->
           1 <= Rank x <= perYear
           /\ Plays x = plays (Some (Year x)) (Artist x)
           /\ 1 <= Plays x
           /\ (1 < Rank x ->
               exists x', In x' out /\ Year x' = Year x /\ Rank x' = Rank x - 1))
     /\ (forall x x', In x out -> In x' out ->
           Year x = Year x' -> Rank x < Rank x' -> Plays x' <= Plays x)
     /\ (forall r y, In r db -> dated r = true -> yearOf (played_at_uts r) = Some y ->
           (exists x, In x out /\ Year x = y /\ Artist x = artist_name r)
           \/ (exists x, In x out /\ Year x = y /\ Rank x = perYear
                         /\ plays (Some y) (artist_name r) <= Plays x)
           \/ perYear < 1))
  /\ ((exists e, run = Err e) <->
      1 <= perYear
      /\ exists r, In r db /\ dated r = true /\ yearOf (played_at_uts r) = None).
Proof.
  cbv zeta. unfold yearlyTopArtists.
  set (gs := yearly yearOf db).
  set (kept := filter (fun x => rnk x <=? perYear) (DigestYearly.ranked gs)).
  set (final := Sort.SliceStable before kept).
  destruct (groups_of_rows yearKey_eqb
              (fun r => (yearOf (played_at_uts r), artist_name r)) dated db yearKey_eqb_eq)
    as [Gnd [Gent Gall]].
  cbv zeta in Gnd, Gent, Gall. fold (yearly yearOf db) in Gnd, Gent, Gall. fold gs in Gnd, Gent, Gall.
  assert (Hperm : Permutation final kept) by apply SliceStable_perm.
  assert (Hfinal : forall x, In x final <->
                             In x (DigestYearly.ranked gs) /\ rnk x <= perYear).
  { intros x. split.
    - intros H. apply (Permutation_in x Hperm) in H. apply filter_In in H.
      rewrite Z.leb_le in H. exact H.
    - intros H. apply (Permutation_in x (Permutation_sym Hperm)). apply filter_In.
      rewrite Z.leb_le. exact H. }
  assert (Hsorted : StronglySorted (fun a b => before b a = false) final).
  { apply SliceStable_sorted; [exact before_asym|exact before_negtrans]. }
  (* every group has a number *)
  assert (Hnum : forall g, In g gs ->
             exists i, nth_error (partitionOf (fst (fst g)) gs) i = Some g).
  { intros g Hg. apply In_nth_error. apply partitionOf_In. split; [exact Hg|reflexivity]. }
  split.
  - intros out Hout. destruct (scanYearly_ok final out Hout) as [-> Hyears].
    set (mk := fun x : numbered =>
                 mkYearlyArtist (match yearOfRow x with Some y => y | None => 0 end)
                                (rnk x) (artistOfRow x) (playsOfRow x)).
    assert (Hmk : forall x, In x final -> yearOfRow x = Some (Year (mk x))).
    { intros x Hx. rewrite Forall_forall in Hyears. specialize (Hyears x Hx).
      unfold mk. cbn [Year]. destruct (yearOfRow x); [reflexivity|contradiction]. }
    split; [|split; [|split]].
    + apply StronglySorted_map.
      assert (Hs : forall l, StronglySorted (fun a b => before b a = false) l ->
                             (forall x, In x l -> In x final) ->
                             StronglySorted
                               (fun a b => Year (mk a) < Year (mk b)
                                           \/ (Year (mk a) = Year (mk b)
                                               /\ Rank (mk a) <= Rank (mk b))) l).
      { induction 1 as [|a l Hl IH Hall]; intros Hin; [constructor|].
        constructor; [apply IH; intros x Hx; apply Hin; right; exact Hx|].
        rewrite Forall_forall in *. intros b Hb. specialize (Hall b Hb).
        pose proof (Hmk a (Hin a (or_introl eq_refl))) as Ea.
        pose proof (Hmk b (Hin b (or_intror Hb))) as Eb.
        unfold before in Hall. rewrite Ea, Eb in Hall. cbn [year_ltb year_eqb] in Hall.
        apply orb_false_iff in Hall.
        rewrite andb_false_iff, Z.ltb_ge, Z.eqb_neq, Z.ltb_ge in Hall.
        change (Rank (mk a)) with (rnk a). change (Rank (mk b)) with (rnk b). lia. }
      apply Hs; [exact Hsorted|tauto].
    + intros x Hx. apply in_map_iff in Hx. destruct Hx as [n [<- Hn]].
      pose proof (Hmk n Hn) as Ey.
      set (Y := Year (mk n)) in *.
      change (Rank (mk n)) with (rnk n).
      change (Plays (mk n)) with (playsOfRow n).
      change (Artist (mk n)) with (artistOfRow n).
      apply Hfinal in Hn. destruct Hn as [Hr Hle].
      apply ranked_rows in Hr. destruct Hr as [i [Hi Hrnk]].
      rewrite Ey in Hi.
      pose proof (nth_error_In _ _ Hi) as Hg. apply partitionOf_In in Hg.
      destruct Hg as [Hg Hgy].
      unfold playsOfRow, artistOfRow.
      destruct (snd n) as [[y a] [c m]] eqn:Esnd. cbn [fst snd] in *. subst y.
      destruct (Gent (Some Y, a) c m Hg) as [Hc [Hc1 _]].
      split; [lia|]. split; [exact Hc|]. split; [exact Hc1|].
      intros Hgt. destruct i as [|i]; [cbn in Hrnk; lia|].
      assert (Hlt : (i < List.length (partitionOf (Some Y) gs))%nat).
      { apply Nat.lt_trans with (S i); [lia|]. apply nth_error_Some. rewrite Hi. discriminate. }
      destruct (nth_error (partitionOf (Some Y) gs) i) as [g'|] eqn:Eg';
        [|apply nth_error_None in Eg'; lia].
      pose proof (nth_error_In _ _ Eg') as Hg'. apply partitionOf_In in Hg'.
      destruct Hg' as [Hg'in Hg'y].
      assert (Hin' : In (rnk n - 1, g') final).
      { apply Hfinal. split.
        - apply ranked_rows. unfold yearOfRow at 1. cbn [fst snd]. rewrite Hg'y.
          exists i. split; [exact Eg'|]. change (rnk (rnk n - 1, g')) with (rnk n - 1). lia.
        - change (rnk (rnk n - 1, g')) with (rnk n - 1). lia. }
      exists (mk (rnk n - 1, g')). split; [apply in_map; exact Hin'|].
      split; [|reflexivity].
      pose proof (Hmk _ Hin') as Ey'. unfold yearOfRow at 1 in Ey'. cbn [fst snd] in Ey'.
      rewrite Hg'y in Ey'. injection Ey' as Ey''. symmetry. exact Ey''.
    + intros x x' Hx Hx' Hy Hr.
      apply in_map_iff in Hx, Hx'. destruct Hx as [n [<- Hn]], Hx' as [n' [<- Hn']].
      pose proof (Hmk n Hn) as Ey. pose proof (Hmk n' Hn') as Ey'.
      apply Hfinal in Hn, Hn'. destruct Hn as [Hn _], Hn' as [Hn' _].
      apply ranked_rows in Hn, Hn'.
      destruct Hn as [i [Hi Hrk]], Hn' as [i' [Hi' Hrk']].
      rewrite Ey in Hi. rewrite Ey', <- Hy in Hi'.
      cbn [Rank mk] in Hr.
      assert (Hlt : (i < i')%nat) by lia.
      pose proof (StronglySorted_nth _ _ (partitionOf_sorted _ gs) i i' _ _ Hlt Hi Hi')
        as Hle.
      exact Hle.
    + intros r y Hr Hd Hy.
      destruct (Gall r Hr Hd) as [c [m Hg]]. rewrite Hy in Hg.
      destruct (Hnum _ Hg) as [i Hi]. cbn [fst] in Hi.
      destruct (Gent _ c m Hg) as [Hc _].
      destruct (Z.leb_spec (1 + Z.of_nat i) perYear) as [Hle|Hgt].
      * left.
        assert (Hin : In (1 + Z.of_nat i, ((Some y, artist_name r), (c, m))) final).
        { apply Hfinal. split; [|exact Hle].
          apply ranked_rows. exists i. split; [exact Hi|reflexivity]. }
        exists (mk (1 + Z.of_nat i, ((Some y, artist_name r), (c, m)))).
        split; [apply in_map; exact Hin|]. split; reflexivity.
      * destruct (Z.leb_spec 1 perYear) as [Hp|Hp]; [|right; right; lia].
        right. left.
        set (j := Z.to_nat (perYear - 1)).
        assert (Hj : (j < i)%nat) by (unfold j; lia).
        assert (Hjlen : (j < List.length (partitionOf (Some y) gs))%nat).
        { apply Nat.lt_trans with i; [exact Hj|]. apply nth_error_Some. congruence. }
        destruct (nth_error (partitionOf (Some y) gs) j) as [g'|] eqn:Eg';
          [|apply nth_error_None in Eg'; lia].
        pose proof (nth_error_In _ _ Eg') as Hg'. apply partitionOf_In in Hg'.
        destruct Hg' as [Hg'in Hg'y].
        assert (Hin' : In (perYear, g') final).
        { apply Hfinal. split; [|unfold rnk; cbn; lia].
          apply ranked_rows. unfold yearOfRow, rnk. cbn [fst snd]. rewrite Hg'y.
          exists j. split; [exact Eg'|unfold j; lia]. }
        exists (mk (perYear, g')). split; [apply in_map; exact Hin'|].
        split; [|split; [reflexivity|]].
        -- pose proof (Hmk _ Hin') as Ey'. unfold yearOfRow at 1 in Ey'.
           cbn [fst snd] in Ey'. rewrite Hg'y in Ey'. injection Ey' as Ey''.
           symmetry. exact Ey''.
        -- pose proof (StronglySorted_nth _ _ (partitionOf_sorted _ gs) j i _ _ Hj Eg' Hi)
             as Hle.
           cbn [fst snd] in Hle. rewrite <- Hc. exact Hle.
  - exact (yearlyTopArtists_fails db perYear).
Qed.

End YearlyFacts.

Section YearlyWitness.

Import Store Notions Queries Digest DigestYearly.

Lemma yearlyTopArtists_by_year_witness :
  exists out,
    yearlyTopArtists (fun ts => Some (1970 + ts / 31556952)) (DB Sample.recentStore) 10
    = Ok out
    /\ Forall (fun x => 1 <= Rank x <= 10) out.
Proof.
  pose proof (proj1 (yearlyTopArtists_by_year (fun ts => Some (1970 + ts / 31556952))
                                              (DB Sample.recentStore) 10)) as H.
  cbv zeta in H.
  destruct (yearlyTopArtists (fun ts => Some (1970 + ts / 31556952))
                             (DB Sample.recentStore) 10) as [out|e] eqn:E.
  - exists out. split; [reflexivity|].
    destruct (H out eq_refl) as [_ [H2 _]].
    apply Forall_forall. intros x Hx. exact (proj1 (H2 x Hx)).
  - exfalso. vm_compute in E. discriminate.
Defined.

End YearlyWitness.

(* ================================================================== *)
(** * The signature artists                                            *)
(* ================================================================== *)

Section SignatureFacts.

Import Store Notions Queries Digest DigestYearly DigestSignature.

Lemma fold_min_spec (l : list Z) :
  forall a,
    fold_left Z.min l a <= a
    /\ (forall y, In y l -> fold_left Z.min l a <= y)
    /\ (fold_left Z.min l a = a \/ In (fold_left Z.min l a) l).
Proof.
  induction l as [|x l IH]; intros a; cbn [fold_left].
  - split; [lia|]. split; [intros y []|left; reflexivity].
  - destruct (IH (Z.min a x)) as [H1 [H2 H3]]. split; [lia|]. split.
    + intros y [<-|Hy]; [lia|exact (H2 y Hy)].
    + destruct H3 as [H3|H3]; [|right; right; exact H3].
      destruct (Z.min_spec a x) as [[_ E]|[_ E]].
      * left. rewrite H3. exact E.
      * right. left. rewrite H3, E. reflexivity.
Qed.

Lemma fold_max_spec (l : list Z) :
  forall a,
    a <= fold_left Z.max l a
    /\ (forall y, In y l -> y <= fold_left Z.max l a)
    /\ (fold_left Z.max l a = a \/ In (fold_left Z.max l a) l).
Proof.
  induction l as [|x l IH]; intros a; cbn [fold_left].
  - split; [lia|]. split; [intros y []|left; reflexivity].
  - destruct (IH (Z.max a x)) as [H1 [H2 H3]]. split; [lia|]. split.
    + intros y [<-|Hy]; [lia|exact (H2 y Hy)].
    + destruct H3 as [H3|H3]; [|right; right; exact H3].
      destruct (Z.max_spec a x) as [[_ E]|[_ E]].
      * right. left. rewrite H3, E. reflexivity.
      * left. rewrite H3. exact E.
Qed.

Lemma minimum_cons (x : Z) (l : list Z) : minimum (x :: l) = Some (fold_left Z.min l x).
Proof.
  unfold minimum. cbn [fold_left]. generalize x. clear x.
  induction l as [|y l IH]; intros x; [reflexivity|]. cbn [fold_left]. apply IH.
Qed.

Lemma maximum_cons (x : Z) (l : list Z) : maximum (x :: l) = Some (fold_left Z.max l x).
Proof.
  unfold maximum. cbn [fold_left]. generalize x. clear x.
  induction l as [|y l IH]; intros x; [reflexivity|]. cbn [fold_left]. apply IH.
Qed.

Lemma minimum_maximum (l : list Z) :
  l <> [] ->
  exists lo hi,
    minimum l = Some lo /\ maximum l = Some hi
    /\ In lo l /\ In hi l
    /\ forall y, In y l -> lo <= y <= hi.
Proof.
  destruct l as [|x l]; [contradiction|]. intros _.
  rewrite minimum_cons, maximum_cons.
  destruct (fold_min_spec l x) as [A1 [A2 A3]].
  destruct (fold_max_spec l x) as [B1 [B2 B3]].
  exists (fold_left Z.min l x), (fold_left Z.max l x).
  split; [reflexivity|]. split; [reflexivity|]. split; [|split].
  - destruct A3 as [->|A3]; [left; reflexivity|right; exact A3].
  - destruct B3 as [->|B3]; [left; reflexivity|right; exact B3].
  - intros y [<-|Hy]; [lia|]. split; [exact (A2 y Hy)|exact (B2 y Hy)].
Qed.

(** Distinct integers between two bounds are no more than the bounds
    leave room for. *)
Lemma NoDup_between (l : list Z) (lo hi : Z) :
  NoDup l -> (forall y, In y l -> lo <= y <= hi) ->
  Z.of_nat (List.length l) <= Z.max 0 (hi - lo + 1).
Proof.
  intros Hnd Hin.
  assert (Hincl : incl l (map (fun i => lo + Z.of_nat i) (seq 0 (Z.to_nat (hi - lo + 1))))).
  { intros y Hy. specialize (Hin y Hy). apply in_map_iff.
    exists (Z.to_nat (y - lo)). split; [lia|]. apply in_seq. lia. }
  pose proof (NoDup_incl_length Hnd Hincl) as H.
  rewrite length_map, length_seq in H. lia.
Qed.

Lemma distinct_length {A : Type} (eqb : A -> A -> bool) (l : list A) :
  forall seen, (List.length (distinct eqb l seen) <= List.length l)%nat.
Proof.
  induction l as [|x l IH]; intros seen; cbn [distinct]; [lia|].
  destruct (existsb (eqb x) seen); cbn [List.length].
  - specialize (IH seen). lia.
  - specialize (IH (seen ++ [x])). lia.
Qed.

Lemma yearsOfRows_length (rows : list numbered) :
  (List.length (yearsOfRows rows) <= List.length rows)%nat.
Proof.
  induction rows as [|x rows IH]; [cbn; lia|].
  unfold yearsOfRows in *. cbn [flat_map]. rewrite length_app.
  destruct (yearOfRow x); cbn [List.length]; lia.
Qed.

Lemma yearsOfRows_In (rows : list numbered) (y : Z) :
  In y (yearsOfRows rows) <-> exists x, In x rows /\ yearOfRow x = Some y.
Proof.
  unfold yearsOfRows. rewrite in_flat_map. split.
  - intros [x [Hx Hy]]. exists x. split; [exact Hx|].
    destruct (yearOfRow x); [destruct Hy as [<-|[]]; reflexivity|contradiction].
  - intros [x [Hx Hy]]. exists x. split; [exact Hx|]. rewrite Hy. left. reflexivity.
Qed.

Lemma sum_at_least (rows : list numbered) :
  Forall (fun x => 1 <= playsOfRow x) rows ->
  forall acc, acc + Z.of_nat (List.length rows) <= fold_left Z.add (map playsOfRow rows) acc.
Proof.
  induction 1 as [|x rows Hx _ IH]; intros acc; [cbn; lia|].
  cbn [map fold_left List.length]. specialize (IH (acc + playsOfRow x)). lia.
Qed.

Variable yearOf : Z -> option Z.

(** The rows of the CTE [top] stand for rows of the table. *)
Lemma top_rows (db : list Row) (x : numbered) :
  In x (top yearOf db) ->
  1 <= playsOfRow x
  /\ exists r, In r db /\ dated r = true
               /\ yearOf (played_at_uts r) = yearOfRow x
               /\ artist_name r = artistOfRow x.
Proof.
  unfold top. intros H. apply filter_In in H. destruct H as [H _].
  apply ranked_rows in H. destruct H as [i [Hi _]].
  apply nth_error_In, partitionOf_In in Hi. destruct Hi as [Hg _].
  destruct (groups_of_rows yearKey_eqb
              (fun r => (yearOf (played_at_uts r), artist_name r)) dated db yearKey_eqb_eq)
    as [_ [Gent _]].
  cbv zeta in Gent. fold (yearly yearOf db) in Gent.
  destruct x as [rk [[y a] [c m]]]. cbn [snd] in Hg.
  destruct (Gent (y, a) c m Hg) as [_ [Hc [[r [Hr [Hd [Hk _]]]] _]]].
  unfold playsOfRow, yearOfRow, artistOfRow. cbn [fst snd].
  split; [exact Hc|]. exists r. inversion Hk. subst.
  repeat split; first [assumption|reflexivity].
Qed.

(** A row of [agg] that counts a year. *)
Lemma aggOf_facts (db : list Row) (a : string) :
  let g := aggOf (top yearOf db) a in
  agg_artist g = a
  /\ (1 <= years_in_top g ->
      exists lo hi,
        first_year g = Some lo /\ last_year g = Some hi
        /\ lo <= hi
        /\ years_in_top g <= hi - lo + 1
        /\ years_in_top g <= plays_in_top_years g
        /\ (exists r, In r db /\ dated r = true /\ artist_name r = a
                      /\ yearOf (played_at_uts r) = Some lo)
        /\ (exists r, In r db /\ dated r = true /\ artist_name r = a
                      /\ yearOf (played_at_uts r) = Some hi)).
Proof.
  cbv zeta. unfold aggOf.
  set (rows := filter (fun x => String.eqb (artistOfRow x) a) (top yearOf db)).
  set (ys := yearsOfRows rows).
  cbn [agg_artist years_in_top first_year last_year plays_in_top_years].
  split; [reflexivity|]. intros Hpos.
  assert (Hne : ys <> []).
  { intros E. rewrite E in Hpos. cbn in Hpos. lia. }
  destruct (minimum_maximum ys Hne) as [lo [hi [Hmin [Hmax [Hlo [Hhi Hall]]]]]].
  exists lo, hi. split; [exact Hmin|]. split; [exact Hmax|].
  assert (Hrows : forall x, In x rows -> In x (top yearOf db) /\ artistOfRow x = a).
  { intros x Hx. apply filter_In in Hx. rewrite String.eqb_eq in Hx. exact Hx. }
  assert (Hrow : forall y, In y ys ->
             exists r, In r db /\ dated r = true /\ artist_name r = a
                       /\ yearOf (played_at_uts r) = Some y).
  { intros y Hy. apply yearsOfRows_In in Hy. destruct Hy as [x [Hx Hxy]].
    destruct (Hrows x Hx) as [Hx1 Hx2].
    destruct (top_rows db x Hx1) as [_ [r [Hr [Hd [Hyr Har]]]]].
    exists r. repeat split; [exact Hr|exact Hd|congruence|congruence]. }
  split; [exact (proj2 (Hall lo Hlo))|].
  split; [|split; [|split; [exact (Hrow lo Hlo)|exact (Hrow hi Hhi)]]].
  - destruct (distinct_NoDup Z.eqb Z.eqb_eq ys []) as [Hnd _].
    pose proof (NoDup_between (distinct Z.eqb ys []) lo hi Hnd) as Hb.
    assert (Hle : lo <= hi) by exact (proj2 (Hall lo Hlo)).
    specialize (Hb (fun y Hy => Hall y (distinct_sub Z.eqb ys [] y Hy))). lia.
  - pose proof (distinct_length Z.eqb ys []) as H1.
    pose proof (yearsOfRows_length rows) as H2. fold ys in H2.
    assert (H3 : Forall (fun x => 1 <= playsOfRow x) rows).
    { apply Forall_forall. intros x Hx. exact (proj1 (top_rows db x (proj1 (Hrows x Hx)))). }
    pose proof (sum_at_least rows H3 0) as H4. lia.
Qed.

Lemma ahead_asym (a b : AggRow) : ahead a b = true -> ahead b a = false.
Proof.
  unfold ahead. intros H. apply orb_true_iff in H. apply orb_false_iff.
  rewrite andb_true_iff, !Z.ltb_lt, Z.eqb_eq in H.
  rewrite andb_false_iff, !Z.ltb_ge, Z.eqb_neq. lia.
Qed.

Lemma ahead_negtrans (a b c : AggRow) :
  ahead a b = false -> ahead b c = false -> ahead a c = false.
Proof.
  unfold ahead. intros H1 H2. apply orb_false_iff in H1, H2. apply orb_false_iff.
  rewrite andb_false_iff, !Z.ltb_ge, Z.eqb_neq in *. lia.
Qed.

(** What [Scan] fills in for a row of [agg]. *)
Lemma scanSignature_ok (rows : list AggRow) :
  Forall (fun g => first_year g <> None /\ last_year g <> None) rows ->
  forall rank,
    scanSignature rank rows
    = Ok (Digest.ranked
            (fun rank g =>
               mkSignatureArtist rank (agg_artist g) (years_in_top g)
                                 (match first_year g with Some f => f | None => 0 end)
                                 (match last_year g with Some l => l | None => 0 end)
                                 (plays_in_top_years g))
            rank rows).
Proof.
  induction 1 as [|g rows [Hf Hl] _ IH]; intros rank; [reflexivity|].
  cbn [scanSignature Digest.ranked]. rewrite IH.
  destruct (first_year g); [|contradiction]. destruct (last_year g); [|contradiction].
  reflexivity.
Qed.

(** X28. The signature artists. With [minYears] at least 1,
    [signatureArtists] returns a list, ranked 1, 2, 3, ..., without an artist
    twice, by falling [YearsInTop] and, among equals, by falling
    [PlaysInTopYears], of at most [limit] entries when [limit] is not
    negative. For every entry, [YearsInTop] is at least [minYears] and at
    most the number of years from [FirstYear] to [LastYear], which are years
    with a row of the artist from 2000 on; and [PlaysInTopYears] is at least
    [YearsInTop]. *)
Theorem signatureArtists_shape (db : list Row) (minYears limit : Z) :
  1 <= minYears ->
  exists out,
    signatureArtists yearOf db minYears limit = Ok out
    /\ map Rank out = ranks (List.length out)
    /\ NoDup (map Artist out)
    /\ StronglySorted
         (fun x y => YearsInTop y < YearsInTop x
                     \/ (YearsInTop x = YearsInTop y
                         /\ PlaysInTopYears y <= PlaysInTopYears x)) out
    /\ (0 <= limit -> Z.of_nat (List.length out) <= limit)
    /\ (forall x, In x out ->
          minYears <= YearsInTop x
          /\ FirstYear x <= LastYear x
          /\ YearsInTop x <= LastYear x - FirstYear x + 1
          /\ YearsInTop x <= PlaysInTopYears x
          /\ (exists r, In r db /\ dated r = true /\ artist_name r = Artist x
                        /\ yearOf (played_at_uts r) = Some (FirstYear x))
          /\ (exists r, In r db /\ dated r = true /\ artist_name r = Artist x
                        /\ yearOf (played_at_uts r) = Some (LastYear x))).
Proof.
  intros Hmin. unfold signatureArtists.
  set (kept := filter (fun g => minYears <=? years_in_top g) (agg yearOf db)).
  set (sorted := Sort.SliceStable ahead kept).
  set (rows := SQLite.limit limit sorted).
  set (mk := fun rank g =>
               mkSignatureArtist rank (agg_artist g) (years_in_top g)
                                 (match first_year g with Some f => f | None => 0 end)
                                 (match last_year g with Some l => l | None => 0 end)
                                 (plays_in_top_years g)).
  assert (Hperm : Permutation sorted kept) by apply SliceStable_perm.
  assert (Hrows : forall g, In g rows ->
             minYears <= years_in_top g
             /\ exists a, g = aggOf (top yearOf db) a).
  { intros g Hg. apply limit_In in Hg. apply (Permutation_in g Hperm) in Hg.
    apply filter_In in Hg. destruct Hg as [Hg Hy]. apply Z.leb_le in Hy.
    split; [exact Hy|]. unfold agg in Hg. apply in_map_iff in Hg.
    destruct Hg as [a [<- _]]. exists a. reflexivity. }
  assert (Hfacts : forall g, In g rows ->
             exists lo hi,
               first_year g = Some lo /\ last_year g = Some hi
               /\ lo <= hi
               /\ years_in_top g <= hi - lo + 1
               /\ years_in_top g <= plays_in_top_years g
               /\ (exists r, In r db /\ dated r = true /\ artist_name r = agg_artist g
                             /\ yearOf (played_at_uts r) = Some lo)
               /\ (exists r, In r db /\ dated r = true /\ artist_name r = agg_artist g
                             /\ yearOf (played_at_uts r) = Some hi)).
  { intros g Hg. destruct (Hrows g Hg) as [Hy [a ->]].
    destruct (aggOf_facts db a) as [Ha Hf]. cbv zeta in Ha, Hf. rewrite Ha.
    apply Hf. lia. }
  assert (Hscan : scanSignature 1 rows = Ok (Digest.ranked mk 1 rows)).
  { apply scanSignature_ok. apply Forall_forall. intros g Hg.
    destruct (Hfacts g Hg) as [lo [hi [H1 [H2 _]]]]. rewrite H1, H2.
    split; discriminate. }
  exists (Digest.ranked mk 1 rows). split; [exact Hscan|].
  rewrite ranked_length.
  split; [|split; [|split; [|split]]].
  - rewrite (ranked_ranks mk Rank (fun _ _ => eq_refl)). reflexivity.
  - rewrite (ranked_fields mk Artist agg_artist (fun _ _ => eq_refl)).
    assert (Hagg : NoDup (map agg_artist (agg yearOf db))).
    { unfold agg. rewrite map_map.
      rewrite (map_ext (fun a => agg_artist (aggOf (top yearOf db) a)) (fun a => a));
        [|intros a; reflexivity].
      rewrite map_id. apply (distinct_NoDup String.eqb String.eqb_eq). }
    assert (Hsortedk : NoDup (map agg_artist sorted)).
    { apply (Permutation_NoDup (l := map agg_artist kept)).
      - apply Permutation_map. symmetry. exact Hperm.
      - apply filter_keys_NoDup. exact Hagg. }
    unfold rows, SQLite.limit. destruct (limit <? 0); [exact Hsortedk|].
    rewrite <- firstn_map. apply NoDup_firstn. exact Hsortedk.
  - apply (ranked_sorted mk (fun a b => ahead b a = false)).
    + intros r a r' b H. unfold ahead in H. apply orb_false_iff in H.
      rewrite andb_false_iff, !Z.ltb_ge, Z.eqb_neq in H.
      cbn [YearsInTop PlaysInTopYears mk]. lia.
    + apply limit_sorted. apply SliceStable_sorted; [exact ahead_asym|exact ahead_negtrans].
  - intros Hl. unfold rows, SQLite.limit.
    replace (limit <? 0) with false by (symmetry; apply Z.ltb_ge; exact Hl).
    rewrite length_firstn. lia.
  - intros x Hx. destruct (ranked_In mk rows _ x Hx) as [rk [g [Hg ->]]].
    destruct (Hrows g Hg) as [Hy _].
    destruct (Hfacts g Hg) as [lo [hi [H1 [H2 [H3 [H4 [H5 [H6 H7]]]]]]]].
    cbn [mk YearsInTop FirstYear LastYear PlaysInTopYears Artist]. rewrite H1, H2.
    repeat split; assumption.
Qed.

End SignatureFacts.

Section SignatureWitness.

Import Store Notions Queries Digest DigestYearly DigestSignature.

Lemma signatureArtists_shape_witness :
  exists out,
    signatureArtists (fun ts => Some (1970 + ts / 31556952)) (DB Sample.recentStore) 1 50
    = Ok out
    /\ map Rank out = ranks (List.length out).
Proof.
  destruct (signatureArtists_shape (fun ts => Some (1970 + ts / 31556952))
                                   (DB Sample.recentStore) 1 50)
    as [out [H1 [H2 _]]].
  - lia.
  - exists out. split; [exact H1|exact H2].
Defined.

End SignatureWitness.

(* ================================================================== *)
(** * When the digest fails                                            *)
(* ================================================================== *)

Section DigestOutcome.

Import Store Notions Queries Digest DigestYearly DigestSignature DigestBuild.

Variable clock : Z.
Variable format : Z -> string.
Variable yearOf : Z -> option Z.
Variable now : Z.

Lemma computeMeta_outcome (db : list Row) :
  (db = [] -> exists e, DigestMeta.computeMeta clock db = Err e)
  /\ (db <> [] -> exists m, DigestMeta.computeMeta clock db = Ok m).
Proof.
  split.
  - intros ->. eexists. reflexivity.
  - intros Hne. unfold DigestMeta.computeMeta.
    rewrite !sql_sum_indicator by exact Hne. cbn [DigestMeta.scan_int64].
    eexists. reflexivity.
Qed.

Lemma signatureArtists_returns (db : list Row) (minYears limit : Z) :
  1 <= minYears -> exists out, signatureArtists yearOf db minYears limit = Ok out.
Proof.
  intros Hmin. unfold signatureArtists. eexists. apply scanSignature_ok.
  apply Forall_forall. intros g Hg.
  apply limit_In in Hg. apply (Permutation_in g (SliceStable_perm _ _)) in Hg.
  apply filter_In in Hg. destruct Hg as [Hg Hy]. apply Z.leb_le in Hy.
  unfold agg in Hg. apply in_map_iff in Hg. destruct Hg as [a [<- _]].
  destruct (aggOf_facts yearOf db a) as [_ Hf]. cbv zeta in Hf.
  destruct Hf as [lo [hi [H1 [H2 _]]]]; [lia|]. rewrite H1, H2. split; discriminate.
Qed.

(** X29. When the digest fails. [Build] refuses a [RecentLimit] that is
    not from 1 to 1000, whatever the table. With its default options,
    [cmdDigest] returns 1 exactly when the table is empty, where
    [computeMeta] fails, or holds a row from 2000 on whose timestamp SQLite
    has no year for, where [yearlyTopArtists] fails; else it returns 0. *)
Theorem cmdDigest_fails_iff (db : list Row) :
  (forall opt, RecentLimit opt <= 0 \/ 1000 < RecentLimit opt ->
               exists e, Build clock format yearOf now db opt = Err e)
  /\ (cmdDigest clock format yearOf now db = 1 <->
      db = []
      \/ exists r, In r db /\ dated r = true /\ yearOf (played_at_uts r) = None)
  /\ (cmdDigest clock format yearOf now db = 0 <->
      db <> []
      /\ forall r, In r db -> dated r = true -> yearOf (played_at_uts r) <> None).
Proof.
  assert (Hcases :
            (db = []
             \/ exists r, In r db /\ dated r = true /\ yearOf (played_at_uts r) = None)
            /\ cmdDigest clock format yearOf now db = 1
            \/ (db <> []
                /\ forall r, In r db -> dated r = true ->
                             yearOf (played_at_uts r) <> None)
               /\ cmdDigest clock format yearOf now db = 0).
  { unfold cmdDigest, Build.
    change ((RecentLimit DefaultOptions <=? 0) || (1000 <? RecentLimit DefaultOptions))
      with false. cbv iota.
    destruct db as [|r0 db'] eqn:Edb.
    - left. split; [left; reflexivity|reflexivity].
    - rewrite <- Edb.
      assert (Hne : db <> []) by (rewrite Edb; discriminate).
      destruct (proj2 (computeMeta_outcome db) Hne) as [m ->].
      change (YearlyTopArtistsPerYear DefaultOptions) with 10.
      change (SignatureMinYears DefaultOptions) with 5.
      destruct (yearlyTopArtists yearOf db 10) as [yl|e] eqn:Ey.
      + destruct (signatureArtists_returns db 5 (SignatureLimit DefaultOptions))
          as [sg ->]; [lia|].
        right. split; [|reflexivity]. split; [exact Hne|].
        intros r Hr Hd Hy.
        assert (Hc : exists e, yearlyTopArtists yearOf db 10 = Err e).
        { apply yearlyTopArtists_fails. split; [lia|]. exists r. tauto. }
        destruct Hc as [e Hc]. congruence.
      + left. split; [|reflexivity]. right.
        apply (yearlyTopArtists_fails yearOf db 10). exists e. exact Ey. }
  split; [|split].
  - intros opt Hopt. unfold Build.
    replace ((RecentLimit opt <=? 0) || (1000 <? RecentLimit opt)) with true.
    + eexists. reflexivity.
    + symmetry. apply orb_true_iff. rewrite Z.leb_le, Z.ltb_lt. exact Hopt.
  - destruct Hcases as [[H1 H2]|[[H1 H1'] H2]].
    + split; [intros _; exact H1|intros _; exact H2].
    + split; [rewrite H2; discriminate|].
      intros [E|[r [Hr [Hd Hy]]]]; [contradiction|]. exfalso. exact (H1' r Hr Hd Hy).
  - destruct Hcases as [[H1 H2]|[H1 H2]].
    + split; [rewrite H2; discriminate|].
      intros [Hne Hall]. destruct H1 as [E|[r [Hr [Hd Hy]]]]; [contradiction|].
      exfalso. exact (Hall r Hr Hd Hy).
    + split; [intros _; exact H1|intros _; exact H2].
Qed.

End DigestOutcome.

Section DigestOutcomeWitness.

Import Store Notions Queries Digest DigestYearly DigestSignature DigestBuild.

Lemma cmdDigest_fails_iff_witness :
  cmdDigest 0 (fun _ => EmptyString) (fun ts => Some (1970 + ts / 31556952)) Sample.now []
  = 1.
Proof.
  apply (proj2 (proj1 (proj2 (cmdDigest_fails_iff
                                0 (fun _ => EmptyString)
                                (fun ts => Some (1970 + ts / 31556952)) Sample.now [])))).
  left. reflexivity.
Defined.

End DigestOutcomeWitness.

(* ================================================================== *)
(** * When the recommendations fail                                    *)
(* ================================================================== *)

Section RecommendOutcome.

Import Lastfm Store Recommend Spec Queries BuildNotions Traces MainRecommend.

Variable ToLower TrimSpace : string -> string.
Variable ParseFloat : string -> Q.
Variable rangeOrder : list (string * agg) -> list (string * agg).
Variable similar : string -> Z -> result (list SimilarArtist).
Variable toptracks : string -> Z -> result (list TopTrack).
Variable now : Z.
Variable marshals : Output -> bool.

Hypothesis rangeOrder_perm : forall m, Permutation (rangeOrder m) m.

(** X30. When [recommend] fails. With its default options
    [cmdRecommend] never panics and returns 0 or 1. It returns 1 only when
    a similar-artists call or a top-tracks call failed for good, or when
    the output does not encode; when no call can fail, [Build] returns an
    output and the exit code says whether it encodes. On an empty table
    [Build] calls nothing and returns three empty lists, where the digest
    fails. *)
Theorem cmdRecommend_fails_only_with_the_service (db : list Row) :
  let run := Build ToLower TrimSpace ParseFloat rangeOrder similar toptracks db now
                   DefaultOptions in
  let code := cmdRecommend ToLower TrimSpace ParseFloat rangeOrder similar toptracks
                           now marshals db in
  (code = Some 0 \/ code = Some 1)
  /\ (code = Some 1 ->
      (exists artist e,
          Main.rr_result (getSimilarArtistsWithRetry similar artist) = Err e
          \/ Main.rr_result (getArtistTopTracksWithRetry toptracks artist) = Err e)
      \/ (exists tr out, run = (tr, Some (Ok out)) /\ marshals out = false))
  /\ ((forall artist e,
         Main.rr_result (getSimilarArtistsWithRetry similar artist) <> Err e
         /\ Main.rr_result (getArtistTopTracksWithRetry toptracks artist) <> Err e) ->
      exists tr out,
        run = (tr, Some (Ok out)) /\ code = Some (if marshals out then 0 else 1))
  /\ (db = [] ->
      run = ([], Some (Ok (mkOutput [] [] [])))
      /\ code = Some (if marshals (mkOutput [] [] []) then 0 else 1)).
Proof.
  cbv zeta.
  assert (Hrun :
            (exists tr out,
                Build ToLower TrimSpace ParseFloat rangeOrder similar toptracks db now
                      DefaultOptions = (tr, Some (Ok out)))
            \/ (exists tr e artist,
                   Build ToLower TrimSpace ParseFloat rangeOrder similar toptracks db now
                         DefaultOptions = (tr, Some (Err e))
                   /\ (Main.rr_result (getSimilarArtistsWithRetry similar artist) = Err e
                       \/ Main.rr_result (getArtistTopTracksWithRetry toptracks artist)
                          = Err e))).
  { unfold Build.
    set (seeds := seedArtists db now (SeedWindow DefaultOptions)
                              (SeedArtistsLimit DefaultOptions)).
    set (seedSet := map (fun s => ToLower (SeedArtist.Artist s)) seeds).
    destruct (expandSeeds ToLower TrimSpace ParseFloat similar DefaultOptions seedSet seeds
                          [] []) as [tr0 [m|e]] eqn:E1.
    - destruct (artistCandidates rangeOrder DefaultOptions m) as [cands|] eqn:E2.
      + destruct (expandArtists ToLower TrimSpace toptracks db DefaultOptions cands
                                (mkExpansion [] [] tr0)) as [st [e1|]] eqn:E3.
        * right. destruct (expandArtists_err _ _ _ _ _ _ _ _ _ E3) as [pre [artist [_ H2]]].
          exists (trace st), e1, artist. split; [reflexivity|right; exact H2].
        * left. eexists. eexists. reflexivity.
      + exfalso. apply artistCandidates_panics in E2. cbn in E2. lia.
    - right. destruct (expandSeeds_err _ _ _ _ _ _ _ _ _ _ _ E1) as [pre [artist [_ H2]]].
      exists tr0, e, artist. split; [reflexivity|left; exact H2]. }
  unfold cmdRecommend.
  split; [|split; [|split]].
  - destruct Hrun as [[tr [out ->]]|[tr [e [artist [-> _]]]]]; cbn [snd]; [|tauto].
    destruct (marshals out); tauto.
  - destruct Hrun as [[tr [out E]]|[tr [e [artist [-> H]]]]].
    + rewrite E. cbn [snd]. destruct (marshals out) eqn:Em; [discriminate|].
      intros _. right. exists tr, out. split; [reflexivity|exact Em].
    + intros _. left. exists artist, e. exact H.
  - intros Hall.
    destruct Hrun as [[tr [out E]]|[tr [e [artist [-> H]]]]].
    + rewrite E. cbn [snd]. exists tr, out. split; [reflexivity|].
      destruct (marshals out); reflexivity.
    + exfalso. destruct (Hall artist e) as [H1 H2]. destruct H; contradiction.
  - intros ->.
    assert (HB : Build ToLower TrimSpace ParseFloat rangeOrder similar toptracks [] now
                       DefaultOptions = ([], Some (Ok (mkOutput [] [] [])))).
    { unfold Build. unfold seedArtists. cbn [filter map].
      unfold SQLite.group_count_max, SQLite.order_by_plays_desc, Sort.SliceStable,
        SQLite.limit.
      cbn [fold_left rev]. cbn [SeedArtistsLimit DefaultOptions].
      change (8 <? 0) with false. cbv iota.
      rewrite firstn_nil. cbn [map expandSeeds].
      unfold artistCandidates.
      assert (Hnil : rangeOrder [] = []).
      { apply Permutation_nil. symmetry. apply rangeOrder_perm. }
      rewrite Hnil. cbn [map]. unfold Sort.SliceStable. cbn [fold_left rev List.length].
      reflexivity. }
    split; [exact HB|]. rewrite HB. cbn [snd].
    destruct (marshals (mkOutput [] [] [])); reflexivity.
Qed.

End RecommendOutcome.

Section RecommendOutcomeWitness.

Import Lastfm Store Recommend Spec Queries BuildNotions Traces MainRecommend.

Lemma cmdRecommend_fails_only_with_the_service_witness :
  cmdRecommend GoStrings.ToLower GoStrings.TrimSpace Strconv.ParseDecimal (fun m => m)
               Sample.similarOfA Sample.oneTopTrack Sample.now (fun _ => true) []
  = Some 0.
Proof.
  exact (proj2 (proj2 (proj2 (proj2 (cmdRecommend_fails_only_with_the_service
                                       GoStrings.ToLower GoStrings.TrimSpace
                                       Strconv.ParseDecimal (fun m => m)
                                       Sample.similarOfA Sample.oneTopTrack Sample.now
                                       (fun _ => true)
                                       (fun m => Permutation_refl m) []))) eq_refl)).
Defined.

End RecommendOutcomeWitness.
